(** * A software RAID engine (levels 0, 1 and 5) over file-backed disks

    Shallow embedding of the Go sources [disk.go], [raid.go], [raid0.go],
    [raid1.go] and [raid5.go], followed by the verification of the layout,
    parity, degraded-read, rebuild and error-handling properties of the
    engine.

    Conventions of the embedding:
    - a Go [int] is a [Z]; products that could leave the 64-bit range are
      wrapped with [wrap64]; the [uint64] counters wrap modulo [2^64];
    - a byte is a [Z] and [^] on bytes is [Z.lxor]; a [[]byte] is a list;
    - a function returning [error] returns [option error] ([None] is [nil]);
      a function returning [([]byte, error)] returns a [res];
    - the mutable store is the [RAIDArray] record itself, threaded through
      the state monad [M]; a run-time panic (index out of range, division
      by zero) is the outcome [None] of [M];
    - the engine-level mutexes serialise the operations, which are therefore
      modelled as atomic state transformers; console output is left out. *)

From Stdlib Require Import ZArith Lia String.
From stdpp Require Import base tactics option numbers list.

Local Open Scope Z_scope.
Set Warnings "-register-all".

(** ** Machine integers and bytes *)

Abbreviation byte := Z (only parsing).

Definition wrap64 (x : Z) : Z := (x + 2 ^ 63) `mod` 2 ^ 64 - 2 ^ 63.

Definition wrapU64 (x : Z) : Z := x `mod` 2 ^ 64.

Definition len {A} (l : list A) : Z := Z.of_nat (length l).

(** [make([]byte, n)]: a zero-filled buffer. *)
Definition make (n : Z) : list byte := replicate (Z.to_nat n) 0.

(** The builtin [copy(dst, src)]: the first [min(len dst, len src)] bytes of
    [dst] are overwritten, the rest is kept. *)
Definition copy (dst src : list byte) : list byte :=
  take (length dst) src ++ drop (length src) dst.

(** [xorBytes(dst, src)] of raid5.go: in-place XOR over the common prefix. *)
Fixpoint xorBytes (dst src : list byte) : list byte :=
  match dst, src with
  | d :: dst', s :: src' => Z.lxor d s :: xorBytes dst' src'
  | _, _ => dst
  end.

(** ** Errors

    One constructor per [fmt.Errorf] site of the sources; a [%w] argument is
    the wrapped error. *)

Inductive hosterr : Type :=
| EIO            (* the host reported an I/O error *)
| EEOF           (* read past the end of the backing file *)
| ENegOffset.    (* negative offset *)

Inductive error : Type :=
(* disk.go *)
| EDiskFailed (path : string)
| EBlockOutOfBounds (blockID numBlocks : Z)
| EReadError (path : string) (blockID : Z) (e : hosterr)
| EShortRead (path : string) (expected got : Z)
| EDataSize (got blockSize : Z)
| EWriteError (path : string) (blockID : Z) (e : hosterr)
| EShortWrite (path : string) (expected wrote : Z)
| ESyncError (path : string) (e : hosterr)
(* raid.go *)
| ELogicalOutOfBounds (logicalBlockID capacity : Z)
| EDataSizeMismatch (blockSize : Z)
| EUnsupportedLevel (level : Z)
| ERebuildUnsupported
(* raid1.go *)
| EAllDisksFailed (lastErr : option error)
| EDegradedWrite (successCount numDisks : Z) (failedDisks : list Z)
| ENoDiskReadable (lastErr : option error)
(* raid5.go *)
| ECalcParity (diskIdx : Z) (e : error)
| EWriteParity (parityDisk : Z) (e : error)
| EWriteData (dataDisk : Z) (e : error)
| EParityDiskFailed (parityDisk : Z)
| EReadParity (parityDisk : Z) (e : error)
| EMultipleFailures
| EReadReconstruct (i : Z) (e : error)
| EInvalidDiskIndex (diskIndex : Z)
| ENotMarkedFailed (diskIndex : Z)
| ERebuildStripe (stripeNum : Z) (e : error)
| ERebuildReconstruct (stripeNum : Z) (e : error)
| ERebuildWrite (stripeNum : Z) (e : error)
| EReadDisk (i : Z) (e : error).

Inductive res (A : Type) : Type :=
| Ok (x : A)
| Err (e : error).
Arguments Ok {A} x.
Arguments Err {A} e.

(** ** The backing file

    The host side of [*os.File]: the bytes of the file, and the faults the
    host injects. A read (write) at an offset listed in [rfaults]
    ([wfaults]) reports an I/O error; [syncfault] makes [Sync] fail. *)

Module File.

Record t : Type := mk {
  bytes : list byte;
  rfaults : list Z;
  wfaults : list Z;
  syncfault : bool
}.

Definition set_bytes (f : t) (bs : list byte) : t :=
  mk bs (rfaults f) (wfaults f) (syncfault f).

(** [ReadAt(b, off)] with [len(b) = n]: the bytes read and the error; the
    error is non-nil whenever fewer than [n] bytes were read. *)
Definition ReadAt (f : t) (n off : Z) : list byte * option hosterr :=
  if off <? 0 then ([], Some ENegOffset)
  else if bool_decide (off ∈ rfaults f) then ([], Some EIO)
  else
    let got := take (Z.to_nat n) (drop (Z.to_nat off) (bytes f)) in
    if len got <? n then (got, Some EEOF) else (got, None).

(** The bytes [l] of a file after [b] was written at offset [o]; a write
    beyond the end extends the file, the gap reading as zero. *)
Definition splice (o : nat) (b l : list byte) : list byte :=
  take o l ++ replicate (o - length l) 0 ++ b ++ drop (o + length b) l.

(** [WriteAt(b, off)]: the file, the number of bytes written, the error. *)
Definition WriteAt (f : t) (b : list byte) (off : Z) : t * Z * option hosterr :=
  if off <? 0 then (f, 0, Some ENegOffset)
  else if bool_decide (off ∈ wfaults f) then (f, 0, Some EIO)
  else (set_bytes f (splice (Z.to_nat off) b (bytes f)), len b, None).

Definition Sync (f : t) : option hosterr :=
  if syncfault f then Some EIO else None.

End File.

(** ** disk.go *)

Module Disk.

Record t : Type := mk {
  file : File.t;
  path : string;
  blockSize : Z;
  numBlocks : Z;
  failed : bool;
  writeCount : Z;
  readCount : Z
}.

Definition set_file (d : t) (f : File.t) : t :=
  mk f (path d) (blockSize d) (numBlocks d) (failed d) (writeCount d) (readCount d).
Definition set_failed (d : t) (b : bool) : t :=
  mk (file d) (path d) (blockSize d) (numBlocks d) b (writeCount d) (readCount d).
Definition set_writeCount (d : t) (c : Z) : t :=
  mk (file d) (path d) (blockSize d) (numBlocks d) (failed d) c (readCount d).
Definition set_readCount (d : t) (c : Z) : t :=
  mk (file d) (path d) (blockSize d) (numBlocks d) (failed d) (writeCount d) c.

Definition ReadBlock (blockID : Z) (d : t) : res (list byte) * t :=
  if failed d then (Err (EDiskFailed (path d)), d)
  else if (blockID <? 0) || (blockID >=? numBlocks d) then
    (Err (EBlockOutOfBounds blockID (numBlocks d)), d)
  else
    let offset := wrap64 (blockID * blockSize d) in
    match File.ReadAt (file d) (blockSize d) offset with
    | (_, Some e) => (Err (EReadError (path d) blockID e), d)
    | (data, None) =>
        if negb (len data =? blockSize d) then
          (Err (EShortRead (path d) (blockSize d) (len data)), d)
        else (Ok data, set_readCount d (wrapU64 (readCount d + 1)))
    end.

Definition WriteBlock (blockID : Z) (data : list byte) (d : t) : option error * t :=
  if failed d then (Some (EDiskFailed (path d)), d)
  else if (blockID <? 0) || (blockID >=? numBlocks d) then
    (Some (EBlockOutOfBounds blockID (numBlocks d)), d)
  else if negb (len data =? blockSize d) then
    (Some (EDataSize (len data) (blockSize d)), d)
  else
    let offset := wrap64 (blockID * blockSize d) in
    match File.WriteAt (file d) data offset with
    | (_, _, Some e) => (Some (EWriteError (path d) blockID e), d)
    | (f', n, None) =>
        let d' := set_file d f' in
        if negb (n =? blockSize d) then
          (Some (EShortWrite (path d) (blockSize d) n), d')
        else
          match File.Sync f' with
          | Some e => (Some (ESyncError (path d) e), d')
          | None => (None, set_writeCount d' (wrapU64 (writeCount d + 1)))
          end
    end.

Definition SetFailed (b : bool) (d : t) : unit * t := (tt, set_failed d b).

Definition IsFailed (d : t) : bool * t := (failed d, d).

Definition Capacity (d : t) : Z * t := (numBlocks d, d).

End Disk.

(** ** raid.go: the array and the monad of its operations *)

Record RAIDArray : Type := mkArray {
  level : Z;
  disks : list Disk.t;
  blockSize : Z;
  numDisks : Z;
  capacity : Z
}.

Definition RAID0 : Z := 0.
Definition RAID1 : Z := 1.
Definition RAID5 : Z := 5.

Definition set_disks (a : RAIDArray) (ds : list Disk.t) : RAIDArray :=
  mkArray (level a) ds (blockSize a) (numDisks a) (capacity a).

Definition M (A : Type) : Type := RAIDArray → option (A * RAIDArray).

Definition ret {A} (x : A) : M A := λ a, Some (x, a).

Definition bind {A B} (m : M A) (k : A → M B) : M B :=
  λ a, match m a with
       | Some (x, a') => k x a'
       | None => None
       end.

Definition panic {A} : M A := λ _, None.

Definition gets {A} (f : RAIDArray → A) : M A := λ a, Some (f a, a).

Notation "'let!' x ':=' m 'in' k" := (bind m (λ x, k))
  (at level 10, x pattern, m at level 100, k at level 200).

(** [r.array.disks[i].op(...)]: a method call on the [i]-th disk; indexing
    outside the slice panics. *)
Definition withDisk {A} (i : Z) (op : Disk.t → A * Disk.t) : M A :=
  λ a, if i <? 0 then None
       else match disks a !! Z.to_nat i with
            | None => None
            | Some d => let '(x, d') := op d in
                        Some (x, set_disks a (<[Z.to_nat i := d']> (disks a)))
            end.

(** Integer division and remainder truncate toward zero and panic on a
    zero divisor. *)
Definition int_quot (x y : Z) : M Z :=
  if y =? 0 then panic else ret (Z.quot x y).
Definition int_rem (x y : Z) : M Z :=
  if y =? 0 then panic else ret (Z.rem x y).

(** [for i := ...] over the index list [ixs], with an accumulator for the
    variables the body assigns; the body either goes on ([Continue]),
    leaves the loop ([Break]) or returns from the function ([Return]). *)
Inductive ctl (A R : Type) : Type :=
| Continue (acc : A)
| Break (acc : A)
| Return (r : R).
Arguments Continue {A R} acc.
Arguments Break {A R} acc.
Arguments Return {A R} r.

Fixpoint for_ {A R} (ixs : list Z) (body : Z → A → M (ctl A R)) (acc : A) : M (A + R) :=
  match ixs with
  | [] => ret (inl acc)
  | i :: ixs' =>
      let! c := body i acc in
      match c with
      | Continue acc' => for_ ixs' body acc'
      | Break acc' => ret (inl acc')
      | Return r => ret (inr r)
      end
  end.

(** [make([]byte, n)] panics on a negative length. *)
Definition mmake (n : Z) : M (list byte) :=
  if n <? 0 then panic else ret (make n).

(** ** raid0.go *)

Module raid0Impl.

Definition writeBlock (logicalBlockID : Z) (data : list byte) : M (option error) :=
  let! n := gets numDisks in
  let! diskIndex := int_rem logicalBlockID n in
  let! physicalBlockID := int_quot logicalBlockID n in
  withDisk diskIndex (Disk.WriteBlock physicalBlockID data).

Definition readBlock (logicalBlockID : Z) : M (res (list byte)) :=
  let! n := gets numDisks in
  let! diskIndex := int_rem logicalBlockID n in
  let! physicalBlockID := int_quot logicalBlockID n in
  withDisk diskIndex (Disk.ReadBlock physicalBlockID).

End raid0Impl.

(** ** raid1.go *)

Module raid1Impl.

Record writeResult : Type := mkResult {
  diskIndex : Z;
  err : option error
}.

(** The fan-out of [writeBlock]: one goroutine per disk, each performing
    one [Disk.WriteBlock] under that disk's lock, joined by [wg.Wait()].
    The goroutines act on pairwise distinct disks, so the store after the
    join is the same for every interleaving; the writes are run here in
    index order and the result of disk [i] is the [i]-th of the list. *)
Fixpoint spawn (ixs : list Z) (logicalBlockID : Z) (data : list byte)
  : M (list writeResult) :=
  match ixs with
  | [] => ret []
  | i :: ixs' =>
      let! e := withDisk i (Disk.WriteBlock logicalBlockID data) in
      let! rs := spawn ixs' logicalBlockID data in
      ret (mkResult i e :: rs)
  end.

(** The contents of [resultChan] once closed: the results in the order
    [sched] in which the goroutines sent them. *)
Definition channel (sched : list Z) (results : list writeResult) : list writeResult :=
  omap (λ i, if i <? 0 then None else results !! Z.to_nat i) sched.

(** [for result := range resultChan]: success count, last error seen and
    the failed disks, in channel order. *)
Definition collect (chan : list writeResult) : Z * option error * list Z :=
  foldl (λ '(successCount, lastErr, failedDisks) result,
           match err result with
           | None => (successCount + 1, lastErr, failedDisks)
           | Some e => (successCount, Some e, failedDisks ++ [diskIndex result])
           end)
        (0, None, []) chan.

Definition writeBlock (sched : list Z) (logicalBlockID : Z) (data : list byte)
  : M (option error) :=
  let! n := gets numDisks in
  let! results := spawn (seqZ 0 n) logicalBlockID data in
  let '(successCount, lastErr, failedDisks) := collect (channel sched results) in
  if successCount =? 0 then ret (Some (EAllDisksFailed lastErr))
  else if successCount <? n then
    ret (Some (EDegradedWrite successCount n failedDisks))
  else ret None.

(** The body of the loop of [readBlock]; the accumulator is [lastErr]. *)
Definition readBlock_body (logicalBlockID : Z) (i : Z) (lastErr : option error)
  : M (ctl (option error) (list byte)) :=
  let! f := withDisk i Disk.IsFailed in
  if f then ret (Continue lastErr)
  else
    let! rd := withDisk i (Disk.ReadBlock logicalBlockID) in
    match rd with
    | Ok data => ret (Return data)
    | Err e => ret (Continue (Some e))
    end.

Definition readBlock (logicalBlockID : Z) : M (res (list byte)) :=
  let! n := gets numDisks in
  let! r := for_ (seqZ 0 n) (readBlock_body logicalBlockID) None in
  match r with
  | inr data => ret (Ok data)
  | inl lastErr => ret (Err (ENoDiskReadable lastErr))
  end.

End raid1Impl.

(** ** raid5.go *)

Module raid5Impl.

(** The body of the sibling loop of [writeBlock]; the accumulator is
    [parity]. *)
Definition writeBlock_body (stripeNum stripeOffset parityDisk : Z)
    (i : Z) (parity : list byte) : M (ctl (list byte) error) :=
  if i =? stripeOffset then ret (Continue parity)
  else
    let diskIdx := if i >=? parityDisk then i + 1 else i in
    let! f := withDisk diskIdx Disk.IsFailed in
    if f then ret (Continue parity)
    else
      let! rd := withDisk diskIdx (Disk.ReadBlock stripeNum) in
      match rd with
      | Err e => ret (Return (ECalcParity diskIdx e))
      | Ok blockData => ret (Continue (xorBytes parity blockData))
      end.

Definition writeBlock (logicalBlockID : Z) (data : list byte) : M (option error) :=
  let! n := gets numDisks in
  let! stripeNum := int_quot logicalBlockID (n - 1) in
  let! stripeOffset := int_rem logicalBlockID (n - 1) in
  let! parityDisk := int_rem stripeNum n in
  let dataDisk := if stripeOffset >=? parityDisk then stripeOffset + 1 else stripeOffset in
  let! bs := gets blockSize in
  let! parity := mmake bs in
  let parity := copy parity data in
  let! r := for_ (seqZ 0 (n - 1))
                 (writeBlock_body stripeNum stripeOffset parityDisk) parity in
  match r with
  | inr e => ret (Some e)
  | inl parity =>
      let! pf := withDisk parityDisk Disk.IsFailed in
      let! wp := (if negb pf then withDisk parityDisk (Disk.WriteBlock stripeNum parity)
                  else ret None) in
      match wp with
      | Some e => ret (Some (EWriteParity parityDisk e))
      | None =>
          let! wd := withDisk dataDisk (Disk.WriteBlock stripeNum data) in
          match wd with
          | Some e => ret (Some (EWriteData dataDisk e))
          | None => ret None
          end
      end
  end.

(** The body of the loop of [reconstructBlock]; the accumulator is
    [reconstructed]. *)
Definition reconstructBlock_body (stripeNum missingDisk parityDisk : Z)
    (i : Z) (reconstructed : list byte) : M (ctl (list byte) error) :=
  if (i =? parityDisk) || (i =? missingDisk) then ret (Continue reconstructed)
  else
    let! f := withDisk i Disk.IsFailed in
    if f then ret (Return EMultipleFailures)
    else
      let! rd := withDisk i (Disk.ReadBlock stripeNum) in
      match rd with
      | Err e => ret (Return (EReadReconstruct i e))
      | Ok blockData => ret (Continue (xorBytes reconstructed blockData))
      end.

Definition reconstructBlock (stripeNum missingDisk parityDisk : Z) : M (res (list byte)) :=
  let! pf := withDisk parityDisk Disk.IsFailed in
  if pf then ret (Err (EParityDiskFailed parityDisk))
  else
    let! rp := withDisk parityDisk (Disk.ReadBlock stripeNum) in
    match rp with
    | Err e => ret (Err (EReadParity parityDisk e))
    | Ok reconstructed =>
        let! n := gets numDisks in
        let! r := for_ (seqZ 0 n)
                       (reconstructBlock_body stripeNum missingDisk parityDisk)
                       reconstructed in
        match r with
        | inr e => ret (Err e)
        | inl reconstructed => ret (Ok reconstructed)
        end
    end.

Definition readBlock (logicalBlockID : Z) : M (res (list byte)) :=
  let! n := gets numDisks in
  let! stripeNum := int_quot logicalBlockID (n - 1) in
  let! stripeOffset := int_rem logicalBlockID (n - 1) in
  let! parityDisk := int_rem stripeNum n in
  let dataDisk := if stripeOffset >=? parityDisk then stripeOffset + 1 else stripeOffset in
  let! f := withDisk dataDisk Disk.IsFailed in
  let! direct := (if negb f then
                    let! rd := withDisk dataDisk (Disk.ReadBlock stripeNum) in
                    match rd with
                    | Ok data => ret (Some data)
                    | Err _ => ret None
                    end
                  else ret None) in
  match direct with
  | Some data => ret (Ok data)
  | None => reconstructBlock stripeNum dataDisk parityDisk
  end.

(** The body of the loop of [rebuildParityBlock]; the accumulator is
    [parity]. *)
Definition rebuildParityBlock_body (stripeNum parityDisk : Z)
    (i : Z) (parity : list byte) : M (ctl (list byte) error) :=
  if i =? parityDisk then ret (Continue parity)
  else
    let! rd := withDisk i (Disk.ReadBlock stripeNum) in
    match rd with
    | Err e => ret (Return (EReadDisk i e))
    | Ok blockData => ret (Continue (xorBytes parity blockData))
    end.

Definition rebuildParityBlock (stripeNum parityDisk : Z) : M (option error) :=
  let! bs := gets blockSize in
  let! parity := mmake bs in
  let! n := gets numDisks in
  let! r := for_ (seqZ 0 n) (rebuildParityBlock_body stripeNum parityDisk) parity in
  match r with
  | inr e => ret (Some e)
  | inl parity => withDisk parityDisk (Disk.WriteBlock stripeNum parity)
  end.

(** The body of the inner loop of [rebuildDisk], which looks for the data
    position of [diskIndex] in the stripe; the accumulator is
    [rebuiltBlocks]. *)
Definition rebuildDisk_inner (diskIndex stripeNum parityDisk : Z)
    (offset : Z) (rebuiltBlocks : Z) : M (ctl Z error) :=
  let diskIdx := if offset >=? parityDisk then offset + 1 else offset in
  if diskIdx =? diskIndex then
    let! rc := reconstructBlock stripeNum diskIndex parityDisk in
    match rc with
    | Err e =>
        let! _ := withDisk diskIndex (Disk.SetFailed true) in
        ret (Return (ERebuildReconstruct stripeNum e))
    | Ok reconstructed =>
        let! w := withDisk diskIndex (Disk.WriteBlock stripeNum reconstructed) in
        match w with
        | Some e =>
            let! _ := withDisk diskIndex (Disk.SetFailed true) in
            ret (Return (ERebuildWrite stripeNum e))
        | None => ret (Break (rebuiltBlocks + 1))
        end
    end
  else ret (Continue rebuiltBlocks).

(** The body of the loop over the stripes. *)
Definition rebuildDisk_body (diskIndex : Z) (stripeNum : Z) (rebuiltBlocks : Z)
  : M (ctl Z error) :=
  let! n := gets numDisks in
  let! parityDisk := int_rem stripeNum n in
  if diskIndex =? parityDisk then
    let! e := rebuildParityBlock stripeNum diskIndex in
    match e with
    | Some e =>
        let! _ := withDisk diskIndex (Disk.SetFailed true) in
        ret (Return (ERebuildStripe stripeNum e))
    | None => ret (Continue (rebuiltBlocks + 1))
    end
  else
    let! r := for_ (seqZ 0 (n - 1))
                   (rebuildDisk_inner diskIndex stripeNum parityDisk) rebuiltBlocks in
    match r with
    | inr e => ret (Return e)
    | inl rebuiltBlocks => ret (Continue rebuiltBlocks)
    end.

Definition rebuildDisk (diskIndex : Z) : M (option error) :=
  let! n := gets numDisks in
  if (diskIndex <? 0) || (diskIndex >=? n) then ret (Some (EInvalidDiskIndex diskIndex))
  else
    let! f := withDisk diskIndex Disk.IsFailed in
    if negb f then ret (Some (ENotMarkedFailed diskIndex))
    else
      let! _ := withDisk diskIndex (Disk.SetFailed false) in
      let! maxStripes := withDisk diskIndex Disk.Capacity in
      let! r := for_ (seqZ 0 maxStripes) (rebuildDisk_body diskIndex) 0 in
      match r with
      | inr e => ret (Some e)
      | inl _ => ret None
      end.

End raid5Impl.

(** ** raid.go: the facade *)

(** [sched] is the order in which the goroutines of a level-1 write deliver
    their results; the other levels ignore it. *)
Definition WriteBlock (sched : list Z) (logicalBlockID : Z) (data : list byte)
  : M (option error) :=
  let! cap := gets capacity in
  if (logicalBlockID <? 0) || (logicalBlockID >=? cap) then
    ret (Some (ELogicalOutOfBounds logicalBlockID cap))
  else
    let! bs := gets blockSize in
    if negb (len data =? bs) then ret (Some (EDataSizeMismatch bs))
    else
      let! lv := gets level in
      if lv =? RAID0 then raid0Impl.writeBlock logicalBlockID data
      else if lv =? RAID1 then raid1Impl.writeBlock sched logicalBlockID data
      else if lv =? RAID5 then raid5Impl.writeBlock logicalBlockID data
      else ret (Some (EUnsupportedLevel lv)).

Definition ReadBlock (logicalBlockID : Z) : M (res (list byte)) :=
  let! cap := gets capacity in
  if (logicalBlockID <? 0) || (logicalBlockID >=? cap) then
    ret (Err (ELogicalOutOfBounds logicalBlockID cap))
  else
    let! lv := gets level in
    if lv =? RAID0 then raid0Impl.readBlock logicalBlockID
    else if lv =? RAID1 then raid1Impl.readBlock logicalBlockID
    else if lv =? RAID5 then raid5Impl.readBlock logicalBlockID
    else ret (Err (EUnsupportedLevel lv)).

Definition RebuildDisk (diskIndex : Z) : M (option error) :=
  let! lv := gets level in
  if negb (lv =? RAID5) then ret (Some ERebuildUnsupported)
  else raid5Impl.rebuildDisk diskIndex.

(** ** Observations of the store *)

Definition disk_at (a : RAIDArray) (i : Z) : option Disk.t :=
  if i <? 0 then None else disks a !! Z.to_nat i.

(** The physical block [s] of a disk: [blockSize] bytes from [s * blockSize]. *)
Definition block_of (d : Disk.t) (s : Z) : list byte :=
  take (Z.to_nat (Disk.blockSize d))
       (drop (Z.to_nat (s * Disk.blockSize d)) (File.bytes (Disk.file d))).

Definition blk (a : RAIDArray) (i s : Z) : list byte :=
  match disk_at a i with
  | Some d => block_of d s
  | None => []
  end.

Definition is_failed (a : RAIDArray) (i : Z) : bool :=
  match disk_at a i with
  | Some d => Disk.failed d
  | None => true
  end.

Definition blocksPerDisk (a : RAIDArray) : Z :=
  match disks a with
  | d :: _ => Disk.numBlocks d
  | [] => 0
  end.

(** What [NewDisk] and [NewRAIDArray] establish and no operation changes. *)
Definition wf_disk (bs nb : Z) (d : Disk.t) : bool :=
  (Disk.blockSize d =? bs) && (Disk.numBlocks d =? nb)
  && (bs * nb <=? len (File.bytes (Disk.file d))).

Definition wf (a : RAIDArray) : bool :=
  let nb := blocksPerDisk a in
  (numDisks a =? len (disks a)) && (2 <=? numDisks a)
  && (0 <? blockSize a) && (0 <? nb) && (blockSize a * nb <? 2 ^ 63)
  && forallb (wf_disk (blockSize a) nb) (disks a)
  && ((level a =? RAID0) && (capacity a =? nb * numDisks a)
      || (level a =? RAID1) && (capacity a =? nb)
      || (level a =? RAID5) && (3 <=? numDisks a) && (capacity a =? nb * (numDisks a - 1))).

Definition healthy (a : RAIDArray) : bool :=
  forallb (λ d, negb (Disk.failed d)) (disks a).

(** The host injects no read fault. *)
Definition read_fault_free (a : RAIDArray) : bool :=
  forallb (λ d, match File.rfaults (Disk.file d) with [] => true | _ => false end)
          (disks a).

(** The host injects no fault at all. *)
Definition fault_free (a : RAIDArray) : bool :=
  forallb (λ d, match File.rfaults (Disk.file d), File.wfaults (Disk.file d) with
                | [], [] => negb (File.syncfault (Disk.file d))
                | _, _ => false
                end) (disks a).

Definition zero_filled (a : RAIDArray) : bool :=
  forallb (λ d, forallb (Z.eqb 0) (File.bytes (Disk.file d))) (disks a).

(** XOR of a list of blocks into an accumulator, left to right. *)
Definition xor_all (acc : list byte) (bs : list (list byte)) : list byte :=
  foldl xorBytes acc bs.

(** The XOR of the member blocks of stripe [s] over all the disks. *)
Definition stripe_xor (a : RAIDArray) (s : Z) : list byte :=
  xor_all (make (blockSize a)) ((λ i, blk a i s) <$> seqZ 0 (numDisks a)).

(** The parity invariant: every stripe XORs to the zero block. *)
Definition parity_ok (a : RAIDArray) : bool :=
  forallb (λ s, bool_decide (stripe_xor a s = make (blockSize a)))
          (seqZ 0 (blocksPerDisk a)).

(** The XOR of the blocks of stripe [s] on the disks other than [skip]. *)
Definition others_xor (a : RAIDArray) (skip s : Z) : list byte :=
  xor_all (make (blockSize a))
          ((λ i, blk a i s) <$> filter (λ i, i ≠ skip) (seqZ 0 (numDisks a))).

(** Forgetting the I/O counters. *)
Definition strip (d : Disk.t) : Disk.t :=
  Disk.set_readCount (Disk.set_writeCount d 0) 0.

Definition erase (a : RAIDArray) : RAIDArray :=
  set_disks a (strip <$> disks a).

(** Marking a disk failed, as the tests and the demo do. *)
Definition SetFailed (i : Z) (b : bool) : M unit := withDisk i (Disk.SetFailed b).

Definition set_failed (i : Z) (b : bool) (a : RAIDArray) : RAIDArray :=
  match disk_at a i with
  | Some d => set_disks a (<[Z.to_nat i := Disk.set_failed d b]> (disks a))
  | None => a
  end.

(** ** The level-5 layout in the words of the specification *)

Definition spec_stripe (n lbid : Z) : Z := lbid `div` (n - 1).
Definition spec_stripe_offset (n lbid : Z) : Z := lbid `mod` (n - 1).
Definition spec_parity_disk (n lbid : Z) : Z := spec_stripe n lbid `mod` n.
Definition spec_data_disk (n lbid : Z) : Z :=
  if spec_stripe_offset n lbid <? spec_parity_disk n lbid
  then spec_stripe_offset n lbid
  else spec_stripe_offset n lbid + 1.

(** ** Sequences of client writes *)

(** Running the writes [ws] one after the other; [Some a'] when none of
    them panicked and all of them returned [nil]. *)
Fixpoint write_all (sched : list Z) (ws : list (Z * list byte)) (a : RAIDArray)
  : option RAIDArray :=
  match ws with
  | [] => Some a
  | (lbid, data) :: ws' =>
      match WriteBlock sched lbid data a with
      | Some (None, a') => write_all sched ws' a'
      | _ => None
      end
  end.

(** ** Sample arrays *)

Definition sample_disk (name : string) (bs nb : Z) : Disk.t :=
  Disk.mk (File.mk (replicate (Z.to_nat (bs * nb)) 0) [] [] false) name bs nb false 0 0.

Definition sample_array (lv n bs nb : Z) : RAIDArray :=
  mkArray lv (replicate (Z.to_nat n) (sample_disk "disk.img" bs nb)) bs n
          (if lv =? RAID0 then nb * n else if lv =? RAID1 then nb else nb * (n - 1)).


(** ** Outcomes of the disk operations, as functions of the disk *)

(** Replacing the [i]-th disk. *)
Definition upd (a : RAIDArray) (i : Z) (d : Disk.t) : RAIDArray :=
  set_disks a (<[Z.to_nat i := d]> (disks a)).

Definition bump_read (d : Disk.t) : Disk.t :=
  Disk.set_readCount d (wrapU64 (Disk.readCount d + 1)).

Definition bump_write (d : Disk.t) : Disk.t :=
  Disk.set_writeCount d (wrapU64 (Disk.writeCount d + 1)).

(** Block [s] of the disk can be read: the disk is not failed, the block is
    in range and the host reports no fault at its offset. *)
Definition readable (d : Disk.t) (s : Z) : bool :=
  negb (Disk.failed d) && (0 <=? s) && (s <? Disk.numBlocks d)
  && negb (bool_decide (s * Disk.blockSize d ∈ File.rfaults (Disk.file d))).

(** The bytes of [data] can be handed to the host as block [s]. *)
Definition writable (d : Disk.t) (s : Z) (data : list byte) : bool :=
  negb (Disk.failed d) && (0 <=? s) && (s <? Disk.numBlocks d)
  && (len data =? Disk.blockSize d)
  && negb (bool_decide (s * Disk.blockSize d ∈ File.wfaults (Disk.file d))).

(** The disk once [data] has reached block [s] of its file. *)
Definition written (d : Disk.t) (s : Z) (data : list byte) : Disk.t :=
  Disk.set_file d
    (File.set_bytes (Disk.file d)
       (File.splice (Z.to_nat (s * Disk.blockSize d)) data (File.bytes (Disk.file d)))).

(** A disk of a well-formed array. *)
Definition disk_ok (bs nb : Z) (d : Disk.t) : Prop :=
  wf_disk bs nb d = true ∧ 0 < bs ∧ 0 < nb ∧ bs * nb < 2 ^ 63.


(** ** Reasoning about the operations *)

(** [wp m Q a]: run from the store [a], the operation [m] does not panic
    and its result and final store satisfy [Q]. *)
Definition wp {A} (m : M A) (Q : A → RAIDArray → Prop) (a : RAIDArray) : Prop :=
  ∃ x a', m a = Some (x, a') ∧ Q x a'.

(** Two stores that differ in the I/O counters only. *)
Definition same_data (a b : RAIDArray) : Prop := erase a = erase b.

Infix "≈" := same_data (at level 70, no associativity).

(** The Prop view of [wf], with the number of blocks per disk made explicit. *)
Record wf_array (a : RAIDArray) (nb : Z) : Prop := mk_wf_array {
  wf_len : numDisks a = len (disks a);
  wf_two : 2 ≤ numDisks a;
  wf_bs : 0 < blockSize a;
  wf_nb : 0 < nb;
  wf_bound : blockSize a * nb < 2 ^ 63;
  wf_disks : ∀ i d, disk_at a i = Some d → wf_disk (blockSize a) nb d = true;
  wf_level :
    level a = RAID0 ∧ capacity a = nb * numDisks a
    ∨ level a = RAID1 ∧ capacity a = nb
    ∨ level a = RAID5 ∧ 3 ≤ numDisks a ∧ capacity a = nb * (numDisks a - 1)
}.

(** The Prop view of [parity_ok]. *)
Definition parity_inv (a : RAIDArray) (nb : Z) : Prop :=
  ∀ s, 0 ≤ s < nb → stripe_xor a s = make (blockSize a).

(** The disk of data position [i] in a stripe whose parity is on disk [p]:
    the positions at and after [p] are shifted by one (the
    [if diskIdx >= parityDisk { diskIdx++ }] of raid5.go). *)
Definition skip_parity (p i : Z) : Z := if i >=? p then i + 1 else i.


(** ** The level-1 policies in the words of the specification *)

(** Disk [j] cannot serve a read of [lbid]: it is marked failed, or its
    read returns an error. *)
Definition unreadable_replica (a : RAIDArray) (lbid : Z) (j : Z) : Prop :=
  ∀ dj, disk_at a j = Some dj →
    Disk.failed dj = true ∨ ∃ e, (Disk.ReadBlock lbid dj).1 = Err e.


(** The error (or [None]) of the write of [data] to block [lbid] of the
    replica [i]. *)
Definition write_err (a : RAIDArray) (lbid : Z) (data : list byte) (i : Z)
  : option error :=
  match disk_at a i with
  | Some d => (Disk.WriteBlock lbid data d).1
  | None => None
  end.

(** Of the replicas listed in [sched]: how many wrote the block, which did
    not, and the error of the last of these. *)
Definition successes (errf : Z → option error) (sched : list Z) : Z :=
  len (filter (λ i, errf i = None) sched).

Definition failures (errf : Z → option error) (sched : list Z) : list Z :=
  filter (λ i, errf i ≠ None) sched.

Definition last_error (errf : Z → option error) (sched : list Z) : option error :=
  list.last (omap errf sched).


(** ** Observations used by the level-5 proofs *)

(** Block [s] of disk [i] can be read. *)
Definition can_read (a : RAIDArray) (i s : Z) : bool :=
  match disk_at a i with
  | Some d => readable d s
  | None => false
  end.

(** [data] can be written to block [s] of disk [i] and synced. *)
Definition can_write (a : RAIDArray) (i s : Z) (data : list byte) : bool :=
  match disk_at a i with
  | Some d => writable d s data && negb (File.syncfault (Disk.file d))
  | None => false
  end.

(** The store once [data] has reached block [s] of disk [i]. *)
Definition put (a : RAIDArray) (i s : Z) (data : list byte) : RAIDArray :=
  match disk_at a i with
  | Some d => upd a i (written d s data)
  | None => a
  end.

(** The store once the stripes [0 .. k-1] of disk [d] hold the XOR of the
    blocks of the other disks. *)
Definition rebuilt (a : RAIDArray) (d : Z) (k : Z) : RAIDArray :=
  foldl (λ b s, put b d s (others_xor b d s)) a (seqZ 0 k).


(** The parity block that a level-5 write of [data] to [lbid] computes:
    [data] XORed with the blocks of the sibling data positions whose disk is
    not marked failed. *)
Definition write_parity (a : RAIDArray) (lbid : Z) (data : list byte) : list byte :=
  xor_all data
    ((λ i, blk a (skip_parity (spec_parity_disk (numDisks a) lbid) i)
               (spec_stripe (numDisks a) lbid))
       <$> filter (λ i, i ≠ spec_stripe_offset (numDisks a) lbid
                        ∧ is_failed a (skip_parity (spec_parity_disk (numDisks a) lbid) i)
                          = false)
                  (seqZ 0 (numDisks a - 1))).

(** The store after the parity step of that write: the parity block is
    written unless the parity disk is marked failed. *)
Definition after_parity (a : RAIDArray) (lbid : Z) (data : list byte) : RAIDArray :=
  if is_failed a (spec_parity_disk (numDisks a) lbid) then a
  else put a (spec_parity_disk (numDisks a) lbid) (spec_stripe (numDisks a) lbid)
           (write_parity a lbid data).


(** What the rebuild of stripe [st] of disk [d] establishes when it succeeds
    from the store [b0]: the other disks were readable, the disk was
    writable, and block [st] of [d] now holds the XOR of the others. *)
Definition stripe_rebuilt (b0 : RAIDArray) (d st : Z) (a' : RAIDArray) : Prop :=
  (∀ i, 0 ≤ i < numDisks b0 → i ≠ d → can_read b0 i st = true)
  ∧ can_write b0 d st (others_xor b0 d st) = true
  ∧ a' ≈ put b0 d st (others_xor b0 d st).

(** What makes the rebuild of stripe [st] of disk [d] fail: another disk
    cannot be read at [st], or the rebuilt block cannot be written. *)
Definition stripe_blocked (b0 : RAIDArray) (d st : Z) : Prop :=
  (∃ i, 0 ≤ i < numDisks b0 ∧ i ≠ d ∧ can_read b0 i st = false)
  ∨ can_write b0 d st (others_xor b0 d st) = false.

(** The outcome of one iteration of the loop of [rebuildDisk]: the stripe is
    rebuilt, or the rebuild returns with the disk marked failed again. *)
Definition stripe_step_post (b0 : RAIDArray) (d st : Z)
    (c : ctl Z error) (a' : RAIDArray) : Prop :=
  match c with
  | Continue _ => stripe_rebuilt b0 d st a'
  | Break _ => False
  | Return _ => is_failed a' d = true ∧ stripe_blocked b0 d st
  end.


(** Every stripe below [k] was rebuilt successfully, one after the other,
    starting from the store [a]. *)
Definition rebuild_ok (a : RAIDArray) (d k : Z) : Prop :=
  ∀ s, 0 ≤ s < k → stripe_rebuilt (rebuilt a d s) d s (rebuilt a d (s + 1)).


(** A well-formed level-5 array none of whose disks is marked failed. *)
Definition raid5_healthy (a : RAIDArray) (nb : Z) : Prop :=
  wf_array a nb ∧ level a = RAID5
  ∧ ∀ i, 0 ≤ i < numDisks a → is_failed a i = false.


(** The value of [lastErr] after the read loop of [raid1Impl.readBlock] has
    gone through the replicas [ds] without a successful read: the error of
    the last replica that is not marked failed. *)
Definition last_read_error (lbid : Z) (ds : list Disk.t) (lastErr : option error)
  : option error :=
  foldl (λ le d, if Disk.failed d then le
                 else match (Disk.ReadBlock lbid d).1 with
                      | Ok _ => le
                      | Err e => Some e
                      end) lastErr ds.


(** A mirror of two disks, a stripe set of two disks and a level-5 array of
    three disks, each of two blocks of two bytes; the mirror with its first
    replica marked failed; a series of client writes that fills the level-5
    array, and the array they leave. *)
Definition mirror2 : RAIDArray := sample_array RAID1 2 2 2.
Definition mirror2_degraded : RAIDArray := set_failed 0 true mirror2.
Definition stripe2 : RAIDArray := sample_array RAID0 2 2 2.
Definition parity3 : RAIDArray := sample_array RAID5 3 2 2.
Definition parity3_writes : list (Z * list byte) :=
  [(0, [1; 2]); (1, [3; 4]); (2, [5; 6]); (3, [7; 9])].
Definition parity3_written : RAIDArray :=
  default parity3 (write_all [] parity3_writes parity3).


(** The mirror after a write of its second block, and the level-5 array with
    two disks marked failed. *)
Definition mirror2_written : RAIDArray :=
  default mirror2 (snd <$> WriteBlock [1; 0] 1 [7; 8] mirror2).
Definition parity3_two_failed : RAIDArray :=
  set_failed 0 true (set_failed 1 true parity3_written).


(** ** The array as a map from logical blocks to data *)

(** The physical block in which the layout of the level keeps the logical
    block [lbid]: level 0 stripes the blocks over the disks, level 1 keeps a
    copy on every disk (the first is the one looked at), level 5 places the
    block in its stripe, past the parity disk. *)
Definition stored (a : RAIDArray) (lbid : Z) : list byte :=
  if level a =? RAID0 then
    blk a (Z.rem lbid (numDisks a)) (Z.quot lbid (numDisks a))
  else if level a =? RAID1 then blk a 0 lbid
  else blk a (spec_data_disk (numDisks a) lbid) (spec_stripe (numDisks a) lbid).

(** The logical blocks of the array, in order. *)
Definition contents (a : RAIDArray) : list (list byte) :=
  stored a <$> seqZ 0 (capacity a).


(** What a write of [data] to the logical block [lbid] of a healthy array
    [a] without host faults leaves behind: an array of the same geometry,
    healthy and without faults, whose logical blocks are those of [a] but
    for [lbid], which holds [data]. *)
Definition block_written (a : RAIDArray) (nb lbid : Z) (data : list byte)
    (a' : RAIDArray) : Prop :=
  wf_array a' nb ∧ healthy a' = true ∧ fault_free a' = true
  ∧ level a' = level a ∧ capacity a' = capacity a
  ∧ numDisks a' = numDisks a ∧ blockSize a' = blockSize a
  ∧ ∀ l, 0 ≤ l < capacity a →
         stored a' l = if decide (l = lbid) then data else stored a l.


(** The logical blocks [c] after the writes [ws], each replacing the block
    it names. *)
Definition replay (ws : list (Z * list byte)) (c : list (list byte))
  : list (list byte) :=
  foldl (λ c w, <[Z.to_nat w.1 := w.2]> c) c ws.


(** The store [a] is well-formed and has the geometry of [a0]. *)
Definition kept (a0 : RAIDArray) (nb : Z) (a : RAIDArray) : Prop :=
  wf_array a nb ∧ level a = level a0 ∧ blockSize a = blockSize a0
  ∧ numDisks a = numDisks a0 ∧ capacity a = capacity a0.


(** The geometry of [a'] is that of [a]. *)
Definition same_geometry (a a' : RAIDArray) : Prop :=
  level a' = level a ∧ blockSize a' = blockSize a ∧ numDisks a' = numDisks a
  ∧ capacity a' = capacity a ∧ blocksPerDisk a' = blocksPerDisk a.


(** ** The host file system, as [NewDisk] and [Close] see it

    The files by path (the first entry of a path is its file), the handles
    that are open, and the faults the host injects: [OpenFile], [Stat],
    [Truncate] and [Close] report an I/O error on the paths listed for
    them.  A file that [OpenFile] creates is empty and has no fault. *)

Module Host.

Record t : Type := mk {
  files : list (string * File.t);
  handles : list string;
  openfaults : list string;
  statfaults : list string;
  truncfaults : list string;
  closefaults : list string
}.

Definition set_files (h : t) (fs : list (string * File.t)) : t :=
  mk fs (handles h) (openfaults h) (statfaults h) (truncfaults h) (closefaults h).
Definition set_handles (h : t) (hs : list string) : t :=
  mk (files h) hs (openfaults h) (statfaults h) (truncfaults h) (closefaults h).

Definition mem (p : string) (l : list string) : bool := existsb (String.eqb p) l.

Fixpoint lookup (fs : list (string * File.t)) (p : string) : option File.t :=
  match fs with
  | [] => None
  | (q, f) :: fs' => if String.eqb p q then Some f else lookup fs' p
  end.

(** Dropping one handle of the path. *)
Fixpoint release (p : string) (hs : list string) : list string :=
  match hs with
  | [] => []
  | q :: hs' => if String.eqb p q then hs' else q :: release p hs'
  end.

(** [os.OpenFile(path, os.O_RDWR|os.O_CREATE, 0644)]. *)
Definition OpenFile (path : string) (h : t) : (hosterr + File.t) * t :=
  if mem path (openfaults h) then (inl EIO, h)
  else
    match lookup (files h) path with
    | Some f => (inr f, set_handles h (path :: handles h))
    | None =>
        let f := File.mk [] [] [] false in
        (inr f, set_handles (set_files h ((path, f) :: files h)) (path :: handles h))
    end.

(** [file.Stat()], of which [NewDisk] uses the size. *)
Definition Stat (path : string) (h : t) : hosterr + Z :=
  if mem path (statfaults h) then inl EIO
  else
    match lookup (files h) path with
    | Some f => inr (len (File.bytes f))
    | None => inl EIO
    end.

(** [file.Truncate(size)]: the file is cut or extended with zeros to
    [size] bytes. *)
Definition Truncate (path : string) (size : Z) (h : t) : option hosterr * t :=
  if mem path (truncfaults h) then (Some EIO, h)
  else if size <? 0 then (Some ENegOffset, h)
  else
    match lookup (files h) path with
    | Some f =>
        let bytes := take (Z.to_nat size) (File.bytes f)
                     ++ replicate (Z.to_nat size - length (File.bytes f)) 0 in
        (None, set_files h ((path, File.set_bytes f bytes) :: files h))
    | None => (Some EIO, h)
    end.

(** [file.Close()]: the handle is released, also when the host reports an
    error. *)
Definition Close (path : string) (h : t) : option hosterr * t :=
  (if mem path (closefaults h) then Some EIO else None,
   set_handles h (release path (handles h))).

End Host.

(** ** disk.go and raid.go: construction, statistics and closing

    The errors of [NewDisk], [NewRAIDArray] and [Close], one constructor per
    [fmt.Errorf] site ([EStat] is the error of [Stat], returned as it is). *)

Inductive newerror : Type :=
(* disk.go *)
| EBlockSizePositive (got : Z)
| ENumBlocksPositive (got : Z)
| EOpenDisk (path : string) (e : hosterr)
| EStat (e : hosterr)
| EResizeDisk (e : hosterr)
(* raid.go *)
| ENeedTwoDisks
| ERaid5NeedThreeDisks
| EConfigBlockSize
| EConfigBlocksPerDisk
| ECreateDisk (i : Z) (e : newerror)
| ENewUnsupportedLevel (level : Z)
| ECloseDisk (i : Z) (e : hosterr).

Definition NewDisk (path : string) (blockSize numBlocks : Z) (h : Host.t)
  : (newerror + Disk.t) * Host.t :=
  if blockSize <=? 0 then (inl (EBlockSizePositive blockSize), h)
  else if numBlocks <=? 0 then (inl (ENumBlocksPositive numBlocks), h)
  else
    match Host.OpenFile path h with
    | (inl e, h1) => (inl (EOpenDisk path e), h1)
    | (inr file, h1) =>
        let requiredSize := wrap64 (blockSize * numBlocks) in
        match Host.Stat path h1 with
        | inl e => (inl (EStat e), (Host.Close path h1).2)
        | inr size =>
            if size <? requiredSize then
              match Host.Truncate path requiredSize h1 with
              | (Some e, h2) => (inl (EResizeDisk e), (Host.Close path h2).2)
              | (None, h2) =>
                  (inr (Disk.mk (default file (Host.lookup (Host.files h2) path))
                          path blockSize numBlocks false 0 0), h2)
              end
            else (inr (Disk.mk file path blockSize numBlocks false 0 0), h1)
        end
    end.

(** [d.Close()]. *)
Definition Disk_Close (d : Disk.t) (h : Host.t) : option hosterr * Host.t :=
  Host.Close (Disk.path d) h.

Record DiskStats : Type := mkStats {
  Path : string;
  WriteCount : Z;
  ReadCount : Z;
  Failed : bool
}.

(** [d.GetStats()]. *)
Definition Disk_GetStats (d : Disk.t) : DiskStats :=
  mkStats (Disk.path d) (Disk.writeCount d) (Disk.readCount d) (Disk.failed d).

Module RAIDConfig.

Record t : Type := mk {
  Level : Z;
  DiskPaths : list string;
  BlockSize : Z;
  BlocksPerDisk : Z
}.

End RAIDConfig.

(** [r.Close()]: every disk is closed; the error is that of the first disk
    whose close failed. *)
Fixpoint close_from (i : Z) (ds : list Disk.t) (firstError : option newerror)
    (h : Host.t) : option newerror * Host.t :=
  match ds with
  | [] => (firstError, h)
  | d :: ds' =>
      let '(e, h1) := Disk_Close d h in
      close_from (i + 1) ds'
        (match e, firstError with
         | Some e, None => Some (ECloseDisk i e)
         | _, _ => firstError
         end) h1
  end.

Definition Close (a : RAIDArray) (h : Host.t) : option newerror * Host.t :=
  close_from 0 (disks a) None h.

(** [r.GetStats()]. *)
Definition GetStats (a : RAIDArray) : list DiskStats := Disk_GetStats <$> disks a.

(** The loop of [NewRAIDArray] over the disk paths, from index [i], the
    disks [opened] being those created so far; on a failure they are
    closed, in index order. *)
Fixpoint open_disks (i : Z) (paths : list string) (blockSize numBlocks : Z)
    (opened : list Disk.t) (h : Host.t) : (newerror + list Disk.t) * Host.t :=
  match paths with
  | [] => (inr opened, h)
  | path :: paths' =>
      match NewDisk path blockSize numBlocks h with
      | (inl e, h1) =>
          (inl (ECreateDisk i e), foldl (λ h d, (Disk_Close d h).2) h1 opened)
      | (inr d, h1) => open_disks (i + 1) paths' blockSize numBlocks (opened ++ [d]) h1
      end
  end.

Definition NewRAIDArray (config : RAIDConfig.t) (h : Host.t)
  : (newerror + RAIDArray) * Host.t :=
  let paths := RAIDConfig.DiskPaths config in
  let lv := RAIDConfig.Level config in
  let bs := RAIDConfig.BlockSize config in
  let nb := RAIDConfig.BlocksPerDisk config in
  if len paths <? 2 then (inl ENeedTwoDisks, h)
  else if (lv =? RAID5) && (len paths <? 3) then (inl ERaid5NeedThreeDisks, h)
  else if bs <=? 0 then (inl EConfigBlockSize, h)
  else if nb <=? 0 then (inl EConfigBlocksPerDisk, h)
  else
    match open_disks 0 paths bs nb [] h with
    | (inl e, h1) => (inl e, h1)
    | (inr disks, h1) =>
        let r := mkArray lv disks bs (len disks) 0 in
        if lv =? RAID0 then
          (inr (mkArray lv disks bs (len disks) (wrap64 (nb * len disks))), h1)
        else if lv =? RAID1 then
          (inr (mkArray lv disks bs (len disks) nb), h1)
        else if lv =? RAID5 then
          (inr (mkArray lv disks bs (len disks) (wrap64 (nb * (len disks - 1)))), h1)
        else (inl (ENewUnsupportedLevel lv), (Close r h1).2)
    end.


(** What [NewDisk path blockSize numBlocks] returns when it succeeds: a
    disk on that path, of that geometry, not failed, with counters at zero,
    whose file holds at least the bytes of its blocks. *)
Definition new_disk (bs nb : Z) (path : string) (d : Disk.t) : Prop :=
  d = Disk.mk (Disk.file d) path bs nb false 0 0
  ∧ wrap64 (bs * nb) ≤ len (File.bytes (Disk.file d)).

(** The file of a disk created on a path that did not exist. *)
Definition fresh_file (bs nb : Z) : File.t :=
  File.mk (replicate (Z.to_nat (wrap64 (bs * nb))) 0) [] [] false.


(** A host without files, handles or faults, and two configurations on it:
    a level-5 array of three disks of two blocks of two bytes, and the same
    disks with a level that does not exist. *)
Definition host0 : Host.t := Host.mk [] [] [] [] [] [].
Definition config5 : RAIDConfig.t := RAIDConfig.mk RAID5 ["d0"; "d1"; "d2"]%string 2 2.
Definition config3 : RAIDConfig.t := RAIDConfig.mk 3 ["d0"; "d1"; "d2"]%string 2 2.


(** A host on which the three disks of [parity3] and one more file are
    open, and on which the close of a disk fails. *)
Definition host_open : Host.t :=
  Host.mk [] ["disk.img"; "disk.img"; "disk.img"; "x"]%string [] [] []
          ["disk.img"]%string.


(** The statistics of a disk after one more successful write. *)
Definition bump_stats (s : DiskStats) : DiskStats :=
  mkStats (Path s) (wrapU64 (WriteCount s + 1)) (ReadCount s) (Failed s).


(** The level-5 array after a write made while its third disk was marked
    failed. *)
Definition parity3_stale : RAIDArray :=
  default parity3
    (snd <$> WriteBlock [] 2 [8; 8] (set_failed 2 true parity3_written)).


(** ** Sequences of client calls *)

(** A call of the facade. *)
Inductive call : Type :=
| CallRead (logicalBlockID : Z)
| CallWrite (sched : list Z) (logicalBlockID : Z) (data : list byte)
| CallRebuild (diskIndex : Z).

(** Making the call, whatever it returns (a value or an error). *)
Definition perform (c : call) : M unit :=
  match c with
  | CallRead lbid => let! _ := ReadBlock lbid in ret tt
  | CallWrite sched lbid data => let! _ := WriteBlock sched lbid data in ret tt
  | CallRebuild d => let! _ := RebuildDisk d in ret tt
  end.

Fixpoint perform_all (cs : list call) : M unit :=
  match cs with
  | [] => ret tt
  | c :: cs' => let! _ := perform c in perform_all cs'
  end.

(** The call is a write to the logical block [lbid]. *)
Definition writes_to (lbid : Z) (c : call) : bool :=
  match c with
  | CallWrite _ l _ => l =? lbid
  | _ => false
  end.

Definition is_read (c : call) : bool :=
  match c with
  | CallRead _ => true
  | _ => false
  end.

(** The cells (a disk and one of its physical blocks) in which the layout
    of level [lv] over [n] disks keeps the logical block [lbid]: one cell
    at levels 0 and 5, one on every disk at level 1. *)
Definition cells (lv n lbid : Z) (i s : Z) : Prop :=
  0 ≤ i < n
  ∧ if lv =? RAID0 then i = Z.rem lbid n ∧ s = Z.quot lbid n
    else if lv =? RAID1 then s = lbid
    else i = spec_data_disk n lbid ∧ s = spec_stripe n lbid.

(** The cells [prot] can be read in [a] and hold what they hold in [a0]. *)
Definition guarded (prot : Z → Z → Prop) (a0 a : RAIDArray) : Prop :=
  ∀ i s, prot i s → can_read a i s = true ∧ blk a i s = blk a0 i s.

(** The array [a0] once its disk [d] has failed and nothing was written
    since: [d] is marked failed and holds whatever it holds (it is the disk
    [dx]), the other disks are those of [a0], up to their counters. *)
Definition failed_since (a0 : RAIDArray) (d : Z) (a : RAIDArray) : Prop :=
  ∃ dx, wf_disk (blockSize a0) (blocksPerDisk a0) dx = true
        ∧ Disk.failed dx = true
        ∧ a ≈ upd a0 d dx.

(** A host on which the file of the first disk of [config5] exists and holds
    data, and the array that [NewRAIDArray] makes of it; a zero-filled disk
    marked failed, and the array [parity3_written] with that disk in the
    place of its second disk. *)
Definition host_used : Host.t :=
  Host.mk [("d0"%string, File.mk [1; 1; 1; 1] [] [] false)] [] [] [] [] [].
Definition parity3_used : RAIDArray :=
  match NewRAIDArray config5 host_used with
  | (inr a, _) => a
  | _ => parity3
  end.
Definition wiped_disk : Disk.t :=
  Disk.set_failed (sample_disk "disk.img" 2 2) true.
Definition parity3_wiped : RAIDArray := upd parity3_written 1 wiped_disk.

(** * Verification *)

(** ** The XOR algebra of [xorBytes]

    The destination keeps its length, so the laws are stated on the
    accumulator and need no side condition on lengths. *)

Section xor_algebra.

Implicit Types a b c acc : list byte.

Lemma xorBytes_nil_r a : xorBytes a [] = a.
Proof. by destruct a. Qed.

Lemma xorBytes_length a b : length (xorBytes a b) = length a.
Proof.
  revert b. induction a as [|x a IH]; intros [|y b]; simpl; auto.
Qed.

(** Any two sources may be folded in either order. *)
Lemma xorBytes_swap a b c :
  xorBytes (xorBytes a b) c = xorBytes (xorBytes a c) b.
Proof.
  revert b c. induction a as [|x a IH]; intros [|y b] [|z c]; simpl; auto.
  f_equal; [|apply IH].
  rewrite !Z.lxor_assoc. f_equal. apply Z.lxor_comm.
Qed.

(** [xorBytes] is self-inverse. *)
Lemma xorBytes_cancel a b : xorBytes (xorBytes a b) b = a.
Proof.
  revert b. induction a as [|x a IH]; intros [|y b]; simpl; auto.
  f_equal; [|apply IH].
  by rewrite Z.lxor_assoc, Z.lxor_nilpotent, Z.lxor_0_r.
Qed.

Lemma xorBytes_zero_l n b : length b = n → xorBytes (replicate n 0) b = b.
Proof.
  intros <-. induction b as [|y b IH]; simpl; auto.
  by rewrite IH.
Qed.

Lemma xorBytes_self a : xorBytes a a = replicate (length a) 0.
Proof.
  induction a as [|x a IH]; simpl; auto.
  by rewrite IH, Z.lxor_nilpotent.
Qed.

Lemma xorBytes_comm a b : length a = length b → xorBytes a b = xorBytes b a.
Proof.
  revert b. induction a as [|x a IH]; intros [|y b] ?; simplify_eq/=; auto.
  f_equal; [apply Z.lxor_comm | by apply IH].
Qed.

Lemma xor_all_nil acc : xor_all acc [] = acc.
Proof. done. Qed.

Lemma xor_all_cons acc b l : xor_all acc (b :: l) = xor_all (xorBytes acc b) l.
Proof. done. Qed.

Lemma xor_all_app acc l k : xor_all acc (l ++ k) = xor_all (xor_all acc l) k.
Proof. apply foldl_app. Qed.

Lemma xor_all_length acc l : length (xor_all acc l) = length acc.
Proof.
  revert acc. induction l as [|b l IH]; intros acc; simpl; auto.
  rewrite IH. apply xorBytes_length.
Qed.

Lemma xor_all_xorBytes acc b l :
  xor_all (xorBytes acc b) l = xorBytes (xor_all acc l) b.
Proof.
  revert acc. induction l as [|c l IH]; intros acc; simpl; auto.
  by rewrite <- IH, xorBytes_swap.
Qed.

(** The XOR of the siblings does not depend on their order. *)
Lemma xor_all_perm acc l k : l ≡ₚ k → xor_all acc l = xor_all acc k.
Proof.
  intros Hp. revert acc.
  induction Hp as [|b l k _ IH|b c l|l k m _ IH1 _ IH2]; intros acc; simpl; auto.
  - by rewrite xorBytes_swap.
  - by rewrite IH1.
Qed.

Lemma xor_all_cancel acc l : xor_all (xor_all acc l) l = acc.
Proof.
  revert acc. induction l as [|b l IH]; intros acc; simpl; auto.
  by rewrite !xor_all_xorBytes, IH, xorBytes_cancel.
Qed.

(** If [x] and [b] have the length of the zero block and XOR to it, they
    are equal. *)
Lemma xorBytes_eq_zero x b n :
  length x = n → length b = n → xorBytes x b = replicate n 0 → x = b.
Proof.
  intros Hx Hb Hz.
  rewrite <- (xorBytes_cancel x b), Hz. by apply xorBytes_zero_l.
Qed.

End xor_algebra.

(** ** The backing file: reads over writes *)

Section splice.

Implicit Types l b : list byte.

Lemma splice_lookup o b l j :
  (o + length b ≤ length l)%nat →
  File.splice o b l !! j =
    if decide (o ≤ j < o + length b)%nat then b !! (j - o)%nat else l !! j.
Proof.
  intros Hle. unfold File.splice.
  replace (o - length l)%nat with 0%nat by lia. simpl.
  assert (length (take o l) = o) as Hto by (rewrite length_take; lia).
  case_decide as Hj.
  - rewrite lookup_app_r by lia. rewrite Hto.
    apply lookup_app_l. lia.
  - destruct (decide (j < o)%nat).
    + rewrite lookup_app_l by lia. by apply lookup_take_lt.
    + rewrite lookup_app_r by lia. rewrite Hto.
      rewrite lookup_app_r by lia. rewrite lookup_drop. f_equal. lia.
Qed.

Lemma splice_length o b l :
  (o + length b ≤ length l)%nat → length (File.splice o b l) = length l.
Proof.
  intros Hle. unfold File.splice.
  rewrite !length_app, length_take, length_replicate, length_drop. lia.
Qed.

(** Reading back what was written. *)
Lemma splice_read_same o b l :
  (o + length b ≤ length l)%nat →
  take (length b) (drop o (File.splice o b l)) = b.
Proof.
  intros Hle. apply list_eq. intros k.
  rewrite lookup_take, lookup_drop. case_decide as Hk.
  - rewrite splice_lookup by done. rewrite decide_True by lia.
    f_equal. lia.
  - symmetry. apply lookup_ge_None. lia.
Qed.

(** A disjoint range is not affected. *)
Lemma splice_read_other o b l o' n :
  (o + length b ≤ length l)%nat →
  (o' + n ≤ o ∨ o + length b ≤ o')%nat →
  take n (drop o' (File.splice o b l)) = take n (drop o' l).
Proof.
  intros Hle Hd. apply list_eq. intros k.
  rewrite !lookup_take. case_decide as Hk; [|done].
  rewrite !lookup_drop, splice_lookup by done.
  by rewrite decide_False by lia.
Qed.

(** Writing the bytes that are already there changes nothing. *)
Lemma splice_same o n l :
  (o + n ≤ length l)%nat → File.splice o (take n (drop o l)) l = l.
Proof.
  intros Hle.
  assert (length (take n (drop o l)) = n) as Hn
    by (rewrite length_take, length_drop; lia).
  apply list_eq. intros j.
  rewrite splice_lookup by lia. rewrite Hn. case_decide as Hj; [|done].
  rewrite lookup_take_lt by lia. rewrite lookup_drop. f_equal. lia.
Qed.

End splice.

(** ** disk.go: the outcome of a block read and of a block write *)

Ltac bool_hyps :=
  repeat match goal with
    | H : _ && _ = true |- _ => apply andb_true_iff in H; destruct H
    | H : negb _ = true |- _ => apply negb_true_iff in H
    | H : negb _ = false |- _ => apply negb_false_iff in H
    | H : (_ <=? _) = true |- _ => apply Z.leb_le in H
    | H : (_ <? _) = true |- _ => apply Z.ltb_lt in H
    | H : (_ =? _) = true |- _ => apply Z.eqb_eq in H
    | H : (_ <=? _) = false |- _ => apply Z.leb_gt in H
    | H : (_ <? _) = false |- _ => apply Z.ltb_ge in H
    | H : (_ >=? _) = false |- _ => rewrite Z.geb_leb in H
    | H : (_ >=? _) = true |- _ => rewrite Z.geb_leb in H
    | H : (_ =? _) = false |- _ => apply Z.eqb_neq in H
    | H : bool_decide _ = false |- _ => apply bool_decide_eq_false in H
    | H : bool_decide _ = true |- _ => apply bool_decide_eq_true in H
    end.

(** Deciding the integer tests of the goal from the hypotheses. *)
Ltac zb :=
  repeat first
    [ rewrite Z.geb_leb
    | match goal with
      | |- context [?x <? ?y] =>
          first [ rewrite (proj2 (Z.ltb_lt x y)) by lia
                | rewrite (proj2 (Z.ltb_ge x y)) by lia ]
      | |- context [?x <=? ?y] =>
          first [ rewrite (proj2 (Z.leb_le x y)) by lia
                | rewrite (proj2 (Z.leb_gt x y)) by lia ]
      | |- context [?x =? ?y] =>
          first [ rewrite (proj2 (Z.eqb_eq x y)) by lia
                | rewrite (proj2 (Z.eqb_neq x y)) by lia ]
      end ].

Ltac zbs := repeat (progress (zb; cbn [negb orb andb])).

Lemma wrap64_small x : - 2 ^ 63 ≤ x < 2 ^ 63 → wrap64 x = x.
Proof. intros Hx. unfold wrap64. rewrite Z.mod_small; lia. Qed.

Section disk.

Variables (bs nb : Z) (d : Disk.t).
Hypothesis Hok : disk_ok bs nb d.

Lemma disk_ok_fields :
  Disk.blockSize d = bs ∧ Disk.numBlocks d = nb
  ∧ bs * nb ≤ len (File.bytes (Disk.file d)).
Proof. destruct Hok as (Hwf & _). unfold wf_disk in Hwf. by bool_hyps. Qed.

Lemma offset_bounds s : 0 ≤ s < nb → 0 ≤ s * bs ∧ s * bs + bs ≤ bs * nb.
Proof. destruct Hok as (_ & ? & ? & ?). nia. Qed.

Lemma wrap64_offset s : 0 ≤ s < nb → wrap64 (s * bs) = s * bs.
Proof.
  intros Hs. destruct (offset_bounds s Hs). destruct Hok as (_ & ? & ? & ?).
  apply wrap64_small. lia.
Qed.

Lemma block_of_length s : 0 ≤ s < nb → length (block_of d s) = Z.to_nat bs.
Proof.
  intros Hs. destruct (offset_bounds s Hs). destruct disk_ok_fields as (Hb & _ & Hl).
  unfold block_of, len in *. rewrite Hb, length_take, length_drop. lia.
Qed.

Lemma ReadBlock_readable s :
  readable d s = true → Disk.ReadBlock s d = (Ok (block_of d s), bump_read d).
Proof.
  intros Hr. unfold readable in Hr. bool_hyps.
  destruct disk_ok_fields as (Hb & Hn & Hl).
  assert (0 ≤ s < nb) as Hs by lia.
  pose proof (block_of_length s Hs) as Hlen.
  pose proof (wrap64_offset s Hs) as Hw.
  destruct (offset_bounds s Hs).
  rewrite <- Hb in *.
  unfold Disk.ReadBlock, File.ReadAt.
  rewrite Hw.
  repeat match goal with H : _ = false |- _ => rewrite H end.
  rewrite bool_decide_eq_false_2 by done.
  change (take _ (drop _ _)) with (block_of d s).
  destruct Hok as (_ & ? & _).
  unfold len. rewrite !Hlen. zb. simpl. rewrite ?Hlen. zb. done.
Qed.

Lemma ReadBlock_unreadable s :
  readable d s = false → ∃ e, Disk.ReadBlock s d = (Err e, d).
Proof.
  intros Hr. unfold Disk.ReadBlock.
  destruct (Disk.failed d) eqn:Hf; [eauto|].
  destruct ((s <? 0) || (s >=? Disk.numBlocks d)) eqn:Hrange; [eauto|].
  apply orb_false_iff in Hrange as [H1 H2]. bool_hyps.
  destruct disk_ok_fields as (Hb & Hn & Hl).
  assert (0 ≤ s < nb) as Hs by lia.
  rewrite Hb, wrap64_offset by done.
  unfold readable in Hr. rewrite Hf, Hb in Hr. simpl in Hr.
  rewrite (proj2 (Z.leb_le 0 s)), (proj2 (Z.ltb_lt s _)) in Hr by lia.
  simpl in Hr. bool_hyps.
  destruct (offset_bounds s Hs).
  unfold File.ReadAt. zb. rewrite bool_decide_eq_true_2 by done. eauto.
Qed.

Lemma WriteBlock_writable s data :
  writable d s data = true →
  Disk.WriteBlock s data d =
    if File.syncfault (Disk.file d)
    then (Some (ESyncError (Disk.path d) EIO), written d s data)
    else (None, bump_write (written d s data)).
Proof.
  intros Hw. unfold writable in Hw. bool_hyps.
  destruct disk_ok_fields as (Hb & Hn & Hl).
  assert (0 ≤ s < nb) as Hs by lia.
  pose proof (wrap64_offset s Hs) as Hwr.
  destruct (offset_bounds s Hs).
  rewrite <- Hb in *.
  unfold Disk.WriteBlock, File.WriteAt, File.Sync.
  rewrite Hwr.
  repeat match goal with H : _ = false |- _ => rewrite H end.
  rewrite bool_decide_eq_false_2 by done.
  zb. simpl. zb. simpl.
  by destruct (File.syncfault (Disk.file d)).
Qed.

Lemma WriteBlock_unwritable s data :
  writable d s data = false → ∃ e, Disk.WriteBlock s data d = (Some e, d).
Proof.
  intros Hw. unfold Disk.WriteBlock.
  destruct (Disk.failed d) eqn:Hf; [eauto|].
  destruct ((s <? 0) || (s >=? Disk.numBlocks d)) eqn:Hrange; [eauto|].
  destruct (negb (len data =? Disk.blockSize d)) eqn:Hlen; [eauto|].
  apply orb_false_iff in Hrange as [H1 H2]. bool_hyps.
  destruct disk_ok_fields as (Hb & Hn & Hl).
  assert (0 ≤ s < nb) as Hs by lia.
  rewrite Hb, wrap64_offset by done.
  unfold writable in Hw. rewrite Hf, Hb in Hw. simpl in Hw.
  rewrite (proj2 (Z.leb_le 0 s)), (proj2 (Z.ltb_lt s _)),
    (proj2 (Z.eqb_eq (len data) bs)) in Hw by lia.
  simpl in Hw. bool_hyps.
  destruct (offset_bounds s Hs).
  unfold File.WriteAt. zb. rewrite bool_decide_eq_true_2 by done. eauto.
Qed.

Section written.

Variables (s : Z) (data : list byte).
Hypothesis Hw : writable d s data = true.

Lemma writable_fits :
  0 ≤ s < nb ∧ length data = Z.to_nat bs
  ∧ (Z.to_nat (s * bs) + length data ≤ length (File.bytes (Disk.file d)))%nat.
Proof.
  unfold writable in Hw. bool_hyps.
  destruct disk_ok_fields as (Hb & Hn & Hl).
  assert (0 ≤ s < nb) as Hs by lia.
  destruct (offset_bounds s Hs). unfold len in *. lia.
Qed.

Lemma written_block_same : block_of (written d s data) s = data.
Proof.
  destruct writable_fits as (Hs & Hlen & Hfit).
  destruct disk_ok_fields as (Hb & _).
  unfold block_of, written. simpl. rewrite Hb, <- Hlen.
  by apply splice_read_same.
Qed.

Lemma written_block_other s' :
  0 ≤ s' → s' ≠ s → block_of (written d s data) s' = block_of d s'.
Proof.
  intros Hs' Hne.
  destruct writable_fits as (Hs & Hlen & Hfit).
  destruct disk_ok_fields as (Hb & _). destruct Hok as (_ & Hbs & _).
  unfold block_of, written. simpl. rewrite Hb.
  apply splice_read_other; [done|]. rewrite Hlen. nia.
Qed.

Lemma written_ok : disk_ok bs nb (written d s data).
Proof.
  destruct writable_fits as (Hs & Hlen & Hfit).
  destruct disk_ok_fields as (Hb & _).
  destruct Hok as (Hwf & ? & ? & ?). split_and!; try done.
  unfold wf_disk, written, len in *. simpl.
  by rewrite splice_length by (by rewrite Hb).
Qed.

End written.

(** Writing back the block that is already on the disk leaves the file
    as it is. *)
Lemma written_same s : 0 ≤ s < nb → written d s (block_of d s) = d.
Proof.
  intros Hs. destruct (offset_bounds s Hs).
  destruct disk_ok_fields as (Hb & Hn & Hl).
  unfold written, block_of. rewrite splice_same.
  - by destruct d as [[]].
  - unfold len in *. rewrite Hb. lia.
Qed.

End disk.

(** ** Rules for [wp] *)

Section wp_rules.

Context {A B : Type}.

Lemma wp_ret (x : A) Q a : Q x a → wp (ret x) Q a.
Proof. intros HQ. by exists x, a. Qed.

Lemma wp_gets (f : RAIDArray → A) Q a : Q (f a) a → wp (gets f) Q a.
Proof. intros HQ. by exists (f a), a. Qed.

Lemma wp_bind (m : M A) (k : A → M B) Q a :
  wp m (λ x a', wp (k x) Q a') a → wp (bind m k) Q a.
Proof.
  intros (x & a' & Hm & y & a'' & Hk & HQ).
  exists y, a''. unfold bind. by rewrite Hm.
Qed.

Lemma wp_mono (m : M A) (Q Q' : A → RAIDArray → Prop) a :
  wp m Q a → (∀ x a', Q x a' → Q' x a') → wp m Q' a.
Proof. intros (x & a' & Hm & HQ) Himp. exists x, a'. auto. Qed.

(** The operations are functions: what [wp] promises holds of the run. *)
Lemma wp_run (m : M A) Q a x a' : wp m Q a → m a = Some (x, a') → Q x a'.
Proof. intros (y & b & Hm & HQ) Hrun. congruence. Qed.

Lemma wp_withDisk i (op : Disk.t → A * Disk.t) Q a d :
  disk_at a i = Some d → Q (op d).1 (upd a i (op d).2) → wp (withDisk i op) Q a.
Proof.
  unfold disk_at, withDisk, wp. intros Hd HQ.
  destruct (i <? 0); [done|]. rewrite Hd.
  destruct (op d) as [x d'] eqn:Hop. eauto.
Qed.

End wp_rules.

Lemma wp_int_quot x y Q a : y ≠ 0 → Q (Z.quot x y) a → wp (int_quot x y) Q a.
Proof.
  intros Hy HQ. unfold int_quot. rewrite (proj2 (Z.eqb_neq y 0)) by done.
  by apply wp_ret.
Qed.

Lemma wp_int_rem x y Q a : y ≠ 0 → Q (Z.rem x y) a → wp (int_rem x y) Q a.
Proof.
  intros Hy HQ. unfold int_rem. rewrite (proj2 (Z.eqb_neq y 0)) by done.
  by apply wp_ret.
Qed.

Lemma wp_mmake n Q a : 0 ≤ n → Q (make n) a → wp (mmake n) Q a.
Proof.
  intros Hn HQ. unfold mmake. rewrite (proj2 (Z.ltb_ge n 0)) by done.
  by apply wp_ret.
Qed.

(** The rule of the [for] loop: [I done acc] holds of the accumulator and
    the store once the indices [done] have been processed; [Qb] is what a
    [break] establishes and [Qr] what a [return] does. *)
Lemma wp_for {A R} (I : list Z → A → RAIDArray → Prop)
    (Qb : A → RAIDArray → Prop) (Qr : R → RAIDArray → Prop)
    (body : Z → A → M (ctl A R)) ixs :
  (∀ done i rest acc a, ixs = done ++ i :: rest → I done acc a →
     wp (body i acc)
        (λ c a', match c with
                 | Continue x => I (done ++ [i]) x a'
                 | Break x => Qb x a'
                 | Return r => Qr r a'
                 end) a) →
  ∀ acc a, I [] acc a →
    wp (for_ ixs body acc)
       (λ r a', match r with
                | inl x => I ixs x a' ∨ Qb x a'
                | inr r => Qr r a'
                end) a.
Proof.
  revert I. induction ixs as [|i ixs IH]; intros I Hbody acc a HI.
  - apply wp_ret. by left.
  - simpl. apply wp_bind.
    eapply wp_mono; [by apply (Hbody [] i ixs acc a)|].
    intros [x|x|r] a' Hc; simpl in *.
    + eapply wp_mono.
      * apply (IH (λ done, I (i :: done))); [|done].
        intros done j rest acc' b -> HI'. by apply (Hbody (i :: done) j rest).
      * by intros [y|r] b.
    + apply wp_ret. by right.
    + by apply wp_ret.
Qed.

(** ** The store: lookups, updates, and stores equal up to the counters *)

Lemma disk_at_range a i d : disk_at a i = Some d → 0 ≤ i < len (disks a).
Proof.
  unfold disk_at, len. destruct (i <? 0) eqn:Hi; [done|]. bool_hyps.
  intros Hd%lookup_lt_Some. lia.
Qed.

Lemma disk_at_is_Some a i : 0 ≤ i < len (disks a) → is_Some (disk_at a i).
Proof.
  unfold disk_at, len. intros Hi. zb. apply lookup_lt_is_Some. lia.
Qed.

Lemma disk_at_upd a i j d d0 :
  disk_at a i = Some d0 →
  disk_at (upd a i d) j = if decide (i = j) then Some d else disk_at a j.
Proof.
  intros Hd0. pose proof (disk_at_range _ _ _ Hd0) as Hi.
  unfold disk_at, upd, len in *. simpl.
  destruct (j <? 0) eqn:Hj; bool_hyps.
  - by rewrite decide_False by lia.
  - case_decide as Hij.
    + subst j. apply list_lookup_insert_eq. lia.
    + apply list_lookup_insert_ne. lia.
Qed.

Lemma disk_at_upd_eq a i d d0 :
  disk_at a i = Some d0 → disk_at (upd a i d) i = Some d.
Proof. intros Hd0. rewrite (disk_at_upd _ _ _ _ _ Hd0). by rewrite decide_True. Qed.

Lemma disk_at_upd_ne a i j d d0 :
  disk_at a i = Some d0 → i ≠ j → disk_at (upd a i d) j = disk_at a j.
Proof. intros Hd0 ?. rewrite (disk_at_upd _ _ _ _ _ Hd0). by rewrite decide_False. Qed.

Lemma upd_id a i d : disk_at a i = Some d → upd a i d = a.
Proof.
  unfold disk_at, upd. destruct (i <? 0); [done|]. intros Hd.
  rewrite list_insert_id by done. by destruct a.
Qed.

Lemma strip_inv d d' :
  strip d = strip d' →
  ∃ w r, d = Disk.set_readCount (Disk.set_writeCount d' w) r.
Proof.
  destruct d as [f p b n fl w r], d' as [f' p' b' n' fl' w' r'].
  unfold strip. simpl. intros [= -> -> -> -> ->]. by exists w, r.
Qed.

Lemma strip_set_counters d w r :
  strip (Disk.set_readCount (Disk.set_writeCount d w) r) = strip d.
Proof. done. Qed.

Lemma disk_at_erase a i : disk_at (erase a) i = strip <$> disk_at a i.
Proof.
  unfold disk_at, erase. simpl. destruct (i <? 0); [done|].
  apply list_lookup_fmap.
Qed.

#[local] Instance same_data_equiv : Equivalence same_data.
Proof.
  unfold same_data. split.
  - by intros a.
  - by intros a b.
  - intros a b c. congruence.
Qed.

Lemma same_data_static a b :
  a ≈ b →
  level a = level b ∧ blockSize a = blockSize b ∧ numDisks a = numDisks b
  ∧ capacity a = capacity b ∧ len (disks a) = len (disks b).
Proof.
  unfold same_data, erase, set_disks, len. intros [= -> Hd -> -> ->].
  split_and!; try done.
  apply (f_equal length) in Hd. rewrite !length_fmap in Hd. by rewrite Hd.
Qed.

Lemma same_data_disk_at a b i d :
  a ≈ b → disk_at b i = Some d →
  ∃ d', disk_at a i = Some d' ∧ strip d' = strip d.
Proof.
  intros Hab Hd. apply (f_equal (λ x, disk_at x i)) in Hab.
  rewrite !disk_at_erase, Hd in Hab.
  destruct (disk_at a i) as [d'|]; simpl in Hab; [|discriminate].
  exists d'. split; [done|]. by apply (inj Some).
Qed.

Lemma same_data_upd a b i d d' :
  a ≈ b → strip d = strip d' → upd a i d ≈ upd b i d'.
Proof.
  unfold same_data, erase, upd, set_disks. simpl.
  intros [= -> Hd -> -> ->] Hs. f_equal.
  by rewrite !list_fmap_insert, Hd, Hs.
Qed.

Lemma erase_same a : erase a ≈ a.
Proof.
  unfold same_data, erase, set_disks. simpl. f_equal.
  rewrite <- list_fmap_compose. by apply list_fmap_ext.
Qed.

Lemma same_data_upd_l a a0 i d d0 :
  a ≈ a0 → disk_at a0 i = Some d0 → strip d = strip d0 → upd a i d ≈ a0.
Proof.
  intros Ha Hd0 Hs. pose proof (same_data_upd a a0 i d d0 Ha Hs) as Hu.
  by rewrite (upd_id a0 i d0) in Hu.
Qed.

(** ** Well-formed arrays *)

Lemma wf_array_of_wf a : wf a = true → wf_array a (blocksPerDisk a).
Proof.
  unfold wf. intros Hwf. bool_hyps.
  match goal with H : forallb _ _ = true |- _ => rename H into Hall end.
  match goal with H : _ || _ = true |- _ => rename H into Hlv end.
  split; try done.
  - intros i d Hd. unfold disk_at in Hd. destruct (i <? 0); [done|].
    rewrite forallb_forall in Hall. apply Hall.
    apply list_elem_of_In, list_elem_of_lookup. eauto.
  - apply orb_true_iff in Hlv as [Hlv|Hlv]; [apply orb_true_iff in Hlv as [Hlv|Hlv]|];
      bool_hyps; auto.
Qed.

Lemma wf_array_disk a nb i :
  wf_array a nb → 0 ≤ i < numDisks a → ∃ d, disk_at a i = Some d.
Proof.
  intros Hwf Hi. rewrite (wf_len _ _ Hwf) in Hi.
  by destruct (disk_at_is_Some a i Hi) as [d Hd]; exists d.
Qed.

Lemma wf_array_disk_ok a nb i d :
  wf_array a nb → disk_at a i = Some d → disk_ok (blockSize a) nb d.
Proof. intros [] Hd. unfold disk_ok. eauto. Qed.

Lemma wf_array_blocks a nb : wf_array a nb → blocksPerDisk a = nb.
Proof.
  intros Hwf. destruct (wf_array_disk a nb 0 Hwf) as [d Hd].
  { pose proof (wf_two _ _ Hwf). lia. }
  pose proof (wf_disks _ _ Hwf 0 d Hd) as Hd'. unfold wf_disk in Hd'. bool_hyps.
  unfold disk_at, blocksPerDisk in *. simpl in Hd.
  by destruct (disks a); simplify_eq/=.
Qed.

Lemma wf_array_upd a nb i d d0 :
  wf_array a nb → disk_at a i = Some d0 → wf_disk (blockSize a) nb d = true →
  wf_array (upd a i d) nb.
Proof.
  intros [] Hd0 Hd. split; simpl; try done.
  - unfold len in *. by rewrite length_insert.
  - intros j d'. rewrite (disk_at_upd _ _ _ _ _ Hd0). case_decide; [congruence|eauto].
Qed.

Lemma wf_disk_strip bs nb d : wf_disk bs nb (strip d) = wf_disk bs nb d.
Proof. done. Qed.

Lemma wf_array_same a b nb : a ≈ b → wf_array b nb → wf_array a nb.
Proof.
  intros Hab Hwf. destruct (same_data_static _ _ Hab) as (Hl & Hb & Hn & Hc & Hlen).
  symmetry in Hab. destruct Hwf. split; try congruence.
  intros i d Hd. destruct (same_data_disk_at _ _ _ _ Hab Hd) as (d' & Hd' & Hs).
  rewrite Hb, <- wf_disk_strip, <- Hs, wf_disk_strip. eauto.
Qed.

(** ** The disk operations of the array, up to the counters

    In each rule [a0] is a well-formed store and [a] the current one, equal
    to [a0] up to the counters. *)

Section disk_ops.

Variables (a0 : RAIDArray) (nb : Z).
Hypothesis Hwf : wf_array a0 nb.

Variables (a : RAIDArray) (i : Z) (d0 : Disk.t).
Hypothesis Ha : a ≈ a0.
Hypothesis Hd0 : disk_at a0 i = Some d0.

Lemma current_disk :
  ∃ w r, disk_at a i = Some (Disk.set_readCount (Disk.set_writeCount d0 w) r).
Proof.
  destruct (same_data_disk_at _ _ _ _ Ha Hd0) as (d & Hd & Hs).
  apply strip_inv in Hs as (w & r & ->). eauto.
Qed.

Lemma wp_IsFailed Q :
  Q (Disk.failed d0) a → wp (withDisk i Disk.IsFailed) Q a.
Proof.
  intros HQ. destruct current_disk as (w & r & Hd).
  eapply wp_withDisk; [done|]. simpl. by rewrite upd_id.
Qed.

Lemma wp_Capacity Q :
  Q (Disk.numBlocks d0) a → wp (withDisk i Disk.Capacity) Q a.
Proof.
  intros HQ. destruct current_disk as (w & r & Hd).
  eapply wp_withDisk; [done|]. simpl. by rewrite upd_id.
Qed.

Lemma wp_SetFailed b Q :
  (∀ a', a' ≈ upd a0 i (Disk.set_failed d0 b) → Q tt a') →
  wp (withDisk i (Disk.SetFailed b)) Q a.
Proof.
  intros HQ. destruct current_disk as (w & r & Hd).
  eapply wp_withDisk; [done|]. simpl. apply HQ.
  by apply same_data_upd.
Qed.

Lemma wp_ReadBlock s Q :
  (readable d0 s = true → ∀ a', a' ≈ a0 → Q (Ok (block_of d0 s)) a') →
  (readable d0 s = false → ∀ e, Q (Err e) a) →
  wp (withDisk i (Disk.ReadBlock s)) Q a.
Proof.
  intros Hok Herr. destruct current_disk as (w & r & Hd).
  pose proof (wf_array_disk_ok _ _ _ _ Hwf Hd0) as Hdok.
  set (d := Disk.set_readCount (Disk.set_writeCount d0 w) r) in *.
  assert (disk_ok (blockSize a0) nb d) as Hdok' by done.
  eapply wp_withDisk; [done|].
  destruct (readable d0 s) eqn:Hr.
  - rewrite (ReadBlock_readable _ _ _ Hdok') by done. simpl.
    apply (Hok eq_refl). by eapply same_data_upd_l.
  - destruct (ReadBlock_unreadable _ _ _ Hdok' s) as [e ->]; [done|]. simpl.
    rewrite upd_id by done. by apply Herr.
Qed.

Lemma wp_WriteBlock s data Q :
  (writable d0 s data = false → ∀ e, Q (Some e) a) →
  (writable d0 s data = true → File.syncfault (Disk.file d0) = true →
     ∀ a' e, a' ≈ upd a0 i (written d0 s data) → Q (Some e) a') →
  (writable d0 s data = true → File.syncfault (Disk.file d0) = false →
     ∀ a', a' ≈ upd a0 i (written d0 s data) → Q None a') →
  wp (withDisk i (Disk.WriteBlock s data)) Q a.
Proof.
  intros Hno Hsync Hyes. destruct current_disk as (w & r & Hd).
  pose proof (wf_array_disk_ok _ _ _ _ Hwf Hd0) as Hdok.
  set (d := Disk.set_readCount (Disk.set_writeCount d0 w) r) in *.
  assert (disk_ok (blockSize a0) nb d) as Hdok' by done.
  eapply wp_withDisk; [done|].
  destruct (writable d0 s data) eqn:Hw.
  - rewrite (WriteBlock_writable _ _ _ Hdok') by done.
    change (File.syncfault (Disk.file d)) with (File.syncfault (Disk.file d0)).
    destruct (File.syncfault (Disk.file d0)) eqn:Hs; simpl.
    + apply Hsync; try done. by apply same_data_upd.
    + apply Hyes; try done. by apply same_data_upd.
  - destruct (WriteBlock_unwritable _ _ _ Hdok' s data) as [e ->]; [done|]. simpl.
    rewrite upd_id by done. by apply Hno.
Qed.

End disk_ops.

(** ** The facade: bounds and buffer-size checks *)

Lemma WriteBlock_out_of_bounds sched a lbid data :
  lbid < 0 ∨ capacity a ≤ lbid →
  WriteBlock sched lbid data a = Some (Some (ELogicalOutOfBounds lbid (capacity a)), a).
Proof.
  intros Hb. unfold WriteBlock, bind, gets, ret.
  destruct Hb; zb; simpl; by rewrite ?orb_true_r.
Qed.

Lemma ReadBlock_out_of_bounds a lbid :
  lbid < 0 ∨ capacity a ≤ lbid →
  ReadBlock lbid a = Some (Err (ELogicalOutOfBounds lbid (capacity a)), a).
Proof.
  intros Hb. unfold ReadBlock, bind, gets.
  destruct Hb; zb; simpl; by rewrite ?orb_true_r.
Qed.

Lemma WriteBlock_bad_size sched a lbid data :
  0 ≤ lbid < capacity a → len data ≠ blockSize a →
  WriteBlock sched lbid data a = Some (Some (EDataSizeMismatch (blockSize a)), a).
Proof.
  intros Hb Hlen. unfold WriteBlock, bind, gets, ret. zb. simpl. by zb.
Qed.

(** Past the two checks the facade is the engine of the level. *)
Lemma WriteBlock_dispatch sched a lbid data :
  0 ≤ lbid < capacity a → len data = blockSize a →
  WriteBlock sched lbid data a =
    if level a =? RAID0 then raid0Impl.writeBlock lbid data a
    else if level a =? RAID1 then raid1Impl.writeBlock sched lbid data a
    else if level a =? RAID5 then raid5Impl.writeBlock lbid data a
    else Some (Some (EUnsupportedLevel (level a)), a).
Proof.
  intros Hb Hlen. unfold WriteBlock, bind, gets, ret, RAID0, RAID1, RAID5.
  zbs. by repeat case_match.
Qed.

Lemma ReadBlock_dispatch a lbid :
  0 ≤ lbid < capacity a →
  ReadBlock lbid a =
    if level a =? RAID0 then raid0Impl.readBlock lbid a
    else if level a =? RAID1 then raid1Impl.readBlock lbid a
    else if level a =? RAID5 then raid5Impl.readBlock lbid a
    else Some (Err (EUnsupportedLevel (level a)), a).
Proof.
  intros Hb. unfold ReadBlock, bind, gets, ret, RAID0, RAID1, RAID5.
  zbs. by repeat case_match.
Qed.

(** A write that returned [nil] passed both checks. *)
Lemma WriteBlock_ok_checked sched a lbid data a' :
  WriteBlock sched lbid data a = Some (None, a') →
  0 ≤ lbid < capacity a ∧ len data = blockSize a.
Proof.
  intros Hw.
  destruct (decide (lbid < 0 ∨ capacity a ≤ lbid)) as [Hb|Hb].
  { by rewrite WriteBlock_out_of_bounds in Hw. }
  destruct (decide (len data = blockSize a)) as [Hl|Hl]; [lia|].
  rewrite WriteBlock_bad_size in Hw by lia. done.
Qed.

(** ** [RebuildDisk]: the checks before the rebuild *)

Lemma withDisk_run {A} i (op : Disk.t → A * Disk.t) a d :
  disk_at a i = Some d → withDisk i op a = Some ((op d).1, upd a i (op d).2).
Proof.
  unfold disk_at, withDisk. intros Hd. destruct (i <? 0); [done|].
  rewrite Hd. by destruct (op d).
Qed.

Lemma withDisk_IsFailed a i d :
  disk_at a i = Some d → withDisk i Disk.IsFailed a = Some (Disk.failed d, a).
Proof.
  intros Hd. rewrite (withDisk_run _ _ _ _ Hd). simpl. by rewrite upd_id.
Qed.

Lemma is_failed_false a i :
  is_failed a i = false → ∃ d, disk_at a i = Some d ∧ Disk.failed d = false.
Proof. unfold is_failed. destruct (disk_at a i) as [d|]; [eauto|done]. Qed.

Lemma is_failed_true a i d :
  disk_at a i = Some d → is_failed a i = Disk.failed d.
Proof. unfold is_failed. by intros ->. Qed.

Lemma rebuildDisk_invalid a d :
  d < 0 ∨ numDisks a ≤ d →
  raid5Impl.rebuildDisk d a = Some (Some (EInvalidDiskIndex d), a).
Proof.
  intros Hd. unfold raid5Impl.rebuildDisk, bind, gets, ret.
  destruct Hd; zb; simpl; by rewrite ?orb_true_r.
Qed.

Lemma rebuildDisk_not_failed a d :
  0 ≤ d < numDisks a → is_failed a d = false →
  raid5Impl.rebuildDisk d a = Some (Some (ENotMarkedFailed d), a).
Proof.
  intros Hd (d0 & Hd0 & Hf)%is_failed_false.
  unfold raid5Impl.rebuildDisk, bind, gets, ret. zbs.
  rewrite (withDisk_IsFailed _ _ _ Hd0), Hf. done.
Qed.

(** ** disk.go: a read changes the counters at most *)

Lemma ReadBlock_strip s d : strip (Disk.ReadBlock s d).2 = strip d.
Proof.
  unfold Disk.ReadBlock. repeat case_match; done.
Qed.

Lemma ReadBlock_Err_same s d e :
  (Disk.ReadBlock s d).1 = Err e → (Disk.ReadBlock s d).2 = d.
Proof.
  unfold Disk.ReadBlock. repeat case_match; done.
Qed.

Lemma drop_lookup_head {A} (l : list A) k x rest :
  drop k l = x :: rest → l !! k = Some x ∧ drop (S k) l = rest.
Proof.
  intros Hd. split.
  - rewrite <- (Nat.add_0_r k), <- lookup_drop, Hd. done.
  - replace (S k) with (k + 1)%nat by lia. by rewrite <- drop_drop, Hd.
Qed.

(** ** raid1.go: the mirrored read *)

Section raid1_read.

Variables (a : RAIDArray) (lbid : Z).

Lemma raid1_read_loop rest :
  ∀ k lastErr, 0 ≤ k → drop (Z.to_nat k) (disks a) = rest →
  ∃ r a', for_ (seqZ k (len rest)) (raid1Impl.readBlock_body lbid) lastErr a = Some (r, a')
    ∧ a' ≈ a
    ∧ match r with
      | inr data =>
          ∃ i d, k ≤ i ∧ disk_at a i = Some d ∧ Disk.failed d = false
            ∧ (Disk.ReadBlock lbid d).1 = Ok data
            ∧ ∀ j, k ≤ j < i → unreadable_replica a lbid j
      | inl le =>
          le = last_read_error lbid rest lastErr
          ∧ ∀ j, k ≤ j → unreadable_replica a lbid j
      end.
Proof.
  induction rest as [|d rest IH]; intros k lastErr Hk Hdrop.
  - exists (inl lastErr), a. split_and!; [done..|].
    intros j Hj dj Hdj. apply disk_at_range in Hdj.
    apply (f_equal length) in Hdrop. rewrite length_drop in Hdrop.
    unfold len in *. simpl in Hdrop. lia.
  - apply drop_lookup_head in Hdrop as [Hd Hdrop].
    assert (disk_at a k = Some d) as Hdk by (unfold disk_at; by zb).
    replace (S (Z.to_nat k)) with (Z.to_nat (k + 1)) in Hdrop by lia.
    rewrite seqZ_cons by (unfold len; simpl; lia).
    replace (Z.pred (len (d :: rest))) with (len rest) by (unfold len; simpl; lia).
    replace (Z.succ k) with (k + 1) by lia.
    simpl. unfold bind at 1. unfold raid1Impl.readBlock_body at 1. unfold bind at 1.
    rewrite (withDisk_IsFailed _ _ _ Hdk).
    destruct (Disk.failed d) eqn:Hf.
    + unfold ret at 1.
      destruct (IH (k + 1) lastErr ltac:(lia) Hdrop) as (r & a' & -> & Ha' & Hr).
      exists r, a'. split_and!; [done..|].
      destruct r as [le|data].
      * destruct Hr as [-> Hr]. split; [done|].
        intros j Hj. destruct (decide (j = k)) as [->|]; [|apply Hr; lia].
        intros dj Hdj. left. congruence.
      * destruct Hr as (i & di & Hi & Hdi & Hfi & Hri & Hbefore).
        exists i, di. split_and!; try done; [lia|].
        intros j Hj. destruct (decide (j = k)) as [->|]; [|apply Hbefore; lia].
        intros dj Hdj. left. congruence.
    + unfold bind at 1. rewrite (withDisk_run _ _ _ _ Hdk).
      destruct (Disk.ReadBlock lbid d) as [[data|e] d'] eqn:Hrd; simpl.
      * exists (inr data), (upd a k d'). split_and!; [done| |].
        -- eapply same_data_upd_l; [done..|].
           by rewrite <- (ReadBlock_strip lbid d), Hrd.
        -- exists k, d. rewrite Hrd. split_and!; try done. intros j Hj. lia.
      * assert (d' = d) as ->.
        { rewrite <- (ReadBlock_Err_same lbid d e); by rewrite Hrd. }
        rewrite upd_id by done.
        destruct (IH (k + 1) (Some e) ltac:(lia) Hdrop) as (r & a' & -> & Ha' & Hr).
        exists r, a'. split_and!; [done..|].
        destruct r as [le|data].
        -- destruct Hr as [-> Hr].
           split; [done|].
           intros j Hj. destruct (decide (j = k)) as [->|]; [|apply Hr; lia].
           intros dj Hdj. right. exists e. replace dj with d by congruence.
           by rewrite Hrd.
        -- destruct Hr as (i & di & Hi & Hdi & Hfi & Hri & Hbefore).
           exists i, di. split_and!; try done; [lia|].
           intros j Hj. destruct (decide (j = k)) as [->|]; [|apply Hbefore; lia].
           intros dj Hdj. right. exists e. replace dj with d by congruence.
           by rewrite Hrd.
Qed.

End raid1_read.

(** ** raid1.go: the mirrored write *)

Section raid1_write.

Variables (lbid : Z) (data : list byte).

Local Abbreviation W := (Disk.WriteBlock lbid data).

Lemma spawn_spec rest :
  ∀ k a, 0 ≤ k → drop (Z.to_nat k) (disks a) = rest →
  raid1Impl.spawn (seqZ k (len rest)) lbid data a =
    Some (imap (λ j d, raid1Impl.mkResult (k + Z.of_nat j) (W d).1) rest,
          set_disks a (take (Z.to_nat k) (disks a) ++ ((λ d, (W d).2) <$> rest))).
Proof.
  induction rest as [|d rest IH]; intros k a Hk Hdrop.
  - simpl. unfold ret. rewrite app_nil_r.
    rewrite take_ge; [by destruct a|].
    apply (f_equal length) in Hdrop. rewrite length_drop in Hdrop. simpl in Hdrop. lia.
  - apply drop_lookup_head in Hdrop as [Hd Hdrop].
    assert (disk_at a k = Some d) as Hdk by (unfold disk_at; by zb).
    replace (S (Z.to_nat k)) with (Z.to_nat (k + 1)) in Hdrop by lia.
    rewrite seqZ_cons by (unfold len; simpl; lia).
    replace (Z.pred (len (d :: rest))) with (len rest) by (unfold len; simpl; lia).
    replace (Z.succ k) with (k + 1) by lia.
    simpl. unfold bind at 1. rewrite (withDisk_run _ _ _ _ Hdk).
    unfold bind at 1. rewrite (IH (k + 1) (upd a k (W d).2)); [|lia|].
    + unfold ret. simpl. f_equal. f_equal.
      * f_equal; [f_equal; lia|]. apply imap_ext. intros j x _. simpl.
        f_equal. lia.
      * unfold set_disks. simpl. f_equal.
        replace (Z.to_nat (k + 1)) with (S (Z.to_nat k)) by lia.
        assert (Z.to_nat k < length (disks a))%nat by (by eapply lookup_lt_Some).
        erewrite take_S_r by (by apply list_lookup_insert_eq).
        rewrite take_insert_ge by lia. by rewrite <- app_assoc.
    + simpl. rewrite drop_insert_lt by lia. done.
Qed.

Lemma omap_total {A B} (f : A → option B) (g : A → B) (l : list A) :
  (∀ x, x ∈ l → f x = Some (g x)) → omap f l = g <$> l.
Proof.
  induction l as [|x l IH]; intros Hf; [done|].
  change (omap f (x :: l))
    with (match f x with Some y => y :: omap f l | None => omap f l end).
  rewrite (Hf x) by (by left). rewrite IH; [done|].
  intros y Hy. apply Hf. by right.
Qed.

Section collect.

Variable errf : Z → option error.

Lemma successes_cons i sched :
  successes errf (i :: sched) =
    (match errf i with Some _ => 0 | None => 1 end) + successes errf sched.
Proof.
  unfold successes, len. destruct (errf i) eqn:He.
  - by rewrite filter_cons_False by congruence.
  - rewrite filter_cons_True by done. simpl. lia.
Qed.

Lemma failures_cons i sched :
  failures errf (i :: sched) =
    (match errf i with Some _ => [i] | None => [] end) ++ failures errf sched.
Proof.
  unfold failures. destruct (errf i) eqn:He.
  - by rewrite filter_cons_True by congruence.
  - by rewrite filter_cons_False by (intros Hn; by apply Hn).
Qed.

Lemma last_error_cons i sched :
  last_error errf (i :: sched) =
    match last_error errf sched with Some e => Some e | None => errf i end.
Proof.
  unfold last_error.
  change (omap errf (i :: sched))
    with (match errf i with Some y => y :: omap errf sched | None => omap errf sched end).
  destruct (errf i) as [e|]; [|by destruct (list.last _)].
  destruct (omap errf sched) as [|e' l]; [done|].
  rewrite last_cons_cons. destruct (list.last (e' :: l)) eqn:Hl; [done|].
  by apply last_None in Hl.
Qed.

Lemma collect_acc sched c le fd :
  foldl (λ '(successCount, lastErr, failedDisks) result,
           match raid1Impl.err result with
           | None => (successCount + 1, lastErr, failedDisks)
           | Some e => (successCount, Some e, failedDisks ++ [raid1Impl.diskIndex result])
           end)
        (c, le, fd) ((λ i, raid1Impl.mkResult i (errf i)) <$> sched)
  = (c + successes errf sched,
     match last_error errf sched with Some e => Some e | None => le end,
     fd ++ failures errf sched).
Proof.
  revert c le fd. induction sched as [|i sched IH]; intros c le fd.
  - simpl. unfold successes, failures, len. simpl.
    by rewrite Z.add_0_r, app_nil_r.
  - rewrite successes_cons, failures_cons, last_error_cons.
    rewrite fmap_cons. simpl. destruct (errf i) as [e|] eqn:He; rewrite IH.
    + rewrite <- app_assoc. simpl. by destruct (last_error errf sched).
    + simpl.
      replace (c + 1 + successes errf sched)
        with (c + (1 + successes errf sched)) by lia.
      by destruct (last_error errf sched).
Qed.

Lemma collect_spec sched :
  raid1Impl.collect ((λ i, raid1Impl.mkResult i (errf i)) <$> sched)
  = (successes errf sched, last_error errf sched, failures errf sched).
Proof.
  unfold raid1Impl.collect. rewrite collect_acc. simpl.
  by destruct (last_error errf sched).
Qed.

Lemma successes_failures sched :
  successes errf sched + len (failures errf sched) = len sched.
Proof.
  unfold successes, failures, len.
  rewrite <- (Permutation_length (filter_app_complement (λ i, errf i = None) sched)).
  rewrite length_app. lia.
Qed.

Lemma successes_zero sched :
  successes errf sched = 0 ↔ ∀ i, i ∈ sched → errf i ≠ None.
Proof.
  unfold successes, len. split.
  - intros Hz i Hi He.
    assert (i ∈ filter (λ i, errf i = None) sched) as Hin
      by (by apply list_elem_of_filter).
    destruct (filter (λ i, errf i = None) sched); [by apply elem_of_nil in Hin|].
    simpl in Hz. lia.
  - intros Hall. destruct (filter (λ i, errf i = None) sched) as [|i l] eqn:Hf;
      [done|].
    assert (i ∈ filter (λ i, errf i = None) sched) as Hin by (rewrite Hf; by left).
    apply list_elem_of_filter in Hin as [He Hi]. by destruct (Hall i Hi).
Qed.

Lemma successes_all sched :
  successes errf sched = len sched ↔ ∀ i, i ∈ sched → errf i = None.
Proof.
  pose proof (successes_failures sched) as Hsum. unfold failures, len in *.
  split.
  - intros Hs i Hi. destruct (errf i) eqn:He; [|done].
    assert (i ∈ filter (λ i, errf i ≠ None) sched) as Hin
      by (apply list_elem_of_filter; split; [congruence|done]).
    destruct (filter (λ i, errf i ≠ None) sched); [by apply elem_of_nil in Hin|].
    simpl in Hsum. lia.
  - intros Hall.
    destruct (filter (λ i, errf i ≠ None) sched) as [|i l] eqn:Hf;
      [simpl in Hsum; lia|].
    assert (i ∈ filter (λ i, errf i ≠ None) sched) as Hin by (rewrite Hf; by left).
    apply list_elem_of_filter in Hin as [He Hi]. by destruct He; apply Hall.
Qed.

End collect.

End raid1_write.

Lemma raid1_writeBlock_run sched a lbid data :
  numDisks a = len (disks a) →
  (∀ i, i ∈ sched → 0 ≤ i < numDisks a) →
  raid1Impl.writeBlock sched lbid data a =
    Some (let errf := write_err a lbid data in
          if successes errf sched =? 0 then
            Some (EAllDisksFailed (last_error errf sched))
          else if successes errf sched <? numDisks a then
            Some (EDegradedWrite (successes errf sched) (numDisks a)
                    (failures errf sched))
          else None,
          set_disks a ((λ d, (Disk.WriteBlock lbid data d).2) <$> disks a)).
Proof.
  intros Hlen Hsched. unfold raid1Impl.writeBlock, bind, gets.
  rewrite Hlen, (spawn_spec lbid data (disks a) 0 a) by done. simpl.
  assert (raid1Impl.channel sched
            (imap (λ j d, raid1Impl.mkResult (0 + Z.of_nat j)
                            (Disk.WriteBlock lbid data d).1) (disks a))
          = (λ i, raid1Impl.mkResult i (write_err a lbid data i)) <$> sched) as ->.
  { apply omap_total. intros i Hi. apply Hsched in Hi. zb.
    rewrite list_lookup_imap. unfold write_err, disk_at. zb.
    destruct (disks a !! Z.to_nat i) as [d|] eqn:Hd; simpl.
    - do 2 f_equal. lia.
    - apply lookup_ge_None in Hd. unfold len in *. lia. }
  rewrite collect_spec. rewrite <- Hlen. unfold ret.
  by repeat case_match.
Qed.

(** ** Observations do not depend on the counters *)

Lemma same_data_disks a b i :
  a ≈ b →
  match disk_at a i, disk_at b i with
  | Some d, Some d' => ∃ w r, d = Disk.set_readCount (Disk.set_writeCount d' w) r
  | None, None => True
  | _, _ => False
  end.
Proof.
  intros Hab.
  destruct (disk_at b i) as [d'|] eqn:Hb.
  - destruct (same_data_disk_at _ _ _ _ Hab Hb) as (d & -> & Hs).
    by apply strip_inv.
  - destruct (disk_at a i) as [d|] eqn:Ha; [|done].
    symmetry in Hab. destruct (same_data_disk_at _ _ _ _ Hab Ha) as (? & ? & _).
    congruence.
Qed.

Ltac same_obs Hab i :=
  let H := fresh in
  pose proof (same_data_disks _ _ i Hab) as H;
  repeat match goal with
    | |- context [disk_at ?x i] => destruct (disk_at x i)
    end;
  try done; destruct H as (? & ? & ->); done.

Lemma blk_same a b i s : a ≈ b → blk a i s = blk b i s.
Proof. intros Hab. unfold blk. same_obs Hab i. Qed.

Lemma is_failed_same a b i : a ≈ b → is_failed a i = is_failed b i.
Proof. intros Hab. unfold is_failed. same_obs Hab i. Qed.

Lemma can_read_same a b i s : a ≈ b → can_read a i s = can_read b i s.
Proof. intros Hab. unfold can_read. same_obs Hab i. Qed.

Lemma can_write_same a b i s data : a ≈ b → can_write a i s data = can_write b i s data.
Proof. intros Hab. unfold can_write. same_obs Hab i. Qed.

Lemma xor_all_ext {A} (f g : A → list byte) acc (l : list A) :
  (∀ x, x ∈ l → f x = g x) → xor_all acc (f <$> l) = xor_all acc (g <$> l).
Proof.
  intros Hfg. f_equal. apply list_fmap_ext. intros i x Hx. apply Hfg.
  by eapply list_elem_of_lookup_2.
Qed.

Lemma stripe_xor_same a b s : a ≈ b → stripe_xor a s = stripe_xor b s.
Proof.
  intros Hab. destruct (same_data_static _ _ Hab) as (_ & Hb & Hn & _).
  unfold stripe_xor. rewrite Hb, Hn. apply xor_all_ext. intros i _.
  by apply blk_same.
Qed.

Lemma others_xor_same a b d s : a ≈ b → others_xor a d s = others_xor b d s.
Proof.
  intros Hab. destruct (same_data_static _ _ Hab) as (_ & Hb & Hn & _).
  unfold others_xor. rewrite Hb, Hn. apply xor_all_ext. intros i _.
  by apply blk_same.
Qed.

Lemma parity_inv_same a b nb : a ≈ b → parity_inv b nb → parity_inv a nb.
Proof.
  intros Hab Hinv s Hs. destruct (same_data_static _ _ Hab) as (_ & Hb & _).
  rewrite (stripe_xor_same _ _ _ Hab), Hb. by apply Hinv.
Qed.

Lemma put_same a b i s data : a ≈ b → put a i s data ≈ put b i s data.
Proof.
  intros Hab. unfold put. pose proof (same_data_disks _ _ i Hab) as H.
  destruct (disk_at a i), (disk_at b i); try done.
  destruct H as (w & r & ->). by apply same_data_upd.
Qed.

(** ** Observations after the update of one disk *)

Section upd_obs.

Variables (a : RAIDArray) (i : Z) (d d0 : Disk.t).
Hypothesis Hd0 : disk_at a i = Some d0.

Lemma blk_upd j s :
  blk (upd a i d) j s = if decide (i = j) then block_of d s else blk a j s.
Proof. unfold blk. rewrite (disk_at_upd _ _ _ _ _ Hd0). by case_decide. Qed.

Lemma is_failed_upd j :
  is_failed (upd a i d) j = if decide (i = j) then Disk.failed d else is_failed a j.
Proof. unfold is_failed. rewrite (disk_at_upd _ _ _ _ _ Hd0). by case_decide. Qed.

Lemma can_read_upd j s :
  can_read (upd a i d) j s = if decide (i = j) then readable d s else can_read a j s.
Proof. unfold can_read. rewrite (disk_at_upd _ _ _ _ _ Hd0). by case_decide. Qed.

Lemma can_write_upd j s data :
  can_write (upd a i d) j s data =
    if decide (i = j) then writable d s data && negb (File.syncfault (Disk.file d))
    else can_write a j s data.
Proof. unfold can_write. rewrite (disk_at_upd _ _ _ _ _ Hd0). by case_decide. Qed.

End upd_obs.

Lemma can_read_Some a i s :
  can_read a i s = true → ∃ d, disk_at a i = Some d ∧ readable d s = true.
Proof. unfold can_read. destruct (disk_at a i) as [d|]; [eauto|done]. Qed.

Lemma can_write_Some a i s data :
  can_write a i s data = true →
  ∃ d, disk_at a i = Some d ∧ writable d s data = true
       ∧ File.syncfault (Disk.file d) = false.
Proof.
  unfold can_write. destruct (disk_at a i) as [d|]; [|done].
  intros H. bool_hyps. eauto.
Qed.

Lemma can_read_not_failed a i s : can_read a i s = true → is_failed a i = false.
Proof.
  intros (d & Hd & Hr)%can_read_Some. rewrite (is_failed_true _ _ _ Hd).
  unfold readable in Hr. by bool_hyps.
Qed.

(** ** Observations after a block write *)

Section put_obs.

Variables (a : RAIDArray) (nb : Z) (i s : Z) (data : list byte) (d : Disk.t).
Hypothesis Hwf : wf_array a nb.
Hypothesis Hd : disk_at a i = Some d.
Hypothesis Hw : writable d s data = true.

Lemma put_upd : put a i s data = upd a i (written d s data).
Proof. unfold put. by rewrite Hd. Qed.

Lemma wf_array_put : wf_array (put a i s data) nb.
Proof.
  rewrite put_upd. eapply wf_array_upd; [done..|].
  pose proof (wf_array_disk_ok _ _ _ _ Hwf Hd) as Hok.
  by destruct (written_ok _ _ _ Hok s data Hw).
Qed.

Lemma blk_put_same : blk (put a i s data) i s = data.
Proof.
  rewrite put_upd, (blk_upd _ _ _ _ Hd), decide_True by done.
  eapply written_block_same; [by eapply wf_array_disk_ok|done].
Qed.

Lemma blk_put_other j s' :
  j ≠ i ∨ s' ≠ s → 0 ≤ s' → blk (put a i s data) j s' = blk a j s'.
Proof.
  intros Hne Hs'. rewrite put_upd, (blk_upd _ _ _ _ Hd).
  case_decide as Hij; [|done]. subst j.
  unfold blk. rewrite Hd.
  eapply written_block_other; [by eapply wf_array_disk_ok|done..|].
  by destruct Hne.
Qed.

Lemma is_failed_put j : is_failed (put a i s data) j = is_failed a j.
Proof.
  rewrite put_upd, (is_failed_upd _ _ _ _ Hd). case_decide; [|done].
  subst. by rewrite (is_failed_true _ _ _ Hd).
Qed.

Lemma can_read_put j s' : can_read (put a i s data) j s' = can_read a j s'.
Proof.
  rewrite put_upd, (can_read_upd _ _ _ _ Hd). case_decide; [|done].
  subst. unfold can_read. by rewrite Hd.
Qed.

Lemma can_write_put j s' data' :
  can_write (put a i s data) j s' data' = can_write a j s' data'.
Proof.
  rewrite put_upd, (can_write_upd _ _ _ _ Hd). case_decide; [|done].
  subst. unfold can_write. by rewrite Hd.
Qed.

End put_obs.

(** Writing back the block that is there leaves the store as it is. *)
Lemma put_id a nb i s :
  wf_array a nb → 0 ≤ i < numDisks a → 0 ≤ s < nb → put a i s (blk a i s) = a.
Proof.
  intros Hwf Hi Hs. destruct (wf_array_disk _ _ _ Hwf Hi) as [d Hd].
  unfold put, blk. rewrite Hd.
  rewrite (written_same _ _ _ (wf_array_disk_ok _ _ _ _ Hwf Hd)) by done.
  by apply upd_id.
Qed.

Lemma blk_length a nb i s :
  wf_array a nb → 0 ≤ i < numDisks a → 0 ≤ s < nb →
  length (blk a i s) = Z.to_nat (blockSize a).
Proof.
  intros Hwf Hi Hs. destruct (wf_array_disk _ _ _ Hwf Hi) as [d Hd].
  unfold blk. rewrite Hd.
  by apply (block_of_length _ _ _ (wf_array_disk_ok _ _ _ _ Hwf Hd)).
Qed.

(** ** The disk operations in terms of the observations *)

Section array_ops.

Variables (a0 : RAIDArray) (nb : Z).
Hypothesis Hwf : wf_array a0 nb.
Variables (a : RAIDArray) (i : Z).
Hypothesis Ha : a ≈ a0.
Hypothesis Hi : 0 ≤ i < numDisks a0.

Lemma wp_isfailed Q :
  Q (is_failed a0 i) a → wp (withDisk i Disk.IsFailed) Q a.
Proof.
  intros HQ. destruct (wf_array_disk _ _ _ Hwf Hi) as [d Hd].
  eapply wp_IsFailed; [done..|]. by rewrite <- (is_failed_true _ _ _ Hd).
Qed.

Lemma wp_capacity Q : Q nb a → wp (withDisk i Disk.Capacity) Q a.
Proof.
  intros HQ. destruct (wf_array_disk _ _ _ Hwf Hi) as [d Hd].
  eapply wp_Capacity; [done..|].
  destruct (disk_ok_fields _ _ _ (wf_array_disk_ok _ _ _ _ Hwf Hd)) as (_ & -> & _).
  done.
Qed.

Lemma wp_setfailed b Q :
  (∀ a', a' ≈ set_failed i b a0 → Q tt a') →
  wp (withDisk i (Disk.SetFailed b)) Q a.
Proof.
  intros HQ. destruct (wf_array_disk _ _ _ Hwf Hi) as [d Hd].
  eapply wp_SetFailed; [done..|]. intros a' Ha'. apply HQ.
  unfold set_failed. by rewrite Hd.
Qed.

Lemma wp_read s Q :
  (can_read a0 i s = true → ∀ a', a' ≈ a0 → Q (Ok (blk a0 i s)) a') →
  (can_read a0 i s = false → ∀ e, Q (Err e) a) →
  wp (withDisk i (Disk.ReadBlock s)) Q a.
Proof.
  intros Hok Herr. destruct (wf_array_disk _ _ _ Hwf Hi) as [d Hd].
  unfold can_read, blk in *. rewrite Hd in *.
  by eapply wp_ReadBlock.
Qed.

Lemma wp_write s data Q :
  (can_write a0 i s data = true → ∀ a', a' ≈ put a0 i s data → Q None a') →
  (can_write a0 i s data = false →
     ∀ e a', a' ≈ a0 ∨ wf_array (put a0 i s data) nb ∧ a' ≈ put a0 i s data →
             Q (Some e) a') →
  wp (withDisk i (Disk.WriteBlock s data)) Q a.
Proof.
  intros Hok Herr. destruct (wf_array_disk _ _ _ Hwf Hi) as [d Hd].
  unfold can_write, put in *. rewrite Hd in *.
  eapply wp_WriteBlock; [done..| | |].
  - intros Hw e. rewrite Hw in *. apply Herr; [done|]. by left.
  - intros Hw Hs a' e Ha'. rewrite Hw, Hs in *. apply Herr; [done|]. right.
    split; [|done]. rewrite <- (put_upd a0 i s data d Hd).
    by eapply wf_array_put.
  - intros Hw Hs a' Ha'. rewrite Hw, Hs in *. by apply Hok.
Qed.

End array_ops.

(** ** Loops that XOR the blocks of a stripe

    The three sibling loops of raid5.go have the same shape: an index is
    either skipped or its block is read and folded into the accumulator. *)

Lemma xor_loop {R} (a0 : RAIDArray) (body : Z → list byte → M (ctl (list byte) R))
    (rel : Z → Prop) `{!∀ i, Decision (rel i)} (idx : Z → Z) (st : Z) (ixs : list Z) :
  (∀ i acc a, i ∈ ixs → a ≈ a0 →
     wp (body i acc)
        (λ c a', a' ≈ a0 ∧
           match c with
           | Continue x =>
               if decide (rel i)
               then can_read a0 (idx i) st = true
                    ∧ x = xorBytes acc (blk a0 (idx i) st)
               else x = acc
           | Break _ => False
           | Return _ => rel i ∧ can_read a0 (idx i) st = false
           end) a) →
  ∀ init a, a ≈ a0 →
    wp (for_ ixs body init)
       (λ r a', a' ≈ a0 ∧
          match r with
          | inl x =>
              x = xor_all init ((λ i, blk a0 (idx i) st) <$> filter rel ixs)
              ∧ ∀ i, i ∈ ixs → rel i → can_read a0 (idx i) st = true
          | inr _ => ∃ i, i ∈ ixs ∧ rel i ∧ can_read a0 (idx i) st = false
          end) a.
Proof.
  intros Hbody init a Ha.
  eapply wp_mono.
  - apply (wp_for
             (λ done acc a, a ≈ a0
                ∧ acc = xor_all init ((λ i, blk a0 (idx i) st) <$> filter rel done)
                ∧ ∀ i, i ∈ done → rel i → can_read a0 (idx i) st = true)
             (λ _ _, False)
             (λ (_ : R) a', a' ≈ a0
                ∧ ∃ i, i ∈ ixs ∧ rel i ∧ can_read a0 (idx i) st = false)).
    + intros done i rest acc b Hixs (Hb & Hacc & Hdone).
      assert (i ∈ ixs) as Hi by (rewrite Hixs; apply elem_of_app; right; by left).
      eapply wp_mono; [by apply Hbody|].
      intros [x|x|r] b' [Hb' Hc]; [|done|by eauto].
      split; [done|]. rewrite filter_app, fmap_app, xor_all_app, <- Hacc.
      case_decide as Hrel.
      * destruct Hc as [Hr ->]. rewrite filter_cons_True, filter_nil by done.
        split; [done|]. intros j [Hj|Hj%list_elem_of_singleton]%elem_of_app ?;
          [by apply Hdone|by subst].
      * subst x. rewrite filter_cons_False, filter_nil by done.
        split; [done|]. intros j [Hj|Hj%list_elem_of_singleton]%elem_of_app ?;
          [by apply Hdone|by subst].
    + split_and!; [done..|]. by intros j Hj%elem_of_nil.
  - intros [x|r] a'; simpl; [|done]. by intros [(? & ? & ?)|[]].
Qed.

(** ** The arithmetic of the level-5 layout *)

Lemma skip_parity_lt p i : i < p → skip_parity p i = i.
Proof. intros. unfold skip_parity. by zb. Qed.

Lemma skip_parity_ge p i : p ≤ i → skip_parity p i = i + 1.
Proof. intros. unfold skip_parity. by zb. Qed.

Lemma skip_parity_range p i n :
  0 ≤ p < n → 0 ≤ i < n - 1 → 0 ≤ skip_parity p i < n ∧ skip_parity p i ≠ p.
Proof.
  intros Hp Hi. destruct (decide (i < p)).
  - rewrite skip_parity_lt by done. lia.
  - rewrite skip_parity_ge by lia. lia.
Qed.

Lemma skip_parity_inj p i j : skip_parity p i = skip_parity p j → i = j.
Proof.
  unfold skip_parity. intros. repeat case_match; bool_hyps; lia.
Qed.

(** Every disk but the parity disk is the disk of exactly one data
    position: the data positions, in order, enumerate the disks below the
    parity disk and then those above it. *)
Lemma skip_parity_seq p n :
  0 ≤ p < n →
  skip_parity p <$> seqZ 0 (n - 1) = seqZ 0 p ++ seqZ (p + 1) (n - 1 - p).
Proof.
  intros Hp. replace (n - 1) with (p + (n - 1 - p)) at 1 by lia.
  rewrite seqZ_app, fmap_app by lia. f_equal.
  - rewrite <- (list_fmap_id (seqZ 0 p)) at 2. apply list_fmap_ext.
    intros k i Hi%list_elem_of_lookup_2%elem_of_seqZ. unfold id.
    apply skip_parity_lt. lia.
  - replace (p + 1) with (1 + p) by lia. replace (0 + p) with p by lia.
    rewrite <- fmap_add_seqZ. apply list_fmap_ext.
    intros k i Hi%list_elem_of_lookup_2%elem_of_seqZ.
    rewrite skip_parity_ge by lia. lia.
Qed.

Lemma seqZ_split p n :
  0 ≤ p < n → seqZ 0 n = seqZ 0 p ++ p :: seqZ (p + 1) (n - 1 - p).
Proof.
  intros Hp. replace n with (p + (n - p)) at 1 by lia.
  rewrite seqZ_app by lia. f_equal. rewrite seqZ_cons by lia. simpl.
  f_equal. f_equal; lia.
Qed.

Lemma disks_perm p n :
  0 ≤ p < n → seqZ 0 n ≡ₚ p :: (skip_parity p <$> seqZ 0 (n - 1)).
Proof.
  intros Hp. rewrite (seqZ_split p n), skip_parity_seq by done.
  by rewrite <- Permutation_middle.
Qed.

Lemma filter_all {A} (P : A → Prop) `{!∀ x, Decision (P x)} (l : list A) :
  (∀ x, x ∈ l → P x) → filter P l = l.
Proof.
  induction l as [|y l IH]; intros Hall; [done|].
  rewrite filter_cons_True by (apply Hall; by left).
  f_equal. apply IH. intros z Hz. apply Hall. by right.
Qed.

Lemma extract_perm (l : list Z) x :
  NoDup l → x ∈ l → l ≡ₚ x :: filter (λ y, y ≠ x) l.
Proof.
  induction l as [|y l IH]; intros Hnd Hx; [by apply elem_of_nil in Hx|].
  apply NoDup_cons in Hnd as [Hy Hnd].
  destruct (decide (y = x)) as [->|Hne].
  - rewrite filter_cons_False by (intros Hn; by apply Hn).
    rewrite filter_all; [done|]. intros z Hz ->. done.
  - apply elem_of_cons in Hx as [->|Hx]; [done|].
    rewrite filter_cons_True by done.
    rewrite (IH Hnd Hx) at 1. apply perm_swap.
Qed.

Lemma copy_same_length (dst src : list byte) :
  length dst = length src → copy dst src = src.
Proof.
  intros Hl. unfold copy. rewrite Hl, firstn_all, drop_ge by lia.
  apply app_nil_r.
Qed.

Lemma make_length n : length (make n) = Z.to_nat n.
Proof. apply length_replicate. Qed.

Lemma is_failed_can_read a i s : is_failed a i = true → can_read a i s = false.
Proof.
  intros Hf. destruct (can_read a i s) eqn:Hr; [|done].
  apply can_read_not_failed in Hr. congruence.
Qed.

Lemma wp_numDisks a a0 Q : a ≈ a0 → Q (numDisks a0) a → wp (gets numDisks) Q a.
Proof.
  intros Ha HQ. apply wp_gets.
  by destruct (same_data_static _ _ Ha) as (_ & _ & -> & _).
Qed.

Lemma wp_blockSize a a0 Q : a ≈ a0 → Q (blockSize a0) a → wp (gets blockSize) Q a.
Proof.
  intros Ha HQ. apply wp_gets.
  by destruct (same_data_static _ _ Ha) as (_ & -> & _).
Qed.

(** ** raid5.go: reconstruction of a block from the rest of its stripe *)

Section raid5_reconstruct.

Variables (a0 : RAIDArray) (nb : Z).
Hypothesis Hwf : wf_array a0 nb.
Variables (st m p : Z).
Hypothesis Hp : 0 ≤ p < numDisks a0.

Lemma reconstructBlock_body_spec i acc a :
  i ∈ seqZ 0 (numDisks a0) → a ≈ a0 →
  wp (raid5Impl.reconstructBlock_body st m p i acc)
     (λ c a', a' ≈ a0 ∧
        match c with
        | Continue x =>
            if decide (i ≠ p ∧ i ≠ m)
            then can_read a0 i st = true ∧ x = xorBytes acc (blk a0 i st)
            else x = acc
        | Break _ => False
        | Return _ => (i ≠ p ∧ i ≠ m) ∧ can_read a0 i st = false
        end) a.
Proof.
  intros Hi%elem_of_seqZ Ha. unfold raid5Impl.reconstructBlock_body.
  destruct ((i =? p) || (i =? m)) eqn:Hskip.
  { apply wp_ret. split; [done|]. rewrite decide_False; [done|].
    apply orb_true_iff in Hskip as [?|?]; bool_hyps; lia. }
  apply orb_false_iff in Hskip as [? ?]. bool_hyps.
  apply wp_bind. eapply wp_isfailed; [done..|lia|].
  destruct (is_failed a0 i) eqn:Hf.
  { apply wp_ret. split_and!; try done. by apply is_failed_can_read. }
  apply wp_bind. eapply wp_read; [done..|lia| |].
  - intros Hr a' Ha'. apply wp_ret. split; [done|].
    by rewrite decide_True by done.
  - intros Hr e. apply wp_ret. by split_and!.
Qed.

Lemma reconstructBlock_spec a :
  a ≈ a0 →
  wp (raid5Impl.reconstructBlock st m p)
     (λ r a', a' ≈ a0 ∧
        match r with
        | Ok x =>
            can_read a0 p st = true
            ∧ (∀ i, 0 ≤ i < numDisks a0 → i ≠ p ∧ i ≠ m → can_read a0 i st = true)
            ∧ x = xor_all (blk a0 p st)
                    ((λ i, blk a0 i st)
                       <$> filter (λ i, i ≠ p ∧ i ≠ m) (seqZ 0 (numDisks a0)))
        | Err _ =>
            can_read a0 p st = false
            ∨ ∃ i, 0 ≤ i < numDisks a0 ∧ (i ≠ p ∧ i ≠ m) ∧ can_read a0 i st = false
        end) a.
Proof.
  intros Ha. unfold raid5Impl.reconstructBlock.
  apply wp_bind. eapply wp_isfailed; [done..|].
  destruct (is_failed a0 p) eqn:Hf.
  { apply wp_ret. split; [done|]. left. by apply is_failed_can_read. }
  apply wp_bind. eapply wp_read; [done..| |].
  2:{ intros Hr e. apply wp_ret. split; [done|]. by left. }
  intros Hr a' Ha'. apply wp_bind. eapply wp_numDisks; [done|].
  apply wp_bind.
  eapply wp_mono.
  { apply (xor_loop a0 _ (λ i, i ≠ p ∧ i ≠ m) (λ i, i) st); [|done].
    intros i acc b Hi Hb. by apply reconstructBlock_body_spec. }
  intros [x|e] b [Hb Hpost]; apply wp_ret; (split; [done|]).
  - destruct Hpost as [-> Hall]. split_and!; try done.
    intros i Hi Hrel. apply Hall; [|done]. apply elem_of_seqZ. lia.
  - right. destruct Hpost as (i & Hi%elem_of_seqZ & Hrel & Hcr).
    exists i. split_and!; try done; lia.
Qed.

End raid5_reconstruct.

(** The code computes the layout of the specification. *)
Lemma layout_code n lbid :
  2 ≤ n → 0 ≤ lbid →
  Z.quot lbid (n - 1) = spec_stripe n lbid
  ∧ Z.rem lbid (n - 1) = spec_stripe_offset n lbid
  ∧ Z.rem (spec_stripe n lbid) n = spec_parity_disk n lbid
  ∧ skip_parity (spec_parity_disk n lbid) (spec_stripe_offset n lbid)
    = spec_data_disk n lbid.
Proof.
  intros Hn Hl. unfold spec_data_disk, spec_parity_disk, spec_stripe_offset,
    spec_stripe, skip_parity.
  assert (0 ≤ lbid `div` (n - 1)) by (apply Z.div_pos; lia).
  split_and!.
  - apply Z.quot_div_nonneg; lia.
  - apply Z.rem_mod_nonneg; lia.
  - apply Z.rem_mod_nonneg; lia.
  - rewrite Z.geb_leb. repeat case_match; bool_hyps; lia.
Qed.

Lemma layout_ranges n nb lbid :
  2 ≤ n → 0 ≤ lbid < nb * (n - 1) →
  0 ≤ spec_stripe n lbid < nb
  ∧ 0 ≤ spec_stripe_offset n lbid < n - 1
  ∧ 0 ≤ spec_parity_disk n lbid < n
  ∧ 0 ≤ spec_data_disk n lbid < n
  ∧ spec_data_disk n lbid ≠ spec_parity_disk n lbid.
Proof.
  intros Hn Hl.
  assert (0 ≤ spec_stripe n lbid < nb) as Hst.
  { unfold spec_stripe. split; [apply Z.div_pos; lia|].
    apply Z.div_lt_upper_bound; lia. }
  assert (0 ≤ spec_stripe_offset n lbid < n - 1) as Hoff
    by (apply Z.mod_pos_bound; lia).
  assert (0 ≤ spec_parity_disk n lbid < n) as Hp
    by (apply Z.mod_pos_bound; lia).
  destruct (layout_code n lbid) as (_ & _ & _ & <-); [lia..|].
  pose proof (skip_parity_range _ _ n Hp Hoff). lia.
Qed.

Lemma wf_array_n a nb : wf_array a nb → 2 ≤ numDisks a.
Proof. by intros []. Qed.

(** ** raid5.go: [readBlock] *)

Section raid5_read.

Variables (a0 : RAIDArray) (nb : Z).
Hypothesis Hwf : wf_array a0 nb.
Variable lbid : Z.
Hypothesis Hlbid : 0 ≤ lbid < nb * (numDisks a0 - 1).

Local Abbreviation n := (numDisks a0).
Local Abbreviation st := (spec_stripe (numDisks a0) lbid).
Local Abbreviation p := (spec_parity_disk (numDisks a0) lbid).
Local Abbreviation dd := (spec_data_disk (numDisks a0) lbid).

Lemma readBlock_spec a :
  a ≈ a0 →
  wp (raid5Impl.readBlock lbid)
     (λ r a', a' ≈ a0 ∧
        match r with
        | Ok x =>
            can_read a0 dd st = true ∧ x = blk a0 dd st
            ∨ can_read a0 dd st = false
              ∧ can_read a0 p st = true
              ∧ (∀ i, 0 ≤ i < n → i ≠ p ∧ i ≠ dd → can_read a0 i st = true)
              ∧ x = xor_all (blk a0 p st)
                      ((λ i, blk a0 i st)
                         <$> filter (λ i, i ≠ p ∧ i ≠ dd) (seqZ 0 n))
        | Err _ =>
            can_read a0 dd st = false
            ∧ (can_read a0 p st = false
               ∨ ∃ i, 0 ≤ i < n ∧ (i ≠ p ∧ i ≠ dd) ∧ can_read a0 i st = false)
        end) a.
Proof.
  intros Ha. pose proof (wf_array_n _ _ Hwf) as Hn.
  destruct (layout_code n lbid) as (Hq & Hr & Hpd & Hdd); [lia..|].
  destruct (layout_ranges n nb lbid) as (Hst & Hoff & Hp & Hd & Hne); [lia..|].
  unfold raid5Impl.readBlock.
  apply wp_bind. eapply wp_numDisks; [done|].
  apply wp_bind. apply wp_int_quot; [lia|]. rewrite Hq.
  apply wp_bind. apply wp_int_rem; [lia|]. rewrite Hr.
  apply wp_bind. apply wp_int_rem; [lia|]. rewrite Hpd.
  fold (skip_parity p (spec_stripe_offset n lbid)). rewrite Hdd.
  apply wp_bind. eapply wp_isfailed; [done..|].
  assert (∀ b, b ≈ a0 → can_read a0 dd st = false →
            wp (raid5Impl.reconstructBlock st dd p)
               (λ r a', a' ≈ a0 ∧
                  match r with
                  | Ok x =>
                      can_read a0 dd st = true ∧ x = blk a0 dd st
                      ∨ can_read a0 dd st = false
                        ∧ can_read a0 p st = true
                        ∧ (∀ i, 0 ≤ i < n → i ≠ p ∧ i ≠ dd → can_read a0 i st = true)
                        ∧ x = xor_all (blk a0 p st)
                                ((λ i, blk a0 i st)
                                   <$> filter (λ i, i ≠ p ∧ i ≠ dd) (seqZ 0 n))
                  | Err _ =>
                      can_read a0 dd st = false
                      ∧ (can_read a0 p st = false
                         ∨ ∃ i, 0 ≤ i < n ∧ (i ≠ p ∧ i ≠ dd)
                                ∧ can_read a0 i st = false)
                  end) b) as Hrec.
  { intros b Hb Hcr. eapply wp_mono; [by eapply reconstructBlock_spec|].
    intros [x|e] b' [Hb' Hpost]; (split; [done|]).
    - right. by destruct Hpost as (? & ? & ?).
    - done. }
  destruct (is_failed a0 dd) eqn:Hf; simpl.
  { apply wp_bind, wp_ret. apply Hrec; [done|]. by apply is_failed_can_read. }
  apply wp_bind, wp_bind. eapply wp_read; [done..| |].
  - intros Hcr a' Ha'. apply wp_ret, wp_ret. split; [done|]. by left.
  - intros Hcr e. apply wp_ret. by apply Hrec.
Qed.

End raid5_read.

Lemma numDisks_put a i s data : numDisks (put a i s data) = numDisks a.
Proof. unfold put. by destruct (disk_at a i). Qed.

Lemma blockSize_put a i s data : blockSize (put a i s data) = blockSize a.
Proof. unfold put. by destruct (disk_at a i). Qed.

(** ** raid5.go: [writeBlock] *)

Section raid5_write.

Variables (a0 : RAIDArray) (nb : Z).
Hypothesis Hwf : wf_array a0 nb.
Variables (lbid : Z) (data : list byte).
Hypothesis Hlbid : 0 ≤ lbid < nb * (numDisks a0 - 1).
Hypothesis Hdata : len data = blockSize a0.

Local Abbreviation n := (numDisks a0).
Local Abbreviation st := (spec_stripe (numDisks a0) lbid).
Local Abbreviation off := (spec_stripe_offset (numDisks a0) lbid).
Local Abbreviation p := (spec_parity_disk (numDisks a0) lbid).
Local Abbreviation dd := (spec_data_disk (numDisks a0) lbid).

(** The data positions whose block enters the new parity: the siblings of
    the written position that are on a disk not marked failed. *)
Local Abbreviation live :=
  (λ i, i ≠ off ∧ is_failed a0 (skip_parity p i) = false).

Local Abbreviation new_parity := (write_parity a0 lbid data).

Lemma writeBlock_body_spec i acc a :
  i ∈ seqZ 0 (n - 1) → a ≈ a0 →
  wp (raid5Impl.writeBlock_body st off p i acc)
     (λ c a', a' ≈ a0 ∧
        match c with
        | Continue x =>
            if decide (live i)
            then can_read a0 (skip_parity p i) st = true
                 ∧ x = xorBytes acc (blk a0 (skip_parity p i) st)
            else x = acc
        | Break _ => False
        | Return _ => live i ∧ can_read a0 (skip_parity p i) st = false
        end) a.
Proof.
  intros Hi%elem_of_seqZ Ha. pose proof (wf_array_n _ _ Hwf) as Hn.
  destruct (layout_ranges n nb lbid) as (Hst & Hoff & Hp & Hd & Hne); [lia..|].
  destruct (skip_parity_range p i n) as [Hsk _]; [lia..|].
  unfold raid5Impl.writeBlock_body. fold (skip_parity p i).
  destruct (i =? off) eqn:Hio; bool_hyps.
  { apply wp_ret. split; [done|]. rewrite decide_False; [done|]. by intros []. }
  apply wp_bind. eapply wp_isfailed; [done..|].
  destruct (is_failed a0 (skip_parity p i)) eqn:Hf.
  { apply wp_ret. split; [done|]. rewrite decide_False; [done|]. by intros []. }
  apply wp_bind. eapply wp_read; [done..| |].
  - intros Hr a' Ha'. apply wp_ret. split; [done|].
    by rewrite decide_True by done.
  - intros Hr e. apply wp_ret. by split_and!.
Qed.

Lemma writeBlock_spec a :
  a ≈ a0 →
  wp (raid5Impl.writeBlock lbid data)
     (λ r a',
        match r with
        | None =>
            (∀ i, 0 ≤ i < n - 1 → live i → can_read a0 (skip_parity p i) st = true)
            ∧ (is_failed a0 p = false → can_write a0 p st new_parity = true)
            ∧ can_write a0 dd st data = true
            ∧ wf_array (after_parity a0 lbid data) nb
            ∧ a' ≈ put (after_parity a0 lbid data) dd st data
        | Some _ =>
            (∃ i, 0 ≤ i < n - 1 ∧ live i ∧ can_read a0 (skip_parity p i) st = false)
            ∨ (is_failed a0 p = false ∧ can_write a0 p st new_parity = false)
            ∨ can_write a0 dd st data = false
        end) a.
Proof.
  intros Ha. pose proof (wf_array_n _ _ Hwf) as Hn.
  destruct (layout_code n lbid) as (Hq & Hr & Hpd & Hdd); [lia..|].
  destruct (layout_ranges n nb lbid) as (Hst & Hoff & Hp & Hd & Hne); [lia..|].
  unfold raid5Impl.writeBlock, after_parity, write_parity.
  apply wp_bind. eapply wp_numDisks; [done|].
  apply wp_bind. apply wp_int_quot; [lia|]. rewrite Hq.
  apply wp_bind. apply wp_int_rem; [lia|]. rewrite Hr.
  apply wp_bind. apply wp_int_rem; [lia|]. rewrite Hpd.
  fold (skip_parity p off). rewrite Hdd.
  apply wp_bind. eapply wp_blockSize; [done|].
  apply wp_bind. apply wp_mmake; [pose proof (wf_bs _ _ Hwf); lia|].
  rewrite copy_same_length
    by (rewrite make_length; unfold len in Hdata; pose proof (wf_bs _ _ Hwf); lia).
  apply wp_bind. eapply wp_mono.
  { apply (xor_loop a0 _ live (skip_parity p) st); [|done].
    intros i acc b Hi Hb. by apply writeBlock_body_spec. }
  intros [x|e] b [Hb Hpost].
  2:{ apply wp_ret. left. destruct Hpost as (i & Hi%elem_of_seqZ & [? ?] & Hcr).
      exists i. split_and!; try done; lia. }
  destruct Hpost as [-> Hall].
  assert (∀ i, 0 ≤ i < n - 1 → live i → can_read a0 (skip_parity p i) st = true)
    as Hall'.
  { intros i Hi Hl. apply Hall; [|done]. apply elem_of_seqZ. lia. }
  apply wp_bind. eapply wp_isfailed; [done..|].
  destruct (is_failed a0 p) eqn:Hf; simpl.
  - apply wp_bind, wp_ret. apply wp_bind. eapply wp_write; [done..| |].
    + intros Hw a' Ha'. apply wp_ret. by split_and!.
    + intros Hw e a' _. apply wp_ret. by right; right.
  - apply wp_bind. eapply wp_write; [done..| |].
    2:{ intros Hw e a' _. apply wp_ret. right; left. done. }
    intros Hw a' Ha'.
    destruct (can_write_Some _ _ _ _ Hw) as (dp & Hdp & Hwp & _).
    pose proof (wf_array_put _ _ _ _ _ _ Hwf Hdp Hwp) as Hwf1.
    apply wp_bind. eapply wp_write; [done..|by rewrite numDisks_put| |].
    + rewrite (can_write_put _ _ _ _ _ Hdp). intros Hwd a'' Ha''.
      apply wp_ret. by split_and!.
    + rewrite (can_write_put _ _ _ _ _ Hdp). intros Hwd e a'' _.
      apply wp_ret. by right; right.
Qed.

End raid5_write.

(** ** The parity algebra of a stripe *)

Lemma others_xor_length a d s : length (others_xor a d s) = Z.to_nat (blockSize a).
Proof. unfold others_xor. by rewrite xor_all_length, make_length. Qed.

(** The XOR of a whole stripe is the XOR of any member with the XOR of the
    others. *)
Lemma stripe_xor_extract a d s :
  0 ≤ d < numDisks a →
  stripe_xor a s = xorBytes (others_xor a d s) (blk a d s).
Proof.
  intros Hd. unfold stripe_xor, others_xor.
  rewrite (xor_all_perm _ _ ((λ i, blk a i s)
             <$> d :: filter (λ y, y ≠ d) (seqZ 0 (numDisks a)))).
  - rewrite fmap_cons, xor_all_cons. apply xor_all_xorBytes.
  - apply fmap_Permutation, extract_perm; [apply NoDup_seqZ|].
    apply elem_of_seqZ. lia.
Qed.

(** The XOR of the members other than [d], computed as the reconstruction
    does: starting from the block of another member [p]. *)
Lemma others_xor_extract a d p s :
  0 ≤ p < numDisks a → p ≠ d →
  length (blk a p s) = Z.to_nat (blockSize a) →
  others_xor a d s =
    xor_all (blk a p s)
      ((λ i, blk a i s) <$> filter (λ i, i ≠ p ∧ i ≠ d) (seqZ 0 (numDisks a))).
Proof.
  intros Hp Hne Hlen. unfold others_xor.
  rewrite (xor_all_perm _ _ ((λ i, blk a i s)
             <$> p :: filter (λ y, y ≠ p)
                        (filter (λ i, i ≠ d) (seqZ 0 (numDisks a))))).
  - rewrite fmap_cons, xor_all_cons.
    unfold make. rewrite xorBytes_zero_l by done.
    by rewrite list_filter_filter.
  - apply fmap_Permutation, extract_perm.
    + apply NoDup_filter, NoDup_seqZ.
    + apply list_elem_of_filter. split; [done|]. apply elem_of_seqZ. lia.
Qed.

Lemma others_xor_ext a b d s :
  numDisks a = numDisks b → blockSize a = blockSize b →
  (∀ i, 0 ≤ i < numDisks a → i ≠ d → blk a i s = blk b i s) →
  others_xor a d s = others_xor b d s.
Proof.
  intros Hn Hb Hblk. unfold others_xor. rewrite <- Hn, <- Hb.
  apply xor_all_ext. intros i [Hne Hi%elem_of_seqZ]%list_elem_of_filter.
  apply Hblk; [lia|done].
Qed.

Lemma stripe_xor_ext a b s :
  numDisks a = numDisks b → blockSize a = blockSize b →
  (∀ i, 0 ≤ i < numDisks a → blk a i s = blk b i s) →
  stripe_xor a s = stripe_xor b s.
Proof.
  intros Hn Hb Hblk. unfold stripe_xor. rewrite <- Hn, <- Hb.
  apply xor_all_ext. intros i Hi%elem_of_seqZ. apply Hblk. lia.
Qed.

(** The two forms of the parity invariant: the stripe XORs to zero exactly
    when any one member is the XOR of the others. *)
Lemma stripe_zero_iff a nb d s :
  wf_array a nb → 0 ≤ d < numDisks a → 0 ≤ s < nb →
  stripe_xor a s = make (blockSize a) ↔ blk a d s = others_xor a d s.
Proof.
  intros Hwf Hd Hs. rewrite (stripe_xor_extract a d s Hd).
  pose proof (others_xor_length a d s) as Hlo.
  pose proof (blk_length a nb d s Hwf Hd Hs) as Hlb.
  split.
  - intros Hz. symmetry. by apply (xorBytes_eq_zero _ _ _ Hlo Hlb).
  - intros ->. rewrite xorBytes_self. by rewrite Hlo.
Qed.

(** The disks other than the parity disk are the disks of the data
    positions, in the order of the positions. *)
Lemma filter_ne_seq p n :
  0 ≤ p < n → filter (λ i, i ≠ p) (seqZ 0 n) = skip_parity p <$> seqZ 0 (n - 1).
Proof.
  intros Hp. rewrite (seqZ_split p n), skip_parity_seq by done.
  rewrite filter_app, filter_cons_False by (intros Hn; by apply Hn).
  rewrite !filter_all; [done|..]; intros i Hi%elem_of_seqZ; lia.
Qed.

(** ** Observations after [SetFailed] *)

Section set_failed_obs.

Variables (a : RAIDArray) (i : Z) (b : bool).

Lemma set_failed_upd d :
  disk_at a i = Some d → set_failed i b a = upd a i (Disk.set_failed d b).
Proof. unfold set_failed. by intros ->. Qed.

Lemma numDisks_set_failed : numDisks (set_failed i b a) = numDisks a.
Proof. unfold set_failed. by destruct (disk_at a i). Qed.

Lemma blockSize_set_failed : blockSize (set_failed i b a) = blockSize a.
Proof. unfold set_failed. by destruct (disk_at a i). Qed.

Lemma level_set_failed : level (set_failed i b a) = level a.
Proof. unfold set_failed. by destruct (disk_at a i). Qed.

Lemma capacity_set_failed : capacity (set_failed i b a) = capacity a.
Proof. unfold set_failed. by destruct (disk_at a i). Qed.

Lemma blk_set_failed j s : blk (set_failed i b a) j s = blk a j s.
Proof.
  unfold set_failed. destruct (disk_at a i) as [d|] eqn:Hd; [|done].
  fold (upd a i (Disk.set_failed d b)).
  rewrite (blk_upd _ _ _ _ Hd). case_decide; [|done]. subst.
  unfold blk. by rewrite Hd.
Qed.

Lemma is_failed_set_failed j :
  is_Some (disk_at a i) →
  is_failed (set_failed i b a) j = if decide (i = j) then b else is_failed a j.
Proof.
  intros [d Hd]. rewrite (set_failed_upd _ Hd), (is_failed_upd _ _ _ _ Hd). done.
Qed.

Lemma can_read_set_failed j s :
  i ≠ j → can_read (set_failed i b a) j s = can_read a j s.
Proof.
  intros Hne. unfold set_failed. destruct (disk_at a i) as [d|] eqn:Hd; [|done].
  fold (upd a i (Disk.set_failed d b)).
  rewrite (can_read_upd _ _ _ _ Hd). by rewrite decide_False.
Qed.

Lemma wf_array_set_failed nb : wf_array a nb → wf_array (set_failed i b a) nb.
Proof.
  intros Hwf. unfold set_failed. destruct (disk_at a i) as [d|] eqn:Hd; [|done].
  fold (upd a i (Disk.set_failed d b)).
  eapply wf_array_upd; [done..|]. change (wf_disk (blockSize a) nb d = true).
  by eapply wf_disks.
Qed.

Lemma stripe_xor_set_failed s : stripe_xor (set_failed i b a) s = stripe_xor a s.
Proof.
  apply stripe_xor_ext; [apply numDisks_set_failed|apply blockSize_set_failed|].
  intros. apply blk_set_failed.
Qed.

Lemma others_xor_set_failed d s :
  others_xor (set_failed i b a) d s = others_xor a d s.
Proof.
  apply others_xor_ext; [apply numDisks_set_failed|apply blockSize_set_failed|].
  intros. apply blk_set_failed.
Qed.

End set_failed_obs.

Lemma upd_upd a i d1 d2 : upd (upd a i d1) i d2 = upd a i d2.
Proof.
  unfold upd, set_disks. simpl. f_equal. apply list_insert_insert_eq.
Qed.

(** Marking a healthy disk failed and clearing the mark again gives back
    the store. *)
Lemma set_failed_undo a i d :
  disk_at a i = Some d → Disk.failed d = false →
  set_failed i false (set_failed i true a) = a.
Proof.
  intros Hd Hf. rewrite (set_failed_upd a i true d Hd).
  rewrite (set_failed_upd _ i false (Disk.set_failed d true))
    by (by eapply disk_at_upd_eq).
  rewrite upd_upd.
  replace (Disk.set_failed (Disk.set_failed d true) false) with d
    by (destruct d; simpl in *; by subst).
  by apply upd_id.
Qed.

(** ** raid5.go: the rebuild of one stripe *)

Section raid5_rebuild_stripe.

Variables (b0 : RAIDArray) (nb : Z).
Hypothesis Hwf : wf_array b0 nb.
Variables (d st : Z).
Hypothesis Hd : 0 ≤ d < numDisks b0.
Hypothesis Hst : 0 ≤ st < nb.

Local Abbreviation n := (numDisks b0).

Lemma rebuildParityBlock_body_spec i acc a :
  i ∈ seqZ 0 n → a ≈ b0 →
  wp (raid5Impl.rebuildParityBlock_body st d i acc)
     (λ c a', a' ≈ b0 ∧
        match c with
        | Continue x =>
            if decide (i ≠ d)
            then can_read b0 i st = true ∧ x = xorBytes acc (blk b0 i st)
            else x = acc
        | Break _ => False
        | Return _ => i ≠ d ∧ can_read b0 i st = false
        end) a.
Proof.
  intros Hi%elem_of_seqZ Ha. unfold raid5Impl.rebuildParityBlock_body.
  destruct (i =? d) eqn:Hid; bool_hyps.
  { apply wp_ret. split; [done|]. by rewrite decide_False by (intros Hn; by apply Hn). }
  apply wp_bind. eapply wp_read; [done..|lia| |].
  - intros Hr a' Ha'. apply wp_ret. split; [done|].
    by rewrite decide_True by done.
  - intros Hr e. apply wp_ret. by split_and!.
Qed.

Lemma rebuildParityBlock_spec a :
  a ≈ b0 →
  wp (raid5Impl.rebuildParityBlock st d)
     (λ r a',
        match r with
        | None => stripe_rebuilt b0 d st a'
        | Some _ =>
            stripe_blocked b0 d st
            ∧ ∃ base, a' ≈ base ∧ wf_array base nb ∧ numDisks base = n
        end) a.
Proof.
  intros Ha. unfold raid5Impl.rebuildParityBlock.
  apply wp_bind. eapply wp_blockSize; [done|].
  apply wp_bind. apply wp_mmake; [pose proof (wf_bs _ _ Hwf); lia|].
  apply wp_bind. eapply wp_numDisks; [done|].
  apply wp_bind. eapply wp_mono.
  { apply (xor_loop b0 _ (λ i, i ≠ d) (λ i, i) st); [|done].
    intros i acc b Hi Hb. by apply rebuildParityBlock_body_spec. }
  intros [x|e] b [Hb Hpost].
  2:{ apply wp_ret. split; [|by exists b0]. left.
      destruct Hpost as (i & Hi%elem_of_seqZ & Hne & Hcr).
      exists i. split_and!; try done; lia. }
  destruct Hpost as [-> Hall]. fold (others_xor b0 d st).
  eapply wp_write; [done..| |].
  - intros Hw a' Ha'. split_and!; [|done..].
    intros i Hi Hne. apply Hall; [|done]. apply elem_of_seqZ. lia.
  - intros Hw e a' [Ha'|[Hwf' Ha']]; (split; [by right|]).
    + by exists b0.
    + exists (put b0 d st (others_xor b0 d st)). by rewrite numDisks_put.
Qed.

(** After an error the rebuild marks the disk failed again. *)
Lemma restore_failed base a :
  a ≈ base → wf_array base nb → numDisks base = n →
  wp (withDisk d (Disk.SetFailed true)) (λ _ a', is_failed a' d = true) a.
Proof.
  intros Ha Hwfb Hnb. eapply wp_setfailed; [done..|lia|].
  intros a' Ha'. rewrite (is_failed_same _ _ _ Ha').
  rewrite is_failed_set_failed, decide_True; [done..|].
  destruct (wf_array_disk base nb d Hwfb) as [x Hx]; [lia|]. by exists x.
Qed.

Lemma rebuildDisk_inner_spec p o acc a :
  0 ≤ p < n → p ≠ d → a ≈ b0 →
  wp (raid5Impl.rebuildDisk_inner d st p o acc)
     (λ c a',
        match c with
        | Continue _ => a' ≈ b0 ∧ skip_parity p o ≠ d
        | Break _ => stripe_rebuilt b0 d st a'
        | Return _ => is_failed a' d = true ∧ stripe_blocked b0 d st
        end) a.
Proof.
  intros Hp Hne Ha. unfold raid5Impl.rebuildDisk_inner. fold (skip_parity p o).
  destruct (skip_parity p o =? d) eqn:Ho; bool_hyps.
  2:{ by apply wp_ret. }
  apply wp_bind. eapply wp_mono; [by eapply reconstructBlock_spec|].
  intros [x|e] b [Hb Hpost].
  2:{ apply wp_bind. eapply wp_mono; [by eapply (restore_failed b0)|].
      intros [] a' Hf. apply wp_ret. split; [done|]. left.
      destruct Hpost as [Hno|(i & Hi & [Hip Hid] & Hno)]; [by exists p|by exists i]. }
  destruct Hpost as (Hrp & Hall & ->).
  rewrite <- (others_xor_extract b0 d p st) by (try done; by eapply blk_length).
  apply wp_bind. eapply wp_write; [done..| |].
  - intros Hw a' Ha'. apply wp_ret. split_and!; [|done..].
    intros i Hi Hid. destruct (decide (i = p)) as [->|]; [done|]. by apply Hall.
  - intros Hw e a' Hcase. apply wp_bind.
    destruct Hcase as [Ha'|[Hwf' Ha']].
    + eapply wp_mono; [by eapply (restore_failed b0)|].
      intros [] a'' Hf. apply wp_ret. split; [done|]. by right.
    + eapply wp_mono.
      { eapply (restore_failed (put b0 d st (others_xor b0 d st))); [done..|].
        by rewrite numDisks_put. }
      intros [] a'' Hf. apply wp_ret. split; [done|]. by right.
Qed.

Lemma rebuildDisk_body_spec acc a :
  a ≈ b0 → wp (raid5Impl.rebuildDisk_body d st acc) (stripe_step_post b0 d st) a.
Proof.
  intros Ha. pose proof (wf_array_n _ _ Hwf) as Hn.
  unfold raid5Impl.rebuildDisk_body.
  apply wp_bind. eapply wp_numDisks; [done|].
  apply wp_bind. apply wp_int_rem; [lia|].
  rewrite Z.rem_mod_nonneg by lia.
  assert (0 ≤ st `mod` n < n) as Hp by (apply Z.mod_pos_bound; lia).
  destruct (d =? st `mod` n) eqn:Hdp; bool_hyps.
  - apply wp_bind. eapply wp_mono; [by apply rebuildParityBlock_spec|].
    intros [e|] b Hpost.
    + destruct Hpost as (Hblocked & base & Hb & Hwfb & Hnb).
      apply wp_bind. eapply wp_mono; [by eapply (restore_failed base)|].
      intros [] a' Hf. by apply wp_ret.
    + by apply wp_ret.
  - apply wp_bind. eapply wp_mono.
    { apply (wp_for (λ done (_ : Z) a, a ≈ b0
                       ∧ ∀ o, o ∈ done → skip_parity (st `mod` n) o ≠ d)
               (λ _ a', stripe_rebuilt b0 d st a')
               (λ (_ : error) a', is_failed a' d = true ∧ stripe_blocked b0 d st)).
      - intros done o rest acc' b Hixs [Hb Hdone].
        eapply wp_mono; [by apply rebuildDisk_inner_spec|].
        intros [x|x|e] b'; [|done..]. intros [Hb' Ho]. split; [done|].
        intros o' [Ho'|Ho'%list_elem_of_singleton]%elem_of_app;
          [by apply Hdone|by subst].
      - split; [done|]. by intros o Ho%elem_of_nil. }
    intros [x|e] b Hpost; apply wp_ret; [|done].
    destruct Hpost as [[_ Hnone]|Hpost]; [|done].
    exfalso. destruct (decide (d < st `mod` n)).
    + apply (Hnone d); [apply elem_of_seqZ; lia|]. apply skip_parity_lt. lia.
    + apply (Hnone (d - 1)); [apply elem_of_seqZ; lia|].
      rewrite skip_parity_ge by lia. lia.
Qed.

End raid5_rebuild_stripe.

(** ** raid5.go: the rebuild of a disk *)

Lemma rebuilt_0 a d : rebuilt a d 0 = a.
Proof. done. Qed.

Lemma rebuilt_S a d k :
  0 ≤ k →
  rebuilt a d (k + 1) = put (rebuilt a d k) d k (others_xor (rebuilt a d k) d k).
Proof.
  intros Hk. unfold rebuilt. rewrite seqZ_app by lia.
  rewrite foldl_app, (seqZ_cons (0 + k) 1), (seqZ_nil _ (Z.pred 1)) by lia. done.
Qed.

Lemma numDisks_rebuilt a d k : numDisks (rebuilt a d k) = numDisks a.
Proof.
  unfold rebuilt. generalize (seqZ 0 k). intros l. revert a.
  induction l as [|s l IH]; intros a; [done|]. simpl.
  by rewrite IH, numDisks_put.
Qed.

Lemma blockSize_rebuilt a d k : blockSize (rebuilt a d k) = blockSize a.
Proof.
  unfold rebuilt. generalize (seqZ 0 k). intros l. revert a.
  induction l as [|s l IH]; intros a; [done|]. simpl.
  by rewrite IH, blockSize_put.
Qed.

Lemma seqZ_middle n done i rest :
  seqZ 0 n = done ++ i :: rest → i = len done ∧ 0 ≤ i < n.
Proof.
  intros Heq.
  assert (seqZ 0 n !! length done = Some i) as Hl
    by (rewrite Heq; apply list_lookup_middle; done).
  apply lookup_seqZ in Hl. unfold len. lia.
Qed.

(** With the parity invariant the rebuild writes back what the disk
    holds. *)
Lemma rebuilt_parity_id a nb d (k : nat) :
  wf_array a nb → parity_inv a nb → 0 ≤ d < numDisks a → Z.of_nat k ≤ nb →
  rebuilt a d (Z.of_nat k) = a.
Proof.
  intros Hwf Hinv Hd. induction k as [|k IH]; intros Hk; [done|].
  replace (Z.of_nat (S k)) with (Z.of_nat k + 1) by lia.
  rewrite rebuilt_S, IH by lia.
  rewrite <- (proj1 (stripe_zero_iff a nb d (Z.of_nat k) Hwf Hd ltac:(lia)))
    by (apply Hinv; lia).
  eapply put_id; [done..|lia].
Qed.

(** The store after [k] successfully rebuilt stripes. *)
Lemma rebuilt_obs a nb d (k : nat) :
  wf_array a nb → 0 ≤ d < numDisks a → rebuild_ok a d (Z.of_nat k) →
  wf_array (rebuilt a d (Z.of_nat k)) nb
  ∧ (∀ j s, 0 ≤ s → j ≠ d → blk (rebuilt a d (Z.of_nat k)) j s = blk a j s)
  ∧ (∀ s, 0 ≤ s < Z.of_nat k → blk (rebuilt a d (Z.of_nat k)) d s = others_xor a d s)
  ∧ (∀ s, Z.of_nat k ≤ s → blk (rebuilt a d (Z.of_nat k)) d s = blk a d s)
  ∧ (∀ j, is_failed (rebuilt a d (Z.of_nat k)) j = is_failed a j)
  ∧ (∀ j s, can_read (rebuilt a d (Z.of_nat k)) j s = can_read a j s).
Proof.
  intros Hwf Hd. induction k as [|k IH]; intros Hok.
  { split_and!; try done. intros s Hs. lia. }
  destruct IH as (Hwfk & Hoth & Hlow & Hhigh & Hfl & Hcr).
  { intros s Hs. apply Hok. lia. }
  destruct (Hok (Z.of_nat k)) as (_ & Hcw & _); [lia|].
  replace (Z.of_nat (S k)) with (Z.of_nat k + 1) by lia.
  rewrite rebuilt_S by lia.
  set (b := rebuilt a d (Z.of_nat k)) in *.
  assert (others_xor b d (Z.of_nat k) = others_xor a d (Z.of_nat k)) as HX.
  { apply others_xor_ext.
    - apply numDisks_rebuilt.
    - apply blockSize_rebuilt.
    - intros i Hi Hne. apply Hoth; [lia|done]. }
  destruct (can_write_Some _ _ _ _ Hcw) as (dk & Hdk & Hwk & _).
  split_and!.
  - by eapply wf_array_put.
  - intros j s Hs Hne. erewrite blk_put_other by (done || by left). by apply Hoth.
  - intros s Hs. destruct (decide (s = Z.of_nat k)) as [->|Hne].
    + by erewrite blk_put_same.
    + erewrite blk_put_other by (done || lia || by right). apply Hlow. lia.
  - intros s Hs. erewrite blk_put_other by (done || lia || (right; lia)).
    apply Hhigh. lia.
  - intros j. by erewrite is_failed_put.
  - intros j s. by erewrite can_read_put.
Qed.

Section raid5_rebuild.

Variables (a0 : RAIDArray) (nb : Z).
Hypothesis Hwf : wf_array a0 nb.
Variable d : Z.
Hypothesis Hd : 0 ≤ d < numDisks a0.
Hypothesis Hfailed : is_failed a0 d = true.

(** The store once the rebuild has cleared the failed flag of the disk. *)
Local Abbreviation a1 := (set_failed d false a0).

Lemma rebuild_ok_S k :
  0 ≤ k → rebuild_ok a1 d k →
  stripe_rebuilt (rebuilt a1 d k) d k (rebuilt a1 d (k + 1)) →
  rebuild_ok a1 d (k + 1).
Proof.
  intros Hk Hok Hstep s Hs. destruct (decide (s = k)) as [->|]; [done|].
  apply Hok. lia.
Qed.

Lemma rebuildDisk_spec a :
  a ≈ a0 →
  wp (raid5Impl.rebuildDisk d)
     (λ r a',
        match r with
        | None => a' ≈ rebuilt a1 d nb ∧ rebuild_ok a1 d nb
        | Some _ =>
            is_failed a' d = true
            ∧ ∃ s, 0 ≤ s < nb ∧ rebuild_ok a1 d s
                   ∧ stripe_blocked (rebuilt a1 d s) d s
        end) a.
Proof.
  intros Ha. pose proof (wf_array_set_failed a0 d false nb Hwf) as Hwf1.
  pose proof (numDisks_set_failed a0 d false) as Hn1.
  pose proof (wf_nb _ _ Hwf) as Hnb.
  unfold raid5Impl.rebuildDisk.
  apply wp_bind. eapply wp_numDisks; [done|]. zbs.
  apply wp_bind. eapply (wp_isfailed a0 nb Hwf); [done..|]. rewrite Hfailed. simpl.
  apply wp_bind. eapply (wp_setfailed a0 nb Hwf); [done..|]. intros b Hb.
  apply wp_bind. eapply (wp_capacity a1 nb Hwf1); [done|lia|].
  apply wp_bind. eapply wp_mono.
  { apply (wp_for
             (λ done (_ : Z) b,
                b ≈ rebuilt a1 d (len done)
                ∧ wf_array (rebuilt a1 d (len done)) nb
                ∧ rebuild_ok a1 d (len done))
             (λ _ _, False)
             (λ (_ : error) a',
                is_failed a' d = true
                ∧ ∃ s, 0 ≤ s < nb ∧ rebuild_ok a1 d s
                       ∧ stripe_blocked (rebuilt a1 d s) d s)).
    - intros done st rest acc c Hixs (Hc & Hwfk & Hok).
      destruct (seqZ_middle _ _ _ _ Hixs) as [-> Hst].
      eapply wp_mono.
      { eapply (rebuildDisk_body_spec _ nb Hwfk); [|done..].
        rewrite numDisks_rebuilt. lia. }
      intros [x|x|e] c'; simpl; [|done|by intros [? ?]; eauto].
      intros Hstep.
      assert (len (done ++ [len done]) = len done + 1) as ->
        by (unfold len; rewrite length_app; simpl; lia).
      assert (stripe_rebuilt (rebuilt a1 d (len done)) d (len done)
                (rebuilt a1 d (len done + 1))) as Hstep'.
      { destruct Hstep as (? & ? & ?). split_and!; try done.
        by rewrite rebuilt_S by lia. }
      destruct Hstep as (Hcr & Hcw & Hc').
      destruct (can_write_Some _ _ _ _ Hcw) as (dk & Hdk & Hwk & _).
      split_and!.
      + by rewrite rebuilt_S by lia.
      + rewrite rebuilt_S by lia. by eapply wf_array_put.
      + apply rebuild_ok_S; [lia|done..].
    - split_and!; [done..|]. intros s Hs. unfold len in Hs. simpl in Hs. lia. }
  intros [x|e] c; [|intros Hf; by apply wp_ret].
  intros [(Hc & _ & Hok)|[]]. apply wp_ret.
  assert (len (seqZ 0 nb) = nb) as Hlen
    by (unfold len; rewrite length_seqZ; lia).
  rewrite Hlen in *. done.
Qed.

End raid5_rebuild.

(** ** The boolean checks and their meaning *)

Lemma forallb_disk (f : Disk.t → bool) a i d :
  forallb f (disks a) = true → disk_at a i = Some d → f d = true.
Proof.
  intros Hall Hd. unfold disk_at in Hd. destruct (i <? 0); [done|].
  rewrite forallb_forall in Hall. apply Hall.
  apply list_elem_of_In, list_elem_of_lookup. eauto.
Qed.

Lemma healthy_is_failed a nb i :
  wf_array a nb → healthy a = true → 0 ≤ i < numDisks a → is_failed a i = false.
Proof.
  intros Hwf Hh Hi. destruct (wf_array_disk _ _ _ Hwf Hi) as [d Hd].
  rewrite (is_failed_true _ _ _ Hd).
  apply (forallb_disk _ _ _ _ Hh) in Hd. by apply negb_true_iff.
Qed.

Lemma fault_free_read a : fault_free a = true → read_fault_free a = true.
Proof.
  unfold fault_free, read_fault_free. rewrite !forallb_forall.
  intros Hall d Hd. specialize (Hall d Hd). by destruct (File.rfaults _).
Qed.

Lemma can_read_healthy a nb i s :
  wf_array a nb → read_fault_free a = true →
  0 ≤ i < numDisks a → 0 ≤ s < nb → is_failed a i = false →
  can_read a i s = true.
Proof.
  intros Hwf Hff Hi Hs Hf. destruct (wf_array_disk _ _ _ Hwf Hi) as [d Hd].
  rewrite (is_failed_true _ _ _ Hd) in Hf.
  destruct (disk_ok_fields _ _ _ (wf_array_disk_ok _ _ _ _ Hwf Hd)) as (Hb & Hn & _).
  apply (forallb_disk _ _ _ _ Hff) in Hd as Hr.
  unfold can_read, readable. rewrite Hd, Hf, Hn. zbs.
  destruct (File.rfaults (Disk.file d)); [|done].
  rewrite bool_decide_eq_false_2; [done|]. by intros ?%elem_of_nil.
Qed.

Lemma can_write_healthy a nb i s data :
  wf_array a nb → fault_free a = true →
  0 ≤ i < numDisks a → 0 ≤ s < nb → is_failed a i = false →
  length data = Z.to_nat (blockSize a) →
  can_write a i s data = true.
Proof.
  intros Hwf Hff Hi Hs Hf Hlen. destruct (wf_array_disk _ _ _ Hwf Hi) as [d Hd].
  rewrite (is_failed_true _ _ _ Hd) in Hf.
  destruct (disk_ok_fields _ _ _ (wf_array_disk_ok _ _ _ _ Hwf Hd)) as (Hb & Hn & _).
  apply (forallb_disk _ _ _ _ Hff) in Hd as Hr.
  pose proof (wf_bs _ _ Hwf).
  unfold can_write, writable, len. rewrite Hd, Hf, Hn, Hb, Hlen. zbs.
  destruct (File.rfaults (Disk.file d)); [|done].
  destruct (File.wfaults (Disk.file d)); [|done].
  rewrite bool_decide_eq_false_2 by (by intros ?%elem_of_nil). simpl.
  by rewrite Hr.
Qed.

Lemma parity_ok_inv a : parity_ok a = true ↔ parity_inv a (blocksPerDisk a).
Proof.
  unfold parity_ok, parity_inv. rewrite forallb_forall. split.
  - intros Hall s Hs. eapply bool_decide_eq_true_1, Hall.
    apply list_elem_of_In, elem_of_seqZ. lia.
  - intros Hinv s Hs%list_elem_of_In%elem_of_seqZ.
    apply bool_decide_eq_true_2. apply Hinv. lia.
Qed.

Lemma all_zero_Forall (l : list byte) :
  forallb (Z.eqb 0) l = true → Forall (λ x, x = 0) l.
Proof.
  induction l as [|x l IH]; [done|]. simpl. intros H.
  destruct x; try done. constructor; [done|]. by apply IH.
Qed.

Lemma Forall_zero_replicate (l : list byte) :
  Forall (λ x, x = 0) l → l = replicate (length l) 0.
Proof.
  induction 1 as [|x l -> _ IH]; [done|]. simpl. by rewrite <- IH.
Qed.

Lemma zero_filled_blk a nb i s :
  wf_array a nb → zero_filled a = true → 0 ≤ i < numDisks a → 0 ≤ s < nb →
  blk a i s = make (blockSize a).
Proof.
  intros Hwf Hz Hi Hs. pose proof (blk_length a nb i s Hwf Hi Hs) as Hlen.
  destruct (wf_array_disk _ _ _ Hwf Hi) as [d Hd].
  apply (forallb_disk _ _ _ _ Hz) in Hd as Hzd.
  unfold blk in *. rewrite Hd in *. unfold make. rewrite <- Hlen.
  apply Forall_zero_replicate. unfold block_of.
  by apply Forall_take, Forall_drop, all_zero_Forall.
Qed.

Lemma xor_all_zero n (l : list (list byte)) :
  Forall (λ b, b = replicate n 0) l → xor_all (replicate n 0) l = replicate n 0.
Proof.
  induction 1 as [|b l -> _ IH]; [done|]. simpl.
  by rewrite xorBytes_self, length_replicate.
Qed.

(** A zero-filled array satisfies the parity invariant. *)
Lemma zero_filled_parity a nb :
  wf_array a nb → zero_filled a = true → parity_inv a nb.
Proof.
  intros Hwf Hz s Hs. unfold stripe_xor, make. apply xor_all_zero.
  apply Forall_fmap, Forall_forall. intros i Hi%elem_of_seqZ. simpl.
  by apply (zero_filled_blk a nb).
Qed.

Lemma filter_ext_in {A} (P Q : A → Prop) `{!∀ x, Decision (P x)} `{!∀ x, Decision (Q x)}
    (l : list A) :
  (∀ x, x ∈ l → P x ↔ Q x) → filter P l = filter Q l.
Proof.
  induction l as [|x l IH]; intros Hpq; [done|].
  assert (filter P l = filter Q l) as Hl
    by (apply IH; intros y Hy; apply Hpq; by right).
  destruct (decide (P x)) as [HP|HP].
  - rewrite !filter_cons_True, Hl; [done| |done]. apply Hpq; [by left|done].
  - rewrite !filter_cons_False, Hl; [done| |done].
    intros HQ. apply HP, Hpq; [by left|done].
Qed.

Lemma level_put a i s data : level (put a i s data) = level a.
Proof. unfold put. by destruct (disk_at a i). Qed.

Lemma capacity_put a i s data : capacity (put a i s data) = capacity a.
Proof. unfold put. by destruct (disk_at a i). Qed.

(** ** A level-5 write on a healthy array *)

Section raid5_write_healthy.

Variables (a : RAIDArray) (nb : Z).
Hypothesis Hwf : wf_array a nb.
Hypothesis Hhealthy : ∀ i, 0 ≤ i < numDisks a → is_failed a i = false.
Variables (lbid : Z) (data : list byte).
Hypothesis Hlbid : 0 ≤ lbid < nb * (numDisks a - 1).
Hypothesis Hdata : len data = blockSize a.

Local Abbreviation n := (numDisks a).
Local Abbreviation st := (spec_stripe (numDisks a) lbid).
Local Abbreviation off := (spec_stripe_offset (numDisks a) lbid).
Local Abbreviation p := (spec_parity_disk (numDisks a) lbid).
Local Abbreviation dd := (spec_data_disk (numDisks a) lbid).
Local Abbreviation a2 := (put (after_parity a lbid data) dd st data).

Hypothesis Hcwp : can_write a p st (write_parity a lbid data) = true.
Hypothesis Hcwd : can_write a dd st data = true.

Lemma write_parity_siblings :
  write_parity a lbid data =
    xor_all data ((λ i, blk a (skip_parity p i) st)
                    <$> filter (λ i, i ≠ off) (seqZ 0 (n - 1))).
Proof.
  pose proof (wf_array_n _ _ Hwf) as Hn.
  destruct (layout_ranges n nb lbid) as (Hst & Hoff & Hp & Hd & Hne); [lia..|].
  unfold write_parity. f_equal. f_equal. apply filter_ext_in.
  intros i Hi%elem_of_seqZ. split; [by intros []|]. intros Hio. split; [done|].
  apply Hhealthy. destruct (skip_parity_range p i n); lia.
Qed.

Lemma after_parity_healthy :
  after_parity a lbid data = put a p st (write_parity a lbid data).
Proof.
  pose proof (wf_array_n _ _ Hwf) as Hn.
  destruct (layout_ranges n nb lbid) as (Hst & Hoff & Hp & Hd & Hne); [lia..|].
  unfold after_parity. by rewrite Hhealthy.
Qed.

Lemma written_store :
  wf_array a2 nb
  ∧ numDisks a2 = n ∧ blockSize a2 = blockSize a
  ∧ level a2 = level a ∧ capacity a2 = capacity a
  ∧ (∀ i, is_failed a2 i = is_failed a i)
  ∧ (∀ i s, can_read a2 i s = can_read a i s)
  ∧ blk a2 dd st = data
  ∧ blk a2 p st = write_parity a lbid data
  ∧ (∀ i s, 0 ≤ s → ¬ (i = dd ∧ s = st) → ¬ (i = p ∧ s = st) →
            blk a2 i s = blk a i s).
Proof.
  pose proof (wf_array_n _ _ Hwf) as Hn.
  destruct (layout_ranges n nb lbid) as (Hst & Hoff & Hp & Hd & Hne); [lia..|].
  rewrite after_parity_healthy.
  destruct (can_write_Some _ _ _ _ Hcwp) as (dp & Hdp & Hwp & _).
  pose proof (wf_array_put _ _ _ _ _ _ Hwf Hdp Hwp) as Hwf1.
  assert (can_write (put a p st (write_parity a lbid data)) dd st data = true)
    as Hcwd' by (by rewrite (can_write_put _ _ _ _ _ Hdp)).
  destruct (can_write_Some _ _ _ _ Hcwd') as (dd1 & Hdd1 & Hwd1 & _).
  split_and!.
  - by eapply wf_array_put.
  - by rewrite !numDisks_put.
  - by rewrite !blockSize_put.
  - by rewrite !level_put.
  - by rewrite !capacity_put.
  - intros i. by rewrite (is_failed_put _ _ _ _ _ Hdd1), (is_failed_put _ _ _ _ _ Hdp).
  - intros i s. by rewrite (can_read_put _ _ _ _ _ Hdd1), (can_read_put _ _ _ _ _ Hdp).
  - by eapply blk_put_same.
  - rewrite (blk_put_other _ _ _ _ _ _ Hwf1 Hdd1 Hwd1) by (lia || (left; lia)).
    by eapply blk_put_same.
  - intros i s Hs H1 H2.
    rewrite (blk_put_other _ _ _ _ _ _ Hwf1 Hdd1 Hwd1) by (done || lia).
    rewrite (blk_put_other _ _ _ _ _ _ Hwf Hdp Hwp) by (done || lia). done.
Qed.

(** After the write the parity block is the XOR of the data blocks of the
    stripe. *)
Lemma written_parity : blk a2 p st = others_xor a2 p st.
Proof.
  pose proof (wf_array_n _ _ Hwf) as Hn.
  destruct (layout_ranges n nb lbid) as (Hst & Hoff & Hp & Hd & Hne); [lia..|].
  destruct (layout_code n lbid) as (_ & _ & _ & Hdd); [lia..|].
  destruct written_store as (Hwf2 & Hn2 & Hb2 & _ & _ & _ & _ & Hbd & Hbp & Hoth).
  unfold others_xor.
  rewrite Hn2, Hb2, filter_ne_seq, <- list_fmap_compose by done.
  rewrite (xor_all_perm _ _ ((λ i, blk a2 (skip_parity p i) st)
             <$> off :: filter (λ y, y ≠ off) (seqZ 0 (n - 1)))).
  2:{ apply fmap_Permutation, extract_perm; [apply NoDup_seqZ|].
      apply elem_of_seqZ. lia. }
  rewrite fmap_cons, xor_all_cons, Hdd, Hbd.
  unfold make. rewrite xorBytes_zero_l by (unfold len in Hdata; lia).
  rewrite Hbp, write_parity_siblings.
  apply xor_all_ext. intros i [Hio Hi%elem_of_seqZ]%list_elem_of_filter.
  destruct (skip_parity_range p i n) as [Hr Hnp]; [lia..|].
  symmetry. apply Hoth; [lia| |lia].
  intros [Heq _]. rewrite <- Hdd in Heq. by apply skip_parity_inj in Heq.
Qed.

Lemma written_parity_inv : parity_inv a nb → parity_inv a2 nb.
Proof.
  pose proof (wf_array_n _ _ Hwf) as Hn.
  destruct (layout_ranges n nb lbid) as (Hst & Hoff & Hp & Hd & Hne); [lia..|].
  destruct written_store as (Hwf2 & Hn2 & Hb2 & _ & _ & _ & _ & Hbd & Hbp & Hoth).
  intros Hinv s Hs. destruct (decide (s = st)) as [->|Hsne].
  - apply (stripe_zero_iff a2 nb p st); [done|lia|done|]. apply written_parity.
  - rewrite Hb2, <- (Hinv s Hs). apply stripe_xor_ext; [done..|].
    intros i Hi. apply Hoth; lia.
Qed.

End raid5_write_healthy.

(** ** The facade on a level-5 array *)

Lemma raid5_capacity a nb :
  wf_array a nb → level a = RAID5 → capacity a = nb * (numDisks a - 1).
Proof.
  intros Hwf Hl. destruct (wf_level _ _ Hwf) as [[H _]|[[H _]|(_ & _ & H)]];
    [rewrite Hl in H; done..|done].
Qed.

Lemma WriteBlock_raid5 sched a lbid data :
  level a = RAID5 → 0 ≤ lbid < capacity a → len data = blockSize a →
  WriteBlock sched lbid data a = raid5Impl.writeBlock lbid data a.
Proof. intros Hl Hb Hlen. rewrite WriteBlock_dispatch by done. by rewrite Hl. Qed.

Lemma ReadBlock_raid5 a lbid :
  level a = RAID5 → 0 ≤ lbid < capacity a →
  ReadBlock lbid a = raid5Impl.readBlock lbid a.
Proof. intros Hl Hb. rewrite ReadBlock_dispatch by done. by rewrite Hl. Qed.

Lemma raid5_healthy_of_bool a :
  wf a = true → level a = RAID5 → healthy a = true →
  raid5_healthy a (blocksPerDisk a).
Proof.
  intros Hwf%wf_array_of_wf Hl Hh. split_and!; try done.
  intros i Hi. by eapply healthy_is_failed.
Qed.

(** A successful client write on a healthy level-5 array: the parity block
    and the data block were written, and nothing else changed. *)
Lemma raid5_write_step sched a nb lbid data a' :
  raid5_healthy a nb →
  WriteBlock sched lbid data a = Some (None, a') →
  0 ≤ lbid < nb * (numDisks a - 1) ∧ len data = blockSize a
  ∧ can_write a (spec_parity_disk (numDisks a) lbid) (spec_stripe (numDisks a) lbid)
      (write_parity a lbid data) = true
  ∧ can_write a (spec_data_disk (numDisks a) lbid) (spec_stripe (numDisks a) lbid)
      data = true
  ∧ a' ≈ put (after_parity a lbid data) (spec_data_disk (numDisks a) lbid)
             (spec_stripe (numDisks a) lbid) data.
Proof.
  intros (Hwf & Hl & Hh) Hw.
  destruct (WriteBlock_ok_checked _ _ _ _ _ Hw) as [Hb Hlen].
  rewrite WriteBlock_raid5 in Hw by done.
  rewrite (raid5_capacity a nb) in Hb by done.
  pose proof (wf_array_n _ _ Hwf) as Hn.
  destruct (layout_ranges (numDisks a) nb lbid) as (Hst & Hoff & Hp & Hd & Hne);
    [lia..|].
  pose proof (wp_run _ _ _ _ _
                (writeBlock_spec a nb Hwf lbid data Hb Hlen a ltac:(reflexivity)) Hw)
    as Hpost.
  simpl in Hpost. destruct Hpost as (_ & Hcwp & Hcwd & _ & Ha').
  split_and!; try done; try lia. apply Hcwp. by apply Hh.
Qed.

Lemma raid5_write_preserves sched a nb lbid data a' :
  raid5_healthy a nb →
  WriteBlock sched lbid data a = Some (None, a') →
  raid5_healthy a' nb ∧ (parity_inv a nb → parity_inv a' nb).
Proof.
  intros Hinv Hw.
  destruct (raid5_write_step _ _ _ _ _ _ Hinv Hw) as (Hb & Hlen & Hcwp & Hcwd & Ha').
  destruct Hinv as (Hwf & Hl & Hh).
  destruct (written_store a nb Hwf Hh lbid data Hb Hcwp Hcwd)
    as (Hwf2 & Hn2 & Hb2 & Hl2 & Hc2 & Hf2 & _).
  destruct (same_data_static _ _ Ha') as (Hl' & Hb' & Hn' & Hc' & _).
  split.
  - split_and!.
    + by eapply wf_array_same.
    + congruence.
    + intros i Hi. rewrite (is_failed_same _ _ _ Ha'), Hf2. apply Hh. lia.
  - intros Hpar. eapply parity_inv_same; [done|].
    by apply written_parity_inv.
Qed.

Lemma write_all_preserves sched ws :
  ∀ a nb a', raid5_healthy a nb → parity_inv a nb →
  write_all sched ws a = Some a' →
  raid5_healthy a' nb ∧ parity_inv a' nb.
Proof.
  induction ws as [|[lbid data] ws IH]; intros a nb a' Hinv Hpar Hrun.
  - simpl in Hrun. by simplify_eq.
  - simpl in Hrun.
    destruct (WriteBlock sched lbid data a) as [[[e|] a1]|] eqn:Hw; try done.
    destruct (raid5_write_preserves _ _ _ _ _ _ Hinv Hw) as [Hinv1 Hpar1].
    eapply IH; eauto.
Qed.

(** C1. For a level-5 array whose disks are all healthy and initially
    zero-filled, after any sequence of successful [WriteBlock] operations
    the XOR of the blocks at physical index [s] over all the member disks
    is the zero block, for every stripe [s]; equivalently the parity block
    of the stripe, on disk [s mod N], is the XOR of the [N - 1] data blocks. *)
Theorem parity_invariant_after_writes sched a0 ws a' :
  wf a0 = true → level a0 = RAID5 → healthy a0 = true → zero_filled a0 = true →
  write_all sched ws a0 = Some a' →
  parity_ok a' = true
  ∧ ∀ s, 0 ≤ s < blocksPerDisk a' →
         stripe_xor a' s = make (blockSize a')
         ∧ blk a' (s `mod` numDisks a') s = others_xor a' (s `mod` numDisks a') s.
Proof.
  intros Hwf Hl Hh Hz Hrun.
  pose proof (raid5_healthy_of_bool a0 Hwf Hl Hh) as Hinv.
  pose proof (zero_filled_parity a0 _ (proj1 Hinv) Hz) as Hpar.
  destruct (write_all_preserves _ _ _ _ _ Hinv Hpar Hrun) as [(Hwf' & _ & _) Hpar'].
  pose proof (wf_array_blocks _ _ Hwf') as Hnb.
  split; [apply parity_ok_inv; by rewrite Hnb|].
  rewrite Hnb. intros s Hs. split; [by apply Hpar'|].
  apply (stripe_zero_iff a' _ _ s Hwf'); [|done|by apply Hpar'].
  pose proof (wf_array_n _ _ Hwf'). apply Z.mod_pos_bound. lia.
Qed.

(** ** Rebuild *)

Lemma RebuildDisk_raid5 a d :
  level a = RAID5 → RebuildDisk d a = raid5Impl.rebuildDisk d a.
Proof. intros Hl. unfold RebuildDisk, bind, gets. by rewrite Hl. Qed.

Lemma ReadBlock_Ok_in_range a lbid x a1 :
  ReadBlock lbid a = Some (Ok x, a1) → 0 ≤ lbid < capacity a.
Proof.
  intros Hr. destruct (decide (lbid < 0 ∨ capacity a ≤ lbid)) as [Hb|Hb]; [|lia].
  by rewrite ReadBlock_out_of_bounds in Hr.
Qed.

(** C7. If, during [RebuildDisk d] on a level-5 array, a disk other than
    [d] is marked failed or returns a read error at some stripe, the
    rebuild aborts with an error, and the failed flag of [d], cleared at the
    start of the rebuild, is set again when the error is returned. *)
Theorem rebuild_aborts_on_second_failure a d e :
  wf a = true → level a = RAID5 →
  0 ≤ d < numDisks a → is_failed a d = true →
  0 ≤ e < numDisks a → e ≠ d →
  (is_failed a e = true
   ∨ ∃ s, 0 ≤ s < blocksPerDisk a ∧ can_read a e s = false) →
  ∃ err a', RebuildDisk d a = Some (Some err, a') ∧ is_failed a' d = true.
Proof.
  intros Hwfb Hl Hd Hfd He Hne Hsecond.
  pose proof (wf_array_of_wf a Hwfb) as Hwf.
  set (nb := blocksPerDisk a) in *.
  pose proof (wf_nb _ _ Hwf) as Hnb.
  assert (∃ s, 0 ≤ s < nb ∧ can_read a e s = false) as (s & Hs & Hno).
  { destruct Hsecond as [Hfe|Hex]; [|done].
    exists 0. split; [lia|]. by apply is_failed_can_read. }
  rewrite RebuildDisk_raid5 by done.
  destruct (rebuildDisk_spec a nb Hwf d Hd Hfd a ltac:(reflexivity))
    as (r & a' & Hrun & Hpost).
  destruct r as [err|].
  { exists err, a'. by destruct Hpost. }
  exfalso. destruct Hpost as [_ Hok].
  set (a1 := set_failed d false a) in *.
  assert (wf_array a1 nb) as Hwf1 by (by apply wf_array_set_failed).
  assert (numDisks a1 = numDisks a) as Hn1 by apply numDisks_set_failed.
  assert (rebuild_ok a1 d (Z.of_nat (Z.to_nat s))) as Hoks.
  { intros s' Hs'. apply Hok. lia. }
  destruct (rebuilt_obs a1 nb d (Z.to_nat s) Hwf1 ltac:(lia) Hoks)
    as (_ & _ & _ & _ & _ & Hcr).
  rewrite Z2Nat.id in Hcr by lia.
  destruct (Hok s Hs) as (Hall & _).
  specialize (Hall e). rewrite numDisks_rebuilt, Hn1, Hcr in Hall.
  unfold a1 in Hall. rewrite can_read_set_failed in Hall by done.
  rewrite Hall in Hno; [done|lia|done].
Qed.

(** C10. [RebuildDisk d] on a level-5 array returns an error and leaves the
    store as it is (contents, counters and failed flags) when [d] is not
    the index of a disk or when disk [d] is not marked failed. *)
Theorem rebuild_rejects_without_change a d :
  level a = RAID5 →
  (d < 0 ∨ numDisks a ≤ d →
     RebuildDisk d a = Some (Some (EInvalidDiskIndex d), a))
  ∧ (0 ≤ d < numDisks a → is_failed a d = false →
     RebuildDisk d a = Some (Some (ENotMarkedFailed d), a)).
Proof.
  intros Hl. rewrite RebuildDisk_raid5 by done. split.
  - apply rebuildDisk_invalid.
  - apply rebuildDisk_not_failed.
Qed.

(** ** Write then read, level by level *)

Lemma can_write_not_failed a i s data :
  can_write a i s data = true → is_failed a i = false.
Proof.
  intros (d & Hd & Hw & _)%can_write_Some. rewrite (is_failed_true _ _ _ Hd).
  unfold writable in Hw. by bool_hyps.
Qed.

Lemma can_write_range a nb i s data :
  wf_array a nb → can_write a i s data = true →
  0 ≤ i < numDisks a ∧ 0 ≤ s < nb.
Proof.
  intros Hwf (d & Hd & Hw & _)%can_write_Some.
  pose proof (disk_at_range _ _ _ Hd) as Hi. rewrite <- (wf_len _ _ Hwf) in Hi.
  destruct (disk_ok_fields _ _ _ (wf_array_disk_ok _ _ _ _ Hwf Hd)) as (_ & Hn & _).
  unfold writable in Hw. bool_hyps. lia.
Qed.

Lemma read_fault_free_same a b : a ≈ b → read_fault_free a = read_fault_free b.
Proof.
  intros Hab. unfold read_fault_free.
  assert (∀ x : RAIDArray,
            forallb (λ d, match File.rfaults (Disk.file d) with
                          | [] => true | _ => false end) (disks x)
            = forallb (λ d, match File.rfaults (Disk.file d) with
                            | [] => true | _ => false end) (disks (erase x))) as He.
  { intros x. unfold erase. simpl. induction (disks x) as [|d l IH]; [done|].
    simpl. by rewrite IH. }
  by rewrite (He a), (He b), Hab.
Qed.

(** After a successful write of [data] to block [s] of disk [i], a read of
    that block gives [data], as long as the host reports no read fault. *)
Lemma put_then_read a nb i s data a' :
  wf_array a nb → read_fault_free a = true →
  can_write a i s data = true → a' ≈ put a i s data →
  wf_array (put a i s data) nb
  ∧ can_read (put a i s data) i s = true
  ∧ blk (put a i s data) i s = data.
Proof.
  intros Hwf Hrf Hcw Ha'.
  destruct (can_write_range _ _ _ _ _ Hwf Hcw) as [Hi Hs].
  pose proof (can_write_not_failed _ _ _ _ Hcw) as Hnf.
  destruct (can_write_Some _ _ _ _ Hcw) as (d & Hd & Hw & _).
  split_and!.
  - by eapply wf_array_put.
  - rewrite (can_read_put _ _ _ _ _ Hd). by eapply can_read_healthy.
  - by eapply blk_put_same.
Qed.

Section raid0.

Variables (a : RAIDArray) (nb : Z).
Hypothesis Hwf : wf_array a nb.
Variable lbid : Z.
Hypothesis Hlbid : 0 ≤ lbid < nb * numDisks a.

Lemma raid0_layout :
  0 ≤ Z.rem lbid (numDisks a) < numDisks a ∧ 0 ≤ Z.quot lbid (numDisks a) < nb.
Proof.
  pose proof (wf_array_n _ _ Hwf) as Hn.
  rewrite Z.rem_mod_nonneg, Z.quot_div_nonneg by lia. split.
  - apply Z.mod_pos_bound. lia.
  - split; [apply Z.div_pos; lia|]. apply Z.div_lt_upper_bound; lia.
Qed.

Lemma raid0_writeBlock_spec data b :
  b ≈ a →
  wp (raid0Impl.writeBlock lbid data)
     (λ r a',
        match r with
        | None =>
            can_write a (Z.rem lbid (numDisks a)) (Z.quot lbid (numDisks a)) data = true
            ∧ a' ≈ put a (Z.rem lbid (numDisks a)) (Z.quot lbid (numDisks a)) data
        | Some _ => True
        end) b.
Proof.
  intros Hb. pose proof (wf_array_n _ _ Hwf) as Hn.
  destruct raid0_layout as [Hi Hs].
  unfold raid0Impl.writeBlock.
  apply wp_bind. eapply wp_numDisks; [done|].
  apply wp_bind. apply wp_int_rem; [lia|].
  apply wp_bind. apply wp_int_quot; [lia|].
  eapply wp_write; [done..| |]; by intros.
Qed.

Lemma raid0_readBlock_spec b :
  b ≈ a →
  wp (raid0Impl.readBlock lbid)
     (λ r a',
        match r with
        | Ok x =>
            x = blk a (Z.rem lbid (numDisks a)) (Z.quot lbid (numDisks a))
        | Err _ =>
            can_read a (Z.rem lbid (numDisks a)) (Z.quot lbid (numDisks a)) = false
        end) b.
Proof.
  intros Hb. pose proof (wf_array_n _ _ Hwf) as Hn.
  destruct raid0_layout as [Hi Hs].
  unfold raid0Impl.readBlock.
  apply wp_bind. eapply wp_numDisks; [done|].
  apply wp_bind. apply wp_int_rem; [lia|].
  apply wp_bind. apply wp_int_quot; [lia|].
  eapply wp_read; [done..| |]; by intros.
Qed.

End raid0.

Lemma can_read_put_any a i s data j s' :
  can_read (put a i s data) j s' = can_read a j s'.
Proof.
  unfold put. destruct (disk_at a i) as [d|] eqn:Hd; [|done].
  rewrite (can_read_upd _ _ _ _ Hd). case_decide; [|done].
  subst. unfold can_read. by rewrite Hd.
Qed.

Lemma can_write_put_any a i s data j s' data' :
  can_write (put a i s data) j s' data' = can_write a j s' data'.
Proof.
  unfold put. destruct (disk_at a i) as [d|] eqn:Hd; [|done].
  rewrite (can_write_upd _ _ _ _ Hd). case_decide; [|done].
  subst. unfold can_write. by rewrite Hd.
Qed.

(** A disk that took the write of [data] without error gives [data] back. *)
Lemma disk_write_then_read bs nb d lbid data :
  disk_ok bs nb d → File.rfaults (Disk.file d) = [] →
  (Disk.WriteBlock lbid data d).1 = None →
  Disk.failed (Disk.WriteBlock lbid data d).2 = false
  ∧ (Disk.ReadBlock lbid (Disk.WriteBlock lbid data d).2).1 = Ok data.
Proof.
  intros Hok Hrf Hnone.
  destruct (writable d lbid data) eqn:Hw.
  2:{ destruct (WriteBlock_unwritable _ _ _ Hok lbid data Hw) as [e He].
      by rewrite He in Hnone. }
  rewrite (WriteBlock_writable _ _ _ Hok lbid data Hw) in *.
  destruct (File.syncfault (Disk.file d)); [done|]. simpl.
  pose proof (written_ok _ _ _ Hok lbid data Hw) as Hok'.
  assert (disk_ok bs nb (bump_write (written d lbid data))) as Hok'' by done.
  assert (readable (bump_write (written d lbid data)) lbid = true) as Hr.
  { unfold writable in Hw. unfold readable. simpl. bool_hyps.
    rewrite Hrf. repeat match goal with H : _ = false |- _ => rewrite H end.
    zbs. rewrite bool_decide_eq_false_2; [done|]. by intros ?%elem_of_nil. }
  split; [unfold writable in Hw; by bool_hyps|].
  rewrite (ReadBlock_readable _ _ _ Hok'' lbid Hr). simpl. f_equal.
  change (block_of (bump_write (written d lbid data)) lbid)
    with (block_of (written d lbid data) lbid).
  by eapply written_block_same.
Qed.

Lemma raid1_readBlock_run a lbid :
  numDisks a = len (disks a) →
  ∃ r a', raid1Impl.readBlock lbid a = Some (r, a')
    ∧ a' ≈ a
    ∧ match r with
      | Ok data =>
          ∃ i d, 0 ≤ i ∧ disk_at a i = Some d ∧ Disk.failed d = false
            ∧ (Disk.ReadBlock lbid d).1 = Ok data
            ∧ ∀ j, 0 ≤ j < i → unreadable_replica a lbid j
      | Err e =>
          e = ENoDiskReadable (last_read_error lbid (disks a) None)
          ∧ ∀ j, 0 ≤ j → unreadable_replica a lbid j
      end.
Proof.
  intros Hlen.
  destruct (raid1_read_loop a lbid (disks a) 0 None ltac:(lia) ltac:(done))
    as (r & a' & Hrun & Ha' & Hpost).
  unfold raid1Impl.readBlock, bind, gets. rewrite Hlen, Hrun.
  destruct r as [lastErr|data].
  - destruct Hpost as [-> Hpost]. eexists (Err _), a'. by split_and!.
  - exists (Ok data), a'. by split_and!.
Qed.

(** ** The level-5 layout *)

Lemma spec_layout_inj n l1 l2 :
  2 ≤ n → 0 ≤ l1 → 0 ≤ l2 →
  spec_stripe n l1 = spec_stripe n l2 →
  spec_data_disk n l1 = spec_data_disk n l2 →
  l1 = l2.
Proof.
  intros Hn H1 H2 Hst Hdd.
  destruct (layout_code n l1) as (_ & _ & _ & Hd1); [lia..|].
  destruct (layout_code n l2) as (_ & _ & _ & Hd2); [lia..|].
  rewrite <- Hd1, <- Hd2 in Hdd. unfold spec_parity_disk in Hdd.
  rewrite Hst in Hdd. apply skip_parity_inj in Hdd.
  unfold spec_stripe, spec_stripe_offset in *.
  rewrite (Z.div_mod l1 (n - 1)), (Z.div_mod l2 (n - 1)) by lia.
  by rewrite Hst, Hdd.
Qed.

Lemma spec_layout_surj n nb s j :
  2 ≤ n → 0 ≤ s < nb → 0 ≤ j < n → j ≠ s `mod` n →
  ∃ l, 0 ≤ l < nb * (n - 1) ∧ spec_stripe n l = s ∧ spec_data_disk n l = j.
Proof.
  intros Hn Hs Hj Hne.
  set (o := if j <? s `mod` n then j else j - 1).
  assert (0 ≤ s `mod` n < n) as Hp by (apply Z.mod_pos_bound; lia).
  assert (0 ≤ o < n - 1) as Ho by (unfold o; case_match; bool_hyps; lia).
  exists (s * (n - 1) + o).
  assert (spec_stripe n (s * (n - 1) + o) = s) as Hst.
  { unfold spec_stripe. symmetry. apply (Z.div_unique _ _ s o); lia. }
  assert (spec_stripe_offset n (s * (n - 1) + o) = o) as Hoff.
  { unfold spec_stripe_offset. symmetry. apply (Z.mod_unique _ _ s o); lia. }
  split_and!; [nia|nia|done|].
  unfold spec_data_disk, spec_parity_disk. rewrite Hoff, Hst.
  unfold o. repeat case_match; bool_hyps; lia.
Qed.

Lemma write_parity_length a lbid data :
  length (write_parity a lbid data) = length data.
Proof. unfold write_parity. apply xor_all_length. Qed.

(** C5. On a level-5 array of [N] disks, for a logical block in range, the
    read and the write path address physical block [lbid div (N - 1)], the
    parity of the stripe is on disk [stripe mod N], the data on disk
    [lbid mod (N - 1)], shifted by one from the parity disk on; every
    stripe has one parity member and [N - 1] data members, and distinct
    logical blocks have distinct places. *)
Theorem raid5_layout sched a lbid data :
  wf a = true → level a = RAID5 → healthy a = true → fault_free a = true →
  0 ≤ lbid < capacity a → len data = blockSize a →
  let n := numDisks a in
  let st := spec_stripe n lbid in
  let p := spec_parity_disk n lbid in
  let dd := spec_data_disk n lbid in
  (0 ≤ st < blocksPerDisk a ∧ 0 ≤ p < n ∧ 0 ≤ dd < n ∧ dd ≠ p)
  ∧ (∃ a', ReadBlock lbid a = Some (Ok (blk a dd st), a') ∧ a' ≈ a)
  ∧ (∃ a', WriteBlock sched lbid data a = Some (None, a')
           ∧ blk a' dd st = data
           ∧ blk a' p st = others_xor a' p st
           ∧ ∀ i s, 0 ≤ s → ¬ (i = dd ∧ s = st) → ¬ (i = p ∧ s = st) →
                    blk a' i s = blk a i s)
  ∧ (∀ s j, 0 ≤ s < blocksPerDisk a → 0 ≤ j < n → j ≠ s `mod` n →
       ∃ l, 0 ≤ l < capacity a ∧ spec_stripe n l = s ∧ spec_data_disk n l = j)
  ∧ (∀ l, 0 ≤ l < capacity a → spec_data_disk n l ≠ spec_parity_disk n l)
  ∧ (∀ l1 l2, 0 ≤ l1 < capacity a → 0 ≤ l2 < capacity a →
       spec_stripe n l1 = spec_stripe n l2 →
       spec_data_disk n l1 = spec_data_disk n l2 → l1 = l2).
Proof.
  intros Hwfb Hl Hh Hff Hbc Hlen n st p dd.
  destruct (raid5_healthy_of_bool a Hwfb Hl Hh) as (Hwf & _ & Hnf).
  set (nb := blocksPerDisk a) in *.
  pose proof (raid5_capacity a nb Hwf Hl) as Hcap.
  assert (0 ≤ lbid < nb * (numDisks a - 1)) as Hb by (by rewrite <- Hcap).
  pose proof (wf_array_n _ _ Hwf) as Hn.
  pose proof (wf_bs _ _ Hwf) as Hbs.
  destruct (layout_ranges n nb lbid) as (Hst & Hoff & Hp & Hdd & Hne);
    [unfold n; lia..|].
  fold st p dd in Hst, Hp, Hdd, Hne.
  assert (∀ i s, 0 ≤ i < n → 0 ≤ s < nb → can_read a i s = true) as Hcr.
  { intros i s Hi Hs. eapply can_read_healthy; eauto using fault_free_read. }
  split; [split_and!; lia || done|].
  split; [|split; [|split; [|split]]].
  - (* the read path *)
    rewrite ReadBlock_raid5 by done.
    destruct (readBlock_spec a nb Hwf lbid Hb a ltac:(reflexivity))
      as (r & a' & Hrun & Ha' & Hpost).
    fold n st p dd in Hpost. exists a'. split; [|done]. rewrite Hrun.
    do 2 f_equal. destruct r as [x|e].
    + destruct Hpost as [[_ ->]|[Hno _]]; [done|]. rewrite Hcr in Hno; done.
    + destruct Hpost as [Hno _]. rewrite Hcr in Hno; done.
  - (* the write path *)
    rewrite WriteBlock_raid5 by done.
    assert (can_write a p st (write_parity a lbid data) = true) as Hcwp.
    { eapply can_write_healthy; eauto.
      rewrite write_parity_length. unfold len in Hlen. lia. }
    assert (can_write a dd st data = true) as Hcwd.
    { eapply can_write_healthy; eauto. unfold len in Hlen. lia. }
    destruct (writeBlock_spec a nb Hwf lbid data Hb Hlen a ltac:(reflexivity))
      as (r & a' & Hrun & Hpost).
    fold n st p dd in Hpost.
    destruct r as [e|].
    { exfalso. destruct Hpost as [(i & Hi & _ & Hno)|[[_ Hno]|Hno]].
      - destruct (skip_parity_range p i n); [lia..|].
        rewrite Hcr in Hno; [done|lia|done].
      - congruence.
      - congruence. }
    destruct Hpost as (_ & _ & _ & _ & Ha').
    destruct (written_store a nb Hwf Hnf lbid data Hb Hcwp Hcwd)
      as (_ & _ & _ & _ & _ & _ & _ & Hbd & Hbp & Hoth).
    pose proof (written_parity a nb Hwf Hnf lbid data Hb Hlen Hcwp Hcwd) as Hpar.
    exists a'. split_and!; [done|..].
    + by rewrite (blk_same _ _ _ _ Ha').
    + by rewrite (blk_same _ _ _ _ Ha'), (others_xor_same _ _ _ _ Ha').
    + intros i s Hs H1 H2. rewrite (blk_same _ _ _ _ Ha'). by apply Hoth.
  - (* one parity member, [n - 1] data members *)
    intros s j Hs Hj Hjp. rewrite Hcap. by apply spec_layout_surj.
  - intros l Hlr. rewrite Hcap in Hlr.
    by destruct (layout_ranges n nb l) as (_ & _ & _ & _ & ?); [unfold n; lia..|].
  - (* distinct logical blocks have distinct places *)
    intros l1 l2 H1 H2. apply spec_layout_inj; unfold n; lia.
Qed.

(** ** The mirrored read and write at the facade *)

(** C8. A level-1 read goes through the replicas in increasing index order,
    does not read a replica whose failed flag is set, and returns the data of
    the first replica whose read succeeds; when no replica yields a
    successful read, it returns the "failed to read from any disk" error,
    which wraps the error of the last replica read. *)
Theorem raid1_read_first_replica a lbid :
  level a = RAID1 → numDisks a = len (disks a) → 0 ≤ lbid < capacity a →
  ∃ r a', ReadBlock lbid a = Some (r, a')
    ∧ a' ≈ a
    ∧ match r with
      | Ok data =>
          ∃ i d, 0 ≤ i < numDisks a ∧ disk_at a i = Some d
            ∧ Disk.failed d = false
            ∧ (Disk.ReadBlock lbid d).1 = Ok data
            ∧ ∀ j, 0 ≤ j < i → unreadable_replica a lbid j
      | Err e =>
          e = ENoDiskReadable (last_read_error lbid (disks a) None)
          ∧ ∀ j, 0 ≤ j < numDisks a → unreadable_replica a lbid j
      end.
Proof.
  intros Hl Hlen Hb. rewrite ReadBlock_dispatch by done. rewrite Hl. simpl.
  destruct (raid1_readBlock_run a lbid Hlen) as (r & a' & Hrun & Ha' & Hpost).
  exists r, a'. split_and!; [done..|].
  destruct r as [data|e].
  - destruct Hpost as (i & d & Hi & Hd & Hf & Hr & Hbefore).
    exists i, d. split_and!; try done.
    apply disk_at_range in Hd. lia.
  - destruct Hpost as [-> Hall]. split; [done|]. intros j Hj. apply Hall. lia.
Qed.

Lemma raid1_read_first_replica_witness :
  ∃ r a', ReadBlock 1 mirror2_degraded = Some (r, a')
    ∧ a' ≈ mirror2_degraded
    ∧ match r with
      | Ok data =>
          ∃ i d, 0 ≤ i < numDisks mirror2_degraded
            ∧ disk_at mirror2_degraded i = Some d
            ∧ Disk.failed d = false
            ∧ (Disk.ReadBlock 1 d).1 = Ok data
            ∧ ∀ j, 0 ≤ j < i → unreadable_replica mirror2_degraded 1 j
      | Err e =>
          e = ENoDiskReadable (last_read_error 1 (disks mirror2_degraded) None)
          ∧ ∀ j, 0 ≤ j < numDisks mirror2_degraded →
                 unreadable_replica mirror2_degraded 1 j
      end.
Proof.
  apply (raid1_read_first_replica mirror2_degraded 1).
  - reflexivity.
  - reflexivity.
  - vm_compute. split; [discriminate|reflexivity].
Defined.

(** ** The checks of the facade *)

(** C9, as stated, does not hold: a write whose block is out of range and
    whose buffer has the wrong length is rejected by the bounds check, which
    comes first, and not by the buffer-size check. *)
Lemma bad_size_out_of_bounds :
  len ([] : list byte) ≠ blockSize stripe2
  ∧ WriteBlock [] (-1) [] stripe2
    = Some (Some (ELogicalOutOfBounds (-1) 4), stripe2)
  ∧ WriteBlock [] (-1) [] stripe2
    ≠ Some (Some (EDataSizeMismatch (blockSize stripe2)), stripe2).
Proof. split_and!; [vm_compute; discriminate|vm_compute; reflexivity|vm_compute; discriminate]. Qed.

(** C9 (amended). At every level a write or a read of a block outside
    [[0, capacity)] fails with the out-of-bounds error, and a write of a
    block in range whose buffer length differs from the block size fails with
    the buffer-size error; in both cases the array is returned as it was,
    counters included: no engine and no disk operation has run. *)
Theorem facade_rejects_before_engines sched a lbid data :
  (lbid < 0 ∨ capacity a ≤ lbid →
     WriteBlock sched lbid data a
       = Some (Some (ELogicalOutOfBounds lbid (capacity a)), a)
     ∧ ReadBlock lbid a = Some (Err (ELogicalOutOfBounds lbid (capacity a)), a))
  ∧ (0 ≤ lbid < capacity a → len data ≠ blockSize a →
     WriteBlock sched lbid data a
       = Some (Some (EDataSizeMismatch (blockSize a)), a)).
Proof.
  split.
  - intros Hb. split.
    + by apply WriteBlock_out_of_bounds.
    + by apply ReadBlock_out_of_bounds.
  - apply WriteBlock_bad_size.
Qed.

(** ** The outcome of the mirrored write *)

Lemma last_error_all_failed (errf : Z → option error) sched :
  sched ≠ [] → (∀ i, i ∈ sched → errf i ≠ None) →
  ∃ j, list.last sched = Some j ∧ last_error errf sched = errf j.
Proof.
  induction sched as [|i [|i' l] IH]; intros Hne Hall; [done|..].
  - exists i. split; [done|]. by rewrite last_error_cons.
  - destruct IH as (j & Hj & Hle); [done|intros k Hk; apply Hall; by right|].
    exists j. split; [by rewrite last_cons_cons|].
    rewrite last_error_cons, Hle.
    assert (errf j ≠ None) as He.
    { apply Hall. right. by apply last_Some_elem_of. }
    by destruct (errf j).
Qed.

Lemma sched_range sched n i : sched ≡ₚ seqZ 0 n → i ∈ sched ↔ 0 ≤ i < n.
Proof. intros ->. rewrite elem_of_seqZ. lia. Qed.

Lemma sched_length sched n : 0 ≤ n → sched ≡ₚ seqZ 0 n → len sched = n.
Proof.
  intros Hn H%Permutation_length. unfold len. rewrite H, length_seqZ. lia.
Qed.

(** C6, as stated, does not hold: on a mirror of two replicas of which the
    first is marked failed, the write reaches the second replica and fails
    on the first, and the operation returns the "degraded write" error, not
    success. *)
Lemma degraded_write_is_error :
  write_err mirror2_degraded 0 [1; 2] 1 = None
  ∧ write_err mirror2_degraded 0 [1; 2] 0 ≠ None
  ∧ fst <$> WriteBlock [0; 1] 0 [1; 2] mirror2_degraded
    = Some (Some (EDegradedWrite 1 2 [0]))
  ∧ ∀ a', WriteBlock [0; 1] 0 [1; 2] mirror2_degraded ≠ Some (None, a').
Proof.
  split_and!; [vm_compute; reflexivity|vm_compute; discriminate
              |vm_compute; reflexivity|].
  intros a' H. apply (f_equal (fmap fst)) in H. vm_compute in H. discriminate.
Qed.

(** C6 (amended). A level-1 write hands the block to every replica and
    collects the results in the order [sched] in which they arrive.  When
    every replica wrote it, the operation returns success.  When at least one
    replica wrote it and at least one did not, the operation returns the
    "degraded write" error, which carries the number of successes, the
    number of disks and the indices of the replicas that failed.  When no
    replica wrote it, the operation returns the "all disks failed" error,
    which wraps the error of the replica whose result arrived last.  In
    every case each replica is left as its own write left it. *)
Theorem raid1_write_outcome sched a lbid data :
  level a = RAID1 → numDisks a = len (disks a) → 0 < numDisks a →
  0 ≤ lbid < capacity a → len data = blockSize a →
  sched ≡ₚ seqZ 0 (numDisks a) →
  let errf := write_err a lbid data in
  let a' := set_disks a ((λ d, (Disk.WriteBlock lbid data d).2) <$> disks a) in
  ((∀ i, 0 ≤ i < numDisks a → errf i = None) →
     WriteBlock sched lbid data a = Some (None, a'))
  ∧ ((∃ i, 0 ≤ i < numDisks a ∧ errf i = None) →
     (∃ j, 0 ≤ j < numDisks a ∧ errf j ≠ None) →
     WriteBlock sched lbid data a
       = Some (Some (EDegradedWrite (successes errf sched) (numDisks a)
                       (failures errf sched)), a')
     ∧ 0 < successes errf sched < numDisks a
     ∧ ∀ j, j ∈ failures errf sched ↔ 0 ≤ j < numDisks a ∧ errf j ≠ None)
  ∧ ((∀ i, 0 ≤ i < numDisks a → errf i ≠ None) →
     ∃ j e, list.last sched = Some j ∧ errf j = Some e
       ∧ WriteBlock sched lbid data a = Some (Some (EAllDisksFailed (Some e)), a')).
Proof.
  intros Hl Hlen Hn Hb Hsize Hsched errf a'.
  pose proof (sched_range sched (numDisks a)) as Hin.
  pose proof (sched_length sched (numDisks a) ltac:(lia) Hsched) as Hlens.
  pose proof (successes_failures errf sched) as Hsum.
  assert (0 ≤ successes errf sched) as Hs0 by (unfold successes, len; lia).
  assert (0 ≤ len (failures errf sched)) as Hf0 by (unfold len; lia).
  assert (WriteBlock sched lbid data a
          = Some (if successes errf sched =? 0 then
                    Some (EAllDisksFailed (last_error errf sched))
                  else if successes errf sched <? numDisks a then
                    Some (EDegradedWrite (successes errf sched) (numDisks a)
                            (failures errf sched))
                  else None, a')) as ->.
  { rewrite WriteBlock_dispatch by done. rewrite Hl. simpl.
    apply raid1_writeBlock_run; [done|]. intros i Hi. by apply Hin. }
  split_and!.
  - intros Hall.
    assert (successes errf sched = len sched) as Hs.
    { apply successes_all. intros i Hi. apply Hall. by apply Hin. }
    by zb.
  - intros (i & Hi & Hok) (j & Hj & Hbad).
    assert (successes errf sched ≠ 0) as Hnz.
    { intros Hz. eapply successes_zero; [done| |done]. by apply Hin. }
    assert (successes errf sched ≠ len sched) as Hna.
    { intros Ha. apply Hbad. eapply successes_all; [done|]. by apply Hin. }
    split_and!; [by zb|lia|lia|].
    intros k. unfold failures. rewrite list_elem_of_filter, Hin by done. tauto.
  - intros Hall.
    assert (successes errf sched = 0) as Hz.
    { apply successes_zero. intros i Hi. apply Hall. by apply Hin. }
    destruct (last_error_all_failed errf sched) as (j & Hj & Hle).
    { intros ->. unfold len in Hlens. simpl in Hlens. lia. }
    { intros i Hi. apply Hall. by apply Hin. }
    assert (errf j ≠ None) as He.
    { apply Hall. apply Hin; [done|]. by apply last_Some_elem_of. }
    destruct (errf j) as [e|] eqn:Hej; [|done].
    exists j, e. split_and!; [done..|]. rewrite Hz, Hle. by zb.
Qed.

(** ** The theorems on the sample arrays *)

Ltac by_compute :=
  vm_compute;
  first [reflexivity | discriminate | split; [discriminate|reflexivity]].

Lemma parity_invariant_after_writes_witness :
  parity_ok parity3_written = true
  ∧ ∀ s, 0 ≤ s < blocksPerDisk parity3_written →
      stripe_xor parity3_written s = make (blockSize parity3_written)
      ∧ blk parity3_written (s `mod` numDisks parity3_written) s
        = others_xor parity3_written (s `mod` numDisks parity3_written) s.
Proof.
  apply (parity_invariant_after_writes [] parity3 parity3_writes); by_compute.
Defined.

Lemma raid5_layout_witness :
  ∃ a', WriteBlock [] 2 [5; 6] parity3 = Some (None, a')
    ∧ blk a' 0 1 = [5; 6] ∧ blk a' 1 1 = others_xor a' 1 1.
Proof.
  destruct (raid5_layout [] parity3 2 [5; 6])
    as (_ & _ & (a' & Hw & Hd & Hp & _) & _); [by_compute..|].
  exists a'. split_and!; [exact Hw|exact Hd|exact Hp].
Defined.

Lemma raid1_write_outcome_witness :
  fst <$> WriteBlock [1; 0] 0 [1; 2] mirror2_degraded
  = Some (Some (EDegradedWrite 1 2 [0])).
Proof.
  destruct (raid1_write_outcome [1; 0] mirror2_degraded 0 [1; 2])
    as (_ & Hdeg & _).
  - by_compute.
  - by_compute.
  - by_compute.
  - by_compute.
  - by_compute.
  - vm_compute. apply perm_swap.
  - destruct Hdeg as (Hw & _).
    + exists 1. split; by_compute.
    + exists 0. split; by_compute.
    + rewrite Hw. by_compute.
Defined.

Lemma rebuild_aborts_on_second_failure_witness :
  ∃ err a', RebuildDisk 1 parity3_two_failed = Some (Some err, a')
    ∧ is_failed a' 1 = true.
Proof.
  apply (rebuild_aborts_on_second_failure parity3_two_failed 1 0);
    try by_compute.
  left. by_compute.
Defined.

Lemma facade_rejects_before_engines_witness :
  WriteBlock [] 4 [1; 2] stripe2 = Some (Some (ELogicalOutOfBounds 4 4), stripe2)
  ∧ ReadBlock (-1) stripe2 = Some (Err (ELogicalOutOfBounds (-1) 4), stripe2)
  ∧ WriteBlock [] 3 [1] stripe2 = Some (Some (EDataSizeMismatch 2), stripe2).
Proof.
  split_and!.
  - apply (facade_rejects_before_engines [] stripe2 4 [1; 2]). right. by_compute.
  - apply (facade_rejects_before_engines [] stripe2 (-1) []). left. by_compute.
  - apply (facade_rejects_before_engines [] stripe2 3 [1]); by_compute.
Defined.

Lemma rebuild_rejects_without_change_witness :
  RebuildDisk 7 parity3 = Some (Some (EInvalidDiskIndex 7), parity3)
  ∧ RebuildDisk 1 parity3 = Some (Some (ENotMarkedFailed 1), parity3).
Proof.
  split.
  - apply (rebuild_rejects_without_change parity3 7); [by_compute|].
    right. by_compute.
  - apply (rebuild_rejects_without_change parity3 1); by_compute.
Defined.

(** * Further properties of the engines *)

(** ** Well-formedness, back from the Prop view *)

Lemma wf_of_wf_array a nb : wf_array a nb → wf a = true.
Proof.
  intros Hwf. unfold wf. rewrite (wf_array_blocks _ _ Hwf).
  pose proof (wf_len _ _ Hwf). pose proof (wf_two _ _ Hwf).
  pose proof (wf_bs _ _ Hwf). pose proof (wf_nb _ _ Hwf).
  pose proof (wf_bound _ _ Hwf).
  assert (forallb (wf_disk (blockSize a) nb) (disks a) = true) as ->.
  { apply forallb_forall. intros d [k Hk]%list_elem_of_In%list_elem_of_lookup.
    apply (wf_disks _ _ Hwf (Z.of_nat k)). unfold disk_at. zb.
    by rewrite Nat2Z.id. }
  zbs. unfold RAID0, RAID1, RAID5 in *.
  destruct (wf_level _ _ Hwf) as [[-> ->]|[[-> ->]|(-> & ? & ->)]]; simpl; by zbs.
Qed.

(** ** Reads *)

Lemma raid0_read_same a nb lbid :
  wf_array a nb → 0 ≤ lbid < nb * numDisks a →
  ∃ r a', raid0Impl.readBlock lbid a = Some (r, a') ∧ a' ≈ a.
Proof.
  intros Hwf Hb. pose proof (wf_two _ _ Hwf) as Hn.
  destruct (raid0_layout a nb Hwf lbid Hb) as [Hi Hs].
  unfold raid0Impl.readBlock.
  apply wp_bind, wp_gets. apply wp_bind, wp_int_rem; [lia|].
  apply wp_bind, wp_int_quot; [lia|].
  eapply (wp_read a nb Hwf a); [done|done| |].
  - by intros _ a' Ha'.
  - by intros _ e.
Qed.

(** X1. A read, at any level and for any block number, does not panic on a
    well-formed array, and changes nothing but the I/O counters of the
    disks: the geometry, the bytes of every disk and the failed flags are
    as before, whether the read succeeds or not. *)
Theorem read_changes_counters_only a lbid :
  wf a = true → ∃ r a', ReadBlock lbid a = Some (r, a') ∧ a' ≈ a.
Proof.
  intros Hwf%wf_array_of_wf. set (nb := blocksPerDisk a) in *.
  destruct (decide (0 ≤ lbid < capacity a)) as [Hb|Hb].
  2:{ exists (Err (ELogicalOutOfBounds lbid (capacity a))), a.
      split; [apply ReadBlock_out_of_bounds; lia|reflexivity]. }
  rewrite ReadBlock_dispatch by done.
  destruct (wf_level _ _ Hwf) as [[Hl Hc]|[[Hl Hc]|(Hl & Hn & Hc)]];
    rewrite Hl; simpl.
  - apply (raid0_read_same a nb); [done|lia].
  - destruct (raid1_readBlock_run a lbid (wf_len _ _ Hwf)) as (r & a' & ? & ? & _).
    by exists r, a'.
  - destruct (readBlock_spec a nb Hwf lbid ltac:(lia) a ltac:(reflexivity))
      as (r & a' & ? & ? & _).
    by exists r, a'.
Qed.

Lemma read_changes_counters_only_witness :
  ∃ r a', ReadBlock 2 (set_failed 0 true parity3_written) = Some (r, a')
          ∧ a' ≈ set_failed 0 true parity3_written.
Proof. apply read_changes_counters_only. by_compute. Defined.

(** X2. The fault tolerance of a level-5 read, exactly: the read of a block
    in range succeeds if and only if the data disk of the block can be read
    at the stripe, or every other disk of the array can. *)
Theorem raid5_read_tolerance a lbid :
  wf a = true → level a = RAID5 → 0 ≤ lbid < capacity a →
  ∃ r a', ReadBlock lbid a = Some (r, a')
    ∧ ((∃ x, r = Ok x) ↔
         can_read a (spec_data_disk (numDisks a) lbid)
                    (spec_stripe (numDisks a) lbid) = true
         ∨ ∀ i, 0 ≤ i < numDisks a → i ≠ spec_data_disk (numDisks a) lbid →
                can_read a i (spec_stripe (numDisks a) lbid) = true).
Proof.
  intros Hwf%wf_array_of_wf Hl Hb. set (nb := blocksPerDisk a) in *.
  pose proof (raid5_capacity a nb Hwf Hl) as Hcap.
  pose proof (wf_array_n _ _ Hwf) as Hn.
  destruct (layout_ranges (numDisks a) nb lbid) as (Hst & Hoff & Hp & Hdd & Hne);
    [lia..|].
  rewrite ReadBlock_raid5 by done.
  destruct (readBlock_spec a nb Hwf lbid ltac:(lia) a ltac:(reflexivity))
    as (r & a' & Hrun & _ & Hpost).
  exists r, a'. split; [done|]. destruct r as [x|e].
  - split; [intros _|by eauto].
    destruct Hpost as [[Hd _]|(Hd & Hpr & Hall & _)]; [by left|right].
    intros i Hi Hid.
    destruct (decide (i = spec_parity_disk (numDisks a) lbid)) as [->|]; [done|].
    by apply Hall.
  - split; [by intros [x [=]]|].
    destruct Hpost as [Hd Hother]. intros [Hd'|Hall]; [congruence|exfalso].
    destruct Hother as [Hpr|(i & Hi & [Hip Hid] & Hno)].
    + rewrite Hall in Hpr; [done|lia|done].
    + rewrite Hall in Hno; done.
Qed.

Lemma raid5_read_tolerance_witness :
  ∃ r a', ReadBlock 2 (set_failed 0 true parity3_written) = Some (r, a')
    ∧ ((∃ x, r = Ok x) ↔
         can_read (set_failed 0 true parity3_written)
           (spec_data_disk (numDisks (set_failed 0 true parity3_written)) 2)
           (spec_stripe (numDisks (set_failed 0 true parity3_written)) 2) = true
         ∨ ∀ i, 0 ≤ i < numDisks (set_failed 0 true parity3_written) →
                i ≠ spec_data_disk (numDisks (set_failed 0 true parity3_written)) 2 →
                can_read (set_failed 0 true parity3_written) i
                  (spec_stripe (numDisks (set_failed 0 true parity3_written)) 2)
                = true).
Proof. apply raid5_read_tolerance; by_compute. Defined.

(** ** Rebuild *)

(** X3. A rebuild that returns success was the rebuild of an in-range disk
    marked failed; it leaves no disk of the array marked failed, leaves the
    blocks of the other disks as they were, and establishes the parity
    invariant on every stripe, whatever the disks held before (in
    particular after writes made while the disk was failed). *)
Theorem rebuild_establishes_parity a d a' :
  wf a = true → level a = RAID5 →
  RebuildDisk d a = Some (None, a') →
  (0 ≤ d < numDisks a ∧ is_failed a d = true)
  ∧ (∀ j, 0 ≤ j < numDisks a → is_failed a' j = false)
  ∧ (∀ j s, j ≠ d → 0 ≤ s → blk a' j s = blk a j s)
  ∧ parity_ok a' = true.
Proof.
  intros Hwf%wf_array_of_wf Hl Hrun. set (nb := blocksPerDisk a) in *.
  rewrite RebuildDisk_raid5 in Hrun by done.
  destruct (decide (0 ≤ d < numDisks a)) as [Hd|Hd].
  2:{ rewrite rebuildDisk_invalid in Hrun by lia. done. }
  destruct (is_failed a d) eqn:Hf.
  2:{ rewrite rebuildDisk_not_failed in Hrun by done. done. }
  destruct (rebuildDisk_spec a nb Hwf d Hd Hf a ltac:(reflexivity))
    as (r & a'' & Hrun' & Hpost).
  rewrite Hrun' in Hrun. injection Hrun as -> ->.
  destruct Hpost as [Ha' Hok].
  pose proof (wf_nb _ _ Hwf) as Hnb.
  destruct (wf_array_disk a nb d Hwf Hd) as [d0 Hd0].
  set (a1 := set_failed d false a) in *.
  assert (wf_array a1 nb) as Hwf1 by (by apply wf_array_set_failed).
  assert (numDisks a1 = numDisks a) as Hn1 by apply numDisks_set_failed.
  replace nb with (Z.of_nat (Z.to_nat nb)) in Ha', Hok by lia.
  destruct (rebuilt_obs a1 nb d (Z.to_nat nb) Hwf1 ltac:(lia) Hok)
    as (HwfR & Hoth & Hd' & _ & HfR & _).
  set (R := rebuilt a1 d (Z.of_nat (Z.to_nat nb))) in *.
  assert (∀ j, is_failed a1 j = if decide (d = j) then false else is_failed a j)
    as Hf1.
  { intros j. apply is_failed_set_failed. by exists d0. }
  split; [done|]. split; [|split].
  - intros j Hj. rewrite (is_failed_same _ _ _ Ha'), HfR, Hf1.
    case_decide as Hjd; [done|].
    destruct (Hok 0 ltac:(lia)) as (Hreads & _).
    rewrite rebuilt_0 in Hreads.
    specialize (Hreads j ltac:(lia) ltac:(congruence)).
    apply can_read_not_failed in Hreads. rewrite Hf1 in Hreads.
    by rewrite decide_False in Hreads.
  - intros j s Hj Hs. rewrite (blk_same _ _ _ _ Ha'), Hoth by done.
    apply blk_set_failed.
  - apply parity_ok_inv.
    rewrite (wf_array_blocks a' nb) by (by eapply wf_array_same).
    eapply parity_inv_same; [done|]. intros s Hs.
    apply (stripe_zero_iff R nb d s HwfR); [|done|].
    { unfold R. rewrite numDisks_rebuilt. lia. }
    rewrite Hd' by lia. apply others_xor_ext.
    + unfold R. by rewrite numDisks_rebuilt.
    + unfold R. by rewrite blockSize_rebuilt.
    + intros i Hi Hid. symmetry. apply Hoth; [lia|done].
Qed.

Lemma rebuild_establishes_parity_witness :
  parity_ok parity3_stale = false
  ∧ ∃ a', RebuildDisk 2 parity3_stale = Some (None, a')
      ∧ parity_ok a' = true ∧ blk a' 2 1 = [0; 0].
Proof.
  split; [by_compute|].
  assert (∃ a', RebuildDisk 2 parity3_stale = Some (None, a')
                ∧ blk a' 2 1 = [0; 0])
    as (a' & Ha' & Hblk) by (vm_compute; eauto).
  exists a'. split_and!; [done| |done].
  by destruct (rebuild_establishes_parity parity3_stale 2 a')
    as (_ & _ & _ & ?); [by_compute|by_compute|done|].
Defined.

(** ** Level-5 writes on a degraded array *)

Lemma filter_fmap_comm {A B} (f : A → B) (P : B → Prop) `{!∀ x, Decision (P x)}
    (l : list A) :
  filter P (f <$> l) = f <$> filter (λ x, P (f x)) l.
Proof.
  induction l as [|x l IH]; [done|]. rewrite fmap_cons.
  destruct (decide (P (f x))) as [HP|HP].
  - rewrite !filter_cons_True by done. by rewrite fmap_cons, IH.
  - by rewrite !filter_cons_False by done.
Qed.

(** The disks of a stripe other than the parity disk and the disk of the
    data position [j]. *)
Lemma filter_two_seq p n j :
  0 ≤ p < n →
  filter (λ i, i ≠ p ∧ i ≠ skip_parity p j) (seqZ 0 n)
  = skip_parity p <$> filter (λ i, i ≠ j) (seqZ 0 (n - 1)).
Proof.
  intros Hp.
  rewrite (filter_ext_in _ (λ i, i ≠ skip_parity p j ∧ i ≠ p)) by (intros; tauto).
  rewrite <- (list_filter_filter (λ i, i ≠ skip_parity p j) (λ i, i ≠ p)).
  rewrite filter_ne_seq by done. rewrite filter_fmap_comm.
  f_equal. apply filter_ext_in. intros i _. split.
  - intros Hne ->. done.
  - intros Hne Heq. by apply skip_parity_inj in Heq.
Qed.

Lemma same_stripe_offsets n l1 l2 :
  2 ≤ n → 0 ≤ l1 → 0 ≤ l2 → l1 ≠ l2 →
  spec_stripe n l1 = spec_stripe n l2 →
  spec_stripe_offset n l1 ≠ spec_stripe_offset n l2.
Proof.
  intros Hn H1 H2 Hne Hst Hoff. apply Hne.
  unfold spec_stripe, spec_stripe_offset in *.
  rewrite (Z.div_mod l1 (n - 1)), (Z.div_mod l2 (n - 1)) by lia.
  by rewrite Hst, Hoff.
Qed.

Section raid5_degraded_write.

Variables (a : RAIDArray) (nb : Z).
Hypothesis Hwf : wf_array a nb.
Hypothesis Hff : fault_free a = true.
Variables (lbid : Z) (data : list byte).
Hypothesis Hlbid : 0 ≤ lbid < nb * (numDisks a - 1).
Hypothesis Hdata : len data = blockSize a.

Local Abbreviation n := (numDisks a).
Local Abbreviation st := (spec_stripe (numDisks a) lbid).
Local Abbreviation off := (spec_stripe_offset (numDisks a) lbid).
Local Abbreviation p := (spec_parity_disk (numDisks a) lbid).
Local Abbreviation dd := (spec_data_disk (numDisks a) lbid).
Local Abbreviation par := (write_parity a lbid data).

(** The single failed disk. *)
Variable f : Z.
Hypothesis Hf : 0 ≤ f < numDisks a.
Hypothesis Hfailed : ∀ i, 0 ≤ i < numDisks a → is_failed a i = true ↔ i = f.
Hypothesis Hfp : f ≠ p.

Lemma degraded_live i : 0 ≤ i < n → i ≠ f → is_failed a i = false.
Proof.
  intros Hi Hne. destruct (is_failed a i) eqn:Hfi; [|done].
  by apply Hfailed in Hfi.
Qed.

Lemma degraded_can_read i s : 0 ≤ i < n → i ≠ f → 0 ≤ s < nb → can_read a i s = true.
Proof.
  intros Hi Hne Hs. eapply can_read_healthy; eauto using fault_free_read.
  by apply degraded_live.
Qed.

Lemma degraded_can_write_parity : can_write a p st par = true.
Proof.
  pose proof (wf_array_n _ _ Hwf) as Hn. pose proof (wf_bs _ _ Hwf) as Hbs.
  destruct (layout_ranges n nb lbid) as (Hst & Hoff & Hp & Hd & Hne); [lia..|].
  eapply can_write_healthy; eauto.
  - by apply degraded_live.
  - rewrite write_parity_length. unfold len in Hdata. lia.
Qed.

(** The store once the parity of the write has been written. *)
Lemma degraded_parity_store :
  after_parity a lbid data = put a p st par
  ∧ wf_array (put a p st par) nb
  ∧ numDisks (put a p st par) = n
  ∧ blockSize (put a p st par) = blockSize a
  ∧ (∀ i, is_failed (put a p st par) i = is_failed a i)
  ∧ (∀ i s, can_read (put a p st par) i s = can_read a i s)
  ∧ (∀ i s data', can_write (put a p st par) i s data' = can_write a i s data')
  ∧ blk (put a p st par) p st = par
  ∧ (∀ i s, i ≠ p → 0 ≤ s → blk (put a p st par) i s = blk a i s).
Proof.
  pose proof (wf_array_n _ _ Hwf) as Hn.
  destruct (layout_ranges n nb lbid) as (Hst & Hoff & Hp & Hd & Hne); [lia..|].
  destruct (can_write_Some _ _ _ _ degraded_can_write_parity) as (dp & Hdp & Hwp & _).
  split_and!.
  - unfold after_parity. by rewrite degraded_live.
  - by eapply wf_array_put.
  - apply numDisks_put.
  - apply blockSize_put.
  - intros i. by eapply is_failed_put.
  - intros i s. by eapply can_read_put.
  - intros i s data'. by eapply can_write_put.
  - by eapply blk_put_same.
  - intros i s Hi Hs. eapply blk_put_other; eauto.
Qed.

End raid5_degraded_write.

Section raid5_write_failed_data.

Variables (a : RAIDArray) (nb : Z).
Hypothesis Hwf : wf_array a nb.
Hypothesis Hff : fault_free a = true.
Variables (lbid : Z) (data : list byte).
Hypothesis Hlbid : 0 ≤ lbid < nb * (numDisks a - 1).
Hypothesis Hdata : len data = blockSize a.

Local Abbreviation n := (numDisks a).
Local Abbreviation st := (spec_stripe (numDisks a) lbid).
Local Abbreviation off := (spec_stripe_offset (numDisks a) lbid).
Local Abbreviation p := (spec_parity_disk (numDisks a) lbid).
Local Abbreviation dd := (spec_data_disk (numDisks a) lbid).
Local Abbreviation par := (write_parity a lbid data).

(** The data disk of the block is the one disk marked failed. *)
Hypothesis Hfailed : ∀ i, 0 ≤ i < numDisks a → is_failed a i = true ↔ i = dd.

(** The parity of the siblings, all of which are read. *)
Lemma failed_data_parity :
  par = xor_all data ((λ i, blk a (skip_parity p i) st)
                        <$> filter (λ i, i ≠ off) (seqZ 0 (n - 1))).
Proof.
  pose proof (wf_array_n _ _ Hwf) as Hn.
  destruct (layout_ranges n nb lbid) as (Hst & Hoff & Hp & Hd & Hne); [lia..|].
  destruct (layout_code n lbid) as (_ & _ & _ & Hdd); [lia..|].
  unfold write_parity. f_equal. f_equal. apply filter_ext_in.
  intros i Hi%elem_of_seqZ. split; [by intros []|]. intros Hio. split; [done|].
  destruct (skip_parity_range p i n); [lia..|].
  apply (degraded_live a dd Hfailed); [lia|].
  rewrite <- Hdd. intros Heq. by apply skip_parity_inj in Heq.
Qed.

Lemma writeBlock_data_failed :
  wp (raid5Impl.writeBlock lbid data)
     (λ r a', (∃ e, r = Some (EWriteData dd e)) ∧ a' ≈ put a p st par) a.
Proof.
  pose proof (wf_array_n _ _ Hwf) as Hn.
  destruct (layout_code n lbid) as (Hq & Hr & Hpd & Hdd); [lia..|].
  destruct (layout_ranges n nb lbid) as (Hst & Hoff & Hp & Hd & Hne); [lia..|].
  pose proof (degraded_can_write_parity a nb Hwf Hff lbid data Hlbid Hdata dd
                Hfailed Hne) as Hcwp.
  destruct (degraded_parity_store a nb Hwf Hff lbid data Hlbid Hdata dd
                Hfailed Hne) as (_ & Hwf1 & Hn1 & _ & Hf1 & _).
  unfold raid5Impl.writeBlock.
  apply wp_bind. eapply wp_numDisks; [reflexivity|].
  apply wp_bind. apply wp_int_quot; [lia|]. rewrite Hq.
  apply wp_bind. apply wp_int_rem; [lia|]. rewrite Hr.
  apply wp_bind. apply wp_int_rem; [lia|]. rewrite Hpd.
  fold (skip_parity p off). rewrite Hdd.
  apply wp_bind. eapply wp_blockSize; [reflexivity|].
  apply wp_bind. apply wp_mmake; [pose proof (wf_bs _ _ Hwf); lia|].
  rewrite copy_same_length
    by (rewrite make_length; unfold len in Hdata; pose proof (wf_bs _ _ Hwf); lia).
  apply wp_bind. eapply wp_mono.
  { apply (xor_loop a _
             (λ i, i ≠ off ∧ is_failed a (skip_parity p i) = false)
             (skip_parity p) st); [|reflexivity].
    intros i acc b Hi Hb. by apply (writeBlock_body_spec a nb Hwf lbid Hlbid). }
  intros [x|e] b [Hb Hpost].
  2:{ exfalso. destruct Hpost as (i & Hi%elem_of_seqZ & [Hio Hlive] & Hcr).
      destruct (skip_parity_range p i n); [lia..|].
      rewrite (degraded_can_read a nb Hwf Hff dd Hfailed) in Hcr; [done|lia| |done].
      intros Heq. by rewrite Heq, (proj2 (Hfailed dd Hd)) in Hlive. }
  destruct Hpost as [-> _]. fold par.
  apply wp_bind. eapply (wp_isfailed a nb Hwf); [done..|].
  rewrite (degraded_live a dd Hfailed) by done. simpl.
  apply wp_bind. eapply (wp_write a nb Hwf); [done..| |].
  2:{ intros Hno. change (can_write a p st par = false) in Hno. congruence. }
  intros _ a' Ha'. change (a' ≈ put a p st par) in Ha'.
  destruct (wf_array_disk _ _ dd Hwf1 ltac:(lia)) as [d1 Hd1].
  apply wp_bind. eapply (wp_WriteBlock _ nb Hwf1 a' dd d1 Ha' Hd1).
  - intros _ e. apply wp_ret. eauto.
  - intros Hw. exfalso. unfold writable in Hw.
    rewrite <- (is_failed_true _ _ _ Hd1), Hf1, (proj2 (Hfailed dd Hd)) in Hw by done.
    done.
  - intros Hw. exfalso. unfold writable in Hw.
    rewrite <- (is_failed_true _ _ _ Hd1), Hf1, (proj2 (Hfailed dd Hd)) in Hw by done.
    done.
Qed.

End raid5_write_failed_data.

(** X4. On a level-5 array whose only failed disk is the data disk of a
    block, and whose host injects no fault, a write of the block returns the
    "failed to write data" error, but only after the parity of the stripe has
    been overwritten with the parity of the new data: the read of the block
    that follows returns the data of the write that failed. *)
Theorem raid5_failed_write_is_stored sched a lbid data :
  wf a = true → level a = RAID5 → fault_free a = true →
  0 ≤ lbid < capacity a → len data = blockSize a →
  (∀ i, 0 ≤ i < numDisks a →
        is_failed a i = true ↔ i = spec_data_disk (numDisks a) lbid) →
  ∃ e a',
    WriteBlock sched lbid data a
      = Some (Some (EWriteData (spec_data_disk (numDisks a) lbid) e), a')
    ∧ blk a' (spec_parity_disk (numDisks a) lbid) (spec_stripe (numDisks a) lbid)
      = write_parity a lbid data
    ∧ ∃ a'', ReadBlock lbid a' = Some (Ok data, a'').
Proof.
  intros Hwf%wf_array_of_wf Hl Hff Hb Hlen Hfailed.
  set (nb := blocksPerDisk a) in *.
  pose proof (raid5_capacity a nb Hwf Hl) as Hcap.
  assert (0 ≤ lbid < nb * (numDisks a - 1)) as Hlbid by lia.
  pose proof (wf_array_n _ _ Hwf) as Hn.
  destruct (layout_ranges (numDisks a) nb lbid) as (Hst & Hoff & Hp & Hd & Hne);
    [lia..|].
  destruct (layout_code (numDisks a) lbid) as (_ & _ & _ & Hdd); [lia..|].
  set (st := spec_stripe (numDisks a) lbid) in *.
  set (p := spec_parity_disk (numDisks a) lbid) in *.
  set (dd := spec_data_disk (numDisks a) lbid) in *.
  set (off := spec_stripe_offset (numDisks a) lbid) in *.
  rewrite WriteBlock_raid5 by done.
  destruct (writeBlock_data_failed a nb Hwf Hff lbid data Hlbid Hlen Hfailed)
    as (r & a' & Hrun & [e ->] & Ha').
  destruct (degraded_parity_store a nb Hwf Hff lbid data Hlbid Hlen dd Hfailed Hne)
    as (_ & Hwf1 & Hn1 & Hb1 & Hf1 & Hcr1 & _ & Hbp & Hoth).
  fold st p in Ha', Hwf1, Hn1, Hb1, Hf1, Hcr1, Hbp, Hoth.
  set (A1 := put a p st (write_parity a lbid data)) in *.
  destruct (same_data_static _ _ Ha') as (Hl' & Hb' & Hn' & Hc' & _).
  exists e, a'. split; [done|]. split; [by rewrite (blk_same _ _ _ _ Ha')|].
  assert (∀ i, 0 ≤ i < numDisks a → i ≠ dd → can_read A1 i st = true) as Hreads.
  { intros i Hi Hid. rewrite Hcr1.
    by apply (degraded_can_read a nb Hwf Hff dd Hfailed). }
  assert (can_read A1 dd st = false) as Hnodd.
  { apply is_failed_can_read. rewrite Hf1. by apply Hfailed. }
  rewrite ReadBlock_raid5 by (rewrite ?Hl', ?Hc'; unfold A1;
                              rewrite ?level_put, ?capacity_put; done).
  destruct (readBlock_spec A1 nb Hwf1 lbid ltac:(rewrite Hn1; lia) a' Ha')
    as (r & a'' & Hrun' & _ & Hpost).
  rewrite Hn1 in Hpost. fold st p dd in Hpost.
  exists a''. rewrite Hrun'. do 2 f_equal. destruct r as [x|e'].
  2:{ exfalso. destruct Hpost as [_ [Hno|(i & Hi & [Hip Hid] & Hno)]].
      - rewrite Hreads in Hno; [done|lia|done].
      - rewrite Hreads in Hno; done. }
  destruct Hpost as [[Hyes _]|(_ & _ & _ & ->)]; [congruence|].
  f_equal. rewrite Hbp, <- Hdd. unfold p at 2. rewrite filter_two_seq by done.
  rewrite <- list_fmap_compose.
  rewrite (failed_data_parity a nb Hwf lbid data Hlbid Hfailed).
  fold st p off.
  rewrite (xor_all_ext _ (λ i, blk a (skip_parity p i) st)).
  { apply xor_all_cancel. }
  intros i [Hio Hi%elem_of_seqZ]%list_elem_of_filter. simpl.
  destruct (skip_parity_range p i (numDisks a)); [lia..|].
  apply Hoth; [done|lia].
Qed.

(** X5. On a level-5 array with one failed disk and no host fault, a write
    to a block of a stripe in which the failed disk holds another data block
    succeeds, and computes the parity of the stripe without the block of the
    failed disk: after the write, the read of that other block, which is
    reconstructed from the parity, returns the zero block, whatever the
    block held before. *)
Theorem raid5_degraded_write_zeroes_sibling sched a lbid data lbid' :
  wf a = true → level a = RAID5 → fault_free a = true →
  0 ≤ lbid < capacity a → len data = blockSize a →
  0 ≤ lbid' < capacity a → lbid' ≠ lbid →
  spec_stripe (numDisks a) lbid' = spec_stripe (numDisks a) lbid →
  (∀ i, 0 ≤ i < numDisks a →
        is_failed a i = true ↔ i = spec_data_disk (numDisks a) lbid') →
  ∃ a', WriteBlock sched lbid data a = Some (None, a')
    ∧ ∃ a'', ReadBlock lbid' a' = Some (Ok (make (blockSize a)), a'').
Proof.
  intros Hwf%wf_array_of_wf Hl Hff Hb Hlen Hb' Hll Hsame Hfailed.
  set (nb := blocksPerDisk a) in *.
  pose proof (raid5_capacity a nb Hwf Hl) as Hcap.
  assert (0 ≤ lbid < nb * (numDisks a - 1)) as Hlbid by lia.
  assert (0 ≤ lbid' < nb * (numDisks a - 1)) as Hlbid' by lia.
  pose proof (wf_array_n _ _ Hwf) as Hn. pose proof (wf_bs _ _ Hwf) as Hbs.
  destruct (layout_ranges (numDisks a) nb lbid) as (Hst & Hoff & Hp & Hd & Hne);
    [lia..|].
  destruct (layout_code (numDisks a) lbid) as (_ & _ & _ & Hdd); [lia..|].
  destruct (layout_ranges (numDisks a) nb lbid') as (_ & Hj & _ & Hf & Hfp);
    [lia..|].
  destruct (layout_code (numDisks a) lbid') as (_ & _ & _ & Hfj); [lia..|].
  pose proof (same_stripe_offsets (numDisks a) lbid' lbid ltac:(lia) ltac:(lia)
                ltac:(lia) Hll Hsame) as Hjo.
  assert (spec_parity_disk (numDisks a) lbid' = spec_parity_disk (numDisks a) lbid)
    as Hpp by (unfold spec_parity_disk; by rewrite Hsame).
  rewrite Hpp in Hfp, Hfj.
  set (st := spec_stripe (numDisks a) lbid) in *.
  set (p := spec_parity_disk (numDisks a) lbid) in *.
  set (dd := spec_data_disk (numDisks a) lbid) in *.
  set (off := spec_stripe_offset (numDisks a) lbid) in *.
  set (f := spec_data_disk (numDisks a) lbid') in *.
  set (j := spec_stripe_offset (numDisks a) lbid') in *.
  assert (dd ≠ f) as Hdf.
  { rewrite <- Hdd, <- Hfj. intros Heq. by apply skip_parity_inj in Heq. }
  pose proof (degraded_can_write_parity a nb Hwf Hff lbid data Hlbid Hlen f
                Hfailed Hfp) as Hcwp.
  destruct (degraded_parity_store a nb Hwf Hff lbid data Hlbid Hlen f Hfailed Hfp)
    as (Hap & Hwf1 & Hn1 & Hb1 & Hf1 & Hcr1 & Hcw1 & Hbp & Hoth).
  fold st p in Hcwp, Hap, Hwf1, Hn1, Hb1, Hf1, Hcr1, Hcw1, Hbp, Hoth.
  set (par := write_parity a lbid data) in *.
  set (A1 := put a p st par) in *.
  assert (can_write a dd st data = true) as Hcwd.
  { eapply can_write_healthy; eauto.
    - by apply (degraded_live a f Hfailed).
    - unfold len in Hlen. lia. }
  (* the write succeeds *)
  rewrite WriteBlock_raid5 by done.
  destruct (writeBlock_spec a nb Hwf lbid data Hlbid Hlen a ltac:(reflexivity))
    as (r & a' & Hrun & Hpost).
  fold st p dd off in Hpost. destruct r as [e|].
  { exfalso. destruct Hpost as [(i & Hi & [_ Hlive] & Hno)|[[_ Hno]|Hno]].
    - destruct (skip_parity_range p i (numDisks a)); [lia..|].
      rewrite (degraded_can_read a nb Hwf Hff f Hfailed) in Hno; [done|lia| |done].
      intros Heq. by rewrite Heq, (proj2 (Hfailed f Hf)) in Hlive.
    - fold par in Hno. congruence.
    - congruence. }
  destruct Hpost as (_ & _ & _ & _ & Ha'). rewrite Hap in Ha'.
  exists a'. split; [done|].
  (* the store after the write *)
  assert (can_write A1 dd st data = true) as Hcwd1 by (by rewrite Hcw1).
  destruct (can_write_Some _ _ _ _ Hcwd1) as (d1 & Hd1 & Hwd1 & _).
  set (A2 := put A1 dd st data) in *.
  assert (wf_array A2 nb) as Hwf2 by (by eapply wf_array_put).
  assert (numDisks A2 = numDisks a) as Hn2 by (unfold A2; by rewrite numDisks_put).
  assert (blk A2 dd st = data) as Hbd2 by (by eapply blk_put_same).
  assert (∀ i, i ≠ dd → blk A2 i st = blk A1 i st) as Hoth2.
  { intros i Hi. eapply blk_put_other; eauto. lia. }
  assert (∀ i s, can_read A2 i s = can_read a i s) as Hcr2.
  { intros i s. unfold A2. by rewrite (can_read_put _ _ _ _ _ Hd1), Hcr1. }
  assert (is_failed A2 f = true) as Hf2.
  { unfold A2. rewrite (is_failed_put _ _ _ _ _ Hd1), Hf1. by apply Hfailed. }
  destruct (same_data_static _ _ Ha') as (Hl' & Hb2' & Hn' & Hc' & _).
  (* the read of the other block *)
  rewrite ReadBlock_raid5
    by (rewrite ?Hl', ?Hc'; unfold A2, A1; rewrite ?level_put, ?capacity_put; done).
  destruct (readBlock_spec A2 nb Hwf2 lbid' ltac:(rewrite Hn2; lia) a' Ha')
    as (r & a'' & Hrun' & _ & Hpost).
  rewrite Hn2, Hpp, Hsame in Hpost. fold st p f in Hpost.
  exists a''. rewrite Hrun'. do 2 f_equal. destruct r as [x|e'].
  2:{ exfalso. destruct Hpost as [_ [Hno|(i & Hi & [Hip Hif] & Hno)]].
      - rewrite Hcr2, (degraded_can_read a nb Hwf Hff f Hfailed) in Hno;
          [done|lia|done|done].
      - rewrite Hcr2, (degraded_can_read a nb Hwf Hff f Hfailed) in Hno; done. }
  destruct Hpost as [[Hyes _]|(_ & _ & _ & ->)].
  { apply can_read_not_failed in Hyes. congruence. }
  f_equal.
  rewrite <- Hfj, filter_two_seq, <- list_fmap_compose by done.
  rewrite (xor_all_perm _ _
             ((λ i, blk A2 (skip_parity p i) st)
                <$> off :: filter (λ i, i ≠ off)
                             (filter (λ i, i ≠ j) (seqZ 0 (numDisks a - 1))))).
  2:{ apply fmap_Permutation, extract_perm.
      - apply NoDup_filter, NoDup_seqZ.
      - apply list_elem_of_filter. split; [done|]. apply elem_of_seqZ. lia. }
  rewrite fmap_cons, xor_all_cons, Hdd, Hbd2.
  rewrite Hoth2, Hbp by done.
  assert (par = xor_all data
                  ((λ i, blk A2 (skip_parity p i) st)
                     <$> filter (λ i, i ≠ off)
                           (filter (λ i, i ≠ j) (seqZ 0 (numDisks a - 1))))) as Hpar.
  { unfold par, write_parity. fold st p off.
    rewrite list_filter_filter.
    rewrite (filter_ext_in
               (λ i, i ≠ off ∧ is_failed a (skip_parity p i) = false)
               (λ i, i ≠ off ∧ i ≠ j)).
    2:{ intros i Hi%elem_of_seqZ.
        destruct (skip_parity_range p i (numDisks a)); [lia..|].
        split; intros [Hio Hx]; (split; [done|]).
        - intros ->. by rewrite Hfj, (proj2 (Hfailed f Hf)) in Hx.
        - apply (degraded_live a f Hfailed); [lia|].
          rewrite <- Hfj. intros Heq. by apply skip_parity_inj in Heq. }
    apply xor_all_ext.
    intros i [[Hio Hij] Hi%elem_of_seqZ]%list_elem_of_filter.
    destruct (skip_parity_range p i (numDisks a)); [lia..|].
    rewrite Hoth2.
    - symmetry. apply Hoth; [done|lia].
    - rewrite <- Hdd. intros Heq. by apply skip_parity_inj in Heq. }
  rewrite Hpar at 1. rewrite xor_all_xorBytes, xor_all_cancel, xorBytes_self.
  unfold make, len in *. f_equal. lia.
Qed.

Ltac disk_cases i Hi :=
  let H := fresh in
  match type of Hi with
  | _ ≤ _ < ?n => let v := eval vm_compute in n in change n with v in Hi
  end;
  assert (i = 0 ∨ i = 1 ∨ i = 2) as H by lia;
  destruct H as [-> | [-> | ->] ]; vm_compute; split; intros; done.

Lemma raid5_failed_write_is_stored_witness :
  ∃ e a',
    WriteBlock [] 2 [8; 8] (set_failed 0 true parity3_written)
      = Some (Some (EWriteData 0 e), a')
    ∧ blk a' 1 1 = [15; 1]
    ∧ ∃ a'', ReadBlock 2 a' = Some (Ok [8; 8], a'').
Proof.
  apply (raid5_failed_write_is_stored [] (set_failed 0 true parity3_written) 2
           [8; 8]); try by_compute.
  intros i Hi. disk_cases i Hi.
Defined.

Lemma raid5_degraded_write_zeroes_sibling_witness :
  fst <$> ReadBlock 3 (set_failed 2 true parity3_written) = Some (Ok [7; 9])
  ∧ ∃ a', WriteBlock [] 2 [8; 8] (set_failed 2 true parity3_written)
          = Some (None, a')
      ∧ ∃ a'', ReadBlock 3 a' = Some (Ok [0; 0], a'').
Proof.
  split; [by_compute|].
  apply (raid5_degraded_write_zeroes_sibling []
           (set_failed 2 true parity3_written) 2 [8; 8] 3); try by_compute.
  intros i Hi. disk_cases i Hi.
Defined.

(** ** Level-1 writes on a degraded mirror *)

Lemma WriteBlock_failed_disk lbid data d :
  Disk.failed d = true →
  Disk.WriteBlock lbid data d = (Some (EDiskFailed (Disk.path d)), d).
Proof. intros Hf. unfold Disk.WriteBlock. by rewrite Hf. Qed.

(** X6. A level-1 write that reaches at least one replica leaves the data
    readable, whatever it returns (success or the "degraded write" error),
    provided the replicas whose write failed are marked failed: the read of
    the block that follows returns the data. *)
Theorem raid1_degraded_write_then_read sched a lbid data :
  wf a = true → level a = RAID1 → read_fault_free a = true →
  0 ≤ lbid < capacity a → len data = blockSize a →
  sched ≡ₚ seqZ 0 (numDisks a) →
  (∃ i, 0 ≤ i < numDisks a ∧ write_err a lbid data i = None) →
  (∀ i, 0 ≤ i < numDisks a → write_err a lbid data i ≠ None →
        is_failed a i = true) →
  ∃ r a', WriteBlock sched lbid data a = Some (r, a')
    ∧ ∃ a'', ReadBlock lbid a' = Some (Ok data, a'').
Proof.
  intros Hwf%wf_array_of_wf Hl Hrf Hb Hlen Hsched (i0 & Hi0 & Hok0) Hflag.
  set (nb := blocksPerDisk a) in *.
  pose proof (wf_array_n _ _ Hwf) as Hn.
  rewrite WriteBlock_dispatch by done. rewrite Hl. simpl.
  rewrite raid1_writeBlock_run
    by (apply (wf_len _ _ Hwf) || (intros i; by apply sched_range)).
  eexists _, _. split; [done|].
  set (a' := set_disks a _).
  assert (numDisks a' = len (disks a')) as Hlen'.
  { unfold a'. simpl. unfold len. rewrite length_fmap. apply (wf_len _ _ Hwf). }
  assert (∀ i d', disk_at a' i = Some d' →
            ∃ d, disk_at a i = Some d ∧ d' = (Disk.WriteBlock lbid data d).2)
    as Himage.
  { intros i d' Hd'. unfold a', disk_at in *. simpl in *.
    destruct (i <? 0); [done|]. rewrite list_lookup_fmap in Hd'.
    destruct (disks a !! Z.to_nat i) as [d|]; [|done].
    injection Hd' as <-. by exists d. }
  assert (∀ i d', disk_at a' i = Some d' → Disk.failed d' = false →
            (Disk.ReadBlock lbid d').1 = Ok data) as Hdisk.
  { intros i d' Hd' Hf'. destruct (Himage i d' Hd') as (d & Hd & ->).
    pose proof (disk_at_range _ _ _ Hd) as Hi. rewrite <- (wf_len _ _ Hwf) in Hi.
    destruct (write_err a lbid data i) as [e|] eqn:He.
    - exfalso. specialize (Hflag i Hi ltac:(by rewrite He)).
      rewrite (is_failed_true _ _ _ Hd) in Hflag.
      rewrite WriteBlock_failed_disk in Hf' by done. simpl in Hf'. congruence.
    - eapply disk_write_then_read.
      + by eapply wf_array_disk_ok.
      + pose proof (forallb_disk _ _ _ _ Hrf Hd) as H. simpl in H.
        by destruct (File.rfaults (Disk.file d)).
      + unfold write_err in He. by rewrite Hd in He. }
  rewrite ReadBlock_dispatch by done.
  change (level a') with (level a). rewrite Hl. simpl.
  destruct (raid1_readBlock_run a' lbid Hlen') as (r & a'' & Hrun & _ & Hpost).
  exists a''. rewrite Hrun. do 2 f_equal.
  destruct r as [x|e].
  - destruct Hpost as (i & d' & _ & Hd' & Hf' & Hrd & _).
    rewrite (Hdisk i d' Hd' Hf') in Hrd. congruence.
  - exfalso. destruct Hpost as [_ Hnone].
    assert (numDisks a = len (disks a')) as Hlen'' by done.
    destruct (disk_at_is_Some a' i0) as [d' Hd']; [lia|].
    destruct (Himage i0 d' Hd') as (d & Hd & ->).
    unfold write_err in Hok0. rewrite Hd in Hok0.
    assert (Disk.failed (Disk.WriteBlock lbid data d).2 = false) as Hf'.
    { eapply disk_write_then_read; [by eapply wf_array_disk_ok| |done].
      pose proof (forallb_disk _ _ _ _ Hrf Hd) as H. simpl in H.
      by destruct (File.rfaults (Disk.file d)). }
    destruct (Hnone i0 ltac:(lia) _ Hd') as [?|[e' He']]; [congruence|].
    rewrite (Hdisk i0 _ Hd' Hf') in He'. done.
Qed.

Lemma raid1_degraded_write_then_read_witness :
  ∃ r a', WriteBlock [1; 0] 0 [1; 2] mirror2_degraded = Some (r, a')
    ∧ ∃ a'', ReadBlock 0 a' = Some (Ok [1; 2], a'').
Proof.
  apply raid1_degraded_write_then_read.
  - by_compute.
  - by_compute.
  - by_compute.
  - by_compute.
  - by_compute.
  - vm_compute. apply perm_swap.
  - exists 1. split; by_compute.
  - intros i Hi. change (numDisks mirror2_degraded) with 2 in Hi.
    assert (i = 0 ∨ i = 1) as [-> | ->] by lia; vm_compute; done.
Defined.

(** ** The healthy array as a map from logical blocks to data *)

Lemma forallb_disk_intro (f : Disk.t → bool) a :
  (∀ i d, disk_at a i = Some d → f d = true) → forallb f (disks a) = true.
Proof.
  intros Hall. apply forallb_forall.
  intros d [k Hk]%list_elem_of_In%list_elem_of_lookup.
  apply (Hall (Z.of_nat k)). unfold disk_at. zb. by rewrite Nat2Z.id.
Qed.

Lemma forallb_same (f : Disk.t → bool) a b :
  (∀ d, f (strip d) = f d) → a ≈ b →
  forallb f (disks a) = forallb f (disks b).
Proof.
  intros Hf Hab.
  assert (∀ x, forallb f (disks (erase x)) = forallb f (disks x)) as He.
  { intros x. unfold erase. simpl. induction (disks x) as [|d l IH]; [done|].
    rewrite fmap_cons. simpl. by rewrite Hf, IH. }
  by rewrite <- (He a), <- (He b), Hab.
Qed.

Lemma forallb_insert (f : Disk.t → bool) (l : list Disk.t) k d d' :
  l !! k = Some d → f d' = f d → forallb f (<[k:=d']> l) = forallb f l.
Proof.
  revert k. induction l as [|x l IH]; intros [|k] Hk Hf; try done; simpl in *.
  - injection Hk as ->. by rewrite Hf.
  - by rewrite (IH k).
Qed.

Lemma forallb_put (f : Disk.t → bool) a i s data :
  (∀ d, f (written d s data) = f d) →
  forallb f (disks (put a i s data)) = forallb f (disks a).
Proof.
  intros Hf. unfold put. destruct (disk_at a i) as [d|] eqn:Hd; [|done].
  unfold disk_at in Hd. destruct (i <? 0); [done|].
  unfold upd. simpl. by eapply forallb_insert.
Qed.

Lemma healthy_same a b : a ≈ b → healthy a = healthy b.
Proof. intros Hab. by apply forallb_same. Qed.

Lemma fault_free_same a b : a ≈ b → fault_free a = fault_free b.
Proof. intros Hab. by apply forallb_same. Qed.

Lemma healthy_put a i s data : healthy (put a i s data) = healthy a.
Proof. by apply forallb_put. Qed.

Lemma fault_free_put a i s data : fault_free (put a i s data) = fault_free a.
Proof. by apply forallb_put. Qed.

Lemma stored_same a b lbid : a ≈ b → stored a lbid = stored b lbid.
Proof.
  intros Hab. destruct (same_data_static _ _ Hab) as (Hl & _ & Hn & _).
  unfold stored. rewrite Hl, Hn. by rewrite !(blk_same a b).
Qed.

Lemma contents_same a b : a ≈ b → contents a = contents b.
Proof.
  intros Hab. destruct (same_data_static _ _ Hab) as (_ & _ & _ & Hc & _).
  unfold contents. rewrite Hc. apply list_fmap_ext. intros _ l _.
  by apply stored_same.
Qed.

Lemma healthy_read a nb lbid :
  wf_array a nb → (∀ i, 0 ≤ i < numDisks a → is_failed a i = false) →
  read_fault_free a = true → 0 ≤ lbid < capacity a →
  ∃ a1, ReadBlock lbid a = Some (Ok (stored a lbid), a1) ∧ a1 ≈ a.
Proof.
  intros Hwf Hh Hrf Hb. pose proof (wf_array_n _ _ Hwf) as Hn.
  assert (∀ i s, 0 ≤ i < numDisks a → 0 ≤ s < nb → can_read a i s = true) as Hcr.
  { intros i s Hi Hs. eapply can_read_healthy; eauto. }
  rewrite ReadBlock_dispatch by done. unfold stored.
  destruct (wf_level _ _ Hwf) as [[Hl Hc]|[[Hl Hc]|(Hl & _ & Hc)]];
    rewrite Hl; simpl.
  - (* level 0 *)
    assert (0 ≤ lbid < nb * numDisks a) as Hlb by lia.
    destruct (raid0_layout a nb Hwf lbid Hlb) as [Hi Hs].
    destruct (raid0_read_same a nb lbid Hwf Hlb) as (r & a1 & Hrun & Ha1).
    destruct (raid0_readBlock_spec a nb Hwf lbid Hlb a ltac:(reflexivity))
      as (r' & a1' & Hrun' & Hpost).
    rewrite Hrun in Hrun'. injection Hrun' as <- <-.
    exists a1. split; [|done]. rewrite Hrun. do 2 f_equal.
    destruct r as [x|e]; [by subst|]. by rewrite Hcr in Hpost.
  - (* level 1 *)
    destruct (raid1_readBlock_run a lbid (wf_len _ _ Hwf))
      as (r & a1 & Hrun & Ha1 & Hpost).
    exists a1. split; [|done]. rewrite Hrun. do 2 f_equal.
    destruct (wf_array_disk a nb 0 Hwf ltac:(lia)) as [d0 Hd0].
    pose proof (wf_array_disk_ok _ _ _ _ Hwf Hd0) as Hok0.
    assert (readable d0 lbid = true) as Hr0.
    { specialize (Hcr 0 lbid ltac:(lia) ltac:(lia)). unfold can_read in Hcr.
      by rewrite Hd0 in Hcr. }
    pose proof (ReadBlock_readable _ _ _ Hok0 lbid Hr0) as Hrd0.
    assert (¬ unreadable_replica a lbid 0) as Hnot.
    { intros Hu. destruct (Hu d0 Hd0) as [Hf|[e He]].
      - specialize (Hh 0 ltac:(lia)). rewrite (is_failed_true _ _ _ Hd0) in Hh.
        congruence.
      - by rewrite Hrd0 in He. }
    destruct r as [x|e].
    + destruct Hpost as (i & d & Hi & Hd & _ & Hrd & Hbefore).
      destruct (decide (i = 0)) as [->|Hne].
      * rewrite Hd0 in Hd. injection Hd as <-. rewrite Hrd0 in Hrd.
        simpl in Hrd. injection Hrd as <-. unfold blk. by rewrite Hd0.
      * destruct Hnot. apply Hbefore. lia.
    + destruct Hnot. apply Hpost. lia.
  - (* level 5 *)
    assert (0 ≤ lbid < nb * (numDisks a - 1)) as Hlb by lia.
    destruct (layout_ranges (numDisks a) nb lbid) as (Hst & _ & _ & Hdd & _);
      [lia..|].
    destruct (readBlock_spec a nb Hwf lbid Hlb a ltac:(reflexivity))
      as (r & a1 & Hrun & Ha1 & Hpost).
    exists a1. split; [|done]. rewrite Hrun. do 2 f_equal.
    destruct r as [x|e].
    + destruct Hpost as [[_ ->]|[Hno _]]; [done|]. by rewrite Hcr in Hno.
    + destruct Hpost as [Hno _]. by rewrite Hcr in Hno.
Qed.

Section healthy_write.

Variables (a : RAIDArray) (nb : Z).
Hypothesis Hwf : wf_array a nb.
Hypothesis Hh : healthy a = true.
Hypothesis Hff : fault_free a = true.
Variables (lbid : Z) (data : list byte).
Hypothesis Hb : 0 ≤ lbid < capacity a.
Hypothesis Hlen : len data = blockSize a.

Lemma healthy_can_write i s :
  0 ≤ i < numDisks a → 0 ≤ s < nb → can_write a i s data = true.
Proof.
  intros Hi Hs. pose proof (wf_bs _ _ Hwf).
  eapply can_write_healthy; eauto.
  - by eapply healthy_is_failed.
  - unfold len in Hlen. lia.
Qed.

(** A store equal, up to the counters, to [a] with one more block written
    is healthy and without faults. *)
Lemma healthy_after_put a' b i s data' :
  healthy b = true → fault_free b = true → a' ≈ put b i s data' →
  healthy a' = true ∧ fault_free a' = true.
Proof.
  intros Hhb Hfb Ha'.
  by rewrite (healthy_same _ _ Ha'), (fault_free_same _ _ Ha'),
    healthy_put, fault_free_put.
Qed.

Lemma raid0_healthy_write :
  level a = RAID0 →
  ∃ a', raid0Impl.writeBlock lbid data a = Some (None, a')
        ∧ block_written a nb lbid data a'.
Proof.
  intros Hl. pose proof (wf_array_n _ _ Hwf) as Hn.
  assert (capacity a = nb * numDisks a) as Hc.
  { destruct (wf_level _ _ Hwf) as [[_ ?]|[[H _]|[H _]]]; [done|..];
      rewrite Hl in H; done. }
  assert (0 ≤ lbid < nb * numDisks a) as Hlb by lia.
  destruct (raid0_layout a nb Hwf lbid Hlb) as [Hi Hs].
  set (i := Z.rem lbid (numDisks a)) in *.
  set (s := Z.quot lbid (numDisks a)) in *.
  pose proof (healthy_can_write i s Hi Hs) as Hcw.
  destruct (can_write_Some _ _ _ _ Hcw) as (d & Hd & Hw & _).
  assert (wp (raid0Impl.writeBlock lbid data)
             (λ r a', r = None ∧ a' ≈ put a i s data) a)
    as (r & a' & Hrun & -> & Ha').
  { unfold raid0Impl.writeBlock.
    apply wp_bind, wp_gets. apply wp_bind, wp_int_rem; [lia|].
    apply wp_bind, wp_int_quot; [lia|].
    eapply (wp_write a nb Hwf a); [done|done| |].
    - by intros _ a' Ha'.
    - intros Hno. fold i s in Hno. congruence. }
  exists a'. split; [done|].
  destruct (same_data_static _ _ Ha') as (Hl' & Hb' & Hn' & Hc' & _).
  destruct (healthy_after_put a' a i s data Hh Hff Ha') as [Hh' Hff'].
  unfold block_written. split_and!; try done.
  - eapply wf_array_same; [done|]. by eapply wf_array_put.
  - by rewrite Hl', level_put.
  - by rewrite Hc', capacity_put.
  - by rewrite Hn', numDisks_put.
  - by rewrite Hb', blockSize_put.
  - intros l Hlr. rewrite (stored_same _ _ _ Ha'). unfold stored.
    rewrite level_put, numDisks_put, Hl. simpl.
    case_decide as Hll; [subst l; by eapply blk_put_same|].
    destruct (raid0_layout a nb Hwf l ltac:(lia)) as [_ Hs'].
    eapply blk_put_other; eauto; [|lia].
    destruct (decide (Z.rem l (numDisks a) = i)) as [Hr|Hr]; [right|by left].
    intros Hq. apply Hll.
    rewrite (Z.quot_rem' l (numDisks a)), (Z.quot_rem' lbid (numDisks a)).
    fold i s. by rewrite Hr, Hq.
Qed.

Lemma raid5_healthy_write :
  level a = RAID5 →
  ∃ a', raid5Impl.writeBlock lbid data a = Some (None, a')
        ∧ block_written a nb lbid data a'.
Proof.
  intros Hl. pose proof (wf_array_n _ _ Hwf) as Hn.
  pose proof (wf_bs _ _ Hwf) as Hbs.
  pose proof (raid5_capacity a nb Hwf Hl) as Hc.
  assert (0 ≤ lbid < nb * (numDisks a - 1)) as Hlb by lia.
  assert (∀ i, 0 ≤ i < numDisks a → is_failed a i = false) as Hnf.
  { intros i Hi. by eapply healthy_is_failed. }
  destruct (layout_ranges (numDisks a) nb lbid) as (Hst & Hoff & Hp & Hdd & Hne);
    [lia..|].
  set (st := spec_stripe (numDisks a) lbid) in *.
  set (p := spec_parity_disk (numDisks a) lbid) in *.
  set (dd := spec_data_disk (numDisks a) lbid) in *.
  assert (can_write a p st (write_parity a lbid data) = true) as Hcwp.
  { eapply can_write_healthy; eauto.
    rewrite write_parity_length. unfold len in Hlen. lia. }
  pose proof (healthy_can_write dd st Hdd Hst) as Hcwd.
  destruct (writeBlock_spec a nb Hwf lbid data Hlb Hlen a ltac:(reflexivity))
    as (r & a' & Hrun & Hpost).
  fold st p dd in Hpost. destruct r as [e|].
  { exfalso. destruct Hpost as [(i & Hi & _ & Hno)|[[_ Hno]|Hno]].
    - destruct (skip_parity_range p i (numDisks a)); [lia..|].
      rewrite (can_read_healthy a nb (skip_parity p i) st Hwf
                 (fault_free_read a Hff)) in Hno; [done|lia|done|].
      apply Hnf. lia.
    - congruence.
    - congruence. }
  destruct Hpost as (_ & _ & _ & _ & Ha').
  destruct (written_store a nb Hwf Hnf lbid data Hlb Hcwp Hcwd)
    as (Hwf2 & Hn2 & Hb2 & Hl2 & Hc2 & _ & _ & Hbd & _ & Hoth).
  fold st p dd in Ha', Hwf2, Hn2, Hb2, Hl2, Hc2, Hbd, Hoth.
  exists a'. split; [done|].
  destruct (same_data_static _ _ Ha') as (Hl' & Hb' & Hn' & Hc' & _).
  assert (healthy a' = true ∧ fault_free a' = true) as [Hh' Hff'].
  { rewrite (healthy_same _ _ Ha'), (fault_free_same _ _ Ha').
    rewrite healthy_put, fault_free_put. unfold after_parity. fold p.
    rewrite (Hnf p Hp). by rewrite healthy_put, fault_free_put. }
  unfold block_written. split_and!; try done; try congruence.
  - by eapply wf_array_same.
  - intros l Hlr. rewrite (stored_same _ _ _ Ha'). unfold stored.
    rewrite Hl2, Hn2, Hl. simpl.
    case_decide as Hll; [by subst l|].
    destruct (layout_ranges (numDisks a) nb l) as (Hst' & _ & _ & _ & Hne');
      [lia..|].
    apply Hoth; [lia| |].
    + intros [Hd Hs]. apply Hll.
      apply (spec_layout_inj (numDisks a)); done || lia.
    + intros [Hd Hs]. apply Hne'. unfold spec_parity_disk. rewrite Hs. done.
Qed.

Lemma raid1_healthy_write sched :
  level a = RAID1 → sched ≡ₚ seqZ 0 (numDisks a) →
  ∃ a', raid1Impl.writeBlock sched lbid data a = Some (None, a')
        ∧ block_written a nb lbid data a'.
Proof.
  intros Hl Hsched. pose proof (wf_array_n _ _ Hwf) as Hn.
  assert (capacity a = nb) as Hc.
  { destruct (wf_level _ _ Hwf) as [[H _]|[[_ ?]|[H _]]]; [|done|];
      rewrite Hl in H; done. }
  pose proof (sched_range sched (numDisks a)) as Hin.
  pose proof (sched_length sched (numDisks a) ltac:(lia) Hsched) as Hlens.
  (* every replica takes the write *)
  assert (∀ i d, disk_at a i = Some d →
            Disk.WriteBlock lbid data d = (None, bump_write (written d lbid data))
            ∧ writable d lbid data = true) as Hdisk.
  { intros i d Hd. pose proof (disk_at_range _ _ _ Hd) as Hi.
    rewrite <- (wf_len _ _ Hwf) in Hi.
    pose proof (healthy_can_write i lbid Hi ltac:(lia)) as Hcw.
    unfold can_write in Hcw. rewrite Hd in Hcw. bool_hyps.
    rewrite (WriteBlock_writable _ _ _ (wf_array_disk_ok _ _ _ _ Hwf Hd)) by done.
    by match goal with H : File.syncfault _ = false |- _ => rewrite H end. }
  assert (∀ i, 0 ≤ i < numDisks a → write_err a lbid data i = None) as Hall.
  { intros i Hi. destruct (wf_array_disk a nb i Hwf Hi) as [d Hd].
    unfold write_err. rewrite Hd. by rewrite (proj1 (Hdisk i d Hd)). }
  rewrite raid1_writeBlock_run
    by (apply (wf_len _ _ Hwf) || (intros i; by apply Hin)).
  assert (successes (write_err a lbid data) sched = len sched) as Hs.
  { apply successes_all. intros i Hi. apply Hall. by apply Hin. }
  simpl. rewrite Hs, Hlens. zbs.
  eexists. split; [done|].
  set (a' := set_disks a _).
  assert (∀ i d', disk_at a' i = Some d' →
            ∃ d, disk_at a i = Some d ∧ d' = bump_write (written d lbid data))
    as Himage.
  { intros i d' Hd'. unfold a', disk_at in *. simpl in *.
    destruct (i <? 0) eqn:Hi0; [done|]. rewrite list_lookup_fmap in Hd'.
    destruct (disks a !! Z.to_nat i) as [d|] eqn:Hd; [|done].
    injection Hd' as <-. exists d. split; [done|].
    by rewrite (proj1 (Hdisk i d ltac:(unfold disk_at; by rewrite Hi0))). }
  unfold block_written. split_and!; try done.
  - split; try apply Hwf.
    + unfold a'. simpl. unfold len. rewrite length_fmap. apply (wf_len _ _ Hwf).
    + intros i d' Hd'. destruct (Himage i d' Hd') as (d & Hd & ->).
      destruct (Hdisk i d Hd) as [_ Hw].
      apply (written_ok _ _ _ (wf_array_disk_ok _ _ _ _ Hwf Hd) lbid data Hw).
  - apply forallb_disk_intro. intros i d' Hd'.
    destruct (Himage i d' Hd') as (d & Hd & ->).
    apply (forallb_disk _ _ _ _ Hh Hd).
  - apply forallb_disk_intro. intros i d' Hd'.
    destruct (Himage i d' Hd') as (d & Hd & ->).
    apply (forallb_disk _ _ _ _ Hff Hd).
  - intros l Hlr. unfold stored. change (level a') with (level a).
    rewrite Hl. simpl. unfold blk.
    destruct (wf_array_disk a nb 0 Hwf ltac:(lia)) as [d Hd]. rewrite Hd.
    destruct (disk_at a' 0) as [d'|] eqn:Hd'.
    2:{ exfalso. destruct (disk_at_is_Some a' 0) as [? ?]; [|congruence].
        unfold a'. simpl. unfold len. rewrite length_fmap.
        pose proof (wf_len _ _ Hwf). unfold len in *. lia. }
    destruct (Himage 0 d' Hd') as (d0 & Hd0 & ->).
    assert (d0 = d) as -> by congruence.
    destruct (Hdisk 0 d Hd) as [_ Hw].
    pose proof (wf_array_disk_ok _ _ _ _ Hwf Hd) as Hok.
    change (block_of (bump_write (written d lbid data)) l)
      with (block_of (written d lbid data) l).
    case_decide as Hll; [subst l; by eapply written_block_same|].
    eapply written_block_other; eauto. lia.
Qed.

End healthy_write.

Lemma healthy_write_step sched a nb lbid data :
  wf_array a nb → healthy a = true → fault_free a = true →
  0 ≤ lbid < capacity a → len data = blockSize a →
  sched ≡ₚ seqZ 0 (numDisks a) →
  ∃ a', WriteBlock sched lbid data a = Some (None, a')
        ∧ block_written a nb lbid data a'.
Proof.
  intros Hwf Hh Hff Hb Hlen Hsched.
  rewrite WriteBlock_dispatch by done.
  destruct (wf_level _ _ Hwf) as [[Hl _]|[[Hl _]|(Hl & _)]]; rewrite Hl; simpl.
  - by apply raid0_healthy_write.
  - by apply raid1_healthy_write.
  - by apply raid5_healthy_write.
Qed.

Lemma contents_length a : 0 ≤ capacity a → length (contents a) = Z.to_nat (capacity a).
Proof. intros Hc. unfold contents. by rewrite length_fmap, length_seqZ. Qed.

Lemma contents_lookup a l :
  0 ≤ l < capacity a → contents a !! Z.to_nat l = Some (stored a l).
Proof.
  intros Hl. unfold contents. rewrite list_lookup_fmap, lookup_seqZ_lt by lia.
  simpl. do 2 f_equal. lia.
Qed.

Lemma contents_written a nb lbid data a' :
  0 ≤ lbid < capacity a → block_written a nb lbid data a' →
  contents a' = <[Z.to_nat lbid := data]> (contents a).
Proof.
  intros Hb (_ & _ & _ & _ & Hc & _ & _ & Hst). apply list_eq. intros k.
  destruct (decide (Z.of_nat k < capacity a)) as [Hk|Hk].
  - replace k with (Z.to_nat (Z.of_nat k)) by lia.
    rewrite contents_lookup by lia. rewrite Hst by lia. case_decide as Hkl.
    + rewrite Hkl, list_lookup_insert_eq; [done|]. rewrite contents_length; lia.
    + rewrite list_lookup_insert_ne by lia. by rewrite contents_lookup by lia.
  - assert (contents a' !! k = None) as ->.
    { apply lookup_ge_None. rewrite contents_length; lia. }
    symmetry. apply lookup_ge_None. rewrite length_insert, contents_length; lia.
Qed.

(** X7. A healthy well-formed array whose host injects no fault behaves, at
    every level, as a map from logical block numbers to blocks: a read of a
    block in range returns the block the map holds there and leaves the map
    as it is; a write of a block in range always succeeds, replaces that
    block of the map and no other, and leaves the array well-formed, healthy
    and without faults. *)
Theorem healthy_array_block_map sched a lbid data :
  wf a = true → healthy a = true → fault_free a = true →
  0 ≤ lbid < capacity a → len data = blockSize a →
  sched ≡ₚ seqZ 0 (numDisks a) →
  (∃ x a1, ReadBlock lbid a = Some (Ok x, a1)
           ∧ contents a !! Z.to_nat lbid = Some x
           ∧ contents a1 = contents a)
  ∧ ∃ a', WriteBlock sched lbid data a = Some (None, a')
          ∧ wf a' = true ∧ healthy a' = true ∧ fault_free a' = true
          ∧ contents a' = <[Z.to_nat lbid := data]> (contents a).
Proof.
  intros Hwf%wf_array_of_wf Hh Hff Hb Hlen Hsched.
  set (nb := blocksPerDisk a) in *. split.
  - destruct (healthy_read a nb lbid Hwf) as (a1 & Hrun & Ha1);
      [intros i Hi; by eapply healthy_is_failed|by apply fault_free_read|done|].
    exists (stored a lbid), a1. split_and!; [done| |by apply contents_same].
    by apply contents_lookup.
  - destruct (healthy_write_step sched a nb lbid data Hwf Hh Hff Hb Hlen Hsched)
      as (a' & Hrun & Hpost).
    exists a'. split; [done|].
    pose proof (contents_written a nb lbid data a' Hb Hpost) as Hc.
    destruct Hpost as (Hwf' & Hh' & Hff' & _).
    split_and!; try done. by eapply wf_of_wf_array.
Qed.

Lemma healthy_array_block_map_witness :
  (∃ x a1, ReadBlock 2 parity3_written = Some (Ok x, a1)
           ∧ contents parity3_written !! Z.to_nat 2 = Some x
           ∧ contents a1 = contents parity3_written)
  ∧ ∃ a', WriteBlock [0; 1; 2] 2 [8; 8] parity3_written = Some (None, a')
          ∧ wf a' = true ∧ healthy a' = true ∧ fault_free a' = true
          ∧ contents a' = <[Z.to_nat 2 := [8; 8]]> (contents parity3_written).
Proof.
  apply healthy_array_block_map.
  - by_compute.
  - by_compute.
  - by_compute.
  - by_compute.
  - by_compute.
  - vm_compute. reflexivity.
Defined.

Lemma healthy_writes sched ws :
  ∀ a nb,
  wf_array a nb → healthy a = true → fault_free a = true →
  sched ≡ₚ seqZ 0 (numDisks a) →
  Forall (λ w, 0 ≤ w.1 < capacity a ∧ len w.2 = blockSize a) ws →
  ∃ a', write_all sched ws a = Some a'
        ∧ wf_array a' nb ∧ healthy a' = true ∧ fault_free a' = true
        ∧ capacity a' = capacity a
        ∧ contents a' = replay ws (contents a).
Proof.
  induction ws as [|[lbid data] ws IH]; intros a nb Hwf Hh Hff Hsched Hws.
  { exists a. by split_and!. }
  apply Forall_cons in Hws as [[Hb Hlen] Hws]. simpl in Hb, Hlen.
  destruct (healthy_write_step sched a nb lbid data Hwf Hh Hff Hb Hlen Hsched)
    as (a1 & Hrun & Hpost).
  pose proof (contents_written a nb lbid data a1 Hb Hpost) as Hc1.
  destruct Hpost as (Hwf1 & Hh1 & Hff1 & _ & Hcap1 & Hn1 & Hb1 & _).
  destruct (IH a1 nb Hwf1 Hh1 Hff1) as (a' & Hrun' & Hwf' & Hh' & Hff' & Hcap' & Hc').
  { by rewrite Hn1. }
  { by rewrite Hcap1, Hb1. }
  exists a'. simpl. rewrite Hrun. split_and!; try done; [congruence|].
  by rewrite Hc', Hc1.
Qed.

(** X8. On a healthy well-formed array whose host injects no fault, any
    series of writes of blocks in range succeeds, at every level, and leaves
    the array well-formed, healthy and without faults; afterwards the read
    of a block returns the data of the last write to it, or what the block
    held at the start when the series does not write it. *)
Theorem healthy_writes_replay sched ws a :
  wf a = true → healthy a = true → fault_free a = true →
  sched ≡ₚ seqZ 0 (numDisks a) →
  Forall (λ w, 0 ≤ w.1 < capacity a ∧ len w.2 = blockSize a) ws →
  ∃ a', write_all sched ws a = Some a'
    ∧ wf a' = true ∧ healthy a' = true ∧ fault_free a' = true
    ∧ contents a' = replay ws (contents a)
    ∧ ∀ lbid, 0 ≤ lbid < capacity a →
        ∃ x a'', ReadBlock lbid a' = Some (Ok x, a'')
                 ∧ replay ws (contents a) !! Z.to_nat lbid = Some x.
Proof.
  intros Hwf%wf_array_of_wf Hh Hff Hsched Hws. set (nb := blocksPerDisk a) in *.
  destruct (healthy_writes sched ws a nb Hwf Hh Hff Hsched Hws)
    as (a' & Hrun & Hwf' & Hh' & Hff' & Hcap' & Hc').
  exists a'. split_and!; try done; [by eapply wf_of_wf_array|].
  intros lbid Hb.
  destruct (healthy_read a' nb lbid Hwf') as (a'' & Hrd & _);
    [intros i Hi; by eapply healthy_is_failed|by apply fault_free_read|lia|].
  exists (stored a' lbid), a''. split; [done|].
  rewrite <- Hc'. apply contents_lookup. lia.
Qed.

Lemma healthy_writes_replay_witness :
  ∃ a', write_all [1; 0] [(0, [1; 2]); (1, [3; 4]); (0, [5; 6])] mirror2 = Some a'
    ∧ wf a' = true ∧ healthy a' = true ∧ fault_free a' = true
    ∧ contents a'
      = replay [(0, [1; 2]); (1, [3; 4]); (0, [5; 6])] (contents mirror2)
    ∧ ∀ lbid, 0 ≤ lbid < capacity mirror2 →
        ∃ x a'', ReadBlock lbid a' = Some (Ok x, a'')
                 ∧ replay [(0, [1; 2]); (1, [3; 4]); (0, [5; 6])]
                     (contents mirror2) !! Z.to_nat lbid = Some x.
Proof.
  apply healthy_writes_replay.
  - by_compute.
  - by_compute.
  - by_compute.
  - vm_compute. apply perm_swap.
  - repeat constructor; by_compute.
Defined.

(** ** No operation panics or damages the geometry of the array *)

Lemma ReadBlock_keeps bs nb s d :
  wf_disk bs nb d = true → wf_disk bs nb (Disk.ReadBlock s d).2 = true.
Proof.
  intros Hd. by rewrite <- wf_disk_strip, ReadBlock_strip, wf_disk_strip.
Qed.

Lemma WriteBlock_keeps bs nb s data d :
  disk_ok bs nb d → wf_disk bs nb (Disk.WriteBlock s data d).2 = true.
Proof.
  intros Hok. destruct (writable d s data) eqn:Hw.
  - rewrite (WriteBlock_writable _ _ _ Hok s data Hw).
    destruct (written_ok _ _ _ Hok s data Hw) as [Hwd _].
    by destruct (File.syncfault (Disk.file d)).
  - destruct (WriteBlock_unwritable _ _ _ Hok s data Hw) as [e ->]. apply Hok.
Qed.

Lemma kept_refl a nb : wf_array a nb → kept a nb a.
Proof. by intros Hwf. Qed.

Lemma kept_same a0 nb a a' : kept a0 nb a → a' ≈ a → kept a0 nb a'.
Proof.
  intros (Hwf & Hl & Hb & Hn & Hc) Ha'.
  destruct (same_data_static _ _ Ha') as (Hl' & Hb' & Hn' & Hc' & _).
  split; [by eapply wf_array_same|]. split_and!; congruence.
Qed.

Section kept_rules.

Variables (a0 : RAIDArray) (nb : Z).

Lemma wp_kept {A} a i (op : Disk.t → A * Disk.t) (Q : A → RAIDArray → Prop) :
  kept a0 nb a → 0 ≤ i < numDisks a0 →
  (∀ d, disk_ok (blockSize a0) nb d → wf_disk (blockSize a0) nb (op d).2 = true) →
  (∀ d a', disk_ok (blockSize a0) nb d → kept a0 nb a' → Q (op d).1 a') →
  wp (withDisk i op) Q a.
Proof.
  intros (Hwf & Hl & Hb & Hn & Hc) Hi Hop HQ.
  destruct (wf_array_disk a nb i Hwf ltac:(lia)) as [d Hd].
  pose proof (wf_array_disk_ok _ _ _ _ Hwf Hd) as Hok. rewrite Hb in Hok.
  eapply wp_withDisk; [done|]. apply HQ; [done|].
  split; [|done]. eapply wf_array_upd; [done..|]. rewrite Hb. by apply Hop.
Qed.

Lemma wp_kept_read {B} a i s (k : res (list byte) → M B) Q :
  kept a0 nb a → 0 ≤ i < numDisks a0 →
  (∀ r a', kept a0 nb a' → wp (k r) Q a') →
  wp (let! r := withDisk i (Disk.ReadBlock s) in k r) Q a.
Proof.
  intros Hk Hi Hrest. apply wp_bind. eapply wp_kept; [done..| |].
  - intros d Hd. apply ReadBlock_keeps, Hd.
  - intros d a' _ Hk'. by apply Hrest.
Qed.

Lemma wp_kept_write {B} a i s data (k : option error → M B) Q :
  kept a0 nb a → 0 ≤ i < numDisks a0 →
  (∀ r a', kept a0 nb a' → wp (k r) Q a') →
  wp (let! r := withDisk i (Disk.WriteBlock s data) in k r) Q a.
Proof.
  intros Hk Hi Hrest. apply wp_bind. eapply wp_kept; [done..| |].
  - intros d Hd. by apply WriteBlock_keeps.
  - intros d a' _ Hk'. by apply Hrest.
Qed.

Lemma wp_kept_isfailed {B} a i (k : bool → M B) Q :
  kept a0 nb a → 0 ≤ i < numDisks a0 →
  (∀ r a', kept a0 nb a' → wp (k r) Q a') →
  wp (let! r := withDisk i Disk.IsFailed in k r) Q a.
Proof.
  intros Hk Hi Hrest. apply wp_bind. eapply wp_kept; [done..| |].
  - intros d Hd. apply Hd.
  - intros d a' _ Hk'. by apply Hrest.
Qed.

Lemma wp_kept_setfailed {B} a i b (k : unit → M B) Q :
  kept a0 nb a → 0 ≤ i < numDisks a0 →
  (∀ r a', kept a0 nb a' → wp (k r) Q a') →
  wp (let! r := withDisk i (Disk.SetFailed b) in k r) Q a.
Proof.
  intros Hk Hi Hrest. apply wp_bind. eapply wp_kept; [done..| |].
  - intros d Hd. apply Hd.
  - intros d a' _ Hk'. by apply Hrest.
Qed.

Lemma wp_kept_numDisks {B} a (k : Z → M B) Q :
  kept a0 nb a → wp (k (numDisks a0)) Q a →
  wp (let! n := gets numDisks in k n) Q a.
Proof.
  intros (_ & _ & _ & Hn & _) Hrest. apply wp_bind, wp_gets. by rewrite Hn.
Qed.

Lemma wp_kept_for {A R} (body : Z → A → M (ctl A R)) ixs :
  (∀ i acc a, i ∈ ixs → kept a0 nb a →
     wp (body i acc) (λ _ a', kept a0 nb a') a) →
  ∀ acc a, kept a0 nb a →
    wp (for_ ixs body acc) (λ _ a', kept a0 nb a') a.
Proof.
  intros Hbody acc a Hk. eapply wp_mono.
  - apply (wp_for (λ _ _ b, kept a0 nb b) (λ _ b, kept a0 nb b)
             (λ _ b, kept a0 nb b) body ixs); [|done].
    intros done i rest acc' b Hixs Hb. eapply wp_mono.
    + apply Hbody; [|done]. rewrite Hixs. apply elem_of_app. right. by left.
    + by intros [x|x|r] b'.
  - intros [x|r] b; [by intros [?|?]|done].
Qed.

End kept_rules.

Section kept_engines.

Variables (a0 : RAIDArray) (nb : Z).
Hypothesis Hwf : wf_array a0 nb.

Local Abbreviation K := (kept a0 nb).
Local Abbreviation n := (numDisks a0).

Lemma wp_kept_blockSize {B} a (k : Z → M B) Q :
  K a → wp (k (blockSize a0)) Q a →
  wp (let! bs := gets blockSize in k bs) Q a.
Proof.
  intros (_ & _ & Hb & _) Hrest. apply wp_bind, wp_gets. by rewrite Hb.
Qed.

Lemma raid0_write_kept lbid data a :
  K a → 0 ≤ lbid < nb * n →
  wp (raid0Impl.writeBlock lbid data) (λ _ a', K a') a.
Proof.
  intros Hk Hb. pose proof (wf_array_n _ _ Hwf) as Hn.
  destruct (raid0_layout a0 nb Hwf lbid Hb) as [Hi Hs].
  unfold raid0Impl.writeBlock. apply (wp_kept_numDisks a0 nb); [done|].
  apply wp_bind, wp_int_rem; [lia|]. apply wp_bind, wp_int_quot; [lia|].
  eapply (wp_kept a0 nb); [done|done| |by intros].
  intros d Hd. by apply WriteBlock_keeps.
Qed.

Lemma raid1_spawn_kept lbid data ixs :
  (∀ i, i ∈ ixs → 0 ≤ i < n) →
  ∀ a, K a → wp (raid1Impl.spawn ixs lbid data) (λ _ a', K a') a.
Proof.
  induction ixs as [|i ixs IH]; intros Hixs a Hk; [by apply wp_ret|].
  simpl. apply (wp_kept_write a0 nb); [done|apply Hixs; by left|].
  intros e a' Hk'. apply wp_bind. eapply wp_mono.
  - apply IH; [|done]. intros j Hj. apply Hixs. by right.
  - intros rs a'' Hk''. by apply wp_ret.
Qed.

Lemma raid1_write_kept sched lbid data a :
  K a → wp (raid1Impl.writeBlock sched lbid data) (λ _ a', K a') a.
Proof.
  intros Hk. unfold raid1Impl.writeBlock. apply (wp_kept_numDisks a0 nb); [done|].
  apply wp_bind. eapply wp_mono.
  - apply raid1_spawn_kept; [|done]. intros i Hi%elem_of_seqZ. lia.
  - intros rs a' Hk'.
    destruct (raid1Impl.collect _) as [[sc le] fd].
    repeat case_match; by apply wp_ret.
Qed.

Lemma raid1_read_kept lbid a :
  K a → wp (raid1Impl.readBlock lbid) (λ _ a', K a') a.
Proof.
  intros Hk. unfold raid1Impl.readBlock. apply (wp_kept_numDisks a0 nb); [done|].
  apply wp_bind. eapply wp_mono.
  - apply (wp_kept_for a0 nb); [|done].
    intros i acc b Hi%elem_of_seqZ Hb. unfold raid1Impl.readBlock_body.
    apply (wp_kept_isfailed a0 nb); [done|lia|]. intros f b' Hb'.
    destruct f; [by apply wp_ret|].
    apply (wp_kept_read a0 nb); [done|lia|]. intros r b'' Hb''.
    destruct r; by apply wp_ret.
  - intros [le|data] a' Hk'; by apply wp_ret.
Qed.

(** *** Level 5 *)

Lemma raid5_write_body_kept st off p i acc a :
  0 ≤ p < n → i ∈ seqZ 0 (n - 1) → K a →
  wp (raid5Impl.writeBlock_body st off p i acc) (λ _ a', K a') a.
Proof.
  intros Hp Hi%elem_of_seqZ Hk. unfold raid5Impl.writeBlock_body.
  fold (skip_parity p i).
  destruct (skip_parity_range p i n) as [Hsk _]; [lia..|].
  destruct (i =? off); [by apply wp_ret|].
  apply (wp_kept_isfailed a0 nb); [done..|]. intros f b Hb.
  destruct f; [by apply wp_ret|].
  apply (wp_kept_read a0 nb); [done..|]. intros r b' Hb'.
  destruct r; by apply wp_ret.
Qed.

Lemma raid5_write_kept lbid data a :
  K a → 0 ≤ lbid < nb * (n - 1) →
  wp (raid5Impl.writeBlock lbid data) (λ _ a', K a') a.
Proof.
  intros Hk Hb. pose proof (wf_array_n _ _ Hwf) as Hn.
  destruct (layout_code n lbid) as (Hq & Hr & Hpd & Hdd); [lia..|].
  destruct (layout_ranges n nb lbid) as (Hst & Hoff & Hp & Hd & Hne); [lia..|].
  unfold raid5Impl.writeBlock. apply (wp_kept_numDisks a0 nb); [done|].
  apply wp_bind, wp_int_quot; [lia|]. rewrite Hq.
  apply wp_bind, wp_int_rem; [lia|]. rewrite Hr.
  apply wp_bind, wp_int_rem; [lia|]. rewrite Hpd.
  fold (skip_parity (spec_parity_disk n lbid) (spec_stripe_offset n lbid)).
  rewrite Hdd.
  apply wp_kept_blockSize; [done|].
  apply wp_bind, wp_mmake; [pose proof (wf_bs _ _ Hwf); lia|].
  apply wp_bind. eapply wp_mono.
  - apply (wp_kept_for a0 nb); [|done].
    intros i acc b Hi Hb'. by apply raid5_write_body_kept.
  - intros [parity|e] b Hb'; [|by apply wp_ret].
    apply (wp_kept_isfailed a0 nb); [done..|]. intros pf b1 Hb1.
    destruct pf; simpl.
    + apply wp_bind, wp_ret.
      apply (wp_kept_write a0 nb); [done..|]. intros wd b2 Hb2.
      destruct wd; by apply wp_ret.
    + apply (wp_kept_write a0 nb); [done..|]. intros wp1 b2 Hb2.
      destruct wp1; [by apply wp_ret|].
      apply (wp_kept_write a0 nb); [done..|]. intros wd b3 Hb3.
      destruct wd; by apply wp_ret.
Qed.

Lemma raid5_reconstruct_kept st m p a :
  0 ≤ p < n → K a →
  wp (raid5Impl.reconstructBlock st m p) (λ _ a', K a') a.
Proof.
  intros Hp Hk. unfold raid5Impl.reconstructBlock.
  apply (wp_kept_isfailed a0 nb); [done..|]. intros pf b Hb.
  destruct pf; [by apply wp_ret|].
  apply (wp_kept_read a0 nb); [done..|]. intros rp b1 Hb1.
  destruct rp as [rec|e]; [|by apply wp_ret].
  apply (wp_kept_numDisks a0 nb); [done|].
  apply wp_bind. eapply wp_mono.
  - apply (wp_kept_for a0 nb); [|done].
    intros i acc b2 Hi%elem_of_seqZ Hb2. unfold raid5Impl.reconstructBlock_body.
    destruct ((i =? p) || (i =? m)); [by apply wp_ret|].
    apply (wp_kept_isfailed a0 nb); [done|lia|]. intros f b3 Hb3.
    destruct f; [by apply wp_ret|].
    apply (wp_kept_read a0 nb); [done|lia|]. intros r b4 Hb4.
    destruct r; by apply wp_ret.
  - intros [x|e] b2 Hb2; by apply wp_ret.
Qed.

Lemma raid5_read_kept lbid a :
  K a → 0 ≤ lbid < nb * (n - 1) →
  wp (raid5Impl.readBlock lbid) (λ _ a', K a') a.
Proof.
  intros Hk Hb. pose proof (wf_array_n _ _ Hwf) as Hn.
  destruct (layout_code n lbid) as (Hq & Hr & Hpd & Hdd); [lia..|].
  destruct (layout_ranges n nb lbid) as (Hst & Hoff & Hp & Hd & Hne); [lia..|].
  unfold raid5Impl.readBlock. apply (wp_kept_numDisks a0 nb); [done|].
  apply wp_bind, wp_int_quot; [lia|]. rewrite Hq.
  apply wp_bind, wp_int_rem; [lia|]. rewrite Hr.
  apply wp_bind, wp_int_rem; [lia|]. rewrite Hpd.
  fold (skip_parity (spec_parity_disk n lbid) (spec_stripe_offset n lbid)).
  rewrite Hdd.
  apply (wp_kept_isfailed a0 nb); [done..|]. intros f b Hb'.
  destruct f; simpl.
  - apply wp_bind, wp_ret. by apply raid5_reconstruct_kept.
  - apply wp_bind. apply (wp_kept_read a0 nb); [done..|]. intros rd b1 Hb1.
    destruct rd as [x|e]; apply wp_ret; [by apply wp_ret|].
    by apply raid5_reconstruct_kept.
Qed.

Lemma raid5_rebuild_parity_kept st p a :
  0 ≤ p < n → K a →
  wp (raid5Impl.rebuildParityBlock st p) (λ _ a', K a') a.
Proof.
  intros Hp Hk. unfold raid5Impl.rebuildParityBlock.
  apply wp_kept_blockSize; [done|].
  apply wp_bind, wp_mmake; [pose proof (wf_bs _ _ Hwf); lia|].
  apply (wp_kept_numDisks a0 nb); [done|].
  apply wp_bind. eapply wp_mono.
  - apply (wp_kept_for a0 nb); [|done].
    intros i acc b Hi%elem_of_seqZ Hb. unfold raid5Impl.rebuildParityBlock_body.
    destruct (i =? p); [by apply wp_ret|].
    apply (wp_kept_read a0 nb); [done|lia|]. intros r b1 Hb1.
    destruct r; by apply wp_ret.
  - intros [parity|e] b Hb; [|by apply wp_ret].
    eapply (wp_kept a0 nb); [done|done| |by intros].
    intros d Hd. by apply WriteBlock_keeps.
Qed.

Lemma raid5_rebuild_body_kept d st acc a :
  0 ≤ d < n → 0 ≤ st → K a →
  wp (raid5Impl.rebuildDisk_body d st acc) (λ _ a', K a') a.
Proof.
  intros Hd Hst Hk. pose proof (wf_array_n _ _ Hwf) as Hn.
  assert (0 ≤ Z.rem st n < n) as Hp by (apply Z.rem_bound_pos; lia).
  unfold raid5Impl.rebuildDisk_body. apply (wp_kept_numDisks a0 nb); [done|].
  apply wp_bind, wp_int_rem; [lia|].
  destruct (d =? Z.rem st n).
  - apply wp_bind. eapply wp_mono; [by apply raid5_rebuild_parity_kept|].
    intros e b Hb. destruct e; [|by apply wp_ret].
    apply (wp_kept_setfailed a0 nb); [done..|]. intros [] b1 Hb1. by apply wp_ret.
  - apply wp_bind. eapply wp_mono.
    + apply (wp_kept_for a0 nb); [|done].
      intros o acc' b Ho Hb. unfold raid5Impl.rebuildDisk_inner.
      case_match; [|by apply wp_ret].
      apply wp_bind. eapply wp_mono; [by apply raid5_reconstruct_kept|].
      intros rc b1 Hb1. destruct rc as [rec|e].
      * apply (wp_kept_write a0 nb); [done..|]. intros w b2 Hb2.
        destruct w; [|by apply wp_ret].
        apply (wp_kept_setfailed a0 nb); [done..|]. intros [] b3 Hb3. by apply wp_ret.
      * apply (wp_kept_setfailed a0 nb); [done..|]. intros [] b2 Hb2. by apply wp_ret.
    + intros [x|e] b Hb; by apply wp_ret.
Qed.

Lemma raid5_rebuild_kept d a :
  K a → wp (raid5Impl.rebuildDisk d) (λ _ a', K a') a.
Proof.
  intros Hk. unfold raid5Impl.rebuildDisk. apply (wp_kept_numDisks a0 nb); [done|].
  destruct ((d <? 0) || (d >=? n)) eqn:Hd; [by apply wp_ret|].
  assert (0 ≤ d < n) as Hd'.
  { apply orb_false_iff in Hd as [H1 H2]. rewrite Z.geb_leb in H2.
    bool_hyps. lia. }
  apply (wp_kept_isfailed a0 nb); [done..|]. intros f b Hb.
  destruct f; simpl; [|by apply wp_ret].
  apply (wp_kept_setfailed a0 nb); [done..|]. intros [] b1 Hb1.
  apply wp_bind. eapply (wp_kept a0 nb); [done|done|intros d0 Hd0; apply Hd0|].
  intros d0 b2 Hd0 Hb2. simpl.
  apply wp_bind. eapply wp_mono.
  - apply (wp_kept_for a0 nb); [|done].
    intros st acc b3 Hst%elem_of_seqZ Hb3.
    apply raid5_rebuild_body_kept; [done|lia|done].
  - intros [x|e] b3 Hb3; by apply wp_ret.
Qed.

End kept_engines.

Lemma kept_geometry a nb a' :
  wf_array a nb → kept a nb a' → wf a' = true ∧ same_geometry a a'.
Proof.
  intros Hwf (Hwf' & Hl & Hb & Hn & Hc). split; [by eapply wf_of_wf_array|].
  unfold same_geometry. split_and!; try done.
  by rewrite (wf_array_blocks _ _ Hwf), (wf_array_blocks _ _ Hwf').
Qed.

Lemma wp_kept_run {A} (m : M A) a nb :
  wf_array a nb → wp m (λ _ a', kept a nb a') a →
  ∃ r a', m a = Some (r, a') ∧ wf a' = true ∧ same_geometry a a'.
Proof.
  intros Hwf (r & a' & Hrun & Hk). exists r, a'. split; [done|].
  by eapply kept_geometry.
Qed.

(** X9. No operation of the facade panics on a well-formed array, and each
    of them, whatever it returns (success or any error), leaves the array
    well-formed with the geometry it had: level, block size, number of
    disks, capacity and blocks per disk.  This holds of [ReadBlock] and
    [WriteBlock] for every block number and buffer, and of [RebuildDisk] for
    every disk index. *)
Theorem operations_keep_well_formed a :
  wf a = true →
  (∀ lbid, ∃ r a',
     ReadBlock lbid a = Some (r, a') ∧ wf a' = true ∧ same_geometry a a')
  ∧ (∀ sched lbid data, ∃ r a',
       WriteBlock sched lbid data a = Some (r, a')
       ∧ wf a' = true ∧ same_geometry a a')
  ∧ (∀ d, ∃ r a',
       RebuildDisk d a = Some (r, a') ∧ wf a' = true ∧ same_geometry a a').
Proof.
  intros Hwf%wf_array_of_wf. set (nb := blocksPerDisk a) in *.
  pose proof (kept_refl a nb Hwf) as Hk.
  assert (∀ {A} (r : A), ∃ r' a', Some (r, a) = Some (r', a')
            ∧ wf a' = true ∧ same_geometry a a') as Hsame.
  { intros A r. exists r, a. split; [done|]. by eapply kept_geometry. }
  split_and!.
  - intros lbid. destruct (decide (0 ≤ lbid < capacity a)) as [Hb|Hb].
    2:{ rewrite ReadBlock_out_of_bounds by lia. apply Hsame. }
    rewrite ReadBlock_dispatch by done.
    destruct (wf_level _ _ Hwf) as [[Hl Hc]|[[Hl Hc]|(Hl & _ & Hc)]];
      rewrite Hl; simpl.
    + apply (wp_kept_run (raid0Impl.readBlock lbid) a nb Hwf).
      destruct (raid0_read_same a nb lbid Hwf ltac:(lia)) as (r & a' & Hrun & Ha').
      exists r, a'. split; [done|]. by eapply kept_same.
    + apply (wp_kept_run (raid1Impl.readBlock lbid) a nb Hwf).
      by apply raid1_read_kept.
    + apply (wp_kept_run (raid5Impl.readBlock lbid) a nb Hwf).
      apply raid5_read_kept; [done..|lia].
  - intros sched lbid data.
    destruct (decide (0 ≤ lbid < capacity a)) as [Hb|Hb].
    2:{ rewrite WriteBlock_out_of_bounds by lia. apply Hsame. }
    destruct (decide (len data = blockSize a)) as [Hlen|Hlen].
    2:{ rewrite WriteBlock_bad_size by done. apply Hsame. }
    rewrite WriteBlock_dispatch by done.
    destruct (wf_level _ _ Hwf) as [[Hl Hc]|[[Hl Hc]|(Hl & _ & Hc)]];
      rewrite Hl; simpl.
    + apply (wp_kept_run (raid0Impl.writeBlock lbid data) a nb Hwf).
      apply raid0_write_kept; [done..|lia].
    + apply (wp_kept_run (raid1Impl.writeBlock sched lbid data) a nb Hwf).
      by apply raid1_write_kept.
    + apply (wp_kept_run (raid5Impl.writeBlock lbid data) a nb Hwf).
      apply raid5_write_kept; [done..|lia].
  - intros d. unfold RebuildDisk, bind, gets.
    destruct (level a =? RAID5) eqn:Hl; simpl; [|apply Hsame].
    apply (wp_kept_run (raid5Impl.rebuildDisk d) a nb Hwf).
    by apply raid5_rebuild_kept.
Qed.

Lemma operations_keep_well_formed_witness :
  (∀ lbid, ∃ r a',
     ReadBlock lbid parity3_two_failed = Some (r, a')
     ∧ wf a' = true ∧ same_geometry parity3_two_failed a')
  ∧ (∀ sched lbid data, ∃ r a',
       WriteBlock sched lbid data parity3_two_failed = Some (r, a')
       ∧ wf a' = true ∧ same_geometry parity3_two_failed a')
  ∧ (∀ d, ∃ r a',
       RebuildDisk d parity3_two_failed = Some (r, a')
       ∧ wf a' = true ∧ same_geometry parity3_two_failed a').
Proof. apply operations_keep_well_formed. by_compute. Defined.

(** ** The disk *)

(** X10. On a disk of positive geometry whose file holds all its blocks and
    whose host reports no read fault, after a [WriteBlock] that returned
    [nil] a [ReadBlock] of the same block returns the data written and a
    [ReadBlock] of any other block returns what that block held before; the
    write has incremented the write counter by one and left the read
    counter alone, and the read increments the read counter by one. *)
Theorem disk_write_then_read_any bs nb d s data s' :
  disk_ok bs nb d → File.rfaults (Disk.file d) = [] →
  (Disk.WriteBlock s data d).1 = None → 0 ≤ s' < nb →
  Disk.ReadBlock s' (Disk.WriteBlock s data d).2
    = (Ok (if decide (s' = s) then data else block_of d s'),
       bump_read (Disk.WriteBlock s data d).2)
  ∧ Disk.writeCount (Disk.WriteBlock s data d).2 = wrapU64 (Disk.writeCount d + 1)
  ∧ Disk.readCount (Disk.WriteBlock s data d).2 = Disk.readCount d.
Proof.
  intros Hok Hrf Hnone Hs'.
  destruct (writable d s data) eqn:Hw.
  2:{ destruct (WriteBlock_unwritable _ _ _ Hok s data Hw) as [e He].
      by rewrite He in Hnone. }
  rewrite (WriteBlock_writable _ _ _ Hok s data Hw) in *.
  destruct (File.syncfault (Disk.file d)); [done|]. simpl.
  pose proof (written_ok _ _ _ Hok s data Hw) as Hok'.
  assert (disk_ok bs nb (bump_write (written d s data))) as Hok'' by done.
  destruct (disk_ok_fields _ _ _ Hok) as (Hbs & Hnb & _).
  assert (readable (bump_write (written d s data)) s' = true) as Hr.
  { unfold writable in Hw. unfold readable. simpl. bool_hyps.
    rewrite Hrf, Hnb. repeat match goal with H : _ = false |- _ => rewrite H end.
    zbs. rewrite bool_decide_eq_false_2; [done|]. by intros ?%elem_of_nil. }
  rewrite (ReadBlock_readable _ _ _ Hok'' s' Hr). split; [|done].
  do 2 f_equal.
  change (block_of (bump_write (written d s data)) s')
    with (block_of (written d s data) s').
  case_decide as Hss; [subst s'; by eapply written_block_same|].
  eapply written_block_other; eauto. lia.
Qed.

Lemma disk_write_then_read_any_witness :
  Disk.ReadBlock 0 (Disk.WriteBlock 1 [7; 8] (sample_disk "d" 2 2)).2
    = (Ok (if decide (0 = 1) then [7; 8] else block_of (sample_disk "d" 2 2) 0),
       bump_read (Disk.WriteBlock 1 [7; 8] (sample_disk "d" 2 2)).2)
  ∧ Disk.writeCount (Disk.WriteBlock 1 [7; 8] (sample_disk "d" 2 2)).2
    = wrapU64 (Disk.writeCount (sample_disk "d" 2 2) + 1)
  ∧ Disk.readCount (Disk.WriteBlock 1 [7; 8] (sample_disk "d" 2 2)).2
    = Disk.readCount (sample_disk "d" 2 2).
Proof.
  apply (disk_write_then_read_any 2 2).
  - split_and!; [by_compute|lia|lia|lia].
  - reflexivity.
  - reflexivity.
  - lia.
Defined.

(** ** XOR *)

(** X11. [xorBytes] is its own inverse, whatever the lengths of the two
    buffers; and from the XOR of blocks of one length and all of them but
    one, XOR gives back the missing one (the two facts that
    [TestXORProperties] checks on an example). *)
Theorem xor_reconstructs_member n (l : list (list byte)) k b :
  Forall (λ x, length x = n) l → l !! k = Some b →
  (∀ dst src, xorBytes (xorBytes dst src) src = dst)
  ∧ xor_all (xor_all (replicate n 0) l) (delete k l) = b.
Proof.
  intros Hlen Hk. split; [apply xorBytes_cancel|].
  rewrite (xor_all_perm _ l (b :: delete k l)) by (by apply delete_Permutation).
  rewrite xor_all_cons, xorBytes_zero_l.
  - apply xor_all_cancel.
  - rewrite Forall_forall in Hlen. apply Hlen. by eapply list_elem_of_lookup_2.
Qed.

Lemma xor_reconstructs_member_witness :
  (∀ dst src, xorBytes (xorBytes dst src) src = dst)
  ∧ xor_all (xor_all (replicate 4 0)
               [[17; 34; 51; 68]; [85; 102; 119; 136]; [153; 170; 187; 204]])
      (delete 0%nat [[17; 34; 51; 68]; [85; 102; 119; 136]; [153; 170; 187; 204]])
    = [17; 34; 51; 68].
Proof.
  apply (xor_reconstructs_member 4 _ 0%nat).
  - repeat constructor.
  - reflexivity.
Defined.

(** ** Level 0 has no redundancy *)

(** X12. At level 0 the logical block [lbid] lives on disk [lbid mod N], at
    physical block [lbid div N], and nowhere else: when that disk is marked
    failed, the read and the write of the block return the disk's "is
    failed" error and leave the array as it is, counters included; when it
    is not, and the host reports no read fault, the read returns that
    physical block, whatever the state of the other disks. *)
Theorem raid0_no_redundancy sched a lbid data :
  wf a = true → level a = RAID0 →
  0 ≤ lbid < capacity a → len data = blockSize a →
  (is_failed a (lbid `mod` numDisks a) = true →
     ∃ path, ReadBlock lbid a = Some (Err (EDiskFailed path), a)
             ∧ WriteBlock sched lbid data a = Some (Some (EDiskFailed path), a))
  ∧ (is_failed a (lbid `mod` numDisks a) = false → read_fault_free a = true →
     ∃ a', ReadBlock lbid a
           = Some (Ok (blk a (lbid `mod` numDisks a) (lbid `div` numDisks a)), a')).
Proof.
  intros Hwf%wf_array_of_wf Hl Hb Hlen. set (nb := blocksPerDisk a) in *.
  pose proof (wf_array_n _ _ Hwf) as Hn.
  assert (capacity a = nb * numDisks a) as Hc.
  { destruct (wf_level _ _ Hwf) as [[_ ?]|[[H _]|[H _]]]; [done|..];
      rewrite Hl in H; done. }
  assert (0 ≤ lbid < nb * numDisks a) as Hlb by lia.
  destruct (raid0_layout a nb Hwf lbid Hlb) as [Hi Hs].
  rewrite <- (Z.rem_mod_nonneg lbid (numDisks a)) by lia.
  rewrite <- (Z.quot_div_nonneg lbid (numDisks a)) by lia.
  set (i := Z.rem lbid (numDisks a)) in *.
  set (s := Z.quot lbid (numDisks a)) in *.
  destruct (wf_array_disk a nb i Hwf Hi) as [d Hd].
  assert (raid0Impl.readBlock lbid a
          = Some ((Disk.ReadBlock s d).1, upd a i (Disk.ReadBlock s d).2)) as Hread.
  { unfold raid0Impl.readBlock, bind, gets, int_rem, int_quot, ret. zb.
    fold i s. by apply withDisk_run. }
  assert (raid0Impl.writeBlock lbid data a
          = Some ((Disk.WriteBlock s data d).1,
                  upd a i (Disk.WriteBlock s data d).2)) as Hwrite.
  { unfold raid0Impl.writeBlock, bind, gets, int_rem, int_quot, ret. zb.
    fold i s. by apply withDisk_run. }
  rewrite ReadBlock_dispatch, WriteBlock_dispatch by done.
  rewrite Hl. simpl. rewrite Hread, Hwrite.
  rewrite (is_failed_true _ _ _ Hd). split.
  - intros Hf. exists (Disk.path d).
    unfold Disk.ReadBlock, Disk.WriteBlock. rewrite Hf. simpl.
    by rewrite upd_id.
  - intros Hf Hrf.
    assert (can_read a i s = true) as Hcr.
    { eapply can_read_healthy; eauto. by rewrite (is_failed_true _ _ _ Hd). }
    unfold can_read in Hcr. rewrite Hd in Hcr.
    rewrite (ReadBlock_readable _ _ _ (wf_array_disk_ok _ _ _ _ Hwf Hd) s Hcr).
    simpl. unfold blk. rewrite Hd. eauto.
Qed.

Lemma raid0_no_redundancy_witness :
  (is_failed (set_failed 1 true stripe2) (3 `mod` numDisks (set_failed 1 true stripe2))
   = true →
     ∃ path, ReadBlock 3 (set_failed 1 true stripe2)
             = Some (Err (EDiskFailed path), set_failed 1 true stripe2)
             ∧ WriteBlock [] 3 [1; 2] (set_failed 1 true stripe2)
               = Some (Some (EDiskFailed path), set_failed 1 true stripe2))
  ∧ (is_failed (set_failed 1 true stripe2)
       (3 `mod` numDisks (set_failed 1 true stripe2)) = false →
     read_fault_free (set_failed 1 true stripe2) = true →
     ∃ a', ReadBlock 3 (set_failed 1 true stripe2)
           = Some (Ok (blk (set_failed 1 true stripe2)
                         (3 `mod` numDisks (set_failed 1 true stripe2))
                         (3 `div` numDisks (set_failed 1 true stripe2))), a')).
Proof. apply raid0_no_redundancy; by_compute. Defined.

(** * Construction and closing *)

(** ** Handles *)

Lemma release_head p hs : Host.release p (p :: hs) = hs.
Proof. simpl. by rewrite String.eqb_refl. Qed.

Lemma release_app p l hs :
  p ∈ l → Host.release p (l ++ hs) = Host.release p l ++ hs.
Proof.
  induction l as [|q l IH]; intros Hin; [by apply elem_of_nil in Hin|].
  simpl. destruct (String.eqb p q) eqn:Hpq; [done|].
  apply String.eqb_neq in Hpq. apply elem_of_cons in Hin as [->|Hin]; [done|].
  simpl. by rewrite IH.
Qed.

Lemma release_perm p l : p ∈ l → p :: Host.release p l ≡ₚ l.
Proof.
  induction l as [|q l IH]; intros Hin; [by apply elem_of_nil in Hin|].
  simpl. destruct (String.eqb p q) eqn:Hpq.
  - by apply String.eqb_eq in Hpq as ->.
  - apply String.eqb_neq in Hpq. apply elem_of_cons in Hin as [->|Hin]; [done|].
    rewrite Permutation_swap. by rewrite IH.
Qed.

(** Closing the disks [ds] releases their handles, whatever the order in
    which they were opened. *)
Lemma close_disks_handles (ds : list Disk.t) :
  ∀ l hs h, Host.handles h = l ++ hs → l ≡ₚ Disk.path <$> ds →
    Host.handles (foldl (λ h d, (Disk_Close d h).2) h ds) = hs.
Proof.
  induction ds as [|d ds IH]; intros l hs h Hh Hl; simpl in *.
  - apply Permutation_nil_r in Hl. by subst l.
  - assert (Disk.path d ∈ l) as Hin by (rewrite Hl; by left).
    apply (IH (Host.release (Disk.path d) l)).
    + simpl. rewrite Hh. by apply release_app.
    + apply (Permutation_cons_inv (a:=Disk.path d)).
      by rewrite release_perm.
Qed.

Lemma close_from_handles (ds : list Disk.t) :
  ∀ i fe h,
    (close_from i ds fe h).2 = foldl (λ h d, (Disk_Close d h).2) h ds.
Proof.
  induction ds as [|d ds IH]; intros i fe h; [done|]. simpl.
  by rewrite IH.
Qed.

(** ** [NewDisk] *)

Lemma lookup_update fs p f q :
  Host.lookup ((p, f) :: fs) q = if String.eqb q p then Some f else Host.lookup fs q.
Proof. done. Qed.

Lemma NewDisk_error path bs nb h e h' :
  NewDisk path bs nb h = (inl e, h') → Host.handles h' = Host.handles h.
Proof.
  unfold NewDisk, Host.OpenFile, Host.Stat, Host.Truncate, Host.Close.
  repeat case_match; intros [= <- <-]; simplify_eq/=;
    rewrite ?String.eqb_refl; done.
Qed.

Lemma NewDisk_ok path bs nb h d h' :
  NewDisk path bs nb h = (inr d, h') →
  0 < bs ∧ 0 < nb
  ∧ Host.handles h' = path :: Host.handles h
  ∧ d = Disk.mk (Disk.file d) path bs nb false 0 0
  ∧ wrap64 (bs * nb) ≤ len (File.bytes (Disk.file d))
  ∧ (Host.lookup (Host.files h) path = None →
     Disk.file d = File.mk (replicate (Z.to_nat (wrap64 (bs * nb))) 0) [] [] false)
  ∧ (∀ q, q ≠ path → Host.lookup (Host.files h') q = Host.lookup (Host.files h) q).
Proof.
  unfold NewDisk.
  destruct (bs <=? 0) eqn:Hbs; [done|]. destruct (nb <=? 0) eqn:Hnb; [done|].
  bool_hyps. unfold Host.OpenFile.
  destruct (Host.mem path (Host.openfaults h)); [done|].
  set (req := wrap64 (bs * nb)).
  assert (∀ (f : File.t) (h1 : Host.t),
            Host.lookup (Host.files h1) path = Some f →
            Host.handles h1 = path :: Host.handles h →
            (∀ q, q ≠ path →
                  Host.lookup (Host.files h1) q = Host.lookup (Host.files h) q) →
            (Host.lookup (Host.files h) path = None → f = File.mk [] [] [] false) →
            match Host.Stat path h1 with
            | inl e => (inl (EStat e), (Host.Close path h1).2)
            | inr size =>
                if size <? req then
                  match Host.Truncate path req h1 with
                  | (Some e, h2) => (inl (EResizeDisk e), (Host.Close path h2).2)
                  | (None, h2) =>
                      (inr (Disk.mk (default f (Host.lookup (Host.files h2) path))
                              path bs nb false 0 0), h2)
                  end
                else (inr (Disk.mk f path bs nb false 0 0), h1)
            end = (inr d, h') →
            0 < bs ∧ 0 < nb
            ∧ Host.handles h' = path :: Host.handles h
            ∧ d = Disk.mk (Disk.file d) path bs nb false 0 0
            ∧ req ≤ len (File.bytes (Disk.file d))
            ∧ (Host.lookup (Host.files h) path = None →
               Disk.file d = File.mk (replicate (Z.to_nat req) 0) [] [] false)
            ∧ (∀ q, q ≠ path →
                    Host.lookup (Host.files h') q = Host.lookup (Host.files h) q))
    as Hrest.
  { intros f h1 Hf Hh1 Hoth Hfresh. unfold Host.Stat, Host.Truncate.
    destruct (Host.mem path (Host.statfaults h1)); [done|]. rewrite Hf.
    destruct (len (File.bytes f) <? req) eqn:Hsize; bool_hyps.
    - destruct (Host.mem path (Host.truncfaults h1)); [done|].
      destruct (req <? 0) eqn:Hreq; [done|]. bool_hyps.
      intros [= <- <-]. simpl. rewrite String.eqb_refl. simpl.
      split_and!; try done; try lia.
      + unfold len in *. rewrite length_app, length_take, length_replicate. lia.
      + intros Hnone. rewrite (Hfresh Hnone). simpl.
        by rewrite take_nil, Nat.sub_0_r.
      + intros q Hq. rewrite (proj2 (String.eqb_neq q path) Hq). by apply Hoth.
    - intros [= <- <-]. simpl. split_and!; try done; try lia.
      + intros Hnone. rewrite (Hfresh Hnone) in *. simpl in *.
        unfold len in Hsize. simpl in Hsize.
        replace (Z.to_nat req) with 0%nat by lia. done. }
  destruct (Host.lookup (Host.files h) path) as [f|] eqn:Hlk.
  - apply Hrest; simpl; try done.
  - apply Hrest; simpl; try done.
    + by rewrite String.eqb_refl.
    + intros q Hq. by rewrite (proj2 (String.eqb_neq q path) Hq).
Qed.

(** ** [NewRAIDArray] *)

Section open_disks.

Variables (bs nb : Z).

Lemma open_disks_error paths :
  ∀ i opened h e h' l hs,
    open_disks i paths bs nb opened h = (inl e, h') →
    Host.handles h = l ++ hs → l ≡ₚ Disk.path <$> opened →
    Host.handles h' = hs.
Proof.
  induction paths as [|path paths IH]; intros i opened h e h' l hs Hrun Hh Hl;
    [done|].
  simpl in Hrun. destruct (NewDisk path bs nb h) as [[e1|d] h1] eqn:Hnew.
  - injection Hrun as <- <-.
    apply (close_disks_handles opened l); [|done].
    by rewrite (NewDisk_error _ _ _ _ _ _ Hnew).
  - destruct (NewDisk_ok _ _ _ _ _ _ Hnew) as (_ & _ & Hh1 & Hd & _).
    apply (IH _ _ _ _ _ (path :: l) hs Hrun).
    + by rewrite Hh1, Hh.
    + rewrite fmap_app. simpl. rewrite Hd. simpl.
      rewrite Hl. by rewrite <- Permutation_cons_append.
Qed.

Lemma open_disks_ok paths :
  ∀ i opened h ds h',
    open_disks i paths bs nb opened h = (inr ds, h') →
    ∃ new, ds = opened ++ new
      ∧ Forall2 (new_disk bs nb) paths new
      ∧ Host.handles h' = reverse paths ++ Host.handles h
      ∧ (paths ≠ [] → 0 < bs ∧ 0 < nb)
      ∧ (NoDup paths →
         (∀ p, p ∈ paths → Host.lookup (Host.files h) p = None) →
         Forall (λ d, Disk.file d = fresh_file bs nb) new).
Proof.
  induction paths as [|path paths IH]; intros i opened h ds h' Hrun; simpl in Hrun.
  - injection Hrun as <- <-. exists []. rewrite app_nil_r.
    by split_and!.
  - destruct (NewDisk path bs nb h) as [[e1|d] h1] eqn:Hnew; [done|].
    destruct (NewDisk_ok _ _ _ _ _ _ Hnew) as (Hbs & Hnb & Hh1 & Hd & Hlen & Hfresh & Hoth).
    destruct (IH _ _ _ _ _ Hrun) as (new & -> & Hnew' & Hh' & _ & Hfr').
    exists (d :: new). split_and!.
    + by rewrite <- app_assoc.
    + by constructor.
    + rewrite Hh', Hh1, reverse_cons, <- app_assoc. done.
    + done.
    + intros Hnd Hnone. apply NoDup_cons in Hnd as [Hnotin Hnd].
      constructor.
      * apply Hfresh, Hnone. by left.
      * apply Hfr'; [done|]. intros p Hp. rewrite Hoth.
        -- apply Hnone. by right.
        -- by intros ->.
Qed.

End open_disks.

Lemma new_disks_stats bs nb paths ds :
  Forall2 (new_disk bs nb) paths ds →
  Disk_GetStats <$> ds = (λ p, mkStats p 0 0 false) <$> paths.
Proof.
  induction 1 as [|p d paths ds [Hd _] _ IH]; [done|].
  rewrite !fmap_cons, IH. f_equal. by rewrite Hd.
Qed.

Lemma new_disks_wf bs nb paths ds lv cap :
  Forall2 (new_disk bs nb) paths ds →
  2 ≤ len paths → 0 < bs → 0 < nb → bs * nb < 2 ^ 63 →
  (lv = RAID0 ∧ cap = nb * len ds
   ∨ lv = RAID1 ∧ cap = nb
   ∨ lv = RAID5 ∧ 3 ≤ len ds ∧ cap = nb * (len ds - 1)) →
  wf_array (mkArray lv ds bs (len ds) cap) nb.
Proof.
  intros Hnew Hn Hbs Hnb Hbound Hlv.
  assert (len ds = len paths) as Hlen.
  { unfold len. by rewrite (Forall2_length _ _ _ Hnew). }
  split; simpl; try done; try lia.
  intros i d Hd. unfold disk_at in Hd. simpl in Hd.
  destruct (i <? 0); [done|].
  destruct (Forall2_lookup_r _ _ _ _ _ Hnew Hd) as (p & _ & Hdp & Hsize).
  rewrite wrap64_small in Hsize by nia.
  unfold wf_disk. rewrite Hdp. simpl. rewrite !Z.eqb_refl. simpl.
  by apply Z.leb_le.
Qed.

Lemma forallb_zero_replicate k : forallb (Z.eqb 0) (replicate k 0) = true.
Proof. induction k as [|k IH]; [done|]. simpl. done. Qed.

(** What a successful [NewRAIDArray] has checked and built. *)
Lemma NewRAIDArray_ok config h a h' :
  NewRAIDArray config h = (inr a, h') →
  ∃ ds cap,
    a = mkArray (RAIDConfig.Level config) ds (RAIDConfig.BlockSize config)
          (len ds) cap
    ∧ Forall2 (new_disk (RAIDConfig.BlockSize config) (RAIDConfig.BlocksPerDisk config))
        (RAIDConfig.DiskPaths config) ds
    ∧ 2 ≤ len (RAIDConfig.DiskPaths config)
    ∧ 0 < RAIDConfig.BlockSize config ∧ 0 < RAIDConfig.BlocksPerDisk config
    ∧ (RAIDConfig.Level config = RAID0
         ∧ cap = wrap64 (RAIDConfig.BlocksPerDisk config * len ds)
       ∨ RAIDConfig.Level config = RAID1 ∧ cap = RAIDConfig.BlocksPerDisk config
       ∨ RAIDConfig.Level config = RAID5 ∧ 3 ≤ len ds
         ∧ cap = wrap64 (RAIDConfig.BlocksPerDisk config * (len ds - 1)))
    ∧ Host.handles h' = reverse (RAIDConfig.DiskPaths config) ++ Host.handles h
    ∧ (NoDup (RAIDConfig.DiskPaths config) →
       (∀ p, p ∈ RAIDConfig.DiskPaths config →
             Host.lookup (Host.files h) p = None) →
       Forall (λ d, Disk.file d
                    = fresh_file (RAIDConfig.BlockSize config)
                        (RAIDConfig.BlocksPerDisk config)) ds).
Proof.
  destruct config as [lv paths bs nb]. unfold NewRAIDArray. simpl.
  destruct (len paths <? 2) eqn:Hn; [done|].
  destruct ((lv =? RAID5) && (len paths <? 3)) eqn:H5; [done|].
  destruct (bs <=? 0) eqn:Hbs; [done|]. destruct (nb <=? 0) eqn:Hnb; [done|].
  bool_hyps.
  destruct (open_disks 0 paths bs nb [] h) as [[e|ds] h1] eqn:Hopen; [done|].
  destruct (open_disks_ok bs nb paths _ _ _ _ _ Hopen)
    as (new & -> & Hnew & Hh & _ & Hfresh).
  simpl in *.
  assert (len new = len paths) as Hlen.
  { unfold len. by rewrite (Forall2_length _ _ _ Hnew). }
  unfold RAID0, RAID1, RAID5 in *.
  destruct (lv =? 0) eqn:H0; bool_hyps.
  { intros [= <- <-]. exists new, (wrap64 (nb * len new)).
    split_and!; try done; try lia; by left. }
  destruct (lv =? 1) eqn:H1; bool_hyps.
  { intros [= <- <-]. exists new, nb.
    split_and!; try done; try lia; right; by left. }
  destruct (lv =? 5) eqn:H5'; bool_hyps; [|done].
  intros [= <- <-]. exists new, (wrap64 (nb * (len new - 1))).
  assert (3 ≤ len paths) as H3.
  { apply andb_false_iff in H5 as [H5|H5]; bool_hyps; [lia|]. lia. }
  split_and!; try done; lia.
Qed.

(** X13. An array returned by [NewRAIDArray] comes from a configuration
    with at least two disk paths (three at level 5), a positive block size
    and number of blocks per disk, and level 0, 1 or 5.  It has the level and
    block size of the configuration and one disk per path, in order, none
    marked failed, all counters at zero; one handle per path has been opened
    on the host.  When neither [BlockSize * BlocksPerDisk] nor
    [BlocksPerDisk * number of disks] overflows, the array is well-formed,
    with capacity [BlocksPerDisk * N] at level 0, [BlocksPerDisk] at level 1
    and [BlocksPerDisk * (N - 1)] at level 5; when moreover the paths are
    distinct and none existed on the host, every disk is zero-filled and
    without faults. *)
Theorem NewRAIDArray_creates config h a h' :
  NewRAIDArray config h = (inr a, h') →
  let paths := RAIDConfig.DiskPaths config in
  let lv := RAIDConfig.Level config in
  let bs := RAIDConfig.BlockSize config in
  let nb := RAIDConfig.BlocksPerDisk config in
  (2 ≤ len paths ∧ 0 < bs ∧ 0 < nb
   ∧ (lv = RAID0 ∨ lv = RAID1 ∨ lv = RAID5 ∧ 3 ≤ len paths))
  ∧ level a = lv ∧ blockSize a = bs ∧ numDisks a = len paths
  ∧ GetStats a = (λ p, mkStats p 0 0 false) <$> paths
  ∧ healthy a = true
  ∧ Host.handles h' = reverse paths ++ Host.handles h
  ∧ (bs * nb < 2 ^ 63 → nb * len paths < 2 ^ 63 →
     wf a = true ∧ blocksPerDisk a = nb
     ∧ capacity a = (if lv =? RAID0 then nb * len paths
                     else if lv =? RAID1 then nb else nb * (len paths - 1)))
  ∧ (NoDup paths → (∀ p, p ∈ paths → Host.lookup (Host.files h) p = None) →
     zero_filled a = true ∧ fault_free a = true).
Proof.
  intros Hrun paths lv bs nb.
  destruct (NewRAIDArray_ok _ _ _ _ Hrun)
    as (ds & cap & -> & Hnew & Hn & Hbs & Hnb & Hlv & Hh & Hfresh).
  fold paths lv bs nb in Hnew, Hn, Hbs, Hnb, Hlv, Hh, Hfresh |- *.
  assert (len ds = len paths) as Hlen.
  { unfold len. by rewrite (Forall2_length _ _ _ Hnew). }
  simpl. split_and!; try done.
  - destruct Hlv as [[? _]|[[? _]|(? & ? & _)]]; [by left|right; by left|].
    right; right. split; [done|lia].
  - by apply (new_disks_stats bs nb).
  - apply forallb_forall. intros d Hd%list_elem_of_In.
    apply list_elem_of_lookup in Hd as [k Hk].
    destruct (Forall2_lookup_r _ _ _ _ _ Hnew Hk) as (p & _ & -> & _). done.
  - intros Hb1 Hb2.
    assert (wf_array (mkArray lv ds bs (len ds) cap) nb
            ∧ cap = (if lv =? RAID0 then nb * len paths
                     else if lv =? RAID1 then nb else nb * (len paths - 1)))
      as [Hwf Hcap].
    { unfold RAID0, RAID1, RAID5 in *.
      destruct Hlv as [[Hl ->]|[[Hl ->]|(Hl & H3 & ->)]]; rewrite Hl; simpl.
      - rewrite wrap64_small by nia. split; [|by rewrite Hlen].
        apply (new_disks_wf bs nb paths); try done. by left.
      - split; [|done].
        apply (new_disks_wf bs nb paths); try done. right; by left.
      - rewrite wrap64_small by nia. split; [|by rewrite Hlen].
        apply (new_disks_wf bs nb paths); try done. right; right. done. }
    split_and!; [by eapply wf_of_wf_array|by eapply wf_array_blocks|done].
  - intros Hnd Hnone. specialize (Hfresh Hnd Hnone).
    rewrite Forall_forall in Hfresh. split.
    + apply forallb_forall. intros d Hd%list_elem_of_In.
      rewrite (Hfresh d Hd). apply forallb_zero_replicate.
    + apply forallb_forall. intros d Hd%list_elem_of_In.
      by rewrite (Hfresh d Hd).
Qed.

Lemma new_disks_paths bs nb paths ds :
  Forall2 (new_disk bs nb) paths ds → Disk.path <$> ds = paths.
Proof.
  induction 1 as [|p d paths ds [Hd _] _ IH]; [done|].
  rewrite fmap_cons, IH. f_equal. by rewrite Hd.
Qed.

Lemma Close_handles a h l hs :
  Host.handles h = l ++ hs → l ≡ₚ Disk.path <$> disks a →
  Host.handles (Close a h).2 = hs.
Proof.
  intros Hh Hl. unfold Close. rewrite close_from_handles.
  by apply (close_disks_handles (disks a) l).
Qed.

Lemma open_disks_error_kind bs nb paths :
  ∀ i opened h e h',
    open_disks i paths bs nb opened h = (inl e, h') → ∃ j e', e = ECreateDisk j e'.
Proof.
  induction paths as [|p paths IH]; intros i opened h e h'; simpl; [done|].
  destruct (NewDisk p bs nb h) as [[e1|d] h1]; [|by apply IH].
  intros [= <- _]. eauto.
Qed.

(** X14. When [NewRAIDArray] returns an error, no file handle is left open
    on the host: the disks opened before the failure have been closed, also
    when the failure is the unsupported level, which is detected after all
    the disks have been created.  The errors of the checks of the
    configuration are returned before the host is touched. *)
Theorem NewRAIDArray_error_leaves_no_handle config h e h' :
  NewRAIDArray config h = (inl e, h') →
  Host.handles h' = Host.handles h
  ∧ (e = ENeedTwoDisks ∨ e = ERaid5NeedThreeDisks
     ∨ e = EConfigBlockSize ∨ e = EConfigBlocksPerDisk → h' = h).
Proof.
  destruct config as [lv paths bs nb]. unfold NewRAIDArray. simpl.
  destruct (len paths <? 2); [by intros [= <- <-]|].
  destruct ((lv =? RAID5) && (len paths <? 3)); [by intros [= <- <-]|].
  destruct (bs <=? 0); [by intros [= <- <-]|].
  destruct (nb <=? 0); [by intros [= <- <-]|].
  destruct (open_disks 0 paths bs nb [] h) as [[e1|ds] h1] eqn:Hopen.
  - intros [= <- <-]. split.
    + by apply (open_disks_error bs nb paths _ _ _ _ _ [] _ Hopen).
    + destruct (open_disks_error_kind _ _ _ _ _ _ _ _ Hopen) as (j & e' & ->).
      by intros [?|[?|[?|?]]].
  - destruct (open_disks_ok bs nb paths _ _ _ _ _ Hopen)
      as (new & -> & Hnew & Hh & _).
    simpl. repeat case_match; try done. intros [= <- <-]. split.
    + apply (Close_handles _ _ (reverse paths)); [done|]. simpl.
      by rewrite (new_disks_paths _ _ _ _ Hnew), reverse_Permutation.
    + by intros [?|[?|[?|?]]].
Qed.

Ltac nodup_paths :=
  repeat (apply NoDup_cons_2;
          [let H := fresh in
           intros H;
           repeat (apply elem_of_cons in H as [H|H]; [discriminate|]);
           by apply elem_of_nil in H|]);
  apply NoDup_nil_2.

Lemma NewRAIDArray_creates_witness :
  ∃ a h', NewRAIDArray config5 host0 = (inr a, h')
    ∧ wf a = true ∧ blocksPerDisk a = 2 ∧ capacity a = 4
    ∧ healthy a = true ∧ zero_filled a = true ∧ fault_free a = true
    ∧ Host.handles h' = ["d2"; "d1"; "d0"]%string.
Proof.
  assert (∃ a h', NewRAIDArray config5 host0 = (inr a, h')) as (a & h' & Hrun)
    by (vm_compute; eauto).
  exists a, h'. split; [done|].
  destruct (NewRAIDArray_creates config5 host0 a h' Hrun)
    as (_ & _ & _ & _ & _ & Hh & Hhandles & Hwf & Hzero).
  destruct Hwf as (? & ? & ?); [by_compute..|].
  destruct Hzero as [? ?]; [nodup_paths|done|].
  by split_and!.
Defined.

Lemma NewRAIDArray_error_leaves_no_handle_witness :
  ∃ h', NewRAIDArray config3 host0 = (inl (ENewUnsupportedLevel 3), h')
    ∧ Host.handles h' = []
    ∧ Host.lookup (Host.files h') "d0" = Some (fresh_file 2 2).
Proof.
  assert (∃ h', NewRAIDArray config3 host0 = (inl (ENewUnsupportedLevel 3), h')
                ∧ Host.lookup (Host.files h') "d0" = Some (fresh_file 2 2))
    as (h' & Hrun & Hfile) by (vm_compute; eauto).
  exists h'. split_and!; [done| |done].
  by destruct (NewRAIDArray_error_leaves_no_handle config3 host0 _ h' Hrun).
Defined.

(** ** [Close] *)

Lemma close_from_error ds :
  ∀ i fe h,
    (close_from i ds fe h).1
    = match fe with
      | Some e => Some e
      | None =>
          (λ k, ECloseDisk (i + Z.of_nat k.1) EIO)
            <$> list_find (λ d, Host.mem (Disk.path d) (Host.closefaults h) = true) ds
      end.
Proof.
  induction ds as [|d ds IH]; intros i fe h; [by destruct fe|].
  simpl. rewrite IH. destruct fe as [e|]; simpl.
  { by destruct (Host.mem _ _). }
  destruct (Host.mem (Disk.path d) (Host.closefaults h)) eqn:Hm.
  - rewrite decide_True by done. simpl. do 2 f_equal. lia.
  - rewrite decide_False by congruence.
    destruct (list_find _ ds) as [[k x]|]; simpl; [|done].
    do 2 f_equal. lia.
Qed.

Lemma close_disks_files (ds : list Disk.t) :
  ∀ h, Host.files (foldl (λ h d, (Disk_Close d h).2) h ds) = Host.files h.
Proof.
  induction ds as [|d ds IH]; intros h; [done|].
  change (foldl (λ h d, (Disk_Close d h).2) h (d :: ds))
    with (foldl (λ h d, (Disk_Close d h).2) (Disk_Close d h).2 ds).
  by rewrite IH.
Qed.

(** X15. [Close] closes every disk of the array, also after the close of
    one of them has failed: the handles of the disks are released and the
    files are left as they are; it returns the error of the first disk, in
    index order, whose close failed, and [nil] when none did. *)
Theorem Close_releases_every_disk a h l hs :
  Host.handles h = l ++ hs → l ≡ₚ Disk.path <$> disks a →
  Host.handles (Close a h).2 = hs
  ∧ Host.files (Close a h).2 = Host.files h
  ∧ (Close a h).1
    = (λ k, ECloseDisk (Z.of_nat k.1) EIO)
        <$> list_find (λ d, Host.mem (Disk.path d) (Host.closefaults h) = true)
              (disks a).
Proof.
  intros Hh Hl. split_and!.
  - by eapply Close_handles.
  - unfold Close. by rewrite close_from_handles, close_disks_files.
  - unfold Close. by rewrite close_from_error.
Qed.

Lemma Close_releases_every_disk_witness :
  Host.handles (Close parity3 host_open).2 = ["x"]%string
  ∧ Host.files (Close parity3 host_open).2 = Host.files host_open
  ∧ (Close parity3 host_open).1
    = (λ k, ECloseDisk (Z.of_nat k.1) EIO)
        <$> list_find (λ d, Host.mem (Disk.path d) (Host.closefaults host_open)
                            = true)
              (disks parity3).
Proof.
  apply (Close_releases_every_disk parity3 host_open
           ["disk.img"; "disk.img"; "disk.img"]%string ["x"]%string).
  - reflexivity.
  - vm_compute. reflexivity.
Defined.

(** ** Statistics *)

Lemma alter_insert {A} (f : A → A) (l : list A) i x :
  l !! i = Some x → alter f i l = <[i := f x]> l.
Proof.
  intros Hi. apply list_eq. intros j. rewrite list_lookup_alter.
  case_decide as Hij.
  - subst j. rewrite Hi, list_lookup_insert_eq; [done|]. by eapply lookup_lt_Some.
  - by rewrite list_lookup_insert_ne.
Qed.

Lemma WriteBlock_None bs nb d s data :
  disk_ok bs nb d → (Disk.WriteBlock s data d).1 = None →
  (Disk.WriteBlock s data d).2 = bump_write (written d s data).
Proof.
  intros Hok Hnone. destruct (writable d s data) eqn:Hw.
  2:{ destruct (WriteBlock_unwritable _ _ _ Hok s data Hw) as [e He].
      by rewrite He in Hnone. }
  rewrite (WriteBlock_writable _ _ _ Hok s data Hw) in *.
  by destruct (File.syncfault (Disk.file d)).
Qed.

(** X16. The statistics after a write that returned success: at level 0
    the write counter of the one disk [lbid mod N] has grown by one, at
    level 1 the write counter of every disk has; the read counters, the
    paths and the failed flags are as before. *)
Theorem write_statistics sched a lbid data a' :
  wf a = true → sched ≡ₚ seqZ 0 (numDisks a) →
  WriteBlock sched lbid data a = Some (None, a') →
  (level a = RAID0 →
     GetStats a' = alter bump_stats (Z.to_nat (lbid `mod` numDisks a)) (GetStats a))
  ∧ (level a = RAID1 → GetStats a' = bump_stats <$> GetStats a).
Proof.
  intros Hwf%wf_array_of_wf Hsched Hw. set (nb := blocksPerDisk a) in *.
  pose proof (wf_array_n _ _ Hwf) as Hn.
  destruct (WriteBlock_ok_checked _ _ _ _ _ Hw) as [Hb Hlen].
  rewrite WriteBlock_dispatch in Hw by done. split; intros Hl; rewrite Hl in Hw;
    simpl in Hw.
  - (* level 0 *)
    assert (capacity a = nb * numDisks a) as Hc.
    { destruct (wf_level _ _ Hwf) as [[_ ?]|[[H _]|[H _]]]; [done|..];
        rewrite Hl in H; done. }
    assert (0 ≤ lbid < nb * numDisks a) as Hlb by lia.
    destruct (raid0_layout a nb Hwf lbid Hlb) as [Hi Hs].
    rewrite <- (Z.rem_mod_nonneg lbid (numDisks a)) by lia.
    set (i := Z.rem lbid (numDisks a)) in *.
    set (s := Z.quot lbid (numDisks a)) in *.
    destruct (wf_array_disk a nb i Hwf Hi) as [d Hd].
    assert (raid0Impl.writeBlock lbid data a
            = Some ((Disk.WriteBlock s data d).1,
                    upd a i (Disk.WriteBlock s data d).2)) as Hwrite.
    { unfold raid0Impl.writeBlock, bind, gets, int_rem, int_quot, ret. zb.
      fold i s. by apply withDisk_run. }
    rewrite Hwrite in Hw. injection Hw as Hnone <-.
    rewrite (WriteBlock_None _ _ _ _ _ (wf_array_disk_ok _ _ _ _ Hwf Hd) Hnone).
    unfold GetStats, upd. simpl. rewrite list_fmap_insert.
    unfold disk_at in Hd. destruct (i <? 0); [done|].
    symmetry.
    change (Disk_GetStats (bump_write (written d s data)))
      with (bump_stats (Disk_GetStats d)).
    apply alter_insert. by rewrite list_lookup_fmap, Hd.
  - (* level 1 *)
    assert (∀ i, i ∈ sched ↔ 0 ≤ i < numDisks a) as Hin
      by (intros i; by apply sched_range).
    rewrite raid1_writeBlock_run in Hw by (apply (wf_len _ _ Hwf) || apply Hin).
    injection Hw as Hr <-. simpl in Hr.
    assert (∀ i, 0 ≤ i < numDisks a → write_err a lbid data i = None) as Hall.
    { intros i Hi.
      apply (successes_all (write_err a lbid data) sched); [|by apply Hin].
      pose proof (successes_failures (write_err a lbid data) sched) as Hsum.
      pose proof (sched_length sched (numDisks a) ltac:(lia) Hsched) as Hls.
      assert (0 ≤ len (failures (write_err a lbid data) sched)) by (unfold len; lia).
      repeat case_match; bool_hyps; try done. lia. }
    unfold GetStats. simpl. rewrite <- !list_fmap_compose.
    apply list_eq. intros k. rewrite !list_lookup_fmap.
    destruct (disks a !! k) as [d|] eqn:Hk; [|done]. simpl. f_equal.
    assert (disk_at a (Z.of_nat k) = Some d) as Hd.
    { unfold disk_at. zb. by rewrite Nat2Z.id. }
    pose proof (disk_at_range _ _ _ Hd) as Hi. rewrite <- (wf_len _ _ Hwf) in Hi.
    specialize (Hall _ Hi). unfold write_err in Hall. rewrite Hd in Hall.
    by rewrite (WriteBlock_None _ _ _ _ _ (wf_array_disk_ok _ _ _ _ Hwf Hd) Hall).
Qed.

Lemma write_statistics_witness :
  (level mirror2 = RAID0 →
     GetStats mirror2_written
     = alter bump_stats (Z.to_nat (1 `mod` numDisks mirror2)) (GetStats mirror2))
  ∧ (level mirror2 = RAID1 →
     GetStats mirror2_written = bump_stats <$> GetStats mirror2).
Proof.
  apply (write_statistics [1; 0] mirror2 1 [7; 8]).
  - by_compute.
  - vm_compute. apply perm_swap.
  - by_compute.
Defined.

(** * Write, other calls, then read *)

(** ** The disk operations and the cells they do not write *)

Lemma Disk_ReadBlock_frame s d s' :
  readable (Disk.ReadBlock s d).2 s' = readable d s'
  ∧ block_of (Disk.ReadBlock s d).2 s' = block_of d s'.
Proof.
  change (readable (strip (Disk.ReadBlock s d).2) s' = readable (strip d) s'
          ∧ block_of (strip (Disk.ReadBlock s d).2) s' = block_of (strip d) s').
  by rewrite ReadBlock_strip.
Qed.

Lemma Disk_WriteBlock_frame bs nb s data d s' :
  disk_ok bs nb d → s' ≠ s → 0 ≤ s' →
  readable (Disk.WriteBlock s data d).2 s' = readable d s'
  ∧ block_of (Disk.WriteBlock s data d).2 s' = block_of d s'.
Proof.
  intros Hok Hne Hs'. destruct (writable d s data) eqn:Hw.
  - rewrite (WriteBlock_writable _ _ _ Hok s data Hw).
    pose proof (written_block_other _ _ _ Hok s data Hw s' Hs' Hne) as Hb.
    by destruct (File.syncfault (Disk.file d)).
  - by destruct (WriteBlock_unwritable _ _ _ Hok s data Hw) as [e ->].
Qed.

Lemma readable_range d s : readable d s = true → Disk.failed d = false ∧ 0 ≤ s.
Proof. unfold readable. intros H. bool_hyps. split; [done|lia]. Qed.

(** An operation in tail position. *)
Lemma wp_bind_ret {A} (m : M A) Q a :
  wp (let! x := m in ret x) Q a → wp m Q a.
Proof.
  intros (x & a' & Hrun & HQ). unfold bind, ret in Hrun.
  destruct (m a) as [[y b]|] eqn:Hm; [|done]. simplify_eq. by exists x, a'.
Qed.

Section frame_rules.

Variables (a0 : RAIDArray) (nb : Z) (prot : Z → Z → Prop).

(** The invariant of the calls: the store is well-formed, has the geometry
    of [a0], and the cells [prot] are readable and hold what they held. *)
Local Abbreviation F := (λ a, kept a0 nb a ∧ guarded prot a0 a).

Lemma wp_frame {A} a i (op : Disk.t → A * Disk.t) (Q : A → RAIDArray → Prop) :
  F a → 0 ≤ i < numDisks a0 →
  (∀ d, disk_ok (blockSize a0) nb d → wf_disk (blockSize a0) nb (op d).2 = true) →
  (∀ d s, disk_ok (blockSize a0) nb d → prot i s → readable d s = true →
     readable (op d).2 s = true ∧ block_of (op d).2 s = block_of d s) →
  (∀ d a', (∀ s, prot i s → readable d s = true) → F a' → Q (op d).1 a') →
  wp (withDisk i op) Q a.
Proof.
  intros [(Hwf & Hl & Hb & Hn & Hc) Hg] Hi Hop Hfr HQ.
  destruct (wf_array_disk a nb i Hwf ltac:(lia)) as [d Hd].
  pose proof (wf_array_disk_ok _ _ _ _ Hwf Hd) as Hok. rewrite Hb in Hok.
  assert (∀ s, prot i s → readable d s = true) as Hrd.
  { intros s Hs. destruct (Hg i s Hs) as [Hcr _].
    unfold can_read in Hcr. by rewrite Hd in Hcr. }
  eapply wp_withDisk; [done|]. apply HQ; [done|]. split.
  - split; [|done]. eapply wf_array_upd; [done..|]. rewrite Hb. by apply Hop.
  - intros j s Hs. destruct (Hg j s Hs) as [Hcr Hblk].
    rewrite (can_read_upd _ _ _ _ Hd), (blk_upd _ _ _ _ Hd).
    case_decide as Hij; [|done]. subst j.
    destruct (Hfr d s Hok Hs (Hrd s Hs)) as [Hr' Hb'].
    split; [done|]. rewrite Hb', <- Hblk. unfold blk. by rewrite Hd.
Qed.

Lemma wp_frame_read {B} a i s (k : res (list byte) → M B) Q :
  F a → 0 ≤ i < numDisks a0 →
  (∀ r a', F a' → wp (k r) Q a') →
  wp (let! r := withDisk i (Disk.ReadBlock s) in k r) Q a.
Proof.
  intros HF Hi Hrest. apply wp_bind. eapply wp_frame; [done|done| | |].
  - intros d Hd. apply ReadBlock_keeps, Hd.
  - intros d s' _ _ Hr. by destruct (Disk_ReadBlock_frame s d s') as [-> ->].
  - intros d a' _ HF'. by apply Hrest.
Qed.

Lemma wp_frame_write {B} a i s data (k : option error → M B) Q :
  F a → 0 ≤ i < numDisks a0 → ¬ prot i s →
  (∀ r a', F a' → wp (k r) Q a') →
  wp (let! r := withDisk i (Disk.WriteBlock s data) in k r) Q a.
Proof.
  intros HF Hi Hnp Hrest. apply wp_bind. eapply wp_frame; [done|done| | |].
  - intros d Hd. by apply WriteBlock_keeps.
  - intros d s' Hd Hs' Hr. destruct (readable_range _ _ Hr) as [_ H0].
    destruct (Disk_WriteBlock_frame _ _ s data d s' Hd) as [-> ->]; [|done..].
    by intros ->.
  - intros d a' _ HF'. by apply Hrest.
Qed.

Lemma wp_frame_isfailed {B} a i (k : bool → M B) Q :
  F a → 0 ≤ i < numDisks a0 →
  (∀ r a', (r = true → ∀ s, ¬ prot i s) → F a' → wp (k r) Q a') →
  wp (let! r := withDisk i Disk.IsFailed in k r) Q a.
Proof.
  intros HF Hi Hrest. apply wp_bind. eapply wp_frame; [done|done| | |].
  - intros d Hd. apply Hd.
  - by intros d s' _ _ Hr.
  - intros d a' Hrd HF'. apply Hrest; [|done]. simpl.
    intros Hf s Hs. destruct (readable_range _ _ (Hrd s Hs)). congruence.
Qed.

Lemma wp_frame_setfailed {B} a i b (k : unit → M B) Q :
  F a → 0 ≤ i < numDisks a0 → (∀ s, ¬ prot i s) →
  (∀ r a', F a' → wp (k r) Q a') →
  wp (let! r := withDisk i (Disk.SetFailed b) in k r) Q a.
Proof.
  intros HF Hi Hnp Hrest. apply wp_bind. eapply wp_frame; [done|done| | |].
  - intros d Hd. apply Hd.
  - intros d s' _ Hs'. by destruct (Hnp s').
  - intros d a' _ HF'. by apply Hrest.
Qed.

Lemma wp_frame_numDisks {B} a (k : Z → M B) Q :
  F a → wp (k (numDisks a0)) Q a →
  wp (let! n := gets numDisks in k n) Q a.
Proof. intros [Hk _]. by apply (wp_kept_numDisks a0 nb). Qed.

Lemma wp_frame_blockSize {B} a (k : Z → M B) Q :
  F a → wp (k (blockSize a0)) Q a →
  wp (let! bs := gets blockSize in k bs) Q a.
Proof.
  intros [(_ & _ & Hb & _) _] Hrest. apply wp_bind, wp_gets. by rewrite Hb.
Qed.

Lemma wp_frame_for {A R} (body : Z → A → M (ctl A R)) ixs :
  (∀ i acc a, i ∈ ixs → F a → wp (body i acc) (λ _ a', F a') a) →
  ∀ acc a, F a → wp (for_ ixs body acc) (λ _ a', F a') a.
Proof.
  intros Hbody acc a HF. eapply wp_mono.
  - apply (wp_for (λ _ _ b, F b) (λ _ b, F b) (λ _ b, F b) body ixs); [|done].
    intros done i rest acc' b Hixs Hb. eapply wp_mono.
    + apply Hbody; [|done]. rewrite Hixs. apply elem_of_app. right. by left.
    + by intros [x|x|r] b'.
  - intros [x|r] b; [by intros [?|?]|done].
Qed.

End frame_rules.

(** ** The engines *)

Section frame_engines.

Variables (a0 : RAIDArray) (nb : Z) (prot : Z → Z → Prop).
Hypothesis Hwf : wf_array a0 nb.

Local Abbreviation F := (λ a, kept a0 nb a ∧ guarded prot a0 a).
Local Abbreviation n := (numDisks a0).

Lemma raid0_write_frame lbid data a :
  F a → 0 ≤ lbid < nb * n → ¬ prot (Z.rem lbid n) (Z.quot lbid n) →
  wp (raid0Impl.writeBlock lbid data) (λ _ a', F a') a.
Proof.
  intros HF Hb Hnp. pose proof (wf_array_n _ _ Hwf) as Hn.
  destruct (raid0_layout a0 nb Hwf lbid Hb) as [Hi Hs].
  unfold raid0Impl.writeBlock. apply (wp_frame_numDisks a0 nb prot); [done|].
  apply wp_bind, wp_int_rem; [lia|]. apply wp_bind, wp_int_quot; [lia|].
  apply wp_bind_ret.
  apply (wp_frame_write a0 nb prot); [done..|]. intros r a' HF'. by apply wp_ret.
Qed.

Lemma raid0_read_frame lbid a :
  F a → 0 ≤ lbid < nb * n →
  wp (raid0Impl.readBlock lbid) (λ _ a', F a') a.
Proof.
  intros HF Hb. pose proof (wf_array_n _ _ Hwf) as Hn.
  destruct (raid0_layout a0 nb Hwf lbid Hb) as [Hi Hs].
  unfold raid0Impl.readBlock. apply (wp_frame_numDisks a0 nb prot); [done|].
  apply wp_bind, wp_int_rem; [lia|]. apply wp_bind, wp_int_quot; [lia|].
  apply wp_bind_ret.
  apply (wp_frame_read a0 nb prot); [done..|]. intros r a' HF'. by apply wp_ret.
Qed.

Lemma raid1_spawn_frame lbid data ixs :
  (∀ i, i ∈ ixs → 0 ≤ i < n ∧ ¬ prot i lbid) →
  ∀ a, F a → wp (raid1Impl.spawn ixs lbid data) (λ _ a', F a') a.
Proof.
  induction ixs as [|i ixs IH]; intros Hixs a HF; [by apply wp_ret|].
  destruct (Hixs i ltac:(by left)) as [Hi Hnp].
  simpl. apply (wp_frame_write a0 nb prot); [done..|].
  intros e a' HF'. apply wp_bind. eapply wp_mono.
  - apply IH; [|done]. intros j Hj. apply Hixs. by right.
  - intros rs a'' HF''. by apply wp_ret.
Qed.

Lemma raid1_write_frame sched lbid data a :
  F a → (∀ i, 0 ≤ i < n → ¬ prot i lbid) →
  wp (raid1Impl.writeBlock sched lbid data) (λ _ a', F a') a.
Proof.
  intros HF Hnp. unfold raid1Impl.writeBlock.
  apply (wp_frame_numDisks a0 nb prot); [done|].
  apply wp_bind. eapply wp_mono.
  - apply raid1_spawn_frame; [|done]. intros i Hi%elem_of_seqZ.
    split; [lia|]. apply Hnp. lia.
  - intros rs a' HF'.
    destruct (raid1Impl.collect _) as [[sc le] fd].
    repeat case_match; by apply wp_ret.
Qed.

Lemma raid1_read_frame lbid a :
  F a → wp (raid1Impl.readBlock lbid) (λ _ a', F a') a.
Proof.
  intros HF. unfold raid1Impl.readBlock.
  apply (wp_frame_numDisks a0 nb prot); [done|].
  apply wp_bind. eapply wp_mono.
  - apply (wp_frame_for a0 nb prot); [|done].
    intros i acc b Hi%elem_of_seqZ Hb. unfold raid1Impl.readBlock_body.
    apply (wp_frame_isfailed a0 nb prot); [done|lia|]. intros f b' _ Hb'.
    destruct f; [by apply wp_ret|].
    apply (wp_frame_read a0 nb prot); [done|lia|]. intros r b'' Hb''.
    destruct r; by apply wp_ret.
  - intros [le|data] a' HF'; by apply wp_ret.
Qed.

(** *** Level 5 *)

Lemma raid5_write_body_frame st off p i acc a :
  0 ≤ p < n → i ∈ seqZ 0 (n - 1) → F a →
  wp (raid5Impl.writeBlock_body st off p i acc) (λ _ a', F a') a.
Proof.
  intros Hp Hi%elem_of_seqZ HF. unfold raid5Impl.writeBlock_body.
  fold (skip_parity p i).
  destruct (skip_parity_range p i n) as [Hsk _]; [lia..|].
  destruct (i =? off); [by apply wp_ret|].
  apply (wp_frame_isfailed a0 nb prot); [done..|]. intros f b _ Hb.
  destruct f; [by apply wp_ret|].
  apply (wp_frame_read a0 nb prot); [done..|]. intros r b' Hb'.
  destruct r; by apply wp_ret.
Qed.

Lemma raid5_write_frame lbid data a :
  F a → 0 ≤ lbid < nb * (n - 1) →
  ¬ prot (spec_parity_disk n lbid) (spec_stripe n lbid) →
  ¬ prot (spec_data_disk n lbid) (spec_stripe n lbid) →
  wp (raid5Impl.writeBlock lbid data) (λ _ a', F a') a.
Proof.
  intros HF Hb Hnpp Hnpd. pose proof (wf_array_n _ _ Hwf) as Hn.
  destruct (layout_code n lbid) as (Hq & Hr & Hpd & Hdd); [lia..|].
  destruct (layout_ranges n nb lbid) as (Hst & Hoff & Hp & Hd & Hne); [lia..|].
  unfold raid5Impl.writeBlock. apply (wp_frame_numDisks a0 nb prot); [done|].
  apply wp_bind, wp_int_quot; [lia|]. rewrite Hq.
  apply wp_bind, wp_int_rem; [lia|]. rewrite Hr.
  apply wp_bind, wp_int_rem; [lia|]. rewrite Hpd.
  fold (skip_parity (spec_parity_disk n lbid) (spec_stripe_offset n lbid)).
  rewrite Hdd.
  apply (wp_frame_blockSize a0 nb prot); [done|].
  apply wp_bind, wp_mmake; [pose proof (wf_bs _ _ Hwf); lia|].
  apply wp_bind. eapply wp_mono.
  - apply (wp_frame_for a0 nb prot); [|done].
    intros i acc b Hi Hb'. by apply raid5_write_body_frame.
  - intros [parity|e] b Hb'; [|by apply wp_ret].
    apply (wp_frame_isfailed a0 nb prot); [done..|]. intros pf b1 _ Hb1.
    destruct pf; simpl.
    + apply wp_bind, wp_ret.
      apply (wp_frame_write a0 nb prot); [done..|]. intros wd b2 Hb2.
      destruct wd; by apply wp_ret.
    + apply (wp_frame_write a0 nb prot); [done..|]. intros wp1 b2 Hb2.
      destruct wp1; [by apply wp_ret|].
      apply (wp_frame_write a0 nb prot); [done..|]. intros wd b3 Hb3.
      destruct wd; by apply wp_ret.
Qed.

Lemma raid5_reconstruct_frame st m p a :
  0 ≤ p < n → F a →
  wp (raid5Impl.reconstructBlock st m p) (λ _ a', F a') a.
Proof.
  intros Hp HF. unfold raid5Impl.reconstructBlock.
  apply (wp_frame_isfailed a0 nb prot); [done..|]. intros pf b _ Hb.
  destruct pf; [by apply wp_ret|].
  apply (wp_frame_read a0 nb prot); [done..|]. intros rp b1 Hb1.
  destruct rp as [rec|e]; [|by apply wp_ret].
  apply (wp_frame_numDisks a0 nb prot); [done|].
  apply wp_bind. eapply wp_mono.
  - apply (wp_frame_for a0 nb prot); [|done].
    intros i acc b2 Hi%elem_of_seqZ Hb2. unfold raid5Impl.reconstructBlock_body.
    destruct ((i =? p) || (i =? m)); [by apply wp_ret|].
    apply (wp_frame_isfailed a0 nb prot); [done|lia|]. intros f b3 _ Hb3.
    destruct f; [by apply wp_ret|].
    apply (wp_frame_read a0 nb prot); [done|lia|]. intros r b4 Hb4.
    destruct r; by apply wp_ret.
  - intros [x|e] b2 Hb2; by apply wp_ret.
Qed.

Lemma raid5_read_frame lbid a :
  F a → 0 ≤ lbid < nb * (n - 1) →
  wp (raid5Impl.readBlock lbid) (λ _ a', F a') a.
Proof.
  intros HF Hb. pose proof (wf_array_n _ _ Hwf) as Hn.
  destruct (layout_code n lbid) as (Hq & Hr & Hpd & Hdd); [lia..|].
  destruct (layout_ranges n nb lbid) as (Hst & Hoff & Hp & Hd & Hne); [lia..|].
  unfold raid5Impl.readBlock. apply (wp_frame_numDisks a0 nb prot); [done|].
  apply wp_bind, wp_int_quot; [lia|]. rewrite Hq.
  apply wp_bind, wp_int_rem; [lia|]. rewrite Hr.
  apply wp_bind, wp_int_rem; [lia|]. rewrite Hpd.
  fold (skip_parity (spec_parity_disk n lbid) (spec_stripe_offset n lbid)).
  rewrite Hdd.
  apply (wp_frame_isfailed a0 nb prot); [done..|]. intros f b _ Hb'.
  destruct f; simpl.
  - apply wp_bind, wp_ret. by apply raid5_reconstruct_frame.
  - apply wp_bind. apply (wp_frame_read a0 nb prot); [done..|]. intros rd b1 Hb1.
    destruct rd as [x|e]; apply wp_ret; [by apply wp_ret|].
    by apply raid5_reconstruct_frame.
Qed.

Lemma raid5_rebuild_parity_frame st p a :
  0 ≤ p < n → ¬ prot p st → F a →
  wp (raid5Impl.rebuildParityBlock st p) (λ _ a', F a') a.
Proof.
  intros Hp Hnp HF. unfold raid5Impl.rebuildParityBlock.
  apply (wp_frame_blockSize a0 nb prot); [done|].
  apply wp_bind, wp_mmake; [pose proof (wf_bs _ _ Hwf); lia|].
  apply (wp_frame_numDisks a0 nb prot); [done|].
  apply wp_bind. eapply wp_mono.
  - apply (wp_frame_for a0 nb prot); [|done].
    intros i acc b Hi%elem_of_seqZ Hb. unfold raid5Impl.rebuildParityBlock_body.
    destruct (i =? p); [by apply wp_ret|].
    apply (wp_frame_read a0 nb prot); [done|lia|]. intros r b1 Hb1.
    destruct r; by apply wp_ret.
  - intros [parity|e] b Hb; [|by apply wp_ret].
    apply wp_bind_ret.
    apply (wp_frame_write a0 nb prot); [done..|]. intros r b1 Hb1. by apply wp_ret.
Qed.

Lemma raid5_rebuild_body_frame d st acc a :
  0 ≤ d < n → 0 ≤ st → (∀ s, ¬ prot d s) → F a →
  wp (raid5Impl.rebuildDisk_body d st acc) (λ _ a', F a') a.
Proof.
  intros Hd Hst Hnp HF. pose proof (wf_array_n _ _ Hwf) as Hn.
  assert (0 ≤ Z.rem st n < n) as Hp by (apply Z.rem_bound_pos; lia).
  unfold raid5Impl.rebuildDisk_body. apply (wp_frame_numDisks a0 nb prot); [done|].
  apply wp_bind, wp_int_rem; [lia|].
  destruct (d =? Z.rem st n).
  - apply wp_bind. eapply wp_mono; [by apply raid5_rebuild_parity_frame|].
    intros e b Hb. destruct e; [|by apply wp_ret].
    apply (wp_frame_setfailed a0 nb prot); [done..|]. intros [] b1 Hb1.
    by apply wp_ret.
  - apply wp_bind. eapply wp_mono.
    + apply (wp_frame_for a0 nb prot); [|done].
      intros o acc' b Ho Hb. unfold raid5Impl.rebuildDisk_inner.
      case_match; [|by apply wp_ret].
      apply wp_bind. eapply wp_mono; [by apply raid5_reconstruct_frame|].
      intros rc b1 Hb1. destruct rc as [rec|e].
      * apply (wp_frame_write a0 nb prot); [done..|]. intros w b2 Hb2.
        destruct w; [|by apply wp_ret].
        apply (wp_frame_setfailed a0 nb prot); [done..|]. intros [] b3 Hb3.
        by apply wp_ret.
      * apply (wp_frame_setfailed a0 nb prot); [done..|]. intros [] b2 Hb2.
        by apply wp_ret.
    + intros [x|e] b Hb; by apply wp_ret.
Qed.

Lemma raid5_rebuild_frame d a :
  F a → wp (raid5Impl.rebuildDisk d) (λ _ a', F a') a.
Proof.
  intros HF. unfold raid5Impl.rebuildDisk.
  apply (wp_frame_numDisks a0 nb prot); [done|].
  destruct ((d <? 0) || (d >=? n)) eqn:Hd; [by apply wp_ret|].
  assert (0 ≤ d < n) as Hd'.
  { apply orb_false_iff in Hd as [H1 H2]. rewrite Z.geb_leb in H2.
    bool_hyps. lia. }
  apply (wp_frame_isfailed a0 nb prot); [done..|]. intros f b Hf Hb.
  destruct f; simpl; [|by apply wp_ret].
  specialize (Hf eq_refl).
  apply (wp_frame_setfailed a0 nb prot); [done..|]. intros [] b1 Hb1.
  apply wp_bind. eapply (wp_frame a0 nb prot); [done|done| | |].
  { intros d0 Hd0. apply Hd0. }
  { by intros d0 s _ _ Hr. }
  intros d0 b2 _ Hb2. simpl.
  apply wp_bind. eapply wp_mono.
  - apply (wp_frame_for a0 nb prot); [|done].
    intros st acc b3 Hst%elem_of_seqZ Hb3.
    apply raid5_rebuild_body_frame; [done|lia|done..].
  - intros [x|e] b3 Hb3; by apply wp_ret.
Qed.

End frame_engines.

(** ** The calls of the facade *)

Section frame_calls.

Variables (a0 : RAIDArray) (nb : Z) (lbid : Z).
Hypothesis Hwf : wf_array a0 nb.
Hypothesis Hlbid : 0 ≤ lbid < capacity a0.

Local Abbreviation prot := (cells (level a0) (numDisks a0) lbid).
Local Abbreviation F := (λ a, kept a0 nb a ∧ guarded prot a0 a).

Lemma ReadBlock_leaves l a : F a → wp (ReadBlock l) (λ _ a', F a') a.
Proof.
  intros HF. pose proof HF as [(Hwfa & Hl & Hb & Hn & Hc) Hg].
  unfold wp. destruct (decide (0 ≤ l < capacity a)) as [Hr|Hr].
  2:{ rewrite ReadBlock_out_of_bounds by lia. eauto. }
  rewrite ReadBlock_dispatch, Hl by done. rewrite Hc in Hr.
  destruct (wf_level _ _ Hwf) as [[Hl0 Hc0]|[[Hl0 Hc0]|(Hl0 & _ & Hc0)]];
    rewrite Hl0 in *; simpl.
  - apply (raid0_read_frame a0 nb _ Hwf); [done|lia].
  - by apply (raid1_read_frame a0 nb).
  - apply (raid5_read_frame a0 nb _ Hwf); [done|lia].
Qed.

Lemma WriteBlock_leaves sched l data a :
  F a → l ≠ lbid → wp (WriteBlock sched l data) (λ _ a', F a') a.
Proof.
  intros HF Hne. pose proof HF as [(Hwfa & Hl & Hb & Hn & Hc) Hg].
  pose proof (wf_array_n _ _ Hwf) as Hn2.
  unfold wp. destruct (decide (0 ≤ l < capacity a)) as [Hr|Hr].
  2:{ rewrite WriteBlock_out_of_bounds by lia. eauto. }
  destruct (decide (len data = blockSize a)) as [Hlen|Hlen].
  2:{ rewrite WriteBlock_bad_size by done. eauto. }
  rewrite WriteBlock_dispatch, Hl by done. rewrite Hc in Hr.
  destruct (wf_level _ _ Hwf) as [[Hl0 Hc0]|[[Hl0 Hc0]|(Hl0 & Hn3 & Hc0)]];
    unfold cells in *; rewrite Hl0 in *; simpl in *.
  - apply (raid0_write_frame a0 nb _ Hwf); [done|lia|].
    intros (_ & Hi & Hs). apply Hne.
    rewrite (Z.quot_rem' l (numDisks a0)), (Z.quot_rem' lbid (numDisks a0)).
    by rewrite Hi, Hs.
  - apply (raid1_write_frame a0 nb); [done|]. by intros i Hi [_ Hs].
  - destruct (layout_ranges (numDisks a0) nb lbid) as (_ & _ & _ & _ & Hdp);
      [lia..|].
    apply (raid5_write_frame a0 nb _ Hwf); [done|lia| |].
    + intros (_ & Hi & Hs). apply Hdp. rewrite <- Hi.
      unfold spec_parity_disk. by rewrite Hs.
    + intros (_ & Hi & Hs). apply Hne.
      apply (spec_layout_inj (numDisks a0)); [lia..|done|done].
Qed.

Lemma RebuildDisk_leaves d a : F a → wp (RebuildDisk d) (λ _ a', F a') a.
Proof.
  intros HF. unfold RebuildDisk. apply wp_bind, wp_gets.
  destruct (negb (level a =? RAID5)); [by apply wp_ret|].
  by apply (raid5_rebuild_frame a0 nb).
Qed.

Lemma perform_leaves c a :
  F a → writes_to lbid c = false → wp (perform c) (λ _ a', F a') a.
Proof.
  intros HF Hc. destruct c as [l|sched l data|d]; simpl in *; apply wp_bind.
  - eapply wp_mono; [by apply ReadBlock_leaves|]. intros r a' HF'. by apply wp_ret.
  - eapply wp_mono; [apply WriteBlock_leaves; [done|by bool_hyps]|].
    intros r a' HF'. by apply wp_ret.
  - eapply wp_mono; [by apply RebuildDisk_leaves|]. intros r a' HF'. by apply wp_ret.
Qed.

Lemma perform_all_leaves cs :
  forallb (λ c, negb (writes_to lbid c)) cs = true →
  ∀ a, F a → wp (perform_all cs) (λ _ a', F a') a.
Proof.
  induction cs as [|c cs IH]; intros Hcs a HF; [by apply wp_ret|].
  simpl in Hcs. bool_hyps. simpl. apply wp_bind.
  eapply wp_mono; [by apply perform_leaves|]. intros [] a' HF'. by apply IH.
Qed.

End frame_calls.

(** ** The cells of a block after a write, and the read that follows *)

Lemma readable_ReadBlock bs nb d s x :
  disk_ok bs nb d → (Disk.ReadBlock s d).1 = Ok x →
  readable d s = true ∧ block_of d s = x.
Proof.
  intros Hok Hr. destruct (readable d s) eqn:Hrd.
  - rewrite (ReadBlock_readable _ _ _ Hok s Hrd) in Hr. by simplify_eq/=.
  - destruct (ReadBlock_unreadable _ _ _ Hok s Hrd) as [e He].
    by rewrite He in Hr.
Qed.

Lemma raid1_written_replicas sched a nb lbid data a' :
  wf_array a nb → read_fault_free a = true →
  sched ≡ₚ seqZ 0 (numDisks a) →
  raid1Impl.writeBlock sched lbid data a = Some (None, a') →
  ∀ i d', disk_at a' i = Some d' → (Disk.ReadBlock lbid d').1 = Ok data.
Proof.
  intros Hwf Hrf Hsched Hw.
  pose proof (wf_array_n _ _ Hwf) as Hn.
  assert (∀ i, i ∈ sched ↔ 0 ≤ i < numDisks a) as Hin.
  { intros i. rewrite Hsched, elem_of_seqZ. lia. }
  rewrite raid1_writeBlock_run in Hw by (apply (wf_len _ _ Hwf) || apply Hin).
  injection Hw as Hr Ha'. simpl in Hr.
  assert (∀ i, 0 ≤ i < numDisks a → write_err a lbid data i = None) as Hall.
  { intros i Hi. apply (successes_all (write_err a lbid data) sched); [|by apply Hin].
    pose proof (successes_failures (write_err a lbid data) sched) as Hsum.
    assert (len sched = numDisks a) as Hls.
    { unfold len. rewrite Hsched, length_seqZ. lia. }
    assert (0 ≤ len (failures (write_err a lbid data) sched)) by (unfold len; lia).
    repeat case_match; bool_hyps; try done. lia. }
  assert (numDisks a' = len (disks a')) as Hlen'.
  { subst a'. simpl. unfold len. rewrite length_fmap. apply (wf_len _ _ Hwf). }
  intros i d' Hd'. pose proof (disk_at_range _ _ _ Hd') as Hi.
  rewrite <- Hlen' in Hi. subst a'. unfold disk_at in Hd'. simpl in *.
  destruct (i <? 0) eqn:Hi0; [done|].
  rewrite list_lookup_fmap in Hd'.
  destruct (disks a !! Z.to_nat i) as [d|] eqn:Hd; [|done].
  injection Hd' as <-.
  assert (disk_at a i = Some d) as Hda by (unfold disk_at; by rewrite Hi0).
  eapply disk_write_then_read.
  - by eapply wf_array_disk_ok.
  - pose proof (forallb_disk _ _ _ _ Hrf Hda) as H. simpl in H.
    by destruct (File.rfaults (Disk.file d)).
  - specialize (Hall i Hi). unfold write_err in Hall. by rewrite Hda in Hall.
Qed.

(** After a write that returned [nil], every cell of the block is readable
    and holds the data. *)
Lemma written_cells sched a nb lbid data a' :
  wf_array a nb → read_fault_free a = true →
  sched ≡ₚ seqZ 0 (numDisks a) →
  WriteBlock sched lbid data a = Some (None, a') →
  kept a nb a'
  ∧ ∀ i s, cells (level a) (numDisks a) lbid i s →
           can_read a' i s = true ∧ blk a' i s = data.
Proof.
  intros Hwf Hrf Hsched Hw.
  destruct (WriteBlock_ok_checked _ _ _ _ _ Hw) as [Hb Hlen].
  rewrite WriteBlock_dispatch in Hw by done.
  pose proof (kept_refl a nb Hwf) as Hk.
  destruct (wf_level _ _ Hwf) as [[Hl Hc]|[[Hl Hc]|(Hl & Hn3 & Hc)]];
    unfold cells; rewrite Hl in *; simpl in *.
  - split.
    { apply (wp_run _ _ _ _ _ (raid0_write_kept a nb Hwf lbid data a Hk ltac:(lia)) Hw). }
    pose proof (wp_run _ _ _ _ _
                  (raid0_writeBlock_spec a nb Hwf lbid ltac:(lia) data a
                     ltac:(reflexivity)) Hw) as [Hcw Ha'].
    destruct (put_then_read _ _ _ _ _ _ Hwf Hrf Hcw Ha') as (_ & Hcr & Hblk).
    intros i s (_ & -> & ->).
    by rewrite (can_read_same _ _ _ _ Ha'), (blk_same _ _ _ _ Ha').
  - split.
    { apply (wp_run _ _ _ _ _ (raid1_write_kept a nb sched lbid data a Hk) Hw). }
    pose proof (wp_run _ _ _ _ _ (raid1_write_kept a nb sched lbid data a Hk) Hw)
      as (Hwf' & _ & Hb' & Hn' & _).
    intros i s (Hi & ->).
    destruct (wf_array_disk a' nb i Hwf' ltac:(lia)) as [d' Hd'].
    pose proof (raid1_written_replicas _ _ _ _ _ _ Hwf Hrf Hsched Hw i d' Hd') as Hrd.
    destruct (readable_ReadBlock _ _ _ _ _ (wf_array_disk_ok _ _ _ _ Hwf' Hd') Hrd)
      as [Hr Hblk].
    unfold can_read, blk. by rewrite Hd'.
  - split.
    { apply (wp_run _ _ _ _ _ (raid5_write_kept a nb Hwf lbid data a Hk ltac:(lia)) Hw). }
    pose proof (wp_run _ _ _ _ _
                  (writeBlock_spec a nb Hwf lbid data ltac:(lia) Hlen a
                     ltac:(reflexivity)) Hw)
      as (_ & _ & Hcwd & Hwf1 & Ha').
    intros i s (_ & -> & ->).
    set (st := spec_stripe (numDisks a) lbid) in *.
    set (dd := spec_data_disk (numDisks a) lbid) in *.
    set (a1 := after_parity a lbid data) in *.
    assert (can_write a1 dd st data = true) as Hcw1.
    { unfold a1, after_parity. destruct (is_failed _ _); [done|].
      by rewrite can_write_put_any. }
    assert (can_read a dd st = true) as Hcr.
    { destruct (can_write_range _ _ _ _ _ Hwf Hcwd) as [Hi Hs].
      eapply can_read_healthy; eauto. by eapply can_write_not_failed. }
    assert (can_read a1 dd st = true) as Hcr1.
    { unfold a1, after_parity. destruct (is_failed _ _); [done|].
      by rewrite can_read_put_any. }
    destruct (can_write_Some _ _ _ _ Hcw1) as (d & Hd & Hwd & _).
    rewrite (can_read_same _ _ _ _ Ha'), (blk_same _ _ _ _ Ha').
    rewrite can_read_put_any. split; [done|]. by eapply blk_put_same.
Qed.

(** A read of a block whose cells are readable and hold [data]. *)
Lemma read_cells a nb lbid data :
  wf_array a nb → 0 ≤ lbid < capacity a →
  (∀ i s, cells (level a) (numDisks a) lbid i s →
          can_read a i s = true ∧ blk a i s = data) →
  ∃ a', ReadBlock lbid a = Some (Ok data, a').
Proof.
  intros Hwf Hb Hcells. pose proof (wf_array_n _ _ Hwf) as Hn.
  rewrite ReadBlock_dispatch by done.
  destruct (wf_level _ _ Hwf) as [[Hl Hc]|[[Hl Hc]|(Hl & Hn3 & Hc)]];
    unfold cells in Hcells; rewrite Hl in *; simpl in *.
  - destruct (raid0_layout a nb Hwf lbid ltac:(lia)) as [Hi Hs].
    destruct (Hcells _ _ ltac:(done)) as [Hcr Hblk].
    destruct (raid0_readBlock_spec a nb Hwf lbid ltac:(lia) a ltac:(reflexivity))
      as (r & a' & Hrun & Hpost).
    exists a'. rewrite Hrun. do 2 f_equal.
    destruct r as [x|e]; [by rewrite Hpost, Hblk|congruence].
  - destruct (raid1_readBlock_run a lbid (wf_len _ _ Hwf))
      as (r & a' & Hrun & _ & Hpost).
    exists a'. rewrite Hrun. do 2 f_equal.
    assert (∀ i d, 0 ≤ i → disk_at a i = Some d →
              Disk.ReadBlock lbid d = (Ok data, bump_read d)) as Hrd.
    { intros i d Hi Hd. pose proof (disk_at_range _ _ _ Hd) as Hi'.
      rewrite <- (wf_len _ _ Hwf) in Hi'.
      destruct (Hcells i lbid ltac:(done)) as [Hcr Hblk].
      unfold can_read, blk in *. rewrite Hd in *.
      rewrite (ReadBlock_readable _ _ _ (wf_array_disk_ok _ _ _ _ Hwf Hd) _ Hcr).
      by rewrite Hblk. }
    destruct r as [x|e].
    + destruct Hpost as (i & d & Hi & Hd & _ & Hx & _).
      rewrite (Hrd i d Hi Hd) in Hx. by simplify_eq/=.
    + exfalso. destruct Hpost as [_ Hnone].
      destruct (wf_array_disk a nb 0 Hwf ltac:(lia)) as [d Hd].
      destruct (Hcells 0 lbid ltac:(split; [lia|done])) as [Hcr _].
      unfold can_read in Hcr. rewrite Hd in Hcr.
      destruct (readable_range _ _ Hcr) as [Hf _].
      destruct (Hnone 0 ltac:(lia) d Hd) as [?|[e' He']]; [congruence|].
      rewrite (Hrd 0 d ltac:(lia) Hd) in He'. done.
  - destruct (layout_ranges (numDisks a) nb lbid) as (_ & _ & _ & Hdd & _); [lia..|].
    destruct (Hcells _ _ ltac:(done)) as [Hcr Hblk].
    destruct (readBlock_spec a nb Hwf lbid ltac:(lia) a ltac:(reflexivity))
      as (r & a' & Hrun & _ & Hpost).
    exists a'. rewrite Hrun. do 2 f_equal.
    destruct r as [x|e].
    + destruct Hpost as [[_ ->]|[Hno _]]; [by rewrite Hblk|congruence].
    + destruct Hpost as [Hno _]. congruence.
Qed.

(** C4. At every level, after a [WriteBlock lbid data] that returned
    success, and after any further calls of [ReadBlock], [WriteBlock] and
    [RebuildDisk] (whatever they return) none of which writes to [lbid],
    with no disk marked failed and no read fault in between, [ReadBlock
    lbid] succeeds and returns [data]. *)
Theorem write_then_read sched a lbid data a' cs :
  wf a = true → read_fault_free a = true →
  sched ≡ₚ seqZ 0 (numDisks a) →
  WriteBlock sched lbid data a = Some (None, a') →
  forallb (λ c, negb (writes_to lbid c)) cs = true →
  ∃ a1 a2, perform_all cs a' = Some (tt, a1)
           ∧ ReadBlock lbid a1 = Some (Ok data, a2).
Proof.
  intros Hwfb Hrf Hsched Hw Hcs.
  pose proof (wf_array_of_wf a Hwfb) as Hwf.
  set (nb := blocksPerDisk a) in *.
  destruct (WriteBlock_ok_checked _ _ _ _ _ Hw) as [Hb _].
  destruct (written_cells _ _ _ _ _ _ Hwf Hrf Hsched Hw)
    as [(Hwf' & Hl' & Hb' & Hn' & Hc') Hcells].
  destruct (perform_all_leaves a' nb lbid Hwf' ltac:(lia) cs Hcs a')
    as ([] & a1 & Hrun & (Hwf1 & Hl1 & Hb1 & Hn1 & Hc1) & Hg).
  { split; [by apply kept_refl|]. intros i s Hi. split; [|done].
    apply Hcells. by rewrite <- Hl', <- Hn'. }
  exists a1.
  destruct (read_cells a1 nb lbid data Hwf1) as [a2 Hr]; [lia| |by exists a2].
  intros i s Hi. rewrite Hl1, Hn1 in Hi. destruct (Hg i s Hi) as [Hcr Hblk].
  split; [done|]. rewrite Hblk. apply Hcells. by rewrite <- Hl', <- Hn'.
Qed.

Lemma write_then_read_witness :
  ∃ a1 a2,
    perform_all [CallWrite [] 3 [1; 1]; CallRead 0; CallWrite [0; 1; 2] 0 [4; 4];
                 CallRebuild 2; CallRead 3] parity3_stale = Some (tt, a1)
    ∧ ReadBlock 2 a1 = Some (Ok [8; 8], a2).
Proof.
  apply (write_then_read [0; 1; 2] (set_failed 2 true parity3_written) 2 [8; 8]).
  all: by_compute.
Defined.

(** * Degraded reads and rebuilds of a consistent array *)

(** ** Reads change the counters only, one after the other *)

Lemma ReadBlock_same a nb lbid :
  wf_array a nb → ∃ r a', ReadBlock lbid a = Some (r, a') ∧ a' ≈ a.
Proof.
  intros Hwf. destruct (decide (0 ≤ lbid < capacity a)) as [Hb|Hb].
  2:{ exists (Err (ELogicalOutOfBounds lbid (capacity a))), a.
      split; [apply ReadBlock_out_of_bounds; lia|reflexivity]. }
  rewrite ReadBlock_dispatch by done.
  destruct (wf_level _ _ Hwf) as [[Hl Hc]|[[Hl Hc]|(Hl & Hn & Hc)]];
    rewrite Hl; simpl.
  - apply (raid0_read_same a nb); [done|lia].
  - destruct (raid1_readBlock_run a lbid (wf_len _ _ Hwf)) as (r & a' & ? & ? & _).
    by exists r, a'.
  - destruct (readBlock_spec a nb Hwf lbid ltac:(lia) a ltac:(reflexivity))
      as (r & a' & ? & ? & _).
    by exists r, a'.
Qed.

Lemma reads_same nb cs :
  forallb is_read cs = true →
  ∀ a b, wf_array b nb → a ≈ b → ∃ a', perform_all cs a = Some (tt, a') ∧ a' ≈ b.
Proof.
  induction cs as [|c cs IH]; intros Hcs a b Hwf Hab; [by exists a|].
  simpl in Hcs. bool_hyps. destruct c as [l| |]; try done. simpl.
  destruct (ReadBlock_same a nb l) as (r & a1 & Hrun & Ha1);
    [by eapply wf_array_same|].
  destruct (IH ltac:(done) a1 b Hwf) as (a' & Hrun' & Ha'); [by etrans|].
  exists a'. split; [|done]. unfold bind at 1. unfold bind at 1.
  by rewrite Hrun.
Qed.

(** ** A read of a consistent array with at most one unreadable disk *)

Lemma raid5_read_consistent a nb d lbid b :
  wf_array a nb → parity_inv a nb → 0 ≤ lbid < nb * (numDisks a - 1) →
  (∀ i s, 0 ≤ i < numDisks a → i ≠ d → 0 ≤ s < nb → can_read a i s = true) →
  b ≈ a →
  ∃ b', raid5Impl.readBlock lbid b
        = Some (Ok (blk a (spec_data_disk (numDisks a) lbid)
                          (spec_stripe (numDisks a) lbid)), b').
Proof.
  intros Hwf Hpar Hb Hcr Hba. pose proof (wf_array_n _ _ Hwf) as Hn.
  destruct (layout_ranges (numDisks a) nb lbid) as (Hst & Hoff & Hp & Hdd & Hne);
    [lia..|].
  destruct (readBlock_spec a nb Hwf lbid Hb b Hba) as (r & b' & Hrun & _ & Hpost).
  set (st := spec_stripe (numDisks a) lbid) in *.
  set (p := spec_parity_disk (numDisks a) lbid) in *.
  set (dd := spec_data_disk (numDisks a) lbid) in *.
  exists b'. rewrite Hrun. do 2 f_equal.
  destruct r as [x|e].
  - f_equal. destruct Hpost as [[_ ->]|(_ & _ & _ & ->)]; [done|].
    rewrite <- (others_xor_extract a dd p st);
      [|lia|done|by eapply blk_length].
    symmetry. apply (stripe_zero_iff a nb dd st); [done..|]. by apply Hpar.
  - exfalso. destruct Hpost as [Hno Hwhy].
    destruct (decide (dd = d)) as [Heq|Hned].
    2:{ rewrite Hcr in Hno; done. }
    destruct Hwhy as [Hnop|(i & Hi & [Hip Hid] & Hnoi)].
    + rewrite Hcr in Hnop; [done|lia|congruence|done].
    + rewrite Hcr in Hnoi; [done|lia|congruence|done].
Qed.

(** What a successful read of a consistent array returns. *)
Lemma raid5_read_value a nb lbid x a1 :
  wf_array a nb → parity_inv a nb → 0 ≤ lbid < nb * (numDisks a - 1) →
  raid5Impl.readBlock lbid a = Some (Ok x, a1) →
  x = blk a (spec_data_disk (numDisks a) lbid) (spec_stripe (numDisks a) lbid).
Proof.
  intros Hwf Hpar Hb Hrun. pose proof (wf_array_n _ _ Hwf) as Hn.
  destruct (layout_ranges (numDisks a) nb lbid) as (Hst & Hoff & Hp & Hdd & Hne);
    [lia..|].
  pose proof (wp_run _ _ _ _ _
                (readBlock_spec a nb Hwf lbid Hb a ltac:(reflexivity)) Hrun)
    as [_ Hpost].
  destruct Hpost as [[_ ->]|(_ & _ & _ & ->)]; [done|].
  rewrite <- (others_xor_extract a _ _ _); [|lia|done|by eapply blk_length].
  symmetry. apply (stripe_zero_iff a nb); [done..|]. by apply Hpar.
Qed.

(** ** Degraded reads *)

(** C2, as stated, does not hold.  On the array that [NewRAIDArray] makes
    of three files of which the first already holds data, block 0 reads as
    zeros with all disks in service and as ones once its data disk is marked
    failed.  On an array filled by client writes, after a write made while
    the third disk was marked failed (it returned success), block 3, which
    lives on that disk and was not written since, no longer reads as it did
    before the disk was marked failed, nor as it does with the mark
    cleared. *)
Lemma degraded_read_differs :
  (NewRAIDArray config5 host_used).1 = inr parity3_used
  ∧ fst <$> ReadBlock 0 parity3_used = Some (Ok [0; 0])
  ∧ fst <$> ReadBlock 0 (set_failed 1 true parity3_used) = Some (Ok [1; 1])
  ∧ WriteBlock [] 2 [8; 8] (set_failed 2 true parity3_written)
    = Some (None, parity3_stale)
  ∧ fst <$> ReadBlock 3 parity3_written = Some (Ok [7; 9])
  ∧ fst <$> ReadBlock 3 (set_failed 2 true parity3_written) = Some (Ok [7; 9])
  ∧ fst <$> ReadBlock 3 parity3_stale = Some (Ok [0; 0])
  ∧ fst <$> ReadBlock 3 (set_failed 2 false parity3_stale) = Some (Ok [7; 9]).
Proof. by vm_compute. Qed.

(** C2. On a level-5 array whose disks are all in service and on which the
    parity invariant holds, once one disk [d] is marked failed, with no
    other failure and no write since (any number of reads may have been
    made), every logical block in range reads successfully and gives the
    bytes it gave before [d] was marked failed, whether the block lives on
    [d] or not. *)
Theorem degraded_read_same_bytes a0 d lbid cs :
  wf a0 = true → level a0 = RAID5 → healthy a0 = true →
  read_fault_free a0 = true → parity_ok a0 = true →
  0 ≤ d < numDisks a0 → 0 ≤ lbid < capacity a0 →
  forallb is_read cs = true →
  ∃ a x a1 a2,
    perform_all cs (set_failed d true a0) = Some (tt, a)
    ∧ ReadBlock lbid a0 = Some (Ok x, a1)
    ∧ ReadBlock lbid a = Some (Ok x, a2).
Proof.
  intros Hwfb Hl Hh Hrf Hpar Hd Hb Hcs.
  destruct (raid5_healthy_of_bool a0 Hwfb Hl Hh) as (Hwf & _ & Hnf).
  apply parity_ok_inv in Hpar.
  set (nb := blocksPerDisk a0) in *.
  pose proof (raid5_capacity a0 nb Hwf Hl) as Hcap.
  pose proof (wf_array_n _ _ Hwf) as Hn.
  assert (∀ i s, 0 ≤ i < numDisks a0 → 0 ≤ s < nb → can_read a0 i s = true) as Hcr.
  { intros i s Hi Hs. eapply can_read_healthy; eauto. }
  set (af := set_failed d true a0).
  pose proof (wf_array_set_failed a0 d true nb Hwf) as Hwff. fold af in Hwff.
  pose proof (numDisks_set_failed a0 d true) as Hnf'. fold af in Hnf'.
  destruct (reads_same nb cs Hcs af af Hwff ltac:(reflexivity)) as (a & Hrun & Ha).
  destruct (same_data_static _ _ Ha) as (Hla & _ & _ & Hca & _).
  unfold af in Hla, Hca. rewrite level_set_failed in Hla.
  rewrite capacity_set_failed in Hca.
  (* the read before the failure *)
  destruct (raid5_read_consistent a0 nb d lbid a0 Hwf Hpar ltac:(lia))
    as [a1 Hr0]; [by intros; apply Hcr|reflexivity|].
  (* the read after the failure *)
  destruct (raid5_read_consistent af nb d lbid a Hwff) as [a2 Hr1].
  { intros s Hs. unfold af. rewrite stripe_xor_set_failed, blockSize_set_failed.
    by apply Hpar. }
  { rewrite Hnf'. lia. }
  { intros i s Hi Hne Hs. unfold af. rewrite can_read_set_failed by done.
    apply Hcr; [|done]. by rewrite <- Hnf'. }
  { done. }
  rewrite Hnf' in Hr1. unfold af in Hr1. rewrite blk_set_failed in Hr1.
  exists a, (blk a0 (spec_data_disk (numDisks a0) lbid)
                    (spec_stripe (numDisks a0) lbid)), a1, a2.
  split; [done|]. rewrite !ReadBlock_raid5 by (done || lia). done.
Qed.

Lemma degraded_read_same_bytes_witness :
  ∃ a x a1 a2,
    perform_all [CallRead 0; CallRead 3; CallRead 2]
      (set_failed 0 true parity3_written) = Some (tt, a)
    ∧ ReadBlock 2 parity3_written = Some (Ok x, a1)
    ∧ ReadBlock 2 a = Some (Ok x, a2).
Proof.
  apply (degraded_read_same_bytes parity3_written 0 2); by_compute.
Defined.

(** ** Rebuild after a failure *)

Lemma level_rebuilt a d k : level (rebuilt a d k) = level a.
Proof.
  unfold rebuilt. generalize (seqZ 0 k). intros l. revert a.
  induction l as [|s l IH]; intros a; [done|]. simpl.
  by rewrite IH, level_put.
Qed.

Lemma capacity_rebuilt a d k : capacity (rebuilt a d k) = capacity a.
Proof.
  unfold rebuilt. generalize (seqZ 0 k). intros l. revert a.
  induction l as [|s l IH]; intros a; [done|]. simpl.
  by rewrite IH, capacity_put.
Qed.

Lemma can_write_rebuilt a d k j s data :
  can_write (rebuilt a d k) j s data = can_write a j s data.
Proof.
  unfold rebuilt. generalize (seqZ 0 k). intros l. revert a.
  induction l as [|s0 l IH]; intros a; [done|]. simpl.
  by rewrite IH, can_write_put_any.
Qed.

Lemma fault_free_set_failed a i b : fault_free (set_failed i b a) = fault_free a.
Proof.
  unfold set_failed. destruct (disk_at a i) as [d|] eqn:Hd; [|done].
  unfold disk_at in Hd. destruct (i <? 0); [done|].
  unfold fault_free. simpl. by eapply forallb_insert.
Qed.

(** C3. On a level-5 array on which the parity invariant held before disk
    [d] failed, with no write while it was failed and whatever disk [d]
    holds when it is rebuilt: without host faults [RebuildDisk d] succeeds,
    and whenever it returns success the failed flag of [d] is clear, every
    physical block of [d] is what the engine reconstructs from the
    surviving disks (the XOR of the other members on a parity stripe, the
    parity XOR the surviving data on a data stripe), which is what the
    block held before the failure, the other disks are untouched, the
    parity invariant holds on every stripe, and every logical block reads
    back as before the failure. *)
Theorem rebuild_restores_disk a0 d a :
  wf a0 = true → level a0 = RAID5 → healthy a0 = true → parity_ok a0 = true →
  0 ≤ d < numDisks a0 → failed_since a0 d a →
  (fault_free a = true → ∃ a', RebuildDisk d a = Some (None, a'))
  ∧ ∀ a', RebuildDisk d a = Some (None, a') →
      is_failed a' d = false
      ∧ (∀ s, 0 ≤ s < blocksPerDisk a0 →
           blk a' d s = blk a0 d s
           ∧ blk a' d s =
               if decide (d = s `mod` numDisks a0)
               then others_xor a d s
               else xor_all (blk a (s `mod` numDisks a0) s)
                      ((λ i, blk a i s)
                         <$> filter (λ i, i ≠ s `mod` numDisks a0 ∧ i ≠ d)
                                    (seqZ 0 (numDisks a0))))
      ∧ (∀ j s, j ≠ d → 0 ≤ s → blk a' j s = blk a0 j s)
      ∧ parity_ok a' = true
      ∧ ∀ lbid x a1, ReadBlock lbid a0 = Some (Ok x, a1) →
                     ∃ a2, ReadBlock lbid a' = Some (Ok x, a2).
Proof.
  intros Hwfb Hl Hh Hpar Hd (dx & Hdx & Hfx & Ha).
  destruct (raid5_healthy_of_bool a0 Hwfb Hl Hh) as (Hwf & _ & Hnf).
  apply parity_ok_inv in Hpar.
  set (nb := blocksPerDisk a0) in *.
  pose proof (wf_array_n _ _ Hwf) as Hn. pose proof (wf_nb _ _ Hwf) as Hnb.
  destruct (wf_array_disk a0 nb d Hwf Hd) as [d0 Hd0].
  set (base := upd a0 d dx) in *.
  assert (wf_array base nb) as Hwfb' by (by eapply wf_array_upd).
  assert (is_failed base d = true) as Hfb.
  { unfold base. by rewrite (is_failed_upd _ _ _ _ Hd0), decide_True. }
  assert (∀ j s, j ≠ d → blk base j s = blk a0 j s) as Hblkb.
  { intros j s Hj. unfold base. by rewrite (blk_upd _ _ _ _ Hd0), decide_False. }
  assert (∀ j, j ≠ d → is_failed base j = is_failed a0 j) as Hflb.
  { intros j Hj. unfold base. by rewrite (is_failed_upd _ _ _ _ Hd0), decide_False. }
  destruct (same_data_static _ _ Ha) as (Hla & Hba & Hna & Hca & _).
  change (level base) with (level a0) in Hla.
  change (blockSize base) with (blockSize a0) in Hba.
  change (numDisks base) with (numDisks a0) in Hna.
  change (capacity base) with (capacity a0) in Hca.
  pose proof (wf_array_same _ _ _ Ha Hwfb') as Hwfa.
  rewrite RebuildDisk_raid5 by congruence.
  destruct (rebuildDisk_spec base nb Hwfb' d Hd Hfb a Ha) as (r & a' & Hrun & Hpost).
  rewrite Hrun.
  set (a1 := set_failed d false base) in *.
  assert (wf_array a1 nb) as Hwf1 by (by apply wf_array_set_failed).
  assert (numDisks a1 = numDisks a0) as Hn1
    by (unfold a1; by rewrite numDisks_set_failed).
  assert (∀ j, 0 ≤ j < numDisks a0 → is_failed a1 j = false) as Hnf1.
  { intros j Hj. unfold a1. rewrite is_failed_set_failed.
    - case_decide; [done|]. rewrite Hflb by done. by apply Hnf.
    - exists dx. by eapply disk_at_upd_eq. }
  assert (∀ s, 0 ≤ s < nb → others_xor a1 d s = blk a0 d s) as Hx.
  { intros s Hs.
    rewrite (proj1 (stripe_zero_iff a0 nb d s Hwf Hd Hs)) by (by apply Hpar).
    apply others_xor_ext;
      [done|unfold a1; by rewrite blockSize_set_failed|].
    intros i Hi Hid. unfold a1. rewrite blk_set_failed. by apply Hblkb. }
  assert (∀ s, others_xor a d s = others_xor a1 d s) as Hxa.
  { intros s. rewrite (others_xor_same _ _ _ _ Ha). unfold a1.
    by rewrite others_xor_set_failed. }
  split.
  - (* without faults the rebuild succeeds *)
    intros Hff. destruct r as [e|]; [exfalso|by exists a'].
    destruct Hpost as (_ & s & Hs & Hok & Hblocked).
    assert (fault_free a1 = true) as Hff1.
    { unfold a1. by rewrite fault_free_set_failed, <- (fault_free_same _ _ Ha). }
    replace s with (Z.of_nat (Z.to_nat s)) in Hok, Hblocked by lia.
    destruct (rebuilt_obs a1 nb d (Z.to_nat s) Hwf1 ltac:(lia) Hok)
      as (_ & _ & _ & _ & _ & Hcr).
    destruct Hblocked as [(i & Hi & Hne & Hno)|Hno].
    + rewrite numDisks_rebuilt in Hi. rewrite Hcr in Hno.
      rewrite (can_read_healthy a1 nb) in Hno;
        [done|done|by apply fault_free_read|lia|lia|apply Hnf1; lia].
    + rewrite can_write_rebuilt in Hno.
      rewrite (can_write_healthy a1 nb) in Hno;
        [done|done|done|lia|lia|by apply Hnf1|].
      by rewrite others_xor_length, blockSize_rebuilt.
  - (* what a successful rebuild leaves behind *)
    intros a'' [= -> ->]. destruct Hpost as [Ha' Hok].
    replace nb with (Z.of_nat (Z.to_nat nb)) in Ha', Hok by lia.
    destruct (rebuilt_obs a1 nb d (Z.to_nat nb) Hwf1 ltac:(lia) Hok)
      as (HwfR & Hoth & Hd' & _ & HfR & HcrR).
    set (R := rebuilt a1 d (Z.of_nat (Z.to_nat nb))) in *.
    assert (numDisks R = numDisks a0) as HnR
      by (unfold R; by rewrite numDisks_rebuilt).
    assert (blockSize R = blockSize a0) as HbR
      by (unfold R, a1; by rewrite blockSize_rebuilt, blockSize_set_failed).
    assert (∀ j s, 0 ≤ s < nb → blk R j s = blk a0 j s) as HblkR.
    { intros j s Hs. destruct (decide (j = d)) as [->|Hj].
      - rewrite Hd' by lia. by apply Hx.
      - rewrite Hoth by (lia || done). unfold a1. rewrite blk_set_failed.
        by apply Hblkb. }
    assert (parity_inv R nb) as HparR.
    { intros s Hs. rewrite HbR, <- (Hpar s Hs).
      apply stripe_xor_ext; [done..|]. intros i Hi. by apply HblkR. }
    split_and!.
    + rewrite (is_failed_same _ _ _ Ha'), HfR. apply Hnf1. lia.
    + intros s Hs. rewrite (blk_same _ _ _ _ Ha'), Hd' by lia.
      split; [by apply Hx|]. rewrite <- Hxa, <- Hna.
      case_decide as Hdp; [done|].
      apply others_xor_extract.
      * apply Z.mod_pos_bound. lia.
      * congruence.
      * eapply blk_length; [done| |done]. apply Z.mod_pos_bound. lia.
    + intros j s Hj Hs. rewrite (blk_same _ _ _ _ Ha'), Hoth by done.
      unfold a1. rewrite blk_set_failed. by apply Hblkb.
    + apply parity_ok_inv.
      rewrite (wf_array_blocks a'' nb) by (by eapply wf_array_same).
      by eapply parity_inv_same.
    + intros lbid x a2 Hr.
      pose proof (ReadBlock_Ok_in_range _ _ _ _ Hr) as Hb.
      rewrite ReadBlock_raid5 in Hr by done.
      rewrite (raid5_capacity a0 nb) in Hb by done.
      pose proof (raid5_read_value a0 nb lbid x a2 Hwf Hpar Hb Hr) as ->.
      destruct (same_data_static _ _ Ha') as (Hl'' & _ & _ & Hc'' & _).
      destruct (raid5_read_consistent R nb d lbid a'' HwfR HparR) as [b' Hr'].
      { rewrite HnR. lia. }
      { intros i s Hi Hne Hs. rewrite HcrR.
        destruct (Hok s ltac:(lia)) as (Hreads & _).
        assert (rebuild_ok a1 d (Z.of_nat (Z.to_nat s))) as Hoks.
        { intros s' Hs'. apply Hok. lia. }
        destruct (rebuilt_obs a1 nb d (Z.to_nat s) Hwf1 ltac:(lia) Hoks)
          as (_ & _ & _ & _ & _ & Hcrs).
        rewrite Z2Nat.id in Hcrs by lia. rewrite <- Hcrs.
        apply Hreads; [|done]. rewrite numDisks_rebuilt. lia. }
      { done. }
      rewrite HnR in Hr'.
      assert (0 ≤ spec_stripe (numDisks a0) lbid < nb) as Hst
        by (by destruct (layout_ranges (numDisks a0) nb lbid) as (? & _); [lia..|]).
      rewrite HblkR in Hr' by done.
      exists b'. rewrite ReadBlock_raid5; [done| |].
      * rewrite Hl''. unfold R, a1.
        by rewrite level_rebuilt, level_set_failed.
      * rewrite Hc''. unfold R, a1.
        rewrite capacity_rebuilt, capacity_set_failed.
        change (capacity base) with (capacity a0).
        rewrite (raid5_capacity a0 nb) by done. lia.
Qed.

Lemma rebuild_restores_disk_witness :
  blk parity3_wiped 1 0 = [0; 0] ∧ blk parity3_wiped 1 1 = [0; 0]
  ∧ ∃ a', RebuildDisk 1 parity3_wiped = Some (None, a')
      ∧ is_failed a' 1 = false
      ∧ blk a' 1 0 = [1; 2] ∧ blk a' 1 1 = [2; 15]
      ∧ parity_ok a' = true.
Proof.
  split; [by_compute|]. split; [by_compute|].
  assert (0 ≤ 0 < blocksPerDisk parity3_written) as R0 by by_compute.
  assert (0 ≤ 1 < blocksPerDisk parity3_written) as R1 by by_compute.
  destruct (rebuild_restores_disk parity3_written 1 parity3_wiped)
    as [Hrun Hpost].
  - by_compute.
  - by_compute.
  - by_compute.
  - by_compute.
  - by_compute.
  - exists wiped_disk. split_and!; by_compute.
  - destruct Hrun as [a' Ha']; [by_compute|].
    exists a'. destruct (Hpost a' Ha') as (Hf & Hblk & _ & Hp & _).
    destruct (Hblk 0 R0) as [H0 _]. destruct (Hblk 1 R1) as [H1 _].
    split; [exact Ha'|]. clear Ha' Hpost Hblk.
    split; [exact Hf|]. split; [rewrite H0; by_compute|].
    split; [rewrite H1; by_compute|exact Hp].
Defined.
